(** * The socket transport of the render server and of the proxy

    A shallow embedding of [src/proxy/proxy_socket.c] (client role) and
    [server/render_socket.c] (server role), together with a small model of
    the operating system they talk to, and the properties of the framed
    I/O engine stated in the specification.

    Both C files are compiled in one of two ways: with [__APPLE__] defined
    (byte-stream sockets and an explicit 8-byte header: "stream framing")
    or without it (SOCK_SEQPACKET sockets: "native framing").  Every
    embedded function takes that choice as its first argument [apple]. *)

From Stdlib Require Import ZArith List Lia String Bool.
From stdpp Require Import gmap list.
From coqutil Require Import Byte Word.LittleEndianList.

Local Open Scope Z_scope.

(** ** Constants of the system headers

    The values of the errno codes, socket types and message flags come from
    <errno.h>, <sys/socket.h>, <poll.h> and <fcntl.h>, which are not part
    of the repository; they are parameters of the development.  The three
    laws are the only facts about them that the proofs use. *)

Class SysConsts := {
  EINTR : Z;
  EAGAIN : Z;
  EBADF : Z;
  EPIPE : Z;
  MSG_TRUNC : Z;
  MSG_CTRUNC : Z;
  SOCK_STREAM : Z;
  SOCK_SEQPACKET : Z;
  SOL_SOCKET : Z;
  SCM_RIGHTS : Z;
  POLLERR : Z;
  POLLHUP : Z;
  POLLNVAL : Z;
  FD_CLOEXEC : Z;
  (* CMSG_LEN(0), the aligned size of struct cmsghdr *)
  CMSG_LEN0 : Z;
  (* CMSG_SPACE(n) *)
  CMSG_SPACE : Z -> Z;
  stream_is_not_seqpacket : SOCK_STREAM <> SOCK_SEQPACKET;
  fd_cloexec_nonzero : FD_CLOEXEC <> 0;
  cmsg_len0_positive : 0 < CMSG_LEN0
}.

(** The values on Linux (glibc, LP64). *)
Definition linux_consts : SysConsts := {|
  EINTR := 4; EAGAIN := 11; EBADF := 9; EPIPE := 32;
  MSG_TRUNC := 32; MSG_CTRUNC := 8;
  SOCK_STREAM := 1; SOCK_SEQPACKET := 5;
  SOL_SOCKET := 1; SCM_RIGHTS := 1;
  POLLERR := 8; POLLHUP := 16; POLLNVAL := 32;
  FD_CLOEXEC := 1;
  CMSG_LEN0 := 16;
  CMSG_SPACE := fun n => 16 + (n + 7) / 8 * 8;
  stream_is_not_seqpacket := ltac:(lia);
  fd_cloexec_nonzero := ltac:(lia);
  cmsg_len0_positive := ltac:(lia)
|}.

(** The values on macOS (Darwin, LP64). *)
Definition darwin_consts : SysConsts := {|
  EINTR := 4; EAGAIN := 35; EBADF := 9; EPIPE := 32;
  MSG_TRUNC := 16; MSG_CTRUNC := 32;
  SOCK_STREAM := 1; SOCK_SEQPACKET := 5;
  SOL_SOCKET := 65535; SCM_RIGHTS := 1;
  POLLERR := 8; POLLHUP := 16; POLLNVAL := 32;
  FD_CLOEXEC := 1;
  CMSG_LEN0 := 12;
  CMSG_SPACE := fun n => 12 + (n + 3) / 4 * 4;
  stream_is_not_seqpacket := ltac:(lia);
  fd_cloexec_nonzero := ltac:(lia);
  cmsg_len0_positive := ltac:(lia)
|}.

Definition sizeof_int : Z := 4.

(** CMSG_LEN(n) = CMSG_LEN(0) + n on every platform. *)
Definition CMSG_LEN `{SysConsts} (n : Z) : Z := CMSG_LEN0 + n.

(** ** The operating system model *)

(** What the peer attached to a message.  How much of it the receiving
    process gets depends on the control buffer of its recvmsg call. *)
Inductive ancillary :=
| NoAnc
| Rights (n : nat)                (* an SCM_RIGHTS block carrying n descriptors *)
| Foreign (level type : Z).       (* some other control message *)

(** One choice of the environment per blocking system call: the call fails
    with an errno, or it goes through.  For a transfer [n] bounds the number
    of bytes moved by the call on a stream (at least one byte is moved; a
    datagram is moved whole), [flags] is what the kernel reports in
    msg_flags (or revents for poll) and [anc] is the ancillary data that
    was sent with the bytes. *)
Inductive event :=
| Fails (errno : Z)
| Returns (n : Z) (flags : Z) (anc : ancillary).

(** A connected socket: its type, the descriptor of its peer, and the
    segments queued for it (one element per datagram on a SOCK_SEQPACKET
    socket; on any other type only the concatenation matters). *)
Record socket_state := {
  so_type : Z;
  so_peer : Z;
  so_inbox : list (list byte)
}.

(** An open descriptor: its descriptor flags (F_GETFD) and, for a socket,
    the socket behind it. *)
Record file := {
  f_flags : Z;
  f_sock : option socket_state
}.

Record cmsghdr := {
  cmsg_len : Z;
  cmsg_level : Z;
  cmsg_type : Z;
  cmsg_data : list Z               (* the int array at CMSG_DATA *)
}.

(** struct msghdr with its single struct iovec inlined.  [iov_base] is an
    offset into the caller's data buffer, which the embedded functions pass
    next to the header; [msg_control = None] is the NULL pointer. *)
Record msghdr := {
  iov_base : Z;
  iov_len : Z;
  msg_iovlen : Z;
  msg_control : option cmsghdr;
  msg_controllen : Z;
  msg_flags : Z
}.

(** One sendmsg(2) call as the kernel saw it (kept for the properties on
    the sequence of calls; the program never reads it). *)
Record send_call := {
  sc_fd : Z;
  sc_len : Z;
  sc_control : option cmsghdr;
  sc_ret : Z
}.

Record world := {
  oracle : list event;             (* the choices of the environment still to come *)
  files : gmap Z file;             (* the open descriptors of the process *)
  next_fd : Z;                     (* descriptors from here on were never handed out *)
  closed : list Z;                 (* every close(2) so far, in order *)
  sends : list send_call;          (* every sendmsg(2) so far, in order *)
  logs : list string               (* proxy_log / render_log output *)
}.

Definition set_oracle (o : list event) (w : world) : world :=
  {| oracle := o; files := files w; next_fd := next_fd w;
     closed := closed w; sends := sends w; logs := logs w |}.

Definition set_files (f : gmap Z file) (w : world) : world :=
  {| oracle := oracle w; files := f; next_fd := next_fd w;
     closed := closed w; sends := sends w; logs := logs w |}.

Definition set_next_fd (n : Z) (w : world) : world :=
  {| oracle := oracle w; files := files w; next_fd := n;
     closed := closed w; sends := sends w; logs := logs w |}.

Definition set_closed (c : list Z) (w : world) : world :=
  {| oracle := oracle w; files := files w; next_fd := next_fd w;
     closed := c; sends := sends w; logs := logs w |}.

Definition set_sends (s : list send_call) (w : world) : world :=
  {| oracle := oracle w; files := files w; next_fd := next_fd w;
     closed := closed w; sends := s; logs := logs w |}.

Definition set_logs (l : list string) (w : world) : world :=
  {| oracle := oracle w; files := files w; next_fd := next_fd w;
     closed := closed w; sends := sends w; logs := l |}.

(** ** The monad of the embedded code

    A C function becomes a function from the world to one of three
    outcomes: it returns a value in a new world; it stops the process
    ([assert] failed, a null pointer was dereferenced, a copy ran off its
    arrays, or SIGPIPE was raised); or it never returns because the
    environment has no further event for it (a call that blocks forever, or
    a retry loop that never gets through).  Each outcome carries the world
    reached. *)
Inductive res (A : Type) : Type :=
| Ret (a : A) (w : world)
| Abort (w : world)
| Hang (w : world).
Arguments Ret {A} a w.
Arguments Abort {A} w.
Arguments Hang {A} w.

Definition M (A : Type) : Type := world -> res A.

#[global] Instance M_ret : MRet M := fun A a w => Ret a w.
#[global] Instance M_bind : MBind M := fun A B k m w =>
  match m w with
  | Ret a w' => k a w'
  | Abort w' => Abort w'
  | Hang w' => Hang w'
  end.

Definition hang {A} : M A := fun w => Hang w.
Definition abort {A} : M A := fun w => Abort w.

(** assert(3), with assertions compiled in. *)
Definition assert (b : bool) : M unit := fun w => if b then Ret tt w else Abort w.

Definition get_world : M world := fun w => Ret w w.
Definition modify (f : world -> world) : M unit := fun w => Ret tt (f w).

(** Every iteration of every loop of the code makes a blocking system call,
    which consumes one event; a loop entered with more fuel than there are
    events left can therefore only stop by itself or by running out of
    events. *)
Definition with_fuel {A} (body : nat -> M A) : M A :=
  fun w => body (S (length (oracle w))) w.

Definition next_event : M event := fun w =>
  match oracle w with
  | [] => Hang w
  | e :: o => Ret e (set_oracle o w)
  end.

Definition log_msg (s : string) : M unit :=
  modify (fun w => set_logs (logs w ++ [s]) w).
Definition proxy_log : string -> M unit := log_msg.
Definition render_log : string -> M unit := log_msg.

Section Kernel.
Context `{SysConsts}.

Definition socket_of (fd : Z) (w : world) : option socket_state :=
  match files w !! fd with
  | Some f => f_sock f
  | None => None
  end.

Definition with_inbox (so : socket_state) (q : list (list byte)) : socket_state :=
  {| so_type := so_type so; so_peer := so_peer so; so_inbox := q |}.

Definition is_packet_socket (so : socket_state) : bool :=
  so_type so =? SOCK_SEQPACKET.

(** Nothing is queued for the socket. *)
Definition inbox_empty (so : socket_state) : bool :=
  if is_packet_socket so
  then match so_inbox so with [] => true | _ => false end
  else match concat (so_inbox so) with [] => true | _ => false end.

(** The bytes moved by one transfer of at most [len] bytes when the
    environment allows [n]: never more than asked for, and at least one. *)
Definition xfer_len (n len : Z) : nat := Z.to_nat (Z.min (Z.max 1 n) len).

(** Take the data of one receive call of [len] bytes out of the queue: a
    whole datagram, cut to [len] bytes (the rest is lost and the cut
    reported), or the next few bytes of the stream. *)
Definition pull (so : socket_state) (n len : Z) : list byte * list (list byte) * bool :=
  if is_packet_socket so then
    match so_inbox so with
    | [] => ([], [], false)
    | d :: ds => (take (Z.to_nat len) d, ds, Z.of_nat (length d) >? len)
    end
  else
    let bs := concat (so_inbox so) in
    (take (xfer_len n len) bs, [drop (xfer_len n len) bs], false).

(** How much of a [len]-byte payload one send call accepts: all of it on a
    SOCK_SEQPACKET socket, at least one byte otherwise. *)
Definition accepted (so : socket_state) (n len : Z) : nat :=
  if is_packet_socket so then Z.to_nat len else xfer_len n len.

Definition put_file (fd : Z) (f : file) (w : world) : world :=
  set_files (<[fd := f]> (files w)) w.

(** The data part of read(2) and recvmsg(2) once the call goes through:
    return value, errno, the bytes stored, and whether a datagram was cut.
    With nothing queued the call returns 0 when the peer is gone and blocks
    for good when it is still there. *)
Definition kernel_recv (fd n len : Z) : M (Z * Z * list byte * bool) := fun w =>
  match files w !! fd with
  | Some {| f_flags := fl; f_sock := Some so |} =>
      if inbox_empty so then
        match files w !! so_peer so with
        | Some _ => Hang w
        | None => Ret (0, 0, [], false) w
        end
      else
        let '(chunk, q, short) := pull so n len in
        Ret (Z.of_nat (length chunk), 0, chunk, short)
            (put_file fd {| f_flags := fl; f_sock := Some (with_inbox so q) |} w)
  | _ => Ret (-1, EBADF, [], false) w
  end.

(** The data part of write(2) and sendmsg(2) once the call goes through.
    A send on a socket whose peer is closed raises SIGPIPE.  Nothing in the
    two files catches, ignores or blocks that signal, so with its default
    disposition the process is stopped there; only a sendmsg(2) with
    MSG_NOSIGNAL ([nosignal]) fails with EPIPE instead. *)
Definition kernel_send (fd n : Z) (payload : list byte) (nosignal : bool)
    : M (Z * Z) := fun w =>
  match socket_of fd w with
  | Some so =>
      match files w !! so_peer so with
      | Some {| f_flags := fl; f_sock := Some pso |} =>
          let chunk := take (accepted so n (Z.of_nat (length payload))) payload in
          Ret (Z.of_nat (length chunk), 0)
              (put_file (so_peer so)
                 {| f_flags := fl;
                    f_sock := Some (with_inbox pso (so_inbox pso ++ [chunk])) |} w)
      | _ => if nosignal then Ret (-1, EPIPE) w else Abort w
      end
  | None => Ret (-1, EBADF) w
  end.

(** The bytes a pointer [base + off] with a length of [len] denotes. *)
Definition bytes_at (mem : list byte) (off len : Z) : list byte :=
  take (Z.to_nat len) (drop (Z.to_nat off) mem).

(** Storing [chunk] at [base + off]. *)
Definition store_at (mem : list byte) (off : Z) (chunk : list byte) : list byte :=
  take (Z.to_nat off) mem ++ chunk ++ drop (Z.to_nat off + length chunk) mem.

(** read(2): return value, errno and the bytes stored at the buffer. *)
Definition sys_read (fd count : Z) : M (Z * Z * list byte) :=
  e ← next_event;
  match e with
  | Fails errno => mret (-1, errno, [])
  | Returns n _ _ =>
      '(r, errno, chunk, _) ← kernel_recv fd n count;
      mret (r, errno, chunk)
  end.

(** write(2) of the [count] bytes at [buf]: return value and errno. *)
Definition sys_write (fd : Z) (buf : list byte) (count : Z) : M (Z * Z) :=
  e ← next_event;
  match e with
  | Fails errno => mret (-1, errno)
  | Returns n _ _ => kernel_send fd n (take (Z.to_nat count) buf) false
  end.

Definition record_send (c : send_call) : M unit :=
  modify (fun w => set_sends (sends w ++ [c]) w).

(** sendmsg(2) with the data buffer [mem] that msg_iov points into;
    [nosignal] says whether MSG_NOSIGNAL is among the flags, which the
    sources define to 0 under __APPLE__.  The ancillary block travels out of
    band: the model keeps it in [sends]. *)
Definition sys_sendmsg (fd : Z) (mem : list byte) (msg : msghdr) (nosignal : bool)
    : M (Z * Z) :=
  e ← next_event;
  '(r, errno) ← match e with
                | Fails errno => mret (-1, errno)
                | Returns n _ _ =>
                    kernel_send fd n (bytes_at mem (iov_base msg) (iov_len msg)) nosignal
                end;
  record_send {| sc_fd := fd; sc_len := iov_len msg;
                 sc_control := msg_control msg; sc_ret := r |};;
  mret (r, errno).

Definition new_file (cloexec : bool) : file :=
  {| f_flags := if cloexec then FD_CLOEXEC else 0; f_sock := None |}.

(** The kernel installs [k] received descriptors under numbers that were
    never in use. *)
Definition install_fds (cloexec : bool) (k : nat) : M (list Z) := fun w =>
  let fds := seqZ (next_fd w) (Z.of_nat k) in
  Ret fds
      (set_next_fd (next_fd w + Z.of_nat k)
         (set_files (foldr (fun fd t => <[fd := new_file cloexec]> t) (files w) fds) w)).

Definition with_control (msg : msghdr) (c : option cmsghdr) (clen flags : Z) : msghdr :=
  {| iov_base := iov_base msg; iov_len := iov_len msg; msg_iovlen := msg_iovlen msg;
     msg_control := c; msg_controllen := clen; msg_flags := flags |}.

(** The number of descriptors that the control buffer of [msg] has room
    for behind the header of the control message. *)
Definition fd_room (msg : msghdr) : nat :=
  Z.to_nat ((msg_controllen msg - CMSG_LEN0) / sizeof_int).

(** The ancillary part of recvmsg(2).  Without a control buffer ancillary
    data is dropped and MSG_CTRUNC reported.  With one, the kernel installs
    as many of the [k] descriptors that the peer attached as the buffer has
    room for, in a control message of just that length; the others never
    reach the process, and MSG_CTRUNC reports the cut.  When not even one
    fits, no control message is written. *)
Definition deliver_control (cloexec : bool) (anc : ancillary) (flags : Z)
    (msg : msghdr) : M msghdr :=
  match anc, msg_control msg with
  | NoAnc, c => mret (with_control msg c 0 flags)
  | _, None => mret (with_control msg None 0 (Z.lor flags MSG_CTRUNC))
  | Rights k, Some c =>
      let fit := Nat.min k (fd_room msg) in
      let flags := if (fit <? k)%nat then Z.lor flags MSG_CTRUNC else flags in
      match fit with
      | O => mret (with_control msg (Some c) 0 flags)
      | S _ =>
          fds ← install_fds cloexec fit;
          let len := CMSG_LEN (sizeof_int * Z.of_nat fit) in
          mret (with_control msg
                  (Some {| cmsg_len := len; cmsg_level := SOL_SOCKET;
                           cmsg_type := SCM_RIGHTS; cmsg_data := fds |})
                  len flags)
      end
  | Foreign level type, Some c =>
      if msg_controllen msg <? CMSG_LEN 0
      then mret (with_control msg (Some c) 0 (Z.lor flags MSG_CTRUNC))
      else
        mret (with_control msg
                (Some {| cmsg_len := CMSG_LEN 0; cmsg_level := level;
                         cmsg_type := type; cmsg_data := [] |})
                (CMSG_LEN 0) flags)
  end.

(** Is anything queued for the socket behind [fd]? *)
Definition has_data (fd : Z) (w : world) : bool :=
  match socket_of fd w with
  | Some so => negb (inbox_empty so)
  | None => false
  end.

(** recvmsg(2): return value, errno, the header as the kernel leaves it and
    the data buffer.  [cloexec] is MSG_CMSG_CLOEXEC, which the sources
    define to 0 under __APPLE__. *)
Definition sys_recvmsg (fd : Z) (mem : list byte) (msg : msghdr) (cloexec : bool)
    : M (Z * Z * msghdr * list byte) :=
  e ← next_event;
  match e with
  | Fails errno => mret (-1, errno, msg, mem)
  | Returns n flags anc =>
      w ← get_world;
      '(r, errno, chunk, short) ← kernel_recv fd n (iov_len msg);
      if has_data fd w then
        (* a datagram, which may be empty, or the next bytes of the stream *)
        msg' ← deliver_control cloexec anc
                 (if (short : bool) then Z.lor flags MSG_TRUNC else flags) msg;
        mret (r, errno, msg', store_at mem (iov_base msg) chunk)
      else
        (* the call failed, or returned 0 at the end of the stream *)
        mret (r, errno, msg, mem)
  end.

(** close(2); the code ignores its result. *)
Definition sys_close (fd : Z) : M unit :=
  modify (fun w => set_closed (closed w ++ [fd]) (set_files (delete fd (files w)) w)).

(** fcntl(fd, F_GETFD) *)
Definition sys_fcntl_getfd (fd : Z) : M Z := fun w =>
  match files w !! fd with
  | Some f => Ret (f_flags f) w
  | None => Ret (-1) w
  end.

(** fcntl(fd, F_SETFD, flags); the code ignores its result. *)
Definition sys_fcntl_setfd (fd flags : Z) : M unit :=
  modify (fun w =>
    set_files (alter (fun f => {| f_flags := flags; f_sock := f_sock f |}) fd (files w)) w).

(** poll(&poll_fd, 1, 0): return value, errno and revents. *)
Definition sys_poll (fd : Z) : M (Z * Z * Z) :=
  e ← next_event;
  match e with
  | Fails errno => mret (-1, errno, 0)
  | Returns n revents _ => mret (n, 0, revents)
  end.

(** getsockopt(fd, SOL_SOCKET, SO_TYPE, &type, &len): return value and type. *)
Definition sys_getsockopt_type (fd : Z) : M (Z * Z) := fun w =>
  match socket_of fd w with
  | Some so => Ret (0, so_type so) w
  | None => Ret (-1, 0) w
  end.

(** socketpair(AF_UNIX, type | flags, 0, out_fds), where [cloexec] says
    whether SOCK_CLOEXEC is among the flags: return value and out_fds. *)
Definition sys_socketpair (type : Z) (cloexec : bool) : M (Z * (Z * Z)) :=
  e ← next_event;
  match e with
  | Fails errno => mret (-1, (0, 0))
  | Returns _ _ _ =>
      w ← get_world;
      let a := next_fd w in
      let b := next_fd w + 1 in
      let sock p := {| f_flags := if cloexec then FD_CLOEXEC else 0;
                       f_sock := Some {| so_type := type; so_peer := p; so_inbox := [] |} |} in
      modify (fun w => set_next_fd (next_fd w + 2)
                         (set_files (<[a := sock b]> (<[b := sock a]> (files w))) w));;
      mret (0, (a, b))
  end.

End Kernel.

(** ** The code shared by both files

    [read_all], [write_all], [set_cloexec], [get_received_fds] and
    [sendmsg] are the same text in proxy_socket.c and render_socket.c up
    to the logging function, which is the parameter [log] here. *)

Section Engine.
Context `{SysConsts}.
Variable log : string -> M unit.

Definition is_transient (errno : Z) : bool := (errno =? EINTR) || (errno =? EAGAIN).

(** [buf] holds the bytes stored so far, that is the memory between the
    start of the buffer and [p]. *)
Fixpoint read_all_loop (fuel : nat) (fd : Z) (buf : list byte) (remaining : Z)
    : M (bool * list byte) :=
  if 0 <? remaining then
    match fuel with
    | O => hang
    | S fuel =>
        '(n, errno, chunk) ← sys_read fd remaining;
        if n <? 0 then
          if is_transient errno then read_all_loop fuel fd buf remaining
          else log "failed to read from socket: %s";; mret (false, buf)
        else if n =? 0 then
          (* EOF *)
          mret (false, buf)
        else read_all_loop fuel fd (buf ++ chunk) (remaining - n)
    end
  else mret (true, buf).

Definition socket_read_all (fd : Z) (size : Z) : M (bool * list byte) :=
  with_fuel (fun fuel => read_all_loop fuel fd [] size).

(** [p] is the memory from the write position on. *)
Fixpoint write_all_loop (fuel : nat) (fd : Z) (p : list byte) (remaining : Z) : M bool :=
  if 0 <? remaining then
    match fuel with
    | O => hang
    | S fuel =>
        '(n, errno) ← sys_write fd p remaining;
        if n <? 0 then
          if is_transient errno then write_all_loop fuel fd p remaining
          else log "failed to write to socket: %s";; mret false
        else write_all_loop fuel fd (drop (Z.to_nat n) p) (remaining - n)
    end
  else mret true.

Definition socket_write_all (fd : Z) (buf : list byte) (size : Z) : M bool :=
  with_fuel (fun fuel => write_all_loop fuel fd buf size).

Definition set_cloexec (fd : Z) : M unit :=
  flags ← sys_fcntl_getfd fd;
  if 0 <=? flags then sys_fcntl_setfd fd (Z.lor flags FD_CLOEXEC) else mret tt.

(** CMSG_FIRSTHDR(msg); sizeof(struct cmsghdr) is CMSG_LEN(0). *)
Definition CMSG_FIRSTHDR (msg : msghdr) : option cmsghdr :=
  if msg_controllen msg <? CMSG_LEN0 then None else msg_control msg.

(** Returns the descriptor array (empty for NULL) and *out_count. *)
Definition get_received_fds (msg : msghdr) : list Z * Z :=
  match CMSG_FIRSTHDR msg with
  | None => ([], 0)
  | Some cmsg =>
      if negb (cmsg_level cmsg =? SOL_SOCKET) || negb (cmsg_type cmsg =? SCM_RIGHTS)
         || (cmsg_len cmsg <? CMSG_LEN 0)
      then ([], 0)
      else (cmsg_data cmsg, (cmsg_len cmsg - CMSG_LEN 0) / sizeof_int)
  end.

(** for (int i = 0; i < fd_count; i++) f(fds[i]); *)
Fixpoint for_each_fd (f : Z -> M unit) (fds : list Z) : M unit :=
  match fds with
  | [] => mret tt
  | x :: rest => f x;; for_each_fd f rest
  end.

Definition for_fds (f : Z -> M unit) (fds : list Z) (fd_count : Z) : M unit :=
  for_each_fd f (take (Z.to_nat fd_count) fds).

Definition close_received_fds (msg : msghdr) : M unit :=
  let '(fds, fd_count) := get_received_fds msg in
  for_fds sys_close fds fd_count.

Definition cloexec_received_fds (msg : msghdr) : M unit :=
  let '(fds, fd_count) := get_received_fds msg in
  for_fds set_cloexec fds fd_count.

Definition with_iov (msg : msghdr) (base len : Z) : msghdr :=
  {| iov_base := base; iov_len := len; msg_iovlen := msg_iovlen msg;
     msg_control := msg_control msg; msg_controllen := msg_controllen msg;
     msg_flags := msg_flags msg |}.

(** The message header a send or a receive starts from:
    one iovec over the caller's data, no control buffer. *)
Definition data_msg (size : Z) : msghdr :=
  {| iov_base := 0; iov_len := size; msg_iovlen := 1;
     msg_control := None; msg_controllen := 0; msg_flags := 0 |}.

Definition has_control (msg : msghdr) : bool :=
  match msg_control msg with Some _ => true | None => false end.

(** sendmsg under __APPLE__: partial sends are looped. *)
Fixpoint sendmsg_stream_loop (fuel : nat) (fd : Z) (data : list byte) (msg : msghdr)
    (size total_sent : Z) (fds_sent : bool) : M bool :=
  if total_sent <? size then
    match fuel with
    | O => hang
    | S fuel =>
        let send_msg := with_iov (data_msg 0) (iov_base msg + total_sent) (size - total_sent) in
        (* Only attach fds to the first send *)
        let send_msg :=
          if negb fds_sent && has_control msg
          then with_control send_msg (msg_control msg) (msg_controllen msg) 0
          else send_msg in
        (* MSG_NOSIGNAL is 0 in this build *)
        '(s, errno) ← sys_sendmsg fd data send_msg false;
        if s <? 0 then
          if is_transient errno
          then sendmsg_stream_loop fuel fd data msg size total_sent fds_sent
          else log "failed to send message: %s";; mret false
        else
          sendmsg_stream_loop fuel fd data msg size (total_sent + s)
            (if has_control msg then true else fds_sent)
    end
  else mret true.

(** sendmsg without __APPLE__: one call, retried while it is interrupted. *)
Fixpoint sendmsg_native_loop (fuel : nat) (fd : Z) (data : list byte) (msg : msghdr)
    : M bool :=
  match fuel with
  | O => hang
  | S fuel =>
      '(s, errno) ← sys_sendmsg fd data msg true;
      if s <? 0 then
        if is_transient errno then sendmsg_native_loop fuel fd data msg
        else log "failed to send message: %s";; mret false
      else
        (* no partial send since the socket type is SOCK_SEQPACKET *)
        assert ((msg_iovlen msg =? 1) && (iov_len msg =? s));;
        mret true
  end.

Definition socket_sendmsg (apple : bool) (fd : Z) (data : list byte) (msg : msghdr)
    : M bool :=
  if apple then
    assert (msg_iovlen msg =? 1);;
    with_fuel (fun fuel =>
      sendmsg_stream_loop fuel fd data msg (iov_len msg) 0 false)
  else
    with_fuel (fun fuel => sendmsg_native_loop fuel fd data msg).

Definition PROXY_SOCKET_MAX_FD_COUNT : Z := 8.
Definition RENDER_SOCKET_MAX_FD_COUNT : Z := 8.

Definition is_null {A} (p : option A) : bool :=
  match p with Some _ => false | None => true end.

(** struct stream_msg_header as the 8 bytes in memory (the two uint32_t in
    the byte order of the machine, which both ends share). *)
Definition encode_header (size fd_count : Z) : list byte :=
  le_split 4 size ++ le_split 4 fd_count.
Definition header_size (hdr : list byte) : Z := le_combine (take 4 hdr).
Definition header_fd_count (hdr : list byte) : Z := le_combine (drop 4 hdr).
Definition sizeof_hdr : Z := 8.

(** The control block of a send: SOL_SOCKET / SCM_RIGHTS with the first
    [fd_count] descriptors of [fds]. *)
Definition rights_msg (msg : msghdr) (fds : list Z) (fd_count : Z) : msghdr :=
  with_control msg
    (Some {| cmsg_len := CMSG_LEN (sizeof_int * fd_count);
             cmsg_level := SOL_SOCKET; cmsg_type := SCM_RIGHTS;
             cmsg_data := take (Z.to_nat fd_count) fds |})
    (CMSG_SPACE (sizeof_int * fd_count)) (msg_flags msg).

(** The body shared by proxy_socket_send_request_internal and
    render_socket_send_reply_internal; [trace] says whether the two
    progress messages of the proxy are logged and [max_fds] is the
    MAX_FD_COUNT constant of the file. *)
Definition socket_send_internal (apple trace : bool) (max_fds : Z) (fd : Z)
    (data : option (list byte)) (size : Z) (fds : option (list Z)) (fd_count : Z)
    : M bool :=
  assert (negb (is_null data) && negb (size =? 0));;
  let mem := default [] data in
  ok ← (if apple then
          let hdr := encode_header (size mod 2 ^ 32) (fd_count mod 2 ^ 32) in
          (if trace
           then log "proxy_send_request: sending framing header size=%u fd_count=%u"
           else mret tt);;
          socket_write_all fd hdr sizeof_hdr
        else mret true);
  if negb ok then mret false
  else
    let msg := data_msg size in
    msg ← (if negb (fd_count =? 0) then
             assert (negb (is_null fds) && (fd_count <=? max_fds));;
             (* the memcpy of the descriptors to CMSG_DATA(cmsg): its size,
                sizeof(int) * fd_count, is a size_t, so with a negative count
                it wraps around and the copy runs off cmsg_buf and off fds *)
             (if fd_count <? 0 then abort else mret tt);;
             mret (rights_msg msg (default [] fds) fd_count)
           else mret msg);
    (if trace then log "proxy_send_request: sending data size=%zu" else mret tt);;
    socket_sendmsg apple fd mem msg.

(** memcpy of the first n ints of received_fds into fds *)
Definition memcpy_fds (dst : option (list Z)) (src : list Z) (n : Z) : option (list Z) :=
  match dst with
  | Some d => Some (take (Z.to_nat n) src ++ drop (Z.to_nat n) d)
  | None => None
  end.

(** if (p) *p = v; *)
Definition store_if {A} (p : option A) (v : A) : option A :=
  match p with Some _ => Some v | None => None end.

(** The control buffer cmsg_buf with its header cleared by memset. *)
Definition cleared_control (msg : msghdr) (nfds : Z) : msghdr :=
  with_control msg
    (Some {| cmsg_len := 0; cmsg_level := 0; cmsg_type := 0; cmsg_data := [] |})
    (CMSG_SPACE (sizeof_int * nfds)) (msg_flags msg).

End Engine.

(** ** src/proxy/proxy_socket.c *)

Section Proxy.
Context `{SysConsts}.

Record proxy_socket := { proxy_fd : Z (* the field fd *) }.

Definition proxy_socket_read_all := socket_read_all proxy_log.
Definition proxy_socket_write_all := socket_write_all proxy_log.

(** this is only used when the render server is started on demand *)
Definition proxy_socket_pair (apple : bool) : M (bool * (Z * Z)) :=
  if apple then
    '(ret, out_fds) ← sys_socketpair SOCK_STREAM false;
    if negb (ret =? 0) then
      proxy_log "failed to create socket pair";; mret (false, out_fds)
    else
      (* Only set cloexec on the fd that stays in the parent process (fd[0]). *)
      set_cloexec (fst out_fds);;
      mret (true, out_fds)
  else
    '(ret, out_fds) ← sys_socketpair SOCK_SEQPACKET false;
    if negb (ret =? 0) then
      proxy_log "failed to create socket pair";; mret (false, out_fds)
    else mret (true, out_fds).

Definition proxy_socket_is_seqpacket (apple : bool) (fd : Z) : M bool :=
  '(ret, type) ← sys_getsockopt_type fd;
  if negb (ret =? 0) then
    proxy_log "fd %d err %s";; mret false
  else if apple then
    (* On macOS we use SOCK_STREAM with message framing *)
    mret ((type =? SOCK_STREAM) || (type =? SOCK_SEQPACKET))
  else mret (type =? SOCK_SEQPACKET).

Definition proxy_socket_init (fd : Z) : M proxy_socket :=
  assert (0 <=? fd);;
  mret {| proxy_fd := fd |}.

Definition proxy_socket_fini (socket : proxy_socket) : M unit :=
  sys_close (proxy_fd socket).

Fixpoint is_connected_loop (fuel : nat) (fd : Z) : M bool :=
  match fuel with
  | O => hang
  | S fuel =>
      '(ret, errno, revents) ← sys_poll fd;
      if ret =? 0 then mret true
      else if ret <? 0 then
        if is_transient errno then is_connected_loop fuel fd
        else proxy_log "failed to poll socket";; mret false
      else if negb (Z.land revents (Z.lor POLLERR (Z.lor POLLHUP POLLNVAL)) =? 0) then
        proxy_log "socket disconnected";; mret false
      else mret true
  end.

Definition proxy_socket_is_connected (socket : proxy_socket) : M bool :=
  with_fuel (fun fuel => is_connected_loop fuel (proxy_fd socket)).

(** The result of a receive helper: the return value, the message header
    and the data buffer as the call leaves them, and *out_size. *)
Definition recvmsg_result : Type := bool * msghdr * list byte * option Z.

Fixpoint proxy_recvmsg_loop (fuel : nat) (apple : bool) (socket : proxy_socket)
    (data : list byte) (msg : msghdr) (out_size : option Z) : M recvmsg_result :=
  match fuel with
  | O => hang
  | S fuel =>
      '(s, errno, msg', data') ← sys_recvmsg (proxy_fd socket) data msg (negb apple);
      if s <? 0 then
        if is_transient errno then proxy_recvmsg_loop fuel apple socket data msg out_size
        else
          proxy_log "failed to receive message: %s";;
          mret (false, msg', data', out_size)
      else if s =? 0 then
        (* EOF / connection closed *)
        mret (false, msg', data', out_size)
      else
        assert (msg_iovlen msg' =? 1);;
        if negb (Z.land (msg_flags msg') (Z.lor MSG_TRUNC MSG_CTRUNC) =? 0) then
          proxy_log "failed to receive message: truncated";;
          close_received_fds msg';;
          mret (false, msg', data', out_size)
        else if negb apple then
          (* SOCK_SEQPACKET: expect exact message size *)
          if negb (iov_len msg' =? s) then
            proxy_log "failed to receive message: incomplete";;
            close_received_fds msg';;
            mret (false, msg', data', out_size)
          else mret (true, msg', data', store_if out_size s)
        else
          (* macOS doesn't support MSG_CMSG_CLOEXEC, set CLOEXEC manually *)
          cloexec_received_fds msg';;
          mret (true, msg', data', store_if out_size s)
  end.

Definition proxy_socket_recvmsg (apple : bool) (socket : proxy_socket)
    (data : list byte) (msg : msghdr) (out_size : option Z) : M recvmsg_result :=
  with_fuel (fun fuel => proxy_recvmsg_loop fuel apple socket data msg out_size).

(** The result of a receive: the return value and the caller's memory
    behind [data], [fds] and [out_fd_count] ([None] for a NULL pointer). *)
Definition receive_result : Type := bool * list byte * option (list Z) * option Z.

(** The loop of the stream-framing receive: [size] bytes are to be read,
    [total_read] are there. *)
Fixpoint proxy_receive_loop (fuel : nat) (socket : proxy_socket) (size max_fd_count : Z)
    (total_read : Z) (data : list byte) (msg : msghdr)
    (fds : option (list Z)) (out_fd_count : option Z) : M receive_result :=
  if total_read <? size then
    match fuel with
    | O => hang
    | S fuel =>
        let msg := with_iov msg total_read (size - total_read) in
        '(ok, msg, data, chunk_size) ← proxy_socket_recvmsg true socket data msg (Some 0);
        if negb ok then mret (false, data, fds, out_fd_count)
        else
          let total_read := total_read + default 0 chunk_size in
          (* Only expect fds on first recv *)
          if has_control msg then
            let '(received_fds, received_fd_count) := get_received_fds msg in
            let received_fd_count :=
              if max_fd_count <? received_fd_count then max_fd_count
              else received_fd_count in
            let fds := memcpy_fds fds received_fds received_fd_count in
            let out_fd_count := store_if out_fd_count received_fd_count in
            (* Clear control message for subsequent reads *)
            let msg := with_control msg None 0 (msg_flags msg) in
            proxy_receive_loop fuel socket size max_fd_count total_read data msg
              fds out_fd_count
          else
            proxy_receive_loop fuel socket size max_fd_count total_read data msg
              fds out_fd_count
    end
  else
    mret (true, data, fds,
          if is_null fds then store_if out_fd_count 0 else out_fd_count).

Definition proxy_socket_receive_reply_internal (apple : bool) (socket : proxy_socket)
    (data : option (list byte)) (size : Z) (fds : option (list Z))
    (max_fd_count : Z) (out_fd_count : option Z) : M receive_result :=
  assert (negb (is_null data) && negb (size =? 0));;
  let mem := default [] data in
  if apple then
    proxy_log "proxy_receive_reply: reading framing header, expecting size=%zu";;
    '(ok, hdr) ← proxy_socket_read_all (proxy_fd socket) sizeof_hdr;
    if negb ok then mret (false, mem, fds, out_fd_count)
    else
      proxy_log "proxy_receive_reply: got header size=%u fd_count=%u";;
      if negb (header_size hdr =? size) then
        proxy_log "message size mismatch: expected %zu but got %u";;
        mret (false, mem, fds, out_fd_count)
      else
        (* Initialize fd count early - will be updated if fds are received *)
        let out_fd_count := store_if out_fd_count 0 in
        let msg := data_msg size in
        let msg :=
          if (0 <? header_fd_count hdr) && (0 <? max_fd_count) then
            let expected_fds :=
              if header_fd_count hdr <? max_fd_count mod 2 ^ 32
              then header_fd_count hdr else max_fd_count in
            cleared_control msg expected_fds
          else msg in
        (* For SOCK_STREAM, we need to read exactly the specified size *)
        with_fuel (fun fuel =>
          proxy_receive_loop fuel socket size max_fd_count 0 mem msg fds out_fd_count)
  else
    (* SOCK_SEQPACKET preserves message boundaries *)
    let msg := data_msg size in
    msg ← (if negb (max_fd_count =? 0) then
             assert (negb (is_null fds) && (max_fd_count <=? PROXY_SOCKET_MAX_FD_COUNT));;
             mret (cleared_control msg max_fd_count)
           else mret msg);
    '(ok, msg, mem, _) ← proxy_socket_recvmsg false socket mem msg None;
    if negb ok then mret (false, mem, fds, out_fd_count)
    else if negb (max_fd_count =? 0) then
      let '(received_fds, received_fd_count) := get_received_fds msg in
      assert (received_fd_count <=? max_fd_count);;
      let fds := memcpy_fds fds received_fds received_fd_count in
      match out_fd_count with
      | None => abort          (* *out_fd_count is written through a null pointer *)
      | Some _ => mret (true, mem, fds, Some received_fd_count)
      end
    else mret (true, mem, fds, store_if out_fd_count 0).

Definition proxy_socket_receive_reply (apple : bool) (socket : proxy_socket)
    (data : option (list byte)) (size : Z) : M receive_result :=
  proxy_socket_receive_reply_internal apple socket data size None 0 None.

Definition proxy_socket_receive_reply_with_fds (apple : bool) (socket : proxy_socket)
    (data : option (list byte)) (size : Z) (fds : option (list Z))
    (max_fd_count : Z) (out_fd_count : option Z) : M receive_result :=
  proxy_socket_receive_reply_internal apple socket data size fds max_fd_count out_fd_count.

Definition proxy_socket_sendmsg (apple : bool) (socket : proxy_socket)
    (data : list byte) (msg : msghdr) : M bool :=
  socket_sendmsg proxy_log apple (proxy_fd socket) data msg.

Definition proxy_socket_send_request_internal (apple : bool) (socket : proxy_socket)
    (data : option (list byte)) (size : Z) (fds : option (list Z)) (fd_count : Z)
    : M bool :=
  socket_send_internal proxy_log apple true PROXY_SOCKET_MAX_FD_COUNT
    (proxy_fd socket) data size fds fd_count.

Definition proxy_socket_send_request (apple : bool) (socket : proxy_socket)
    (data : option (list byte)) (size : Z) : M bool :=
  proxy_socket_send_request_internal apple socket data size None 0.

Definition proxy_socket_send_request_with_fds (apple : bool) (socket : proxy_socket)
    (data : option (list byte)) (size : Z) (fds : option (list Z)) (fd_count : Z)
    : M bool :=
  proxy_socket_send_request_internal apple socket data size fds fd_count.

End Proxy.

(** ** server/render_socket.c *)

Section Render.
Context `{SysConsts}.

Record render_socket := { render_fd : Z (* the field fd *) }.

Definition render_socket_read_all := socket_read_all render_log.
Definition render_socket_write_all := socket_write_all render_log.

Definition render_socket_pair (apple : bool) : M (bool * (Z * Z)) :=
  if apple then
    (* macOS doesn't support SOCK_SEQPACKET, use SOCK_STREAM *)
    '(ret, out_fds) ← sys_socketpair SOCK_STREAM false;
    if negb (ret =? 0) then
      render_log "failed to create socket pair";; mret (false, out_fds)
    else
      set_cloexec (fst out_fds);;
      set_cloexec (snd out_fds);;
      mret (true, out_fds)
  else
    '(ret, out_fds) ← sys_socketpair SOCK_SEQPACKET true;
    if negb (ret =? 0) then
      render_log "failed to create socket pair";; mret (false, out_fds)
    else mret (true, out_fds).

Definition render_socket_is_seqpacket (apple : bool) (fd : Z) : M bool :=
  '(ret, type) ← sys_getsockopt_type fd;
  if negb (ret =? 0) then mret false
  else if apple then
    (* On macOS we use SOCK_STREAM with message framing *)
    mret ((type =? SOCK_STREAM) || (type =? SOCK_SEQPACKET))
  else mret (type =? SOCK_SEQPACKET).

Definition render_socket_init (fd : Z) : M render_socket :=
  assert (0 <=? fd);;
  mret {| render_fd := fd |}.

Definition render_socket_fini (socket : render_socket) : M unit :=
  sys_close (render_fd socket).

(** [out_size] is dereferenced without a test: a null pointer stops the
    process. *)
Fixpoint render_recvmsg_loop (fuel : nat) (apple : bool) (socket : render_socket)
    (data : list byte) (msg : msghdr) (out_size : option Z) : M recvmsg_result :=
  match fuel with
  | O => hang
  | S fuel =>
      '(s, errno, msg', data') ← sys_recvmsg (render_fd socket) data msg (negb apple);
      if s <=? 0 then
        if s =? 0 then mret (false, msg', data', out_size)
        else if is_transient errno
        then render_recvmsg_loop fuel apple socket data msg out_size
        else
          render_log "failed to receive message: %s";;
          mret (false, msg', data', out_size)
      else if negb (Z.land (msg_flags msg') (Z.lor MSG_TRUNC MSG_CTRUNC) =? 0) then
        render_log "failed to receive message: truncated";;
        close_received_fds msg';;
        mret (false, msg', data', out_size)
      else
        (* macOS doesn't support MSG_CMSG_CLOEXEC, set CLOEXEC manually *)
        (if apple then cloexec_received_fds msg' else mret tt);;
        match out_size with
        | None => abort
        | Some _ => mret (true, msg', data', Some s)
        end
  end.

Definition render_socket_recvmsg (apple : bool) (socket : render_socket)
    (data : list byte) (msg : msghdr) (out_size : option Z) : M recvmsg_result :=
  with_fuel (fun fuel => render_recvmsg_loop fuel apple socket data msg out_size).

(** The result of a request receive: the return value and the caller's
    memory behind [data], [out_size], [fds] and [out_fd_count]. *)
Definition request_result : Type :=
  bool * list byte * option Z * option (list Z) * option Z.

Fixpoint render_receive_loop (fuel : nat) (socket : render_socket) (size max_fd_count : Z)
    (total_read : Z) (data : list byte) (msg : msghdr)
    (fds : option (list Z)) (out_fd_count : option Z) : M receive_result :=
  if total_read <? size then
    match fuel with
    | O => hang
    | S fuel =>
        let msg := with_iov msg total_read (size - total_read) in
        '(ok, msg, data, chunk_size) ← render_socket_recvmsg true socket data msg (Some 0);
        if negb ok then mret (false, data, fds, out_fd_count)
        else
          let total_read := total_read + default 0 chunk_size in
          (* Only expect fds on first recv *)
          if has_control msg then
            let '(received_fds, received_fd_count) := get_received_fds msg in
            let received_fd_count :=
              if max_fd_count <? received_fd_count then max_fd_count
              else received_fd_count in
            let fds := memcpy_fds fds received_fds received_fd_count in
            let out_fd_count := store_if out_fd_count received_fd_count in
            (* Clear control message for subsequent reads *)
            let msg := with_control msg None 0 (msg_flags msg) in
            render_receive_loop fuel socket size max_fd_count total_read data msg
              fds out_fd_count
          else
            render_receive_loop fuel socket size max_fd_count total_read data msg
              fds out_fd_count
    end
  else
    mret (true, data, fds,
          if is_null fds then store_if out_fd_count 0 else out_fd_count).

Definition render_socket_receive_request_internal (apple : bool) (socket : render_socket)
    (data : option (list byte)) (max_size : Z) (out_size : option Z)
    (fds : option (list Z)) (max_fd_count : Z) (out_fd_count : option Z)
    : M request_result :=
  assert (negb (is_null data) && negb (max_size =? 0));;
  let mem := default [] data in
  if apple then
    '(ok, hdr) ← render_socket_read_all (render_fd socket) sizeof_hdr;
    if negb ok then mret (false, mem, out_size, fds, out_fd_count)
    else if max_size <? header_size hdr then
      render_log "message too large: %u > %zu";;
      mret (false, mem, out_size, fds, out_fd_count)
    else
      match out_size with
      | None => abort
      | Some _ =>
          let out_size := Some (header_size hdr) in
          (* Initialize fd count early - will be updated if fds are received *)
          let out_fd_count := store_if out_fd_count 0 in
          let msg := data_msg (header_size hdr) in
          let msg :=
            if (0 <? header_fd_count hdr) && (0 <? max_fd_count) then
              let expected_fds :=
                if header_fd_count hdr <? max_fd_count mod 2 ^ 32
                then header_fd_count hdr else max_fd_count in
              cleared_control msg expected_fds
            else msg in
          (* For SOCK_STREAM, we need to read exactly the specified size *)
          '(ok, mem, fds, out_fd_count) ←
            with_fuel (fun fuel =>
              render_receive_loop fuel socket (header_size hdr) max_fd_count 0 mem msg
                fds out_fd_count);
          mret (ok, mem, out_size, fds, out_fd_count)
      end
  else
    (* SOCK_SEQPACKET preserves message boundaries *)
    let msg := data_msg max_size in
    msg ← (if negb (max_fd_count =? 0) then
             assert (negb (is_null fds) && (max_fd_count <=? RENDER_SOCKET_MAX_FD_COUNT));;
             mret (cleared_control msg max_fd_count)
           else mret msg);
    '(ok, msg, mem, out_size) ← render_socket_recvmsg false socket mem msg out_size;
    if negb ok then mret (false, mem, out_size, fds, out_fd_count)
    else if negb (max_fd_count =? 0) then
      let '(received_fds, received_fd_count) := get_received_fds msg in
      assert (received_fd_count <=? max_fd_count);;
      let fds := memcpy_fds fds received_fds received_fd_count in
      match out_fd_count with
      | None => abort
      | Some _ => mret (true, mem, out_size, fds, Some received_fd_count)
      end
    else mret (true, mem, out_size, fds, store_if out_fd_count 0).

Definition render_socket_receive_request (apple : bool) (socket : render_socket)
    (data : option (list byte)) (max_size : Z) (out_size : option Z) : M request_result :=
  render_socket_receive_request_internal apple socket data max_size out_size None 0 None.

Definition render_socket_receive_request_with_fds (apple : bool) (socket : render_socket)
    (data : option (list byte)) (max_size : Z) (out_size : option Z)
    (fds : option (list Z)) (max_fd_count : Z) (out_fd_count : option Z)
    : M request_result :=
  render_socket_receive_request_internal apple socket data max_size out_size
    fds max_fd_count out_fd_count.

(** Returns the return value and the data buffer. *)
Definition render_socket_receive_data (apple : bool) (socket : render_socket)
    (data : option (list byte)) (size : Z) : M (bool * list byte) :=
  '(ok, mem, received_size, _, _) ←
    render_socket_receive_request apple socket data size (Some 0);
  if negb ok then mret (false, mem)
  else if negb (size =? default 0 received_size) then
    render_log "failed to receive data: expected %zu but received %zu";;
    mret (false, mem)
  else mret (true, mem).

Definition render_socket_sendmsg (apple : bool) (socket : render_socket)
    (data : list byte) (msg : msghdr) : M bool :=
  socket_sendmsg render_log apple (render_fd socket) data msg.

Definition render_socket_send_reply_internal (apple : bool) (socket : render_socket)
    (data : option (list byte)) (size : Z) (fds : option (list Z)) (fd_count : Z)
    : M bool :=
  socket_send_internal render_log apple false RENDER_SOCKET_MAX_FD_COUNT
    (render_fd socket) data size fds fd_count.

Definition render_socket_send_reply (apple : bool) (socket : render_socket)
    (data : option (list byte)) (size : Z) : M bool :=
  render_socket_send_reply_internal apple socket data size None 0.

Definition render_socket_send_reply_with_fds (apple : bool) (socket : render_socket)
    (data : option (list byte)) (size : Z) (fds : option (list Z)) (fd_count : Z)
    : M bool :=
  render_socket_send_reply_internal apple socket data size fds fd_count.

End Render.

(** * The vocabulary of the properties *)

(** ** Concrete worlds for the examples *)

(** A process that owns the two ends [3] and [4] of a connected pair of
    sockets of the given type, with the given segments queued for [4]. *)
Definition pair_world (type : Z) (queued : list (list byte))
    (o : list event) : world :=
  {| oracle := o;
     files :=
       <[3 := {| f_flags := 0;
                 f_sock := Some {| so_type := type; so_peer := 4; so_inbox := [] |} |}]>
       (<[4 := {| f_flags := 0;
                  f_sock := Some {| so_type := type; so_peer := 3; so_inbox := queued |} |}]>
        ∅);
     next_fd := 5; closed := []; sends := []; logs := [] |}.

(** A process without any socket. *)
Definition empty_world (o : list event) : world :=
  {| oracle := o; files := ∅; next_fd := 3; closed := []; sends := []; logs := [] |}.

(** The world an operation ends in. *)
Definition final_world {A} (r : res A) : world :=
  match r with
  | Ret _ w' => w'
  | Abort w' => w'
  | Hang w' => w'
  end.

Definition PING : list byte := [Byte.x50; Byte.x49; Byte.x4e; Byte.x47].

(** Is the descriptor open and marked close-on-exec? *)
Definition cloexec_marked `{SysConsts} (w : world) (fd : Z) : bool :=
  match files w !! fd with
  | Some f => negb (Z.land (f_flags f) FD_CLOEXEC =? 0)
  | None => false
  end.

(** The descriptors the kernel handed out between two worlds. *)
Definition handed_out (w w' : world) : list Z :=
  seqZ (next_fd w) (next_fd w' - next_fd w).

(** The message header of the native-framing receive. *)
Definition native_request `{SysConsts} (size max_fd_count : Z) : msghdr :=
  if max_fd_count =? 0 then data_msg size
  else cleared_control (data_msg size) max_fd_count.

Definition close_all (t : gmap Z file) (l : list Z) : gmap Z file :=
  foldl (fun t fd => delete fd t) t l.

(** From [w] to [w'] descriptors were only handed out, and every close was
    of a descriptor handed out since [w]. *)
Definition only_fresh_closes (w w' : world) : Prop :=
  next_fd w <= next_fd w' /\
  exists l, closed w' = closed w ++ l /\ Forall (fun x => next_fd w <= x) l.

(** However the computation ends, it has closed nothing but descriptors
    that it was handed itself. *)
Definition tidy {A} (m : M A) : Prop :=
  forall w, only_fresh_closes w (final_world (m w)).

(** The computation does not close [fd]. *)
Definition never_closes {A} (fd : Z) (m : M A) (w : world) : Prop :=
  exists l, closed (final_world (m w)) = closed w ++ l /\ ~ In fd l.

(** The same from a world [w0] on that the computation did not start in. *)
Definition tidy_from {A} (w0 : world) (m : M A) : Prop :=
  forall w, only_fresh_closes w0 w -> only_fresh_closes w0 (final_world (m w)).

Create HintDb tidy.

(** The shape of the sendmsg calls of one stream-framing send of a message
    with control block [ctl]: the block goes with every call up to and
    including the first one that the kernel accepts, and with none after. *)
Inductive attached_once (ctl : option cmsghdr) : list send_call -> Prop :=
| ao_done : attached_once ctl []
| ao_retry (c : send_call) (cs : list send_call) :
    sc_control c = ctl -> sc_ret c < 0 -> attached_once ctl cs ->
    attached_once ctl (c :: cs)
| ao_sent (c : send_call) (cs : list send_call) :
    sc_control c = ctl -> 0 <= sc_ret c ->
    Forall (fun c' => sc_control c' = None) cs ->
    attached_once ctl (c :: cs).

(** The calls that moved payload bytes. *)
Definition accepted_calls (calls : list send_call) : list send_call :=
  List.filter (fun c => 0 <=? sc_ret c) calls.

(** The bytes that the calls moved, as the kernel reported them. *)
Definition bytes_moved (calls : list send_call) : Z :=
  foldr (fun c n => sc_ret c + n) 0 calls.

(** The two transient conditions of a system call. *)
Inductive transient := Interrupted | WouldBlock.

Definition transient_errno `{SysConsts} (t : transient) : Z :=
  match t with
  | Interrupted => EINTR
  | WouldBlock => EAGAIN
  end.

(** The world in which the next system calls first fail with the given
    transient conditions, one after the other. *)
Definition delayed `{SysConsts} (ts : list transient) (w : world) : world :=
  set_oracle (map (fun t => Fails (transient_errno t)) ts ++ oracle w) w.

(** The record of a sendmsg call that failed. *)
Definition failed_send (fd : Z) (msg : msghdr) : send_call :=
  {| sc_fd := fd; sc_len := iov_len msg; sc_control := msg_control msg; sc_ret := -1 |}.

(** The message header of one call of the stream-framing send loop. *)
Definition stream_send_msg (msg : msghdr) (size total_sent : Z) (fds_sent : bool) : msghdr :=
  let send_msg := with_iov (data_msg 0) (iov_base msg + total_sent) (size - total_sent) in
  if negb fds_sent && has_control msg
  then with_control send_msg (msg_control msg) (msg_controllen msg) 0
  else send_msg.

(** An event of an environment that neither fails for good, nor reports
    truncation, nor passes descriptors. *)
Definition quiet `{SysConsts} (e : event) : bool :=
  match e with
  | Fails errno => is_transient errno
  | Returns _ flags NoAnc => Z.land flags (Z.lor MSG_TRUNC MSG_CTRUNC) =? 0
  | Returns _ _ _ => false
  end.

(** The number of system calls that the environment lets through. *)
Fixpoint successes (o : list event) : nat :=
  match o with
  | [] => O
  | Returns _ _ _ :: o => S (successes o)
  | Fails _ :: o => successes o
  end.

(** The environment is quiet and lets at least [n] more calls through. *)
Definition calm `{SysConsts} (n : nat) (w : world) : Prop :=
  Forall (fun e => quiet e = true) (oracle w) /\ (n <= successes (oracle w))%nat.

(** [a] and [b] are the two ends of a connected pair of sockets of the
    given type, and [q] is queued for [b]. *)
Definition linked (type a b : Z) (q : list (list byte)) (w : world) : Prop :=
  a <> b /\
  exists fa fb qa,
    files w !! a = Some {| f_flags := fa;
                           f_sock := Some {| so_type := type; so_peer := b;
                                             so_inbox := qa |} |} /\
    files w !! b = Some {| f_flags := fb;
                           f_sock := Some {| so_type := type; so_peer := a;
                                             so_inbox := q |} |}.

(** ** The vocabulary of the transport properties *)

Section Transport.
Context `{SysConsts}.

(** The socket type that the build frames its messages on. *)
Definition wire_type (apple : bool) : Z :=
  if apple then SOCK_STREAM else SOCK_SEQPACKET.

(** One message as it travels: the payload itself on a SOCK_SEQPACKET
    socket, the 8-byte header and the payload on a byte stream. *)
Definition framed (apple : bool) (payload : list byte) : list byte :=
  if apple then encode_header (Z.of_nat (length payload) mod 2 ^ 32) 0 ++ payload
  else payload.

(** The messages [ms] are what is queued: datagram by datagram on a
    SOCK_SEQPACKET socket, as one run of bytes on a stream. *)
Definition queued (apple : bool) (ms : list (list byte)) (q : list (list byte)) : Prop :=
  if apple then concat q = concat (map (framed true) ms) else q = ms.

(** The connection from [a] to [b] holds exactly the messages [ms], oldest
    first, for [b] to receive. *)
Definition carries (apple : bool) (a b : Z) (ms : list (list byte))
    (w : world) : Prop :=
  exists q, linked (wire_type apple) a b q w /\ queued apple ms q.

(** [mem'] is [mem] with at most its first [hi] bytes overwritten. *)
Definition written_below (hi : Z) (mem mem' : list byte) : Prop :=
  length mem' = length mem /\ drop (Z.to_nat hi) mem' = drop (Z.to_nat hi) mem.

(** The data buffer after a receive helper returned. *)
Definition recv_post (hi : Z) (data : list byte) (msg : msghdr) (out_size : option Z)
    (r : res recvmsg_result) : Prop :=
  match r with
  | Ret (ok, msg', data', out') w' =>
      written_below hi data data' /\
      (ok = true ->
       exists s, 0 < s <= iov_len msg /\ out' = store_if out_size s /\
                 written_below (iov_base msg + s) data data')
  | _ => True
  end.

(** The data buffer after a stream-framing receive loop returned. *)
Definition loop_post (size : Z) (data : list byte) (r : res receive_result) : Prop :=
  match r with
  | Ret (ok, data', _, _) _ => written_below size data data'
  | _ => True
  end.

(** The data buffer and *out_size after a request receive returned. *)
Definition request_post (apple : bool) (size : Z) (buf : list byte)
    (r : res request_result) : Prop :=
  match r with
  | Ret (ok, mem, received, _, _) _ =>
      written_below size buf mem /\
      (ok = true ->
       exists s, received = Some s /\ 0 <= s <= size /\ (apple = false -> 0 < s) /\
                 written_below s buf mem)
  | _ => True
  end.

(** Every descriptor numbered from [lo] on that the kernel has handed out
    is open and marked close-on-exec. *)
Definition marked_from (lo : Z) (w : world) : Prop :=
  forall fd, lo <= fd < next_fd w -> cloexec_marked w fd = true.

(** A descriptor that set_cloexec is able to mark. *)
Definition markable (w : world) (fd : Z) : Prop :=
  cloexec_marked w fd = true \/ exists f, files w !! fd = Some f /\ 0 <= f_flags f.

(** What a receive helper that returned true leaves behind: the header
    lists the descriptors handed out since [w], and they are marked. *)
Definition handover (msg : msghdr) (w : world) (r : res recvmsg_result) : Prop :=
  match r with
  | Ret (true, msg', _, _) w' =>
      get_received_fds msg' = (handed_out w w', Z.of_nat (length (handed_out w w'))) /\
      next_fd w <= next_fd w' /\
      (msg_control msg = None -> next_fd w' = next_fd w) /\
      has_control msg' = has_control msg /\
      (forall lo, marked_from lo w -> marked_from lo w')
  | _ => True
  end.

(** Nothing was handed out and no mark changed between the two worlds. *)
Definition steady (w w' : world) : Prop :=
  next_fd w' = next_fd w /\ forall x, cloexec_marked w' x = cloexec_marked w x.

(** The stream-framing receive loop once the control buffer is gone. *)
Definition later_post (fds : option (list Z)) (out_fd_count : option Z) (w : world)
    (r : res receive_result) : Prop :=
  match r with
  | Ret (true, _, fds', count) w' =>
      next_fd w' = next_fd w /\ (forall lo, marked_from lo w -> marked_from lo w') /\
      fds' = fds /\
      count = (if is_null fds then store_if out_fd_count 0 else out_fd_count)
  | _ => True
  end.

(** What a receive that returned true has done with the descriptors that
    the kernel handed out since [w]. *)
Definition fds_post (fds : option (list Z)) (max_fd_count : Z) (out_fd_count : option Z)
    (w : world) (fds' : option (list Z)) (count : option Z) (w' : world) : Prop :=
  next_fd w <= next_fd w' /\ (forall lo, marked_from lo w -> marked_from lo w') /\
  (0 <= max_fd_count ->
   let c := Z.min max_fd_count (Z.of_nat (length (handed_out w w'))) in
   fds' = memcpy_fds fds (handed_out w w') c /\
   count = store_if out_fd_count (if is_null fds then 0 else c)).

(** The stream-framing receive loop from its first call on. *)
Definition first_post (fds : option (list Z)) (max_fd_count : Z) (out_fd_count : option Z)
    (w : world) (r : res receive_result) : Prop :=
  match r with
  | Ret (true, _, fds', count) w' => fds_post fds max_fd_count out_fd_count w fds' count w'
  | _ => True
  end.

(** A receive of the client endpoint that returned true. *)
Definition reply_post (apple : bool) (fds : option (list Z)) (max_fd_count : Z)
    (out_fd_count : option Z) (w : world) (r : res receive_result) : Prop :=
  match r with
  | Ret (true, _, fds', count) w' =>
      fds_post fds max_fd_count out_fd_count w fds' count w' /\
      (apple = false -> Z.of_nat (length (handed_out w w')) <= max_fd_count)
  | _ => True
  end.

(** A receive of the server endpoint that returned true. *)
Definition request_fds_post (apple : bool) (fds : option (list Z)) (max_fd_count : Z)
    (out_fd_count : option Z) (w : world) (r : res request_result) : Prop :=
  match r with
  | Ret (true, _, _, fds', count) w' =>
      fds_post fds max_fd_count out_fd_count w fds' count w' /\
      (apple = false -> Z.of_nat (length (handed_out w w')) <= max_fd_count)
  | _ => True
  end.

(** The outcome of write(2) and sendmsg(2) on one end of a connection. *)
Definition sent_some (type a b : Z) (q : list (list byte)) (payload : list byte)
    (r : res (Z * Z)) : Prop :=
  match r with
  | Ret (n, errno) w' =>
      (n < 0 /\ linked type a b q w') \/
      (exists chunk,
         n = Z.of_nat (length chunk) /\ chunk = take (length chunk) payload /\
         linked type a b (q ++ [chunk]) w' /\
         (type = SOCK_SEQPACKET -> chunk = payload))
  | Abort _ => False
  | Hang _ => True
  end.

(** A loop of sends that returned true has queued all the bytes. *)
Definition all_queued (type a b : Z) (q : list (list byte)) (bytes : list byte)
    (r : res bool) : Prop :=
  match r with
  | Ret true w' => exists q', linked type a b q' w' /\ concat q' = concat q ++ bytes
  | _ => True
  end.

(** [a] and [b] are the two ends of a connection, and both were handed out
    before [w]. *)
Definition wired (type a b : Z) (q : list (list byte)) (w : world) : Prop :=
  linked type a b q w /\ a < next_fd w /\ b < next_fd w.

(** The outcome of one recvmsg(2) on the receiving end of a stream: it
    failed, it returned 0, or it moved the next [k] bytes of the stream
    into the buffer. *)
Definition stream_chunk (a b : Z) (q : list (list byte)) (mem : list byte) (msg : msghdr)
    (r : res (Z * Z * msghdr * list byte)) : Prop :=
  match r with
  | Ret (s, errno, msg', mem') w' =>
      (s < 0 /\ wired SOCK_STREAM a b q w') \/ s = 0 \/
      (0 < s /\
       exists k, s = Z.of_nat k /\ (k <= Z.to_nat (iov_len msg))%nat /\
         (k <= length (concat q))%nat /\
         mem' = store_at mem (iov_base msg) (take k (concat q)) /\
         wired SOCK_STREAM a b [drop k (concat q)] w')
  | Abort _ => False
  | Hang _ => True
  end.

(** A stream-framing receive helper that returned true has moved the next
    [k] bytes of the stream into the buffer. *)
Definition chunk_received (a b : Z) (q : list (list byte)) (data : list byte)
    (msg : msghdr) (r : res recvmsg_result) : Prop :=
  match r with
  | Ret (true, msg', data', out') w' =>
      exists k, (1 <= k <= Z.to_nat (iov_len msg))%nat /\ (k <= length (concat q))%nat /\
        data' = store_at data (iov_base msg) (take k (concat q)) /\
        out' = Some (Z.of_nat k) /\
        wired SOCK_STREAM a b [drop k (concat q)] w'
  | _ => True
  end.

(** A stream-framing receive loop that returned true has put the payload
    into the buffer and left the stream at what follows it. *)
Definition whole_message (a b : Z) (payload rest data : list byte)
    (r : res receive_result) : Prop :=
  match r with
  | Ret (true, data', _, _) w' =>
      take (length payload) data' = payload /\
      drop (length payload) data' = drop (length payload) data /\
      exists q', wired SOCK_STREAM a b q' w' /\ concat q' = rest
  | _ => True
  end.

(** The outcome of one read(2) on the receiving end of a stream. *)
Definition stream_read (a b : Z) (q : list (list byte)) (count : Z)
    (r : res (Z * Z * list byte)) : Prop :=
  match r with
  | Ret (n, errno, chunk) w' =>
      (n < 0 /\ wired SOCK_STREAM a b q w') \/ n = 0 \/
      (0 < n /\
       exists k, n = Z.of_nat k /\ (k <= Z.to_nat count)%nat /\
         (k <= length (concat q))%nat /\ chunk = take k (concat q) /\
         wired SOCK_STREAM a b [drop k (concat q)] w')
  | Abort _ => False
  | Hang _ => True
  end.

(** An exact read that returned true has taken just the bytes asked for
    off the stream. *)
Definition exactly_read (a b : Z) (bytes rest buf : list byte)
    (r : res (bool * list byte)) : Prop :=
  match r with
  | Ret (true, out) w' =>
      out = buf ++ bytes /\ exists q', wired SOCK_STREAM a b q' w' /\ concat q' = rest
  | _ => True
  end.

(** The outcome of one recvmsg(2) on the receiving end of a SOCK_SEQPACKET
    connection whose next datagram [d] fits the buffer. *)
Definition datagram_taken (a b : Z) (d : list byte) (q : list (list byte))
    (mem : list byte) (msg : msghdr) (r : res (Z * Z * msghdr * list byte)) : Prop :=
  match r with
  | Ret (s, errno, msg', mem') w' =>
      (s < 0 /\ wired SOCK_SEQPACKET a b (d :: q) w') \/ s = 0 \/
      (0 < s /\ s = Z.of_nat (length d) /\
       mem' = store_at mem (iov_base msg) d /\ wired SOCK_SEQPACKET a b q w')
  | Abort _ => False
  | Hang _ => True
  end.

(** A native-framing receive helper that returned true has taken the
    datagram [d] into the buffer. *)
Definition datagram_received (a b : Z) (d : list byte) (q : list (list byte))
    (data : list byte) (msg : msghdr) (out' : option Z -> Prop)
    (r : res recvmsg_result) : Prop :=
  match r with
  | Ret (true, msg', data', out) w' =>
      data' = store_at data (iov_base msg) d /\ out' out /\
      wired SOCK_SEQPACKET a b q w'
  | _ => True
  end.

(** A receive of the client that returned true, with the message [p] at
    the head of the queue. *)
Definition reply_whole (apple : bool) (a b : Z) (ms : list (list byte)) (p buf : list byte)
    (m : Z) (r : res receive_result) : Prop :=
  match r with
  | Ret (true, mem, _, _) w' =>
      m = Z.of_nat (length p) /\
      take (length p) mem = p /\ drop (length p) mem = drop (length p) buf /\
      carries apple a b ms w'
  | _ => True
  end.

(** A receive of the server that returned true, with the message [p] at
    the head of the queue. *)
Definition request_whole (apple : bool) (a b : Z) (ms : list (list byte))
    (p buf : list byte) (r : res request_result) : Prop :=
  match r with
  | Ret (true, mem, received, _, _) w' =>
      received = Some (Z.of_nat (length p)) /\
      take (length p) mem = p /\ drop (length p) mem = drop (length p) buf /\
      carries apple a b ms w'
  | _ => True
  end.

(** The operation made one system call, which failed: it moved no data,
    opened and closed nothing, and left a line in the log. *)
Definition failed_at_once (o : list event) (w w' : world) : Prop :=
  oracle w' = o /\ files w' = files w /\ next_fd w' = next_fd w /\
  closed w' = closed w /\
  exists l, logs w' = logs w ++ l /\ l <> [].




(** A receive that returned true was handed at most [bound] descriptors. *)
Definition count_kept (bound : Z) (w : world) (r : res receive_result) : Prop :=
  match r with
  | Ret (true, _, _, _) w' => next_fd w' - next_fd w <= bound
  | _ => True
  end.




End Transport.

(** * Properties *)

Ltac unfold_monad :=
  unfold mbind, M_bind, mret, M_ret, modify, get_world, assert, abort, hang in *.

Section Properties.
Context `{SysConsts}.

(** ** What the kernel hands out and what the code closes *)

Lemma close_all_lookup (l : list Z) (t : gmap Z file) (fd : Z) :
  t !! fd = None \/ In fd l -> close_all t l !! fd = None.
Proof.
  revert t. induction l as [|x l IH]; intros t [E|Hin]; simpl; auto.
  - destruct Hin.
  - apply IH. left. destruct (decide (x = fd)) as [->|Hne].
    + apply lookup_delete_eq.
    + rewrite lookup_delete_ne by auto. exact E.
  - apply IH. destruct Hin as [->|Hin]; [left; apply lookup_delete_eq | right; exact Hin].
Qed.

Lemma for_each_close (l : list Z) (w : world) :
  for_each_fd sys_close l w =
    Ret tt (set_closed (closed w ++ l) (set_files (close_all (files w) l) w)).
Proof.
  revert w. induction l as [|x l IH]; intros w; simpl.
  - unfold mret, M_ret. f_equal. destruct w; unfold set_closed, set_files; simpl.
    rewrite app_nil_r. reflexivity.
  - unfold mbind, M_bind, sys_close, modify. rewrite IH.
    f_equal. unfold set_closed, set_files; simpl. rewrite <- app_assoc. reflexivity.
Qed.

Lemma get_received_fds_none (msg : msghdr) (c : option cmsghdr) (flags : Z) :
  get_received_fds (with_control msg c 0 flags) = ([], 0).
Proof.
  unfold get_received_fds, CMSG_FIRSTHDR. simpl.
  pose proof cmsg_len0_positive.
  destruct (Z.ltb_spec 0 CMSG_LEN0); [reflexivity | lia].
Qed.

Lemma get_received_fds_rights (msg : msghdr) (fds : list Z) (flags : Z) :
  let len := CMSG_LEN (sizeof_int * Z.of_nat (length fds)) in
  get_received_fds
    (with_control msg
       (Some {| cmsg_len := len; cmsg_level := SOL_SOCKET;
                cmsg_type := SCM_RIGHTS; cmsg_data := fds |}) len flags)
  = (fds, Z.of_nat (length fds)).
Proof.
  unfold get_received_fds, CMSG_FIRSTHDR, CMSG_LEN, sizeof_int. simpl.
  destruct (Z.ltb_spec (CMSG_LEN0 + 4 * Z.of_nat (length fds)) CMSG_LEN0); [lia|].
  rewrite !Z.eqb_refl. simpl.
  destruct (Z.ltb_spec (CMSG_LEN0 + 4 * Z.of_nat (length fds)) (CMSG_LEN0 + 0)); [lia|].
  f_equal. replace (CMSG_LEN0 + 4 * Z.of_nat (length fds) - (CMSG_LEN0 + 0))
    with (Z.of_nat (length fds) * 4) by lia.
  apply Z.div_mul. lia.
Qed.

Lemma get_received_fds_foreign (msg : msghdr) (level type flags : Z) :
  get_received_fds
    (with_control msg
       (Some {| cmsg_len := CMSG_LEN 0; cmsg_level := level;
                cmsg_type := type; cmsg_data := [] |}) (CMSG_LEN 0) flags)
  = ([], 0).
Proof.
  unfold get_received_fds, CMSG_FIRSTHDR, CMSG_LEN, sizeof_int. simpl.
  destruct (_ <? _); [reflexivity|].
  destruct (_ || _); [reflexivity|].
  rewrite Z.sub_diag. reflexivity.
Qed.

(** What the ancillary part of recvmsg(2) does: it hands out [k] fresh
    descriptors, no more than the control buffer has room for, and lists
    them in the control message. *)
Lemma deliver_control_spec (cloexec : bool) (anc : ancillary) (flags : Z) (msg : msghdr)
    (w : world) :
  exists msg' w' k,
    deliver_control cloexec anc flags msg w = Ret msg' w' /\
    (k <= fd_room msg)%nat /\
    (msg_control msg = None -> k = 0%nat) /\
    (forall k0, anc = Rights k0 -> msg_control msg <> None ->
       k = Nat.min k0 (fd_room msg) /\
       msg_flags msg' = if (k <? k0)%nat then Z.lor flags MSG_CTRUNC else flags) /\
    (anc = NoAnc -> k = 0%nat /\ msg_flags msg' = flags) /\
    (anc <> NoAnc -> msg_control msg = None -> msg_flags msg' = Z.lor flags MSG_CTRUNC) /\
    next_fd w' = next_fd w + Z.of_nat k /\
    files w' = foldr (fun fd t => <[fd := new_file cloexec]> t) (files w)
                 (seqZ (next_fd w) (Z.of_nat k)) /\
    oracle w' = oracle w /\ closed w' = closed w /\ sends w' = sends w /\
    logs w' = logs w /\
    get_received_fds msg' = (seqZ (next_fd w) (Z.of_nat k), Z.of_nat k) /\
    iov_base msg' = iov_base msg /\ iov_len msg' = iov_len msg /\
    msg_iovlen msg' = msg_iovlen msg /\
    has_control msg' = has_control msg.
Proof.
  assert (Nothing : forall msg' anc,
    (forall k0, anc <> Rights k0) ->
    (anc = NoAnc -> msg_flags msg' = flags) ->
    (anc <> NoAnc -> msg_control msg = None -> msg_flags msg' = Z.lor flags MSG_CTRUNC) ->
    get_received_fds msg' = ([], 0) ->
    iov_base msg' = iov_base msg -> iov_len msg' = iov_len msg ->
    msg_iovlen msg' = msg_iovlen msg -> has_control msg' = has_control msg ->
    (0 <= fd_room msg)%nat /\
    (msg_control msg = None -> 0%nat = 0%nat) /\
    (forall k0, anc = Rights k0 -> msg_control msg <> None ->
       0%nat = Nat.min k0 (fd_room msg) /\
       msg_flags msg' = if (0 <? k0)%nat then Z.lor flags MSG_CTRUNC else flags) /\
    (anc = NoAnc -> 0%nat = 0%nat /\ msg_flags msg' = flags) /\
    (anc <> NoAnc -> msg_control msg = None -> msg_flags msg' = Z.lor flags MSG_CTRUNC) /\
    next_fd w = next_fd w + Z.of_nat 0 /\
    files w = foldr (fun fd t => <[fd := new_file cloexec]> t) (files w)
                (seqZ (next_fd w) (Z.of_nat 0)) /\
    oracle w = oracle w /\ closed w = closed w /\ sends w = sends w /\ logs w = logs w /\
    get_received_fds msg' = (seqZ (next_fd w) (Z.of_nat 0), Z.of_nat 0) /\
    iov_base msg' = iov_base msg /\ iov_len msg' = iov_len msg /\
    msg_iovlen msg' = msg_iovlen msg /\ has_control msg' = has_control msg).
  { intros msg' anc0 NR F0 F1 G A B C D. simpl. rewrite Z.add_0_r.
    split; [lia|]. split; [reflexivity|].
    split; [intros k0 E; exfalso; exact (NR k0 E)|].
    split; [auto|]. repeat split; auto. }
  unfold deliver_control.
  destruct anc as [|k0|level type]; destruct (msg_control msg) as [c|] eqn:Ec.
  - exists (with_control msg (Some c) 0 flags), w, 0%nat.
    split; [reflexivity|].
    apply Nothing; auto using get_received_fds_none; try congruence.
    unfold has_control. simpl. rewrite Ec. reflexivity.
  - exists (with_control msg None 0 flags), w, 0%nat.
    split; [reflexivity|].
    apply Nothing; auto using get_received_fds_none; try congruence.
    unfold has_control. simpl. rewrite Ec. reflexivity.
  - cbv zeta. destruct (Nat.min k0 (fd_room msg)) as [|fit] eqn:Ef.
    + eexists _, w, 0%nat.
      split; [reflexivity|]. split; [lia|]. split; [reflexivity|].
      split; [intros k1 E _; inversion E; subst k1; split; [congruence | reflexivity]|].
      split; [discriminate|]. split; [congruence|].
      unfold has_control. simpl. rewrite Z.add_0_r, Ec. repeat split; auto.
      apply get_received_fds_none.
    + unfold install_fds. unfold_monad.
      eexists _, _, (S fit).
      split; [reflexivity|]. split; [lia|]. split; [discriminate|].
      split; [intros k1 E _; inversion E; subst k1; split; [congruence | reflexivity]|].
      split; [discriminate|]. split; [congruence|].
      unfold has_control.
      cbn [next_fd files oracle closed sends logs set_next_fd set_files
           iov_base iov_len msg_iovlen msg_control with_control].
      rewrite Ec. repeat split; auto.
      pose proof (get_received_fds_rights msg (seqZ (next_fd w) (Z.of_nat (S fit)))) as G.
      rewrite length_seqZ, Nat2Z.id in G. apply G.
  - exists (with_control msg None 0 (Z.lor flags MSG_CTRUNC)), w, 0%nat.
    split; [reflexivity|]. split; [lia|]. split; [reflexivity|].
    split; [congruence|]. split; [discriminate|]. split; [reflexivity|].
    unfold has_control. simpl. rewrite Z.add_0_r, Ec. repeat split; auto.
    apply get_received_fds_none.
  - destruct (msg_controllen msg <? CMSG_LEN 0).
    + eexists _, w, 0%nat.
      split; [reflexivity|].
      apply Nothing; auto using get_received_fds_none; try congruence.
      unfold has_control. simpl. rewrite Ec. reflexivity.
    + eexists _, w, 0%nat.
      split; [reflexivity|].
      apply Nothing; auto using get_received_fds_foreign; try congruence.
      unfold has_control. simpl. rewrite Ec. reflexivity.
  - exists (with_control msg None 0 (Z.lor flags MSG_CTRUNC)), w, 0%nat.
    split; [reflexivity|].
    apply Nothing; auto using get_received_fds_none; try congruence.
    unfold has_control. simpl. rewrite Ec. reflexivity.
Qed.

Lemma has_data_set_oracle (fd : Z) (o : list event) (w : world) :
  has_data fd (set_oracle o w) = has_data fd w.
Proof. reflexivity. Qed.

(** What kernel_recv leaves of the world. *)
Lemma kernel_recv_spec (fd n len : Z) (w : world) :
  match kernel_recv fd n len w with
  | Ret (r, errno, chunk, short) w' =>
      next_fd w' = next_fd w /\ oracle w' = oracle w /\ closed w' = closed w /\
      sends w' = sends w /\ logs w' = logs w /\
      (forall x, f_flags <$> (files w' !! x) = f_flags <$> (files w !! x)) /\
      (has_data fd w = false -> r <= 0 /\ w' = w /\ chunk = []) /\
      (has_data fd w = true -> r = Z.of_nat (length chunk))
  | Abort _ => False
  | Hang _ => True
  end.
Proof.
  unfold kernel_recv, has_data, socket_of.
  destruct (files w !! fd) as [[ff [so|]]|] eqn:Ef; simpl;
    try (repeat split; auto; (lia || discriminate)).
  destruct (inbox_empty so); simpl.
  - destruct (files w !! so_peer so); [exact I|].
    repeat split; auto; (lia || discriminate).
  - destruct (pull so n len) as [[chunk q] short]. simpl.
    repeat split; auto; try discriminate.
    intros x. destruct (decide (x = fd)) as [->|Hne].
    + rewrite lookup_insert_eq, Ef. reflexivity.
    + rewrite lookup_insert_ne by auto. reflexivity.
Qed.

(** The three ways a recvmsg(2) returns: it failed at once; it went through
    with nothing queued behind the descriptor; or it took data, and with it
    what the peer attached. *)
Lemma sys_recvmsg_cases (fd : Z) (mem : list byte) (msg : msghdr) (cloexec : bool)
    (w : world) :
  match sys_recvmsg fd mem msg cloexec w with
  | Ret (s, errno, msg', mem') w' =>
      (exists o, oracle w = Fails errno :: o /\ s = -1 /\ msg' = msg /\ mem' = mem /\
                 w' = set_oracle o w) \/
      (exists n fl anc o,
         oracle w = Returns n fl anc :: o /\ has_data fd w = false /\
         s <= 0 /\ msg' = msg /\ mem' = mem /\ w' = set_oracle o w) \/
      (exists n fl anc o chunk short w1,
         oracle w = Returns n fl anc :: o /\ has_data fd w = true /\
         kernel_recv fd n (iov_len msg) (set_oracle o w) = Ret (s, errno, chunk, short) w1 /\
         s = Z.of_nat (length chunk) /\
         deliver_control cloexec anc (if (short : bool) then Z.lor fl MSG_TRUNC else fl)
           msg w1 = Ret msg' w' /\
         mem' = store_at mem (iov_base msg) chunk)
  | Abort _ => False
  | Hang _ => True
  end.
Proof.
  unfold sys_recvmsg, next_event. unfold_monad.
  destruct (oracle w) as [|[e|n fl anc] o] eqn:Eo; [exact I| |].
  - left. exists o. auto.
  - cbv beta iota. rewrite has_data_set_oracle.
    pose proof (kernel_recv_spec fd n (iov_len msg) (set_oracle o w)) as K.
    rewrite has_data_set_oracle in K.
    destruct (kernel_recv fd n (iov_len msg) (set_oracle o w))
      as [[[[r errno] chunk] short] w1|w1|w1] eqn:Ek; [|contradiction|exact I].
    destruct K as (_ & _ & _ & _ & _ & _ & K0 & K1).
    destruct (has_data fd w) eqn:Hd.
    + destruct (deliver_control_spec cloexec anc
                  (if short then Z.lor fl MSG_TRUNC else fl) msg w1)
        as (msg' & w' & k & E & _).
      rewrite E. right. right.
      exists n, fl, anc, o, chunk, short, w1. repeat split; auto.
    + destruct (K0 eq_refl) as (Hr & -> & ->).
      right. left. exists n, fl, anc, o. repeat split; auto.
Qed.

(** What one recvmsg(2) does to the world and to the message header. *)
Lemma sys_recvmsg_spec (fd : Z) (data : list byte) (msg : msghdr) (cloexec : bool)
    (w : world) :
  match sys_recvmsg fd data msg cloexec w with
  | Ret (s, errno, msg', data') w' =>
      closed w' = closed w /\ sends w' = sends w /\ logs w' = logs w /\
      oracle w' = tail (oracle w) /\
      msg_iovlen msg' = msg_iovlen msg /\ iov_len msg' = iov_len msg /\
      next_fd w <= next_fd w' /\
      (s < 0 -> next_fd w' = next_fd w) /\
      (msg_control msg = None -> next_fd w' = next_fd w) /\
      (0 < s ->
         get_received_fds msg' = (handed_out w w', Z.of_nat (length (handed_out w w'))))
  | Abort _ => False
  | Hang _ => True
  end.
Proof.
  pose proof (sys_recvmsg_cases fd data msg cloexec w) as C.
  destruct (sys_recvmsg fd data msg cloexec w) as [[[[s errno] msg'] data'] w'|w'|w'];
    [|contradiction|exact I].
  destruct C as [(o & Eo & -> & -> & -> & ->)
                |[(n & fl & anc & o & Eo & Hd & Hs & -> & -> & ->)
                 |(n & fl & anc & o & chunk & short & w1 & Eo & Hd & Ek & Hs & Ed & ->)]].
  - rewrite Eo. simpl. repeat split; auto; lia.
  - rewrite Eo. simpl. repeat split; auto; lia.
  - pose proof (kernel_recv_spec fd n (iov_len msg) (set_oracle o w)) as K.
    rewrite Ek in K. destruct K as (Kn & Ko & Kc & Ks & Kl & _).
    destruct (deliver_control_spec cloexec anc
                (if short then Z.lor fl MSG_TRUNC else fl) msg w1)
      as (msg2 & w2 & k & E & _ & Hnone & _ & _ & _ & Dn & _ & Do & Dc & Ds & Dl & G
          & _ & Dlen & Diov & _).
    rewrite Ed in E. inversion E; subst msg2 w2. clear E.
    simpl in Kn, Ko, Kc, Ks, Kl.
    assert (Hh : handed_out w w' = seqZ (next_fd w1) (Z.of_nat k)).
    { unfold handed_out. rewrite Dn, Kn. f_equal. lia. }
    rewrite Eo. simpl.
    split; [congruence|]. split; [congruence|]. split; [congruence|].
    split; [congruence|]. split; [exact Diov|]. split; [exact Dlen|].
    split; [lia|].
    split; [intros Hneg; lia|].
    split; [intros Hc; rewrite (Hnone Hc) in Dn; simpl in Dn; lia|].
    intros _. rewrite Hh, length_seqZ, Nat2Z.id. exact G.
Qed.


Lemma close_received_fds_spec (msg : msghdr) (l : list Z) (w : world) :
  get_received_fds msg = (l, Z.of_nat (length l)) ->
  close_received_fds msg w =
    Ret tt (set_closed (closed w ++ l) (set_files (close_all (files w) l) w)).
Proof.
  intros E. unfold close_received_fds, for_fds. rewrite E.
  rewrite Nat2Z.id, firstn_all. apply for_each_close.
Qed.

Lemma nonzero_test (z : Z) : z <> 0 -> negb (z =? 0) = true.
Proof. intros Hz. destruct (Z.eqb_spec z 0); [contradiction | reflexivity]. Qed.

(** ** Truncated and mismatched messages *)

Lemma proxy_recvmsg_truncated (apple : bool) (ps : proxy_socket)
    (data : list byte) (msg : msghdr) (out_size : option Z)
    (w w1 : world) (s errno : Z) (msg' : msghdr) (data' : list byte) :
  sys_recvmsg (proxy_fd ps) data msg (negb apple) w = Ret (s, errno, msg', data') w1 ->
  0 < s ->
  Z.land (msg_flags msg') (Z.lor MSG_TRUNC MSG_CTRUNC) <> 0 ->
  msg_iovlen msg = 1 ->
  exists w2,
    proxy_socket_recvmsg apple ps data msg out_size w
      = Ret (false, msg', data', out_size) w2 /\
    closed w2 = closed w ++ handed_out w w1 /\
    forall fd, In fd (handed_out w w1) -> files w2 !! fd = None.
Proof.
  intros E Hs Hfl Hiov.
  pose proof (sys_recvmsg_spec (proxy_fd ps) data msg (negb apple) w) as S.
  rewrite E in S. destruct S as (Hc & _ & _ & _ & Hi & _ & _ & _ & _ & Hr).
  specialize (Hr Hs).
  unfold proxy_socket_recvmsg, with_fuel. simpl. unfold mbind at 1, M_bind at 1.
  rewrite E.
  destruct (Z.ltb_spec s 0); [lia|]. destruct (Z.eqb_spec s 0); [lia|].
  unfold_monad. rewrite Hi, Hiov. simpl.
  rewrite (nonzero_test _ Hfl). unfold proxy_log, log_msg, modify. simpl.
  rewrite (close_received_fds_spec _ _ _ Hr). simpl.
  eexists. split; [reflexivity|]. simpl. split; [congruence|].
  intros fd Hin. apply close_all_lookup. right. exact Hin.
Qed.

Lemma render_recvmsg_truncated (apple : bool) (rs : render_socket)
    (data : list byte) (msg : msghdr) (out_size : option Z)
    (w w1 : world) (s errno : Z) (msg' : msghdr) (data' : list byte) :
  sys_recvmsg (render_fd rs) data msg (negb apple) w = Ret (s, errno, msg', data') w1 ->
  0 < s ->
  Z.land (msg_flags msg') (Z.lor MSG_TRUNC MSG_CTRUNC) <> 0 ->
  exists w2,
    render_socket_recvmsg apple rs data msg out_size w
      = Ret (false, msg', data', out_size) w2 /\
    closed w2 = closed w ++ handed_out w w1 /\
    forall fd, In fd (handed_out w w1) -> files w2 !! fd = None.
Proof.
  intros E Hs Hfl.
  pose proof (sys_recvmsg_spec (render_fd rs) data msg (negb apple) w) as S.
  rewrite E in S. destruct S as (Hc & _ & _ & _ & Hi & _ & _ & _ & _ & Hr).
  specialize (Hr Hs).
  unfold render_socket_recvmsg, with_fuel. simpl. unfold mbind at 1, M_bind at 1.
  rewrite E.
  destruct (Z.leb_spec s 0); [lia|].
  unfold_monad.
  rewrite (nonzero_test _ Hfl). unfold render_log, log_msg, modify. simpl.
  rewrite (close_received_fds_spec _ _ _ Hr). simpl.
  eexists. split; [reflexivity|]. simpl. split; [congruence|].
  intros fd Hin. apply close_all_lookup. right. exact Hin.
Qed.

(** When the underlying recvmsg of a receive delivers at least one byte and
    the kernel flags the message MSG_TRUNC or MSG_CTRUNC, the receive helper
    of either endpoint, in either build, returns false, and by then it has
    closed every descriptor the kernel handed out in that call: they are the
    closes it made, in order, and none of them is open afterwards.  The
    native-framing receive operations, which make that one call, return
    false with it. *)
Lemma truncated_call_closes (apple : bool) (ps : proxy_socket) (rs : render_socket)
    (data : list byte) (msg : msghdr) (out_size : option Z)
    (size max_fd_count : Z) (fds : option (list Z)) (out_fd_count : option Z)
    (w w1 : world) (s errno : Z) (msg' : msghdr) (data' : list byte) :
  (sys_recvmsg (proxy_fd ps) data msg (negb apple) w = Ret (s, errno, msg', data') w1 ->
   0 < s ->
   Z.land (msg_flags msg') (Z.lor MSG_TRUNC MSG_CTRUNC) <> 0 ->
   msg_iovlen msg = 1 ->
   exists w2,
     proxy_socket_recvmsg apple ps data msg out_size w
       = Ret (false, msg', data', out_size) w2 /\
     closed w2 = closed w ++ handed_out w w1 /\
     forall fd, In fd (handed_out w w1) -> files w2 !! fd = None) /\
  (sys_recvmsg (render_fd rs) data msg (negb apple) w = Ret (s, errno, msg', data') w1 ->
   0 < s ->
   Z.land (msg_flags msg') (Z.lor MSG_TRUNC MSG_CTRUNC) <> 0 ->
   exists w2,
     render_socket_recvmsg apple rs data msg out_size w
       = Ret (false, msg', data', out_size) w2 /\
     closed w2 = closed w ++ handed_out w w1 /\
     forall fd, In fd (handed_out w w1) -> files w2 !! fd = None) /\
  (sys_recvmsg (proxy_fd ps) data (native_request size max_fd_count) true w
     = Ret (s, errno, msg', data') w1 ->
   0 < s ->
   Z.land (msg_flags msg') (Z.lor MSG_TRUNC MSG_CTRUNC) <> 0 ->
   size <> 0 ->
   (max_fd_count <> 0 -> fds <> None /\ max_fd_count <= PROXY_SOCKET_MAX_FD_COUNT) ->
   exists w2,
     proxy_socket_receive_reply_internal false ps (Some data) size fds max_fd_count
         out_fd_count w
       = Ret (false, data', fds, out_fd_count) w2 /\
     closed w2 = closed w ++ handed_out w w1 /\
     forall fd, In fd (handed_out w w1) -> files w2 !! fd = None) /\
  (sys_recvmsg (render_fd rs) data (native_request size max_fd_count) true w
     = Ret (s, errno, msg', data') w1 ->
   0 < s ->
   Z.land (msg_flags msg') (Z.lor MSG_TRUNC MSG_CTRUNC) <> 0 ->
   size <> 0 ->
   (max_fd_count <> 0 -> fds <> None /\ max_fd_count <= RENDER_SOCKET_MAX_FD_COUNT) ->
   exists w2,
     render_socket_receive_request_internal false rs (Some data) size out_size fds
         max_fd_count out_fd_count w
       = Ret (false, data', out_size, fds, out_fd_count) w2 /\
     closed w2 = closed w ++ handed_out w w1 /\
     forall fd, In fd (handed_out w w1) -> files w2 !! fd = None).
Proof.
  split; [apply proxy_recvmsg_truncated|].
  split; [apply render_recvmsg_truncated|].
  split.
  - intros E Hs Hfl Hsize Hfds.
    unfold proxy_socket_receive_reply_internal. unfold_monad. simpl.
    rewrite (nonzero_test _ Hsize). simpl.
    unfold native_request in E.
    destruct (Z.eqb_spec max_fd_count 0) as [Hm|Hm]; simpl.
    + destruct (proxy_recvmsg_truncated false ps data (data_msg size) None w w1 s errno
                  msg' data' E) as (w2 & E2 & Hc & Hf); auto.
      rewrite E2. simpl. eauto.
    + destruct (Hfds Hm) as [Hnn Hle].
      destruct fds as [l|]; [|congruence]. simpl.
      destruct (Z.leb_spec max_fd_count PROXY_SOCKET_MAX_FD_COUNT); [|lia]. simpl.
      destruct (proxy_recvmsg_truncated false ps data
                  (cleared_control (data_msg size) max_fd_count) None w w1 s errno
                  msg' data' E) as (w2 & E2 & Hc & Hf); auto.
      rewrite E2. simpl. eauto.
  - intros E Hs Hfl Hsize Hfds.
    unfold render_socket_receive_request_internal. unfold_monad. simpl.
    rewrite (nonzero_test _ Hsize). simpl.
    unfold native_request in E.
    destruct (Z.eqb_spec max_fd_count 0) as [Hm|Hm]; simpl.
    + destruct (render_recvmsg_truncated false rs data (data_msg size) out_size w w1 s errno
                  msg' data' E) as (w2 & E2 & Hc & Hf); auto.
      rewrite E2. simpl. eauto.
    + destruct (Hfds Hm) as [Hnn Hle].
      destruct fds as [l|]; [|congruence]. simpl.
      destruct (Z.leb_spec max_fd_count RENDER_SOCKET_MAX_FD_COUNT); [|lia]. simpl.
      destruct (render_recvmsg_truncated false rs data
                  (cleared_control (data_msg size) max_fd_count) out_size w w1 s errno
                  msg' data' E) as (w2 & E2 & Hc & Hf); auto.
      rewrite E2. simpl. eauto.
Qed.

Lemma handed_out_nil (w w' : world) : next_fd w' = next_fd w -> handed_out w w' = [].
Proof. intros E. unfold handed_out. rewrite E, Z.sub_diag. reflexivity. Qed.

Lemma kernel_recv_len (fd n len : Z) (w : world) :
  match kernel_recv fd n len w with
  | Ret (r, errno, chunk, short) w' =>
      r <= 0 \/ (r = Z.of_nat (length chunk) /\ r <= len)
  | _ => True
  end.
Proof.
  unfold kernel_recv.
  destruct (files w !! fd) as [[fl [so|]]|]; [|left; lia..].
  destruct (inbox_empty so).
  { destruct (files w !! so_peer so); [exact I | left; lia]. }
  unfold pull. destruct (is_packet_socket so).
  - destruct (so_inbox so) as [|d ds]; simpl; [left; lia|].
    destruct (Z.leb_spec len 0).
    + left. rewrite length_take. lia.
    + right. split; [reflexivity|]. rewrite length_take. lia.
  - simpl. destruct (Z.leb_spec len 0).
    + left. rewrite length_take. unfold xfer_len. lia.
    + right. split; [reflexivity|]. rewrite length_take. unfold xfer_len. lia.
Qed.

(** recvmsg(2) returns no more bytes than the iovec has room for. *)
Lemma sys_recvmsg_bound (fd : Z) (mem : list byte) (msg : msghdr) (cloexec : bool)
    (w w1 : world) (s errno : Z) (msg' : msghdr) (mem' : list byte) :
  sys_recvmsg fd mem msg cloexec w = Ret (s, errno, msg', mem') w1 ->
  0 < s -> s <= iov_len msg.
Proof.
  intros E Hs. pose proof (sys_recvmsg_cases fd mem msg cloexec w) as C.
  rewrite E in C.
  destruct C as [(o & _ & -> & _)
                |[(n & fl & anc & o & _ & _ & Hle & _)
                 |(n & fl & anc & o & chunk & short & w2 & _ & _ & Ek & _)]]; try lia.
  pose proof (kernel_recv_len fd n (iov_len msg) (set_oracle o w)) as K.
  rewrite Ek in K. lia.
Qed.

Lemma proxy_recvmsg_mismatch (ps : proxy_socket) (data : list byte) (msg : msghdr)
    (out_size : option Z) (w w1 : world) (s errno : Z) (msg' : msghdr) (data' : list byte) :
  sys_recvmsg (proxy_fd ps) data msg true w = Ret (s, errno, msg', data') w1 ->
  0 < s -> s <> iov_len msg -> msg_iovlen msg = 1 ->
  exists w2,
    proxy_socket_recvmsg false ps data msg out_size w
      = Ret (false, msg', data', out_size) w2 /\
    closed w2 = closed w ++ handed_out w w1 /\
    forall fd, In fd (handed_out w w1) -> files w2 !! fd = None.
Proof.
  intros E Hpos Hne Hiov.
  pose proof (sys_recvmsg_spec (proxy_fd ps) data msg true w) as S.
  rewrite E in S. destruct S as (Hc & _ & _ & _ & Hi & Hl & _ & Hz & _ & Hr).
  unfold proxy_socket_recvmsg, with_fuel. simpl. unfold mbind at 1, M_bind at 1.
  change (negb false) with true. rewrite E.
  destruct (Z.ltb_spec s 0); [lia|]. destruct (Z.eqb_spec s 0) as [->|Hs0]; [lia|].
  specialize (Hr Hpos).
  unfold_monad. rewrite Hi, Hiov. simpl.
  unfold proxy_log, log_msg, modify.
  destruct (negb (Z.land (msg_flags msg') (Z.lor MSG_TRUNC MSG_CTRUNC) =? 0)); simpl.
  - rewrite (close_received_fds_spec _ _ _ Hr). simpl.
    eexists. split; [reflexivity|]. simpl. split; [congruence|].
    intros fd Hin. apply close_all_lookup. right. exact Hin.
  - rewrite Hl. destruct (Z.eqb_spec (iov_len msg) s); [congruence|]. simpl.
    rewrite (close_received_fds_spec _ _ _ Hr). simpl.
    eexists. split; [reflexivity|]. simpl. split; [congruence|].
    intros fd Hin. apply close_all_lookup. right. exact Hin.
Qed.

(** C2 (as amended): in the native build, when the underlying recvmsg
    delivers a message of at least one byte whose byte count is not the size
    asked for, the receive of the client endpoint
    ([proxy_socket_receive_reply_internal], asked for no or for up to
    PROXY_SOCKET_MAX_FD_COUNT descriptors) returns false after closing every
    descriptor handed out with the message.  The server endpoint has no such
    test: [render_socket_receive_request] returns true for any such message
    that the kernel did not flag as truncated, stores its byte count, which
    is at most max_size, in *out_size, and leaves the bytes in the buffer.
    Only the exact-size wrapper [render_socket_receive_data] returns false on
    a mismatch, and as it asks for no descriptors it has none to close. *)
Theorem C2_native_size_mismatch (ps : proxy_socket) (rs : render_socket)
    (mem : list byte) (size : Z) (fds : option (list Z)) (max_fd_count : Z)
    (out_fd_count : option Z) (out0 : Z)
    (w w1 : world) (s errno : Z) (msg' : msghdr) (mem' : list byte) :
  (sys_recvmsg (proxy_fd ps) mem (native_request size max_fd_count) true w
     = Ret (s, errno, msg', mem') w1 ->
   0 < s -> s <> size -> size <> 0 -> 0 <= max_fd_count ->
   (max_fd_count <> 0 -> fds <> None /\ max_fd_count <= PROXY_SOCKET_MAX_FD_COUNT) ->
   exists w2,
     proxy_socket_receive_reply_internal false ps (Some mem) size fds max_fd_count
         out_fd_count w
       = Ret (false, mem', fds, out_fd_count) w2 /\
     closed w2 = closed w ++ handed_out w w1 /\
     forall fd, In fd (handed_out w w1) -> files w2 !! fd = None) /\
  (sys_recvmsg (render_fd rs) mem (data_msg size) true w = Ret (s, errno, msg', mem') w1 ->
   0 < s -> Z.land (msg_flags msg') (Z.lor MSG_TRUNC MSG_CTRUNC) = 0 -> size <> 0 ->
   render_socket_receive_request false rs (Some mem) size (Some out0) w
     = Ret (true, mem', Some s, None, None) w1 /\
   s <= size) /\
  (sys_recvmsg (render_fd rs) mem (data_msg size) true w = Ret (s, errno, msg', mem') w1 ->
   0 < s -> s <> size -> size <> 0 ->
   exists w2,
     render_socket_receive_data false rs (Some mem) size w = Ret (false, mem') w2 /\
     closed w2 = closed w /\ next_fd w2 = next_fd w).
Proof.
  split; [|split].
  - intros E Hs Hne Hsize _ Hfds.
    unfold proxy_socket_receive_reply_internal. unfold_monad. simpl.
    rewrite (nonzero_test _ Hsize). simpl.
    unfold native_request in E.
    destruct (Z.eqb_spec max_fd_count 0) as [Hm|Hm]; simpl.
    + destruct (proxy_recvmsg_mismatch ps mem (data_msg size) None w w1 s errno msg' mem' E)
        as (w2 & E2 & Hc & Hf); auto.
      rewrite E2. simpl. eauto.
    + destruct (Hfds Hm) as [Hnn Hle].
      destruct fds as [l|]; [|congruence]. simpl.
      destruct (Z.leb_spec max_fd_count PROXY_SOCKET_MAX_FD_COUNT); [|lia]. simpl.
      destruct (proxy_recvmsg_mismatch ps mem (cleared_control (data_msg size) max_fd_count)
                  None w w1 s errno msg' mem' E) as (w2 & E2 & Hc & Hf); auto.
      rewrite E2. simpl. eauto.
  - intros E Hs Hfl Hsize.
    split; [|apply (sys_recvmsg_bound _ _ _ _ _ _ _ _ _ _ E Hs)].
    unfold render_socket_receive_request, render_socket_receive_request_internal.
    unfold_monad. simpl. rewrite (nonzero_test _ Hsize). simpl.
    unfold render_socket_recvmsg, with_fuel. simpl. unfold mbind at 1, M_bind at 1.
    change (negb false) with true. rewrite E.
    destruct (Z.leb_spec s 0); [lia|].
    rewrite Hfl. simpl. reflexivity.
  - intros E Hs Hne Hsize.
    pose proof (sys_recvmsg_spec (render_fd rs) mem (data_msg size) true w) as S.
    rewrite E in S. destruct S as (Hc & _ & _ & _ & Hi & Hl & _ & Hz & Hn & Hr).
    specialize (Hn eq_refl).
    unfold render_socket_receive_data, render_socket_receive_request,
      render_socket_receive_request_internal.
    unfold_monad. simpl. rewrite (nonzero_test _ Hsize). simpl.
    unfold render_socket_recvmsg, with_fuel. simpl. unfold mbind at 1, M_bind at 1.
    change (negb false) with true. rewrite E.
    destruct (Z.leb_spec s 0); [lia|].
    specialize (Hr ltac:(lia)). rewrite handed_out_nil in Hr by exact Hn.
    unfold_monad. unfold render_log, log_msg, modify.
    destruct (negb (Z.land (msg_flags msg') (Z.lor MSG_TRUNC MSG_CTRUNC) =? 0)); simpl.
    + rewrite (close_received_fds_spec _ [] _ Hr). simpl.
      eexists. split; [reflexivity|]. simpl. rewrite app_nil_r. split; [exact Hc | exact Hn].
    + destruct (Z.eqb_spec size s); [congruence|]. simpl.
      eexists. split; [reflexivity|]. simpl. split; [exact Hc | exact Hn].
Qed.

(** ** Which descriptors an operation closes *)

Lemma only_fresh_closes_refl (w : world) : only_fresh_closes w w.
Proof. split; [lia|]. exists []. rewrite app_nil_r. auto. Qed.

Lemma only_fresh_closes_trans (w1 w2 w3 : world) :
  only_fresh_closes w1 w2 -> only_fresh_closes w2 w3 -> only_fresh_closes w1 w3.
Proof.
  intros [Hn (l & Hc & Hl)] [Hn' (l' & Hc' & Hl')]. split; [lia|].
  exists (l ++ l'). rewrite Hc', Hc, <- app_assoc. split; [reflexivity|].
  apply Forall_app. split; [exact Hl|].
  eapply Forall_impl; [exact Hl'|]. simpl. intros; lia.
Qed.

Lemma only_fresh_closes_same (w w' : world) :
  next_fd w <= next_fd w' -> closed w' = closed w -> only_fresh_closes w w'.
Proof. intros Hn Hc. split; [exact Hn|]. exists []. rewrite app_nil_r. auto. Qed.

Lemma tidy_ret {A} (a : A) : tidy (mret a).
Proof. intros w. apply only_fresh_closes_refl. Qed.

Lemma tidy_bind {A B} (m : M A) (k : A -> M B) :
  tidy m -> (forall a, tidy (k a)) -> tidy (m ≫= k).
Proof.
  intros Hm Hk w. specialize (Hm w). unfold mbind, M_bind.
  destruct (m w) as [a w1|w1|w1]; simpl in *; auto.
  eapply only_fresh_closes_trans; [exact Hm | apply Hk].
Qed.

Lemma tidy_modify (f : world -> world) :
  (forall w, next_fd w <= next_fd (f w) /\ closed (f w) = closed w) -> tidy (modify f).
Proof. intros Hf w. simpl. apply only_fresh_closes_same; apply Hf. Qed.

Lemma tidy_assert (b : bool) : tidy (assert b).
Proof. intros w. unfold assert. destruct b; apply only_fresh_closes_refl. Qed.

Lemma tidy_abort {A} : tidy (@abort A).
Proof. intros w. apply only_fresh_closes_refl. Qed.

Lemma tidy_hang {A} : tidy (@hang A).
Proof. intros w. apply only_fresh_closes_refl. Qed.

Lemma tidy_with_fuel {A} (body : nat -> M A) : (forall fuel, tidy (body fuel)) -> tidy (with_fuel body).
Proof. intros Hb w. apply Hb. Qed.

Lemma tidy_log (s : string) : tidy (log_msg s).
Proof. apply tidy_modify. intros w. simpl. split; [lia | reflexivity]. Qed.

Lemma tidy_next_event : tidy next_event.
Proof.
  intros w. unfold next_event. destruct (oracle w); simpl;
    apply only_fresh_closes_same; simpl; auto; lia.
Qed.

Lemma tidy_kernel_recv (fd n len : Z) : tidy (kernel_recv fd n len).
Proof.
  intros w. unfold kernel_recv.
  destruct (files w !! fd) as [[ff [so|]]|]; simpl; try apply only_fresh_closes_refl.
  destruct (inbox_empty so).
  - destruct (files w !! so_peer so); apply only_fresh_closes_refl.
  - destruct (pull so n len) as [[chunk q] short]. simpl.
    apply only_fresh_closes_same; simpl; auto; lia.
Qed.

Lemma tidy_kernel_send (fd n : Z) (payload : list byte) (nosignal : bool) :
  tidy (kernel_send fd n payload nosignal).
Proof.
  intros w. unfold kernel_send.
  destruct (socket_of fd w) as [so|]; simpl; try apply only_fresh_closes_refl.
  destruct (files w !! so_peer so) as [[ff [pso|]]|]; simpl;
    try (destruct nosignal; apply only_fresh_closes_refl).
  apply only_fresh_closes_same; simpl; auto; lia.
Qed.

#[local] Hint Resolve tidy_ret tidy_assert tidy_abort tidy_hang tidy_log tidy_next_event
  tidy_kernel_recv tidy_kernel_send : tidy.

Ltac tidy_step :=
  match goal with
  | |- tidy (mret _) => apply tidy_ret
  | |- tidy (_ ≫= _) => apply tidy_bind; [| intros ?]
  | |- tidy (with_fuel _) => apply tidy_with_fuel; intros ?
  | |- tidy (proxy_log _) => apply tidy_log
  | |- tidy (render_log _) => apply tidy_log
  | |- tidy (if ?b then _ else _) => destruct b
  | |- tidy (match ?x with _ => _ end) => destruct x
  | |- tidy _ => solve [auto with tidy]
  end.
Ltac tidy_tac := repeat tidy_step.

Lemma tidy_sys_read (fd count : Z) : tidy (sys_read fd count).
Proof. unfold sys_read. tidy_tac. Qed.

Lemma tidy_sys_write (fd : Z) (buf : list byte) (count : Z) : tidy (sys_write fd buf count).
Proof. unfold sys_write. tidy_tac. Qed.

Lemma tidy_sys_sendmsg (fd : Z) (mem : list byte) (msg : msghdr) (nosignal : bool) :
  tidy (sys_sendmsg fd mem msg nosignal).
Proof.
  unfold sys_sendmsg, record_send. tidy_tac.
  apply tidy_modify. intros w. simpl. split; [lia | reflexivity].
Qed.

Lemma tidy_sys_poll (fd : Z) : tidy (sys_poll fd).
Proof. unfold sys_poll. tidy_tac. Qed.

Lemma tidy_sys_getsockopt_type (fd : Z) : tidy (sys_getsockopt_type fd).
Proof.
  intros w. unfold sys_getsockopt_type. destruct (socket_of fd w); apply only_fresh_closes_refl.
Qed.

Lemma tidy_sys_fcntl_getfd (fd : Z) : tidy (sys_fcntl_getfd fd).
Proof.
  intros w. unfold sys_fcntl_getfd. destruct (files w !! fd); apply only_fresh_closes_refl.
Qed.

Lemma tidy_sys_fcntl_setfd (fd flags : Z) : tidy (sys_fcntl_setfd fd flags).
Proof. apply tidy_modify. intros w. simpl. split; [lia | reflexivity]. Qed.

#[local] Hint Resolve tidy_sys_read tidy_sys_write tidy_sys_sendmsg tidy_sys_poll
  tidy_sys_getsockopt_type tidy_sys_fcntl_getfd tidy_sys_fcntl_setfd : tidy.

Lemma tidy_set_cloexec (fd : Z) : tidy (set_cloexec fd).
Proof. unfold set_cloexec. tidy_tac. Qed.
#[local] Hint Resolve tidy_set_cloexec : tidy.

Lemma tidy_for_each_fd (f : Z -> M unit) (l : list Z) :
  (forall x, tidy (f x)) -> tidy (for_each_fd f l).
Proof. intros Hf. induction l; simpl; tidy_tac; auto. Qed.

Lemma tidy_cloexec_received_fds (msg : msghdr) : tidy (cloexec_received_fds msg).
Proof.
  unfold cloexec_received_fds, for_fds. destruct (get_received_fds msg).
  apply tidy_for_each_fd. auto with tidy.
Qed.
#[local] Hint Resolve tidy_cloexec_received_fds : tidy.

Lemma tidy_read_all_loop log (fuel : nat) (fd : Z) (buf : list byte) (remaining : Z) :
  (forall s, tidy (log s)) -> tidy (read_all_loop log fuel fd buf remaining).
Proof.
  intros Hlog. revert buf remaining.
  induction fuel as [|fuel IH]; intros buf remaining; simpl; tidy_tac; auto.
Qed.

Lemma tidy_write_all_loop log (fuel : nat) (fd : Z) (p : list byte) (remaining : Z) :
  (forall s, tidy (log s)) -> tidy (write_all_loop log fuel fd p remaining).
Proof.
  intros Hlog. revert p remaining.
  induction fuel as [|fuel IH]; intros p remaining; simpl; tidy_tac; auto.
Qed.

Lemma tidy_sendmsg_stream_loop log fuel fd data msg size total_sent fds_sent :
  (forall s, tidy (log s)) ->
  tidy (sendmsg_stream_loop log fuel fd data msg size total_sent fds_sent).
Proof.
  intros Hlog. revert total_sent fds_sent.
  induction fuel as [|fuel IH]; intros total_sent fds_sent; simpl; tidy_tac; auto.
Qed.

Lemma tidy_sendmsg_native_loop log fuel fd data msg :
  (forall s, tidy (log s)) -> tidy (sendmsg_native_loop log fuel fd data msg).
Proof.
  intros Hlog. induction fuel as [|fuel IH]; simpl; tidy_tac; auto.
Qed.

Lemma tidy_socket_sendmsg log apple fd data msg :
  (forall s, tidy (log s)) -> tidy (socket_sendmsg log apple fd data msg).
Proof.
  intros Hlog. unfold socket_sendmsg. tidy_tac;
    auto using tidy_sendmsg_stream_loop, tidy_sendmsg_native_loop.
Qed.

Lemma tidy_socket_send_internal log apple trace max_fds fd data size fds fd_count :
  (forall s, tidy (log s)) ->
  tidy (socket_send_internal log apple trace max_fds fd data size fds fd_count).
Proof.
  intros Hlog. unfold socket_send_internal, socket_write_all. tidy_tac;
    auto using tidy_socket_sendmsg, tidy_write_all_loop.
Qed.


Lemma tidy_tidy_from {A} (w0 : world) (m : M A) : tidy m -> tidy_from w0 m.
Proof. intros Hm w Hw. eapply only_fresh_closes_trans; [exact Hw | apply Hm]. Qed.

Lemma tidy_from_bind {A B} (w0 : world) (m : M A) (k : A -> M B) :
  tidy_from w0 m -> (forall a, tidy_from w0 (k a)) -> tidy_from w0 (m ≫= k).
Proof.
  intros Hm Hk w Hw. specialize (Hm w Hw). unfold mbind, M_bind.
  destruct (m w) as [a w1|w1|w1]; simpl in *; auto.
  apply Hk. exact Hm.
Qed.

Lemma handed_out_fresh (w w1 : world) : Forall (fun x => next_fd w <= x) (handed_out w w1).
Proof.
  apply Forall_forall. intros x Hx. unfold handed_out in Hx.
  apply elem_of_seqZ in Hx. lia.
Qed.

Lemma tidy_from_close_received (w0 w1 : world) (msg : msghdr) :
  get_received_fds msg = (handed_out w0 w1, Z.of_nat (length (handed_out w0 w1))) ->
  tidy_from w0 (close_received_fds msg).
Proof.
  intros E w [Hn (l & Hc & Hl)].
  rewrite (close_received_fds_spec _ _ _ E). simpl.
  split; [exact Hn|]. exists (l ++ handed_out w0 w1).
  rewrite Hc, <- app_assoc. split; [reflexivity|].
  apply Forall_app. split; [exact Hl | apply handed_out_fresh].
Qed.

Ltac tidy_from_step :=
  match goal with
  | |- tidy_from _ (_ ≫= _) => apply tidy_from_bind; [| intros ?]
  | |- tidy_from _ (if ?b then _ else _) => destruct b
  | |- tidy_from _ (match ?x with _ => _ end) => destruct x
  | |- tidy_from _ _ => solve [apply tidy_tidy_from; tidy_tac; auto with tidy]
  end.

Lemma after_recvmsg {B} (fd : Z) (data : list byte) (msg : msghdr) (cloexec : bool)
    (k : Z * Z * msghdr * list byte -> M B) :
  (forall w w1 s errno msg' data',
     sys_recvmsg fd data msg cloexec w = Ret (s, errno, msg', data') w1 ->
     only_fresh_closes w w1 ->
     (0 < s -> get_received_fds msg'
               = (handed_out w w1, Z.of_nat (length (handed_out w w1)))) ->
     tidy_from w (k (s, errno, msg', data'))) ->
  tidy (sys_recvmsg fd data msg cloexec ≫= k).
Proof.
  intros Hk w. unfold mbind, M_bind.
  pose proof (sys_recvmsg_spec fd data msg cloexec w) as S.
  destruct (sys_recvmsg fd data msg cloexec w) as [[[[s errno] msg'] data'] w1|w1|w1] eqn:E;
    [|contradiction|].
  - destruct S as (Hc & _ & _ & _ & _ & _ & Hn & _ & _ & Hr).
    assert (Hw : only_fresh_closes w w1) by (apply only_fresh_closes_same; auto).
    apply (Hk w w1 s errno msg' data' E Hw Hr). exact Hw.
  - simpl. 
    unfold sys_recvmsg, next_event in E. unfold_monad.
    destruct (oracle w) as [|[e|n fl anc] o]; simpl in E.
    + inversion E. apply only_fresh_closes_refl.
    + discriminate.
    + pose proof (tidy_kernel_recv fd n (iov_len msg) (set_oracle o w)) as T.
      destruct (kernel_recv fd n (iov_len msg) (set_oracle o w))
        as [[[[r e] chunk] short] w2|w2|w2]; simpl in *.
      * destruct (has_data fd (set_oracle o w)); [|discriminate].
        destruct (deliver_control_spec (cloexec : bool) anc
                    (if short then Z.lor fl MSG_TRUNC else fl) msg w2)
          as (msg2 & w3 & k3 & E3 & _).
        rewrite E3 in E. discriminate.
      * discriminate.
      * inversion E; subst. destruct T as [T1 T2]. split; [exact T1|exact T2].
Qed.

Lemma tidy_proxy_recvmsg_loop fuel apple socket data msg out_size :
  tidy (proxy_recvmsg_loop fuel apple socket data msg out_size).
Proof.
  induction fuel as [|fuel IH]; simpl; [apply tidy_hang|].
  apply after_recvmsg. intros w w1 s errno msg' data' E Hw Hr.
  destruct (Z.ltb_spec s 0).
  { repeat tidy_from_step. }
  destruct (Z.eqb_spec s 0); [repeat tidy_from_step|].
  specialize (Hr ltac:(lia)).
  pose proof (tidy_from_close_received w w1 msg' Hr).
  repeat tidy_from_step; auto.
Qed.

Lemma tidy_render_recvmsg_loop fuel apple socket data msg out_size :
  tidy (render_recvmsg_loop fuel apple socket data msg out_size).
Proof.
  induction fuel as [|fuel IH]; simpl; [apply tidy_hang|].
  apply after_recvmsg. intros w w1 s errno msg' data' E Hw Hr.
  destruct (Z.leb_spec s 0).
  { repeat tidy_from_step. }
  specialize (Hr ltac:(lia)).
  pose proof (tidy_from_close_received w w1 msg' Hr).
  repeat tidy_from_step; auto.
Qed.

Lemma tidy_proxy_socket_recvmsg apple socket data msg out_size :
  tidy (proxy_socket_recvmsg apple socket data msg out_size).
Proof. apply tidy_with_fuel. intros. apply tidy_proxy_recvmsg_loop. Qed.

Lemma tidy_render_socket_recvmsg apple socket data msg out_size :
  tidy (render_socket_recvmsg apple socket data msg out_size).
Proof. apply tidy_with_fuel. intros. apply tidy_render_recvmsg_loop. Qed.

#[local] Hint Resolve tidy_proxy_socket_recvmsg tidy_render_socket_recvmsg : tidy.

Lemma tidy_proxy_receive_loop fuel socket size max_fd_count total_read data msg fds out_fd_count :
  tidy (proxy_receive_loop fuel socket size max_fd_count total_read data msg fds out_fd_count).
Proof.
  revert total_read data msg fds out_fd_count.
  induction fuel as [|fuel IH]; intros; simpl; tidy_tac; auto.
Qed.

Lemma tidy_render_receive_loop fuel socket size max_fd_count total_read data msg fds out_fd_count :
  tidy (render_receive_loop fuel socket size max_fd_count total_read data msg fds out_fd_count).
Proof.
  revert total_read data msg fds out_fd_count.
  induction fuel as [|fuel IH]; intros; simpl; tidy_tac; auto.
Qed.

Lemma tidy_proxy_socket_receive_reply_internal apple socket data size fds max_fd_count out_fd_count :
  tidy (proxy_socket_receive_reply_internal apple socket data size fds max_fd_count out_fd_count).
Proof.
  unfold proxy_socket_receive_reply_internal, proxy_socket_read_all, socket_read_all.
  tidy_tac; auto using tidy_proxy_receive_loop, tidy_read_all_loop, tidy_log.
Qed.

Lemma tidy_render_socket_receive_request_internal apple socket data max_size out_size fds
    max_fd_count out_fd_count :
  tidy (render_socket_receive_request_internal apple socket data max_size out_size fds
          max_fd_count out_fd_count).
Proof.
  unfold render_socket_receive_request_internal, render_socket_read_all, socket_read_all.
  tidy_tac; auto using tidy_render_receive_loop, tidy_read_all_loop, tidy_log.
Qed.

Lemma tidy_render_socket_receive_data apple socket data size :
  tidy (render_socket_receive_data apple socket data size).
Proof.
  unfold render_socket_receive_data, render_socket_receive_request.
  tidy_tac; auto using tidy_render_socket_receive_request_internal.
Qed.

Lemma tidy_is_connected_loop fuel fd : tidy (is_connected_loop fuel fd).
Proof. induction fuel as [|fuel IH]; simpl; tidy_tac; auto. Qed.

Lemma tidy_never_closes {A} (m : M A) (fd : Z) (w : world) :
  tidy m -> fd < next_fd w -> never_closes fd m w.
Proof.
  intros Hm Hfd. destruct (Hm w) as [_ (l & Hc & Hl)].
  exists l. split; [exact Hc|]. intros Hin.
  rewrite Forall_forall in Hl. apply list_elem_of_In in Hin. specialize (Hl _ Hin). lia.
Qed.


(** C10: an endpoint's own descriptor, one that was handed out before the
    operation started, is closed by no send, receive, capability probe or
    liveness probe of either endpoint in either build, whether the operation
    returns, stops at an assertion or blocks: whatever such an operation
    closes was handed to it by the kernel in the course of that operation.
    [proxy_socket_fini] and [render_socket_fini] make exactly one close, of
    the endpoint's descriptor.  (The operations take the endpoint by value
    and return none: its fd field is only ever read.) *)
Theorem C10_only_fini_closes_the_socket (apple : bool) (ps : proxy_socket)
    (rs : render_socket) (data : option (list byte)) (size : Z)
    (fds : option (list Z)) (n : Z) (out_size out_fd_count : option Z) (w : world) :
  proxy_fd ps < next_fd w ->
  render_fd rs < next_fd w ->
  never_closes (proxy_fd ps)
    (proxy_socket_send_request_internal apple ps data size fds n) w /\
  never_closes (proxy_fd ps)
    (proxy_socket_receive_reply_internal apple ps data size fds n out_fd_count) w /\
  never_closes (proxy_fd ps) (proxy_socket_is_seqpacket apple (proxy_fd ps)) w /\
  never_closes (proxy_fd ps) (proxy_socket_is_connected ps) w /\
  never_closes (render_fd rs)
    (render_socket_send_reply_internal apple rs data size fds n) w /\
  never_closes (render_fd rs)
    (render_socket_receive_request_internal apple rs data size out_size fds n
       out_fd_count) w /\
  never_closes (render_fd rs) (render_socket_receive_data apple rs data size) w /\
  never_closes (render_fd rs) (render_socket_is_seqpacket apple (render_fd rs)) w /\
  closed (final_world (proxy_socket_fini ps w)) = closed w ++ [proxy_fd ps] /\
  closed (final_world (render_socket_fini rs w)) = closed w ++ [render_fd rs].
Proof.
  intros Hp Hr.
  repeat split; try reflexivity; apply tidy_never_closes; auto.
  - apply tidy_socket_send_internal. apply tidy_log.
  - apply tidy_proxy_socket_receive_reply_internal.
  - unfold proxy_socket_is_seqpacket. tidy_tac.
  - apply tidy_with_fuel. intros. apply tidy_is_connected_loop.
  - apply tidy_socket_send_internal. apply tidy_log.
  - apply tidy_render_socket_receive_request_internal.
  - apply tidy_render_socket_receive_data.
  - unfold render_socket_is_seqpacket. tidy_tac.
Qed.

(** ** The descriptor block of a stream-framing send *)

Lemma attached_once_none (l : list send_call) :
  attached_once None l -> Forall (fun c => sc_control c = None) l.
Proof.
  induction 1 as [|c cs Hc Hr Ha IH|c cs Hc Hr Hf]; constructor; auto.
Qed.

Lemma sys_sendmsg_sends (fd : Z) (mem : list byte) (msg : msghdr) (nosignal : bool)
    (w : world) :
  match sys_sendmsg fd mem msg nosignal w with
  | Ret (r, errno) w' =>
      sends w' = sends w ++ [{| sc_fd := fd; sc_len := iov_len msg;
                                sc_control := msg_control msg; sc_ret := r |}] /\
      (0 <= iov_len msg -> r <= iov_len msg)
  | Abort w' => sends w' = sends w
  | Hang w' => w' = w
  end.
Proof.
  unfold sys_sendmsg, next_event, record_send, kernel_send. unfold_monad.
  destruct (oracle w) as [|[e|n fl anc] o]; simpl; auto.
  { split; [reflexivity | lia]. }
  destruct (socket_of fd (set_oracle o w)) as [so|]; simpl; auto.
  2:{ split; [reflexivity | lia]. }
  destruct (files w !! so_peer so) as [[ff [pso|]]|]; simpl; auto.
  2,3: destruct nosignal; simpl; auto; split; [reflexivity | lia].
  split; [reflexivity|]. intros Hlen.
  rewrite length_take. unfold bytes_at. rewrite length_take. lia.
Qed.

Lemma bytes_moved_accepted (c : send_call) (calls : list send_call) :
  bytes_moved (accepted_calls (c :: calls))
  = (if 0 <=? sc_ret c then sc_ret c else 0) + bytes_moved (accepted_calls calls).
Proof. unfold accepted_calls. simpl. destruct (0 <=? sc_ret c); reflexivity. Qed.

Lemma sendmsg_stream_loop_sends log (fuel : nat) (fd : Z) (data : list byte) (msg : msghdr)
    (size total_sent : Z) (fds_sent : bool) (w : world) :
  (forall s w, sends (final_world (log s w)) = sends w) ->
  exists calls,
    sends (final_world (sendmsg_stream_loop log fuel fd data msg size total_sent fds_sent w))
      = sends w ++ calls /\
    (if fds_sent then Forall (fun c => sc_control c = None) calls
     else attached_once (msg_control msg) calls) /\
    (forall w', sendmsg_stream_loop log fuel fd data msg size total_sent fds_sent w
                  = Ret true w' ->
                total_sent <= size ->
                total_sent + bytes_moved (accepted_calls calls) = size).
Proof.
  intros Hlog. revert total_sent fds_sent w.
  induction fuel as [|fuel IH]; intros total_sent fds_sent w; simpl.
  - exists []. rewrite app_nil_r.
    destruct (Z.ltb_spec total_sent size); simpl;
      (split; [reflexivity|]); (split; [destruct fds_sent; constructor|]).
    + discriminate.
    + intros w' _ Hle. unfold bytes_moved. simpl. lia.
  - destruct (Z.ltb_spec total_sent size) as [Hlt|Hge]; simpl.
    2:{ exists []. rewrite app_nil_r. split; [reflexivity|].
        split; [destruct fds_sent; constructor|].
        intros w' _ Hle. unfold bytes_moved. simpl. lia. }
    unfold mbind at 1 3, M_bind at 1 3.
    match goal with |- context [sys_sendmsg fd data ?m false w] => set (send_msg := m) end.
    pose proof (sys_sendmsg_sends fd data send_msg false w) as S.
    destruct (sys_sendmsg fd data send_msg false w) as [[s errno] w1|w1|w1].
    2:{ exists []. rewrite app_nil_r. simpl. split; [exact S|].
        split; [destruct fds_sent; constructor | discriminate]. }
    2:{ subst w1. exists []. rewrite app_nil_r. split; [reflexivity|].
        split; [destruct fds_sent; constructor | discriminate]. }
    destruct S as [S Hbound].
    assert (Hctl : msg_control send_msg = if fds_sent then None else msg_control msg).
    { subst send_msg. unfold has_control. destruct fds_sent; simpl; [reflexivity|].
      destruct (msg_control msg); reflexivity. }
    assert (Hlen : iov_len send_msg = size - total_sent).
    { subst send_msg. destruct (negb fds_sent && has_control msg); reflexivity. }
    rewrite Hctl in S. clear Hctl. rewrite Hlen in Hbound.
    set (c := {| sc_fd := fd; sc_len := iov_len send_msg;
                 sc_control := if fds_sent then None else msg_control msg;
                 sc_ret := s |}) in *.
    destruct (Z.ltb_spec s 0) as [Hs|Hs].
    + destruct (is_transient errno).
      * destruct (IH total_sent fds_sent w1) as (calls & E & P & B).
        exists (c :: calls). rewrite E, S, <- app_assoc. split; [reflexivity|].
        split; [destruct fds_sent; [constructor; auto|]; apply ao_retry; auto|].
        intros w' E' Hle. rewrite bytes_moved_accepted. simpl.
        destruct (Z.leb_spec 0 s); [lia|]. apply (B w' E' Hle).
      * exists [c]. unfold mbind, M_bind.
        specialize (Hlog "failed to send message: %s"%string w1).
        destruct (log _ w1); simpl in *; rewrite Hlog, S; (split; [reflexivity|]);
          (split; [destruct fds_sent; [repeat constructor | apply ao_retry; auto; constructor]
                  | discriminate]).
    + destruct (IH (total_sent + s) (if has_control msg then true else fds_sent) w1)
        as (calls & E & P & B).
      exists (c :: calls). rewrite E, S, <- app_assoc. split; [reflexivity|].
      split.
      * destruct fds_sent.
        -- destruct (has_control msg); constructor; auto.
        -- apply ao_sent; auto. unfold has_control in P.
           destruct (msg_control msg); [exact P|]. apply attached_once_none. exact P.
      * intros w' E' Hle. rewrite bytes_moved_accepted. simpl.
        destruct (Z.leb_spec 0 s); [|lia].
        specialize (B w' E' ltac:(lia)). lia.
Qed.

Lemma attached_once_accepted (ctl : option cmsghdr) (calls : list send_call) :
  attached_once ctl calls ->
  match accepted_calls calls with
  | [] => True
  | c :: cs => sc_control c = ctl /\ Forall (fun c' => sc_control c' = None) cs
  end.
Proof.
  induction 1 as [|c cs Hc Hr Ha IH|c cs Hc Hr Hf]; simpl; auto.
  - destruct (Z.leb_spec 0 (sc_ret c)); [lia | exact IH].
  - destruct (Z.leb_spec 0 (sc_ret c)); [|lia]. split; [exact Hc|].
    unfold accepted_calls. rewrite Forall_forall in *. intros x Hx.
    apply Hf. apply list_elem_of_In in Hx. apply filter_In in Hx. apply list_elem_of_In. tauto.
Qed.

Lemma log_msg_sends (s : string) (w : world) : sends (final_world (log_msg s w)) = sends w.
Proof. reflexivity. Qed.

(** The calls of one stream-framing send, for either endpoint. *)
Lemma socket_sendmsg_calls (fd : Z) (data : list byte) (msg : msghdr) (w : world) :
  exists calls,
    sends (final_world (socket_sendmsg log_msg true fd data msg w)) = sends w ++ calls /\
    attached_once (msg_control msg) calls /\
    match accepted_calls calls with
    | [] => True
    | c :: cs =>
        sc_control c = msg_control msg /\ Forall (fun c' => sc_control c' = None) cs
    end /\
    (forall w', socket_sendmsg log_msg true fd data msg w = Ret true w' ->
                0 < iov_len msg ->
                exists c cs,
                  accepted_calls calls = c :: cs /\ sc_control c = msg_control msg /\
                  Forall (fun c' => sc_control c' = None) cs /\
                  bytes_moved (c :: cs) = iov_len msg).
Proof.
  unfold socket_sendmsg. unfold_monad.
  destruct (msg_iovlen msg =? 1); simpl.
  - unfold with_fuel.
    destruct (sendmsg_stream_loop_sends log_msg (S (length (oracle w))) fd data msg
                (iov_len msg) 0 false w log_msg_sends) as (calls & E & A & B).
    exists calls. split; [exact E|]. split; [exact A|].
    pose proof (attached_once_accepted _ _ A) as Acc.
    split; [exact Acc|].
    intros w' E' Hpos. specialize (B w' E' ltac:(lia)).
    destruct (accepted_calls calls) as [|c cs].
    + unfold bytes_moved in B. simpl in B. lia.
    + exists c, cs. destruct Acc as [Ac Af]. repeat split; auto.
  - exists []. rewrite app_nil_r. split; [reflexivity|]. split; [constructor|].
    split; [exact I | discriminate].
Qed.

(** C7: in the stream-framing build, the sendmsg calls that one send of
    either endpoint makes carry the descriptor block as follows: every call
    up to and including the first one that the kernel accepts has it, and no
    later call has it; a call that failed with EINTR or EAGAIN before it
    moved nothing and is repeated with the block still attached.  This holds
    for the calls made so far however the send ends.  And when the send of
    a payload of at least one byte returns true, the kernel did accept
    calls: the first of them carries the block, the others carry none, and
    together they moved exactly the bytes of the payload. *)
Theorem C7_descriptors_attached_once (ps : proxy_socket) (rs : render_socket)
    (data : list byte) (msg : msghdr) (w : world) :
  (exists calls,
     sends (final_world (proxy_socket_sendmsg true ps data msg w)) = sends w ++ calls /\
     attached_once (msg_control msg) calls /\
     match accepted_calls calls with
     | [] => True
     | c :: cs =>
         sc_control c = msg_control msg /\ Forall (fun c' => sc_control c' = None) cs
     end /\
     (forall w', proxy_socket_sendmsg true ps data msg w = Ret true w' ->
                 0 < iov_len msg ->
                 exists c cs,
                   accepted_calls calls = c :: cs /\ sc_control c = msg_control msg /\
                   Forall (fun c' => sc_control c' = None) cs /\
                   bytes_moved (c :: cs) = iov_len msg)) /\
  (exists calls,
     sends (final_world (render_socket_sendmsg true rs data msg w)) = sends w ++ calls /\
     attached_once (msg_control msg) calls /\
     match accepted_calls calls with
     | [] => True
     | c :: cs =>
         sc_control c = msg_control msg /\ Forall (fun c' => sc_control c' = None) cs
     end /\
     (forall w', render_socket_sendmsg true rs data msg w = Ret true w' ->
                 0 < iov_len msg ->
                 exists c cs,
                   accepted_calls calls = c :: cs /\ sc_control c = msg_control msg /\
                   Forall (fun c' => sc_control c' = None) cs /\
                   bytes_moved (c :: cs) = iov_len msg)).
Proof.
  split.
  - apply (socket_sendmsg_calls (proxy_fd ps) data msg w).
  - apply (socket_sendmsg_calls (render_fd rs) data msg w).
Qed.

(** ** Transient failures and end of file *)

Lemma is_transient_errno (t : transient) : is_transient (transient_errno t) = true.
Proof.
  unfold is_transient. destruct t; simpl; rewrite Z.eqb_refl; [reflexivity|].
  apply orb_true_r.
Qed.

Lemma set_oracle_same (w : world) : set_oracle (oracle w) w = w.
Proof. destruct w; reflexivity. Qed.

Lemma delayed_nil (w : world) : delayed [] w = w.
Proof. unfold delayed. simpl. apply set_oracle_same. Qed.

Lemma delayed_cons (t : transient) (ts : list transient) (w : world) :
  delayed (t :: ts) w = set_oracle (Fails (transient_errno t) :: oracle (delayed ts w)) (delayed ts w).
Proof. reflexivity. Qed.

Lemma set_sends_same (w : world) : set_sends (sends w ++ []) w = w.
Proof. destruct w; unfold set_sends; simpl. rewrite app_nil_r. reflexivity. Qed.

(** One transient failure in front of each loop. *)
Lemma read_all_loop_retry log t fuel fd buf remaining w :
  0 < remaining ->
  read_all_loop log (S fuel) fd buf remaining
      (set_oracle (Fails (transient_errno t) :: oracle w) w)
    = read_all_loop log fuel fd buf remaining w.
Proof.
  intros Hr. simpl. destruct (Z.ltb_spec 0 remaining); [|lia].
  unfold sys_read, next_event. unfold_monad. simpl.
  rewrite is_transient_errno.
  change (set_oracle (oracle w) _) with (set_oracle (oracle w) w).
  rewrite set_oracle_same. reflexivity.
Qed.

Lemma write_all_loop_retry log t fuel fd p remaining w :
  0 < remaining ->
  write_all_loop log (S fuel) fd p remaining
      (set_oracle (Fails (transient_errno t) :: oracle w) w)
    = write_all_loop log fuel fd p remaining w.
Proof.
  intros Hr. simpl. destruct (Z.ltb_spec 0 remaining); [|lia].
  unfold sys_write, next_event. unfold_monad. simpl.
  rewrite is_transient_errno.
  change (set_oracle (oracle w) _) with (set_oracle (oracle w) w).
  rewrite set_oracle_same. reflexivity.
Qed.

Lemma proxy_recvmsg_loop_retry t fuel apple ps data msg out_size w :
  proxy_recvmsg_loop (S fuel) apple ps data msg out_size
      (set_oracle (Fails (transient_errno t) :: oracle w) w)
    = proxy_recvmsg_loop fuel apple ps data msg out_size w.
Proof.
  simpl. unfold sys_recvmsg, next_event. unfold_monad. simpl.
  pose proof (is_transient_errno t) as T.
  destruct (Z.ltb_spec (-1) 0); [|lia].
  rewrite T.
  change (set_oracle (oracle w) _) with (set_oracle (oracle w) w).
  rewrite set_oracle_same. reflexivity.
Qed.

Lemma render_recvmsg_loop_retry t fuel apple rs data msg out_size w :
  render_recvmsg_loop (S fuel) apple rs data msg out_size
      (set_oracle (Fails (transient_errno t) :: oracle w) w)
    = render_recvmsg_loop fuel apple rs data msg out_size w.
Proof.
  simpl. unfold sys_recvmsg, next_event. unfold_monad. simpl.
  rewrite is_transient_errno.
  change (set_oracle (oracle w) _) with (set_oracle (oracle w) w).
  rewrite set_oracle_same. reflexivity.
Qed.

Lemma sendmsg_native_loop_retry log t fuel fd data msg w :
  sendmsg_native_loop log (S fuel) fd data msg
      (set_oracle (Fails (transient_errno t) :: oracle w) w)
    = sendmsg_native_loop log fuel fd data msg
        (set_sends (sends w ++ [failed_send fd msg]) w).
Proof.
  simpl. unfold sys_sendmsg, next_event, record_send. unfold_monad. simpl.
  rewrite is_transient_errno.
  reflexivity.
Qed.

Lemma sendmsg_stream_loop_retry log t fuel fd data msg size total_sent fds_sent w :
  total_sent < size ->
  sendmsg_stream_loop log (S fuel) fd data msg size total_sent fds_sent
      (set_oracle (Fails (transient_errno t) :: oracle w) w)
    = sendmsg_stream_loop log fuel fd data msg size total_sent fds_sent
        (set_sends (sends w ++ [failed_send fd (stream_send_msg msg size total_sent fds_sent)]) w).
Proof.
  intros Hs. simpl. destruct (Z.ltb_spec total_sent size); [|lia].
  unfold sys_sendmsg, next_event, record_send. unfold_monad. simpl.
  rewrite is_transient_errno.
  reflexivity.
Qed.


Lemma set_sends_twice (s1 s2 : list send_call) (w : world) :
  set_sends (sends (set_sends (sends w ++ s1) w) ++ s2) (set_sends (sends w ++ s1) w)
    = set_sends (sends w ++ s1 ++ s2) w.
Proof. unfold set_sends. simpl. rewrite <- app_assoc. reflexivity. Qed.

(** C8: at any point of any of the six I/O loops of the engine (exact
    read, exact write, the receive helper of either endpoint, the
    stream-framing and the native send), when the next system calls fail
    with EINTR or EAGAIN, however many times in a row, the loop repeats the
    call and is then where it would have been had those failures not
    happened; the send loops differ only in the failed calls on record.  So
    no such failure reaches the caller.  A read or a receive that returns 0
    bytes with bytes still to come makes the loop return false at once, in
    the world that very call left: it is not repeated. *)
Theorem C8_transient_failures_retried (log : string -> M unit) (ts : list transient)
    (fuel : nat) (apple : bool) (ps : proxy_socket) (rs : render_socket) (fd : Z)
    (buf data : list byte) (remaining size total_sent : Z) (fds_sent : bool)
    (msg : msghdr) (out_size : option Z) (w w1 : world)
    (errno : Z) (chunk : list byte) (msg' : msghdr) (data' : list byte) :
  (0 < remaining ->
   read_all_loop log (length ts + fuel) fd buf remaining (delayed ts w)
     = read_all_loop log fuel fd buf remaining w) /\
  (0 < remaining ->
   write_all_loop log (length ts + fuel) fd buf remaining (delayed ts w)
     = write_all_loop log fuel fd buf remaining w) /\
  proxy_recvmsg_loop (length ts + fuel) apple ps data msg out_size (delayed ts w)
    = proxy_recvmsg_loop fuel apple ps data msg out_size w /\
  render_recvmsg_loop (length ts + fuel) apple rs data msg out_size (delayed ts w)
    = render_recvmsg_loop fuel apple rs data msg out_size w /\
  (total_sent < size ->
   sendmsg_stream_loop log (length ts + fuel) fd data msg size total_sent fds_sent
       (delayed ts w)
     = sendmsg_stream_loop log fuel fd data msg size total_sent fds_sent
         (set_sends
            (sends w ++ repeat (failed_send fd (stream_send_msg msg size total_sent fds_sent))
                          (length ts)) w)) /\
  sendmsg_native_loop log (length ts + fuel) fd data msg (delayed ts w)
    = sendmsg_native_loop log fuel fd data msg
        (set_sends (sends w ++ repeat (failed_send fd msg) (length ts)) w) /\
  (0 < remaining ->
   sys_read fd remaining w = Ret (0, errno, chunk) w1 ->
   read_all_loop log (S fuel) fd buf remaining w = Ret (false, buf) w1) /\
  (sys_recvmsg (proxy_fd ps) data msg (negb apple) w = Ret (0, errno, msg', data') w1 ->
   proxy_recvmsg_loop (S fuel) apple ps data msg out_size w
     = Ret (false, msg', data', out_size) w1) /\
  (sys_recvmsg (render_fd rs) data msg (negb apple) w = Ret (0, errno, msg', data') w1 ->
   render_recvmsg_loop (S fuel) apple rs data msg out_size w
     = Ret (false, msg', data', out_size) w1).
Proof.
  repeat split.
  - intros Hr. revert w. induction ts as [|t ts IH]; intros w.
    + rewrite delayed_nil. reflexivity.
    + rewrite delayed_cons. simpl length. rewrite Nat.add_succ_l.
      rewrite read_all_loop_retry by exact Hr. apply IH.
  - intros Hr. revert w. induction ts as [|t ts IH]; intros w.
    + rewrite delayed_nil. reflexivity.
    + rewrite delayed_cons. simpl length. rewrite Nat.add_succ_l.
      rewrite write_all_loop_retry by exact Hr. apply IH.
  - revert w. induction ts as [|t ts IH]; intros w.
    + rewrite delayed_nil. reflexivity.
    + rewrite delayed_cons. simpl length. rewrite Nat.add_succ_l.
      rewrite proxy_recvmsg_loop_retry. apply IH.
  - revert w. induction ts as [|t ts IH]; intros w.
    + rewrite delayed_nil. reflexivity.
    + rewrite delayed_cons. simpl length. rewrite Nat.add_succ_l.
      rewrite render_recvmsg_loop_retry. apply IH.
  - intros Hs. revert w. induction ts as [|t ts IH]; intros w.
    + rewrite delayed_nil. simpl. rewrite set_sends_same. reflexivity.
    + rewrite delayed_cons. simpl length. rewrite Nat.add_succ_l.
      rewrite sendmsg_stream_loop_retry by exact Hs.
      set (f := failed_send fd (stream_send_msg msg size total_sent fds_sent)).
      change (set_sends (sends (delayed ts w) ++ [f]) (delayed ts w))
        with (delayed ts (set_sends (sends w ++ [f]) w)).
      rewrite IH. fold f. rewrite set_sends_twice. reflexivity.
  - revert w. induction ts as [|t ts IH]; intros w.
    + rewrite delayed_nil. simpl. rewrite set_sends_same. reflexivity.
    + rewrite delayed_cons. simpl length. rewrite Nat.add_succ_l.
      rewrite sendmsg_native_loop_retry.
      set (f := failed_send fd msg).
      change (set_sends (sends (delayed ts w) ++ [f]) (delayed ts w))
        with (delayed ts (set_sends (sends w ++ [f]) w)).
      rewrite IH. fold f. rewrite set_sends_twice. reflexivity.
  - intros Hr E. simpl. destruct (Z.ltb_spec 0 remaining); [|lia].
    unfold mbind, M_bind. rewrite E. reflexivity.
  - intros E. simpl. unfold mbind, M_bind. rewrite E. reflexivity.
  - intros E. simpl. unfold mbind, M_bind. rewrite E. reflexivity.
Qed.

(** ** A send followed by a receive *)

Lemma xfer_len_bounds (n len : Z) : 0 < len -> (1 <= xfer_len n len <= Z.to_nat len)%nat.
Proof. intros Hl. unfold xfer_len. lia. Qed.

Lemma stream_not_packet (a : Z) (q : list (list byte)) :
  is_packet_socket {| so_type := SOCK_STREAM; so_peer := a; so_inbox := q |} = false.
Proof.
  unfold is_packet_socket. simpl. pose proof stream_is_not_seqpacket.
  destruct (Z.eqb_spec SOCK_STREAM SOCK_SEQPACKET); [contradiction | reflexivity].
Qed.

Lemma seqpacket_is_packet (a : Z) (q : list (list byte)) :
  is_packet_socket {| so_type := SOCK_SEQPACKET; so_peer := a; so_inbox := q |} = true.
Proof. unfold is_packet_socket. simpl. apply Z.eqb_refl. Qed.

Lemma linked_put_b (type a b : Z) (q q' : list (list byte)) (fb : Z) (w : world) :
  linked type a b q w ->
  linked type a b q'
    (put_file b {| f_flags := fb;
                   f_sock := Some {| so_type := type; so_peer := a; so_inbox := q' |} |} w).
Proof.
  intros (Hne & fa & fb0 & qa & Ea & Eb). split; [exact Hne|].
  exists fa, fb, qa. unfold put_file. simpl.
  rewrite lookup_insert_ne by auto. rewrite lookup_insert_eq. auto.
Qed.

(** One send on a stream socket. *)
Lemma kernel_send_stream (a b n : Z) (q : list (list byte)) (payload : list byte)
    (ns : bool) (w : world) :
  linked SOCK_STREAM a b q w ->
  exists w' fb,
    kernel_send a n payload ns w
      = Ret (Z.of_nat (length (take (xfer_len n (Z.of_nat (length payload))) payload)), 0) w' /\
    w' = put_file b {| f_flags := fb;
                       f_sock := Some {| so_type := SOCK_STREAM; so_peer := a;
                                         so_inbox := q ++ [take (xfer_len n (Z.of_nat (length payload))) payload] |} |} w.
Proof.
  intros (Hne & fa & fb & qa & Ea & Eb).
  unfold kernel_send, socket_of. rewrite Ea. simpl. rewrite Eb.
  unfold accepted. rewrite stream_not_packet. simpl.
  eexists _, fb. split; reflexivity.
Qed.

Lemma kernel_send_packet (a b n : Z) (q : list (list byte)) (payload : list byte)
    (ns : bool) (w : world) :
  linked SOCK_SEQPACKET a b q w ->
  exists w' fb,
    kernel_send a n payload ns w = Ret (Z.of_nat (length payload), 0) w' /\
    w' = put_file b {| f_flags := fb;
                       f_sock := Some {| so_type := SOCK_SEQPACKET; so_peer := a;
                                         so_inbox := q ++ [payload] |} |} w.
Proof.
  intros (Hne & fa & fb & qa & Ea & Eb).
  unfold kernel_send, socket_of. rewrite Ea. simpl. rewrite Eb.
  unfold accepted. rewrite seqpacket_is_packet. rewrite Nat2Z.id, firstn_all.
  eexists _, fb. split; reflexivity.
Qed.

(** One receive on a stream socket with bytes queued. *)
Lemma kernel_recv_stream (a b n len : Z) (q : list (list byte)) (w : world) :
  linked SOCK_STREAM a b q w -> concat q <> [] ->
  exists w' fb,
    kernel_recv b n len w
      = Ret (Z.of_nat (length (take (xfer_len n len) (concat q))), 0,
             take (xfer_len n len) (concat q), false) w' /\
    w' = put_file b {| f_flags := fb;
                       f_sock := Some {| so_type := SOCK_STREAM; so_peer := a;
                                         so_inbox := [drop (xfer_len n len) (concat q)] |} |} w.
Proof.
  intros (Hne & fa & fb & qa & Ea & Eb) Hq.
  unfold kernel_recv. rewrite Eb.
  unfold inbox_empty, pull. rewrite stream_not_packet. simpl.
  destruct (concat q) eqn:Ec; [contradiction|].
  eexists _, fb. split; reflexivity.
Qed.

Lemma kernel_recv_packet (a b n len : Z) (d : list byte) (q : list (list byte)) (w : world) :
  linked SOCK_SEQPACKET a b (d :: q) w ->
  exists w' fb,
    kernel_recv b n len w
      = Ret (Z.of_nat (length (take (Z.to_nat len) d)), 0, take (Z.to_nat len) d,
             Z.of_nat (length d) >? len) w' /\
    w' = put_file b {| f_flags := fb;
                       f_sock := Some {| so_type := SOCK_SEQPACKET; so_peer := a;
                                         so_inbox := q |} |} w.
Proof.
  intros (Hne & fa & fb & qa & Ea & Eb).
  unfold kernel_recv. rewrite Eb.
  unfold inbox_empty, pull. rewrite seqpacket_is_packet. simpl.
  eexists _, fb. split; reflexivity.
Qed.


Lemma sys_write_fails fd p c e o w :
  oracle w = Fails e :: o -> sys_write fd p c w = Ret (-1, e) (set_oracle o w).
Proof. intros E. unfold sys_write, next_event. unfold_monad. rewrite E. reflexivity. Qed.

Lemma sys_write_returns fd p c n fl anc o w :
  oracle w = Returns n fl anc :: o ->
  sys_write fd p c w = kernel_send fd n (take (Z.to_nat c) p) false (set_oracle o w).
Proof.
  intros E. unfold sys_write, next_event. unfold_monad. rewrite E.
  destruct (kernel_send fd n (take (Z.to_nat c) p) false (set_oracle o w)); reflexivity.
Qed.

Lemma calm_intro (N : nat) (w : world) :
  Forall (fun e => quiet e = true) (oracle w) -> (N <= successes (oracle w))%nat -> calm N w.
Proof. split; assumption. Qed.

Lemma write_all_stream log (a b : Z) (o : list event) :
  forall (w : world) (fuel : nat) (p : list byte) (N : nat) (q : list (list byte)),
    oracle w = o ->
    Forall (fun e => quiet e = true) o ->
    (N + length p <= successes o)%nat ->
    (length o < fuel)%nat ->
    linked SOCK_STREAM a b q w ->
    exists w' q',
      write_all_loop log fuel a p (Z.of_nat (length p)) w = Ret true w' /\
      linked SOCK_STREAM a b q' w' /\ concat q' = concat q ++ p /\ calm N w'.
Proof.
  induction o as [|e o IH]; intros w fuel p N q Eo Hq Hs Hf L.
  - simpl in Hs. assert (p = []) as -> by (destruct p; [reflexivity | simpl in Hs; lia]).
    exists w, q. destruct fuel; simpl; rewrite app_nil_r;
      (split; [reflexivity|]); (split; [exact L|]); (split; [reflexivity|]);
      apply calm_intro; rewrite Eo; simpl; [constructor | lia | constructor | lia].
  - destruct fuel as [|fuel]; [simpl in Hf; lia|].
    destruct p as [|x p].
    { exists w, q. simpl. rewrite app_nil_r.
      split; [reflexivity|]. split; [exact L|]. split; [reflexivity|].
      apply calm_intro; rewrite Eo; [exact Hq | simpl in *; lia]. }
    cbn [write_all_loop].
    destruct (Z.ltb_spec 0 (Z.of_nat (length (x :: p)))) as [_|Hl]; [|cbn [length] in Hl; lia].
    inversion Hq as [|e' o' Hqe Hqo]; subst e' o'.
    unfold mbind at 1, M_bind at 1.
    destruct e as [errno|n fl anc].
    + rewrite (sys_write_fails _ _ _ _ _ _ Eo).
      destruct (Z.ltb_spec (-1) 0); [|lia].
      simpl in Hqe. rewrite Hqe.
      apply (IH (set_oracle o w) fuel (x :: p) N q); auto. simpl in Hf. lia.
    + rewrite (sys_write_returns _ _ _ _ _ _ _ _ Eo).
      rewrite Nat2Z.id, firstn_all.
      destruct (kernel_send_stream a b n q (x :: p) false (set_oracle o w) L)
        as (w1 & fb & E1 & Ew1).
      rewrite E1.
      set (k := xfer_len n (Z.of_nat (length (x :: p)))) in *.
      assert (Hpos : 0 < Z.of_nat (length (x :: p))) by (clear; cbn [length]; lia).
      pose proof (xfer_len_bounds n (Z.of_nat (length (x :: p))) Hpos) as Hk.
      fold k in Hk. rewrite Nat2Z.id in Hk.
      assert (Hlen : length (take k (x :: p)) = k) by (rewrite length_take; lia).
      rewrite Hlen.
      destruct (Z.ltb_spec (Z.of_nat k) 0); [lia|].
      rewrite Nat2Z.id.
      replace (Z.of_nat (length (x :: p)) - Z.of_nat k)
        with (Z.of_nat (length (drop k (x :: p)))) by (rewrite length_drop; lia).
      destruct (IH w1 fuel (drop k (x :: p)) N (q ++ [take k (x :: p)])) as (w' & q' & E' & L' & C' & Cm');
        try (subst w1; reflexivity); auto.
      * simpl in Hs. rewrite length_drop. cbn [length] in *. lia.
      * simpl in Hf. lia.
      * subst w1. eapply linked_put_b. exact L.
      * exists w', q'. split; [exact E'|]. split; [exact L'|]. split; [|exact Cm'].
        rewrite C', concat_app. simpl. rewrite app_nil_r, <- app_assoc.
        rewrite take_drop. reflexivity.
Qed.


Lemma sys_sendmsg_fails fd mem msg ns e o w :
  oracle w = Fails e :: o ->
  sys_sendmsg fd mem msg ns w
    = Ret (-1, e) (set_sends (sends w ++ [failed_send fd msg]) (set_oracle o w)).
Proof.
  intros E. unfold sys_sendmsg, next_event, record_send. unfold_monad. rewrite E.
  reflexivity.
Qed.

Lemma sys_sendmsg_returns fd mem msg ns n fl anc o w r errno w1 :
  oracle w = Returns n fl anc :: o ->
  kernel_send fd n (bytes_at mem (iov_base msg) (iov_len msg)) ns (set_oracle o w)
    = Ret (r, errno) w1 ->
  sys_sendmsg fd mem msg ns w
    = Ret (r, errno)
        (set_sends (sends w1 ++ [{| sc_fd := fd; sc_len := iov_len msg;
                                    sc_control := msg_control msg; sc_ret := r |}]) w1).
Proof.
  intros E K. unfold sys_sendmsg, next_event, record_send. unfold_monad. rewrite E.
  rewrite K. reflexivity.
Qed.

Lemma bytes_at_rest (data : list byte) (total : nat) :
  bytes_at data (0 + Z.of_nat total) (Z.of_nat (length data) - Z.of_nat total)
    = drop total data.
Proof.
  unfold bytes_at. rewrite Z.add_0_l, Nat2Z.id.
  apply take_ge. rewrite length_drop. lia.
Qed.

Lemma sendmsg_stream log (a b : Z) (o : list event) :
  forall (w : world) (fuel : nat) (data : list byte) (msg : msghdr) (total N : nat)
         (q : list (list byte)) (fds_sent : bool),
    oracle w = o ->
    Forall (fun e => quiet e = true) o ->
    (N + (length data - total) <= successes o)%nat ->
    (length o < fuel)%nat ->
    linked SOCK_STREAM a b q w ->
    iov_base msg = 0 ->
    (total <= length data)%nat ->
    exists w' q',
      sendmsg_stream_loop log fuel a data msg (Z.of_nat (length data)) (Z.of_nat total)
          fds_sent w = Ret true w' /\
      linked SOCK_STREAM a b q' w' /\ concat q' = concat q ++ drop total data /\ calm N w'.
Proof.
  induction o as [|e o IH]; intros w fuel data msg total N q fds_sent Eo Hq Hs Hf L Hb Ht.
  - simpl in Hs. assert (total = length data) as -> by lia.
    exists w, q. rewrite drop_all, app_nil_r.
    destruct fuel; simpl; rewrite Z.ltb_irrefl;
      (split; [reflexivity|]); (split; [exact L|]); (split; [reflexivity|]);
      apply calm_intro; rewrite Eo; simpl; try constructor; lia.
  - destruct fuel as [|fuel]; [simpl in Hf; lia|].
    cbn [sendmsg_stream_loop].
    destruct (Z.ltb_spec (Z.of_nat total) (Z.of_nat (length data))) as [Hlt|Hge].
    2:{ assert (total = length data) as -> by lia.
        exists w, q. rewrite drop_all, app_nil_r.
        split; [reflexivity|]. split; [exact L|]. split; [reflexivity|].
        apply calm_intro; rewrite Eo; [exact Hq | lia]. }
    inversion Hq as [|e' o' Hqe Hqo]; subst e' o'.
    match goal with |- context [sys_sendmsg a data ?m] => set (send_msg := m) end.
    assert (Hbytes : bytes_at data (iov_base send_msg) (iov_len send_msg) = drop total data).
    { subst send_msg. rewrite Hb.
      destruct (negb fds_sent && has_control msg); simpl; apply bytes_at_rest. }
    unfold mbind at 1, M_bind at 1.
    destruct e as [errno|n fl anc].
    + rewrite (sys_sendmsg_fails _ _ _ _ _ _ _ Eo).
      destruct (Z.ltb_spec (-1) 0); [|lia].
      simpl in Hqe. rewrite Hqe.
      apply (IH _ fuel data msg total N q); auto. simpl in Hf. lia.
    + destruct (kernel_send_stream a b n q (drop total data) false (set_oracle o w) L)
        as (w1 & fb & E1 & Ew1).
      rewrite <- Hbytes in E1 at 1.
      rewrite (sys_sendmsg_returns _ _ _ _ _ _ _ _ _ _ _ _ Eo E1).
      set (k := xfer_len n (Z.of_nat (length (drop total data)))) in *.
      assert (Hpos : 0 < Z.of_nat (length (drop total data))) by (rewrite length_drop; lia).
      pose proof (xfer_len_bounds n _ Hpos) as Hk.
      fold k in Hk. rewrite Nat2Z.id in Hk. rewrite length_drop in Hk.
      assert (Hlen : length (take k (drop total data)) = k)
        by (rewrite length_take, length_drop; lia).
      rewrite Hlen.
      destruct (Z.ltb_spec (Z.of_nat k) 0); [lia|].
      replace (Z.of_nat total + Z.of_nat k) with (Z.of_nat (total + k)) by lia.
      destruct (IH (set_sends
                      (sends w1 ++ [{| sc_fd := a; sc_len := iov_len send_msg;
                                       sc_control := msg_control send_msg;
                                       sc_ret := Z.of_nat k |}]) w1)
                  fuel data msg (total + k)%nat N (q ++ [take k (drop total data)])
                  (if has_control msg then true else fds_sent))
        as (w' & q' & E' & L' & C' & Cm'); auto.
      * subst w1. reflexivity.
      * simpl in Hs. lia.
      * simpl in Hf. lia.
      * subst w1. eapply linked_put_b. exact L.
      * lia.
      * exists w', q'. split; [exact E'|]. split; [exact L'|]. split; [|exact Cm'].
        rewrite C', concat_app. simpl. rewrite app_nil_r, <- app_assoc.
        rewrite <- drop_drop, take_drop. reflexivity.
Qed.


Lemma sys_read_fails fd c e o w :
  oracle w = Fails e :: o -> sys_read fd c w = Ret (-1, e, []) (set_oracle o w).
Proof. intros E. unfold sys_read, next_event. unfold_monad. rewrite E. reflexivity. Qed.

Lemma sys_read_returns fd c n fl anc o w r errno chunk short w1 :
  oracle w = Returns n fl anc :: o ->
  kernel_recv fd n c (set_oracle o w) = Ret (r, errno, chunk, short) w1 ->
  sys_read fd c w = Ret (r, errno, chunk) w1.
Proof.
  intros E K. unfold sys_read, next_event. unfold_monad. rewrite E, K. reflexivity.
Qed.

Lemma app_not_nil (bytes rest : list byte) : bytes <> [] -> bytes ++ rest <> [].
Proof. destruct bytes; [contradiction | discriminate]. Qed.

Lemma read_all_stream log (a b : Z) (o : list event) :
  forall (w : world) (fuel : nat) (buf bytes rest : list byte) (N : nat)
         (q : list (list byte)),
    oracle w = o ->
    Forall (fun e => quiet e = true) o ->
    (N + length bytes <= successes o)%nat ->
    (length o < fuel)%nat ->
    linked SOCK_STREAM a b q w ->
    concat q = bytes ++ rest ->
    exists w' q',
      read_all_loop log fuel b buf (Z.of_nat (length bytes)) w
        = Ret (true, buf ++ bytes) w' /\
      linked SOCK_STREAM a b q' w' /\ concat q' = rest /\ calm N w'.
Proof.
  induction o as [|e o IH]; intros w fuel buf bytes rest N q Eo Hq Hs Hf L Hc.
  - simpl in Hs. assert (bytes = []) as -> by (destruct bytes; [reflexivity | simpl in Hs; lia]).
    exists w, q. rewrite app_nil_r.
    destruct fuel; simpl; (split; [reflexivity|]); (split; [exact L|]);
      (split; [exact Hc|]); apply calm_intro; rewrite Eo; simpl; try constructor; lia.
  - destruct fuel as [|fuel]; [simpl in Hf; lia|].
    destruct bytes as [|x bytes].
    { exists w, q. simpl. rewrite app_nil_r.
      split; [reflexivity|]. split; [exact L|]. split; [exact Hc|].
      apply calm_intro; rewrite Eo; [exact Hq | simpl in *; lia]. }
    cbn [read_all_loop].
    destruct (Z.ltb_spec 0 (Z.of_nat (length (x :: bytes)))) as [Hpos|Hl];
      [|cbn [length] in Hl; lia].
    inversion Hq as [|e' o' Hqe Hqo]; subst e' o'.
    unfold mbind at 1, M_bind at 1.
    destruct e as [errno|n fl anc].
    + rewrite (sys_read_fails _ _ _ _ _ Eo).
      destruct (Z.ltb_spec (-1) 0); [|lia].
      simpl in Hqe. rewrite Hqe.
      apply (IH (set_oracle o w) fuel buf (x :: bytes) rest N q); auto. simpl in Hf. lia.
    + assert (Hne : concat q <> []) by (rewrite Hc; discriminate).
      destruct (kernel_recv_stream a b n (Z.of_nat (length (x :: bytes))) q (set_oracle o w) L Hne)
        as (w1 & fb & E1 & Ew1).
      set (k := xfer_len n (Z.of_nat (length (x :: bytes)))) in *.
      pose proof (xfer_len_bounds n _ Hpos) as Hk.
      fold k in Hk. rewrite Nat2Z.id in Hk.
      rewrite Hc in *.
      assert (Htake : take k ((x :: bytes) ++ rest) = take k (x :: bytes))
        by (apply take_app_le; lia).
      rewrite Htake in *.
      assert (Hlen : length (take k (x :: bytes)) = k) by (rewrite length_take; lia).
      rewrite Hlen in E1.
      rewrite (sys_read_returns _ _ _ _ _ _ _ _ _ _ _ _ Eo E1).
      destruct (Z.ltb_spec (Z.of_nat k) 0); [lia|].
      destruct (Z.eqb_spec (Z.of_nat k) 0); [lia|].
      replace (Z.of_nat (length (x :: bytes)) - Z.of_nat k)
        with (Z.of_nat (length (drop k (x :: bytes)))) by (rewrite length_drop; lia).
      destruct (IH w1 fuel (buf ++ take k (x :: bytes)) (drop k (x :: bytes)) rest N
                  [drop k ((x :: bytes) ++ rest)])
        as (w' & q' & E' & L' & C' & Cm'); auto.
      * subst w1. reflexivity.
      * rewrite length_drop. cbn [length successes] in *. lia.
      * simpl in Hf. lia.
      * subst w1. eapply linked_put_b. exact L.
      * cbn [concat]. rewrite app_nil_r. apply drop_app_le. lia.
      * exists w', q'. split; [|auto].
        rewrite E'. rewrite <- app_assoc, take_drop. reflexivity.
Qed.


Lemma sys_recvmsg_fails fd mem msg c e o w :
  oracle w = Fails e :: o ->
  sys_recvmsg fd mem msg c w = Ret (-1, e, msg, mem) (set_oracle o w).
Proof. intros E. unfold sys_recvmsg, next_event. unfold_monad. rewrite E. reflexivity. Qed.

Lemma sys_recvmsg_quiet fd mem msg c n fl o w r errno chunk w1 :
  oracle w = Returns n fl NoAnc :: o ->
  kernel_recv fd n (iov_len msg) (set_oracle o w) = Ret (r, errno, chunk, false) w1 ->
  0 < r ->
  sys_recvmsg fd mem msg c w
    = Ret (r, errno, with_control msg (msg_control msg) 0 fl,
           store_at mem (iov_base msg) chunk) w1.
Proof.
  intros E K Hr.
  pose proof (kernel_recv_spec fd n (iov_len msg) (set_oracle o w)) as S.
  rewrite K in S. destruct S as (_ & _ & _ & _ & _ & _ & K0 & _).
  unfold sys_recvmsg, next_event. unfold_monad. rewrite E, K.
  destruct (has_data fd (set_oracle o w)); [reflexivity|].
  destruct (K0 eq_refl). lia.
Qed.

Lemma cloexec_received_none (msg : msghdr) (c : option cmsghdr) (fl : Z) (w : world) :
  cloexec_received_fds (with_control msg c 0 fl) w = Ret tt w.
Proof.
  unfold cloexec_received_fds. rewrite get_received_fds_none. reflexivity.
Qed.

(** One chunk of a stream-framing receive. *)
Lemma proxy_recvmsg_stream (a b : Z) (o : list event) :
  forall (w : world) (fuel : nat) (data : list byte) (msg : msghdr) (N : nat)
         (q : list (list byte)) (bytes rest : list byte) (out : Z),
    oracle w = o ->
    Forall (fun e => quiet e = true) o ->
    (S N <= successes o)%nat ->
    (length o < fuel)%nat ->
    linked SOCK_STREAM a b q w ->
    concat q = bytes ++ rest ->
    iov_len msg = Z.of_nat (length bytes) -> bytes <> [] ->
    msg_iovlen msg = 1 ->
    exists w' q' k fl,
      (1 <= k <= length bytes)%nat /\
      proxy_recvmsg_loop fuel true {| proxy_fd := b |} data msg (Some out) w
        = Ret (true, with_control msg (msg_control msg) 0 fl,
               store_at data (iov_base msg) (take k bytes), Some (Z.of_nat k)) w' /\
      linked SOCK_STREAM a b q' w' /\ concat q' = drop k bytes ++ rest /\
      calm N w' /\ (length (oracle w') < length o)%nat.
Proof.
  induction o as [|e o IH]; intros w fuel data msg N q bytes rest out Eo Hq Hs Hf L Hc Hl Hne Hi.
  - simpl in Hs. lia.
  - destruct fuel as [|fuel]; [simpl in Hf; lia|].
    cbn [proxy_recvmsg_loop].
    inversion Hq as [|e' o' Hqe Hqo]; subst e' o'.
    unfold mbind at 1, M_bind at 1.
    destruct e as [errno|n fl anc].
    + rewrite (sys_recvmsg_fails _ _ _ _ _ _ _ Eo).
      destruct (Z.ltb_spec (-1) 0); [|lia].
      simpl in Hqe. rewrite Hqe.
      destruct (IH (set_oracle o w) fuel data msg N q bytes rest out)
        as (w' & q' & k & fl & Hk & E' & L' & C' & Cm' & Hlen); auto.
      { simpl in Hf. lia. }
      exists w', q', k, fl. repeat (split; [assumption|]). simpl. lia.
    + destruct anc; simpl in Hqe; try discriminate.
      assert (Hcne : concat q <> []) by (rewrite Hc; apply app_not_nil; exact Hne).
      destruct (kernel_recv_stream a b n (iov_len msg) q (set_oracle o w) L Hcne)
        as (w1 & fb & E1 & Ew1).
      assert (Hpos : 0 < iov_len msg) by (rewrite Hl; destruct bytes; [contradiction | cbn [length]; lia]).
      set (k := xfer_len n (iov_len msg)) in *.
      pose proof (xfer_len_bounds n _ Hpos) as Hk.
      fold k in Hk. rewrite Hl, Nat2Z.id in Hk.
      rewrite Hc in *.
      assert (Htake : take k (bytes ++ rest) = take k bytes) by (apply take_app_le; lia).
      rewrite Htake in *.
      assert (Hlen : length (take k bytes) = k) by (rewrite length_take; lia).
      rewrite Hlen in E1.
      rewrite (sys_recvmsg_quiet _ _ _ _ _ _ _ _ _ _ _ _ Eo E1) by lia.
      destruct (Z.ltb_spec (Z.of_nat k) 0); [lia|].
      destruct (Z.eqb_spec (Z.of_nat k) 0); [lia|].
      unfold_monad. cbn [msg_iovlen with_control msg_flags]. rewrite Hi. simpl (1 =? 1).
      cbv iota. rewrite Hqe. change (negb true) with false. cbv beta iota.
      rewrite cloexec_received_none.
      exists w1, [drop k (bytes ++ rest)], k, fl.
      split; [exact Hk|]. split; [reflexivity|].
      split; [subst w1; eapply linked_put_b; exact L|].
      split; [cbn [concat]; rewrite app_nil_r; apply drop_app_le; lia|].
      split; [subst w1; apply calm_intro; simpl; [exact Hqo | simpl in Hs; lia]|].
      subst w1. simpl. lia.
Qed.

Lemma render_recvmsg_stream (a b : Z) (o : list event) :
  forall (w : world) (fuel : nat) (data : list byte) (msg : msghdr) (N : nat)
         (q : list (list byte)) (bytes rest : list byte) (out : Z),
    oracle w = o ->
    Forall (fun e => quiet e = true) o ->
    (S N <= successes o)%nat ->
    (length o < fuel)%nat ->
    linked SOCK_STREAM a b q w ->
    concat q = bytes ++ rest ->
    iov_len msg = Z.of_nat (length bytes) -> bytes <> [] ->
    exists w' q' k fl,
      (1 <= k <= length bytes)%nat /\
      render_recvmsg_loop fuel true {| render_fd := b |} data msg (Some out) w
        = Ret (true, with_control msg (msg_control msg) 0 fl,
               store_at data (iov_base msg) (take k bytes), Some (Z.of_nat k)) w' /\
      linked SOCK_STREAM a b q' w' /\ concat q' = drop k bytes ++ rest /\
      calm N w' /\ (length (oracle w') < length o)%nat.
Proof.
  induction o as [|e o IH]; intros w fuel data msg N q bytes rest out Eo Hq Hs Hf L Hc Hl Hne.
  - simpl in Hs. lia.
  - destruct fuel as [|fuel]; [simpl in Hf; lia|].
    cbn [render_recvmsg_loop].
    inversion Hq as [|e' o' Hqe Hqo]; subst e' o'.
    unfold mbind at 1, M_bind at 1.
    destruct e as [errno|n fl anc].
    + rewrite (sys_recvmsg_fails _ _ _ _ _ _ _ Eo).
      destruct (Z.leb_spec (-1) 0); [|lia].
      destruct (Z.eqb_spec (-1) 0); [lia|].
      simpl in Hqe. rewrite Hqe.
      destruct (IH (set_oracle o w) fuel data msg N q bytes rest out)
        as (w' & q' & k & fl & Hk & E' & L' & C' & Cm' & Hlen); auto.
      { simpl in Hf. lia. }
      exists w', q', k, fl. repeat (split; [assumption|]). simpl. lia.
    + destruct anc; simpl in Hqe; try discriminate.
      assert (Hcne : concat q <> []) by (rewrite Hc; apply app_not_nil; exact Hne).
      destruct (kernel_recv_stream a b n (iov_len msg) q (set_oracle o w) L Hcne)
        as (w1 & fb & E1 & Ew1).
      assert (Hpos : 0 < iov_len msg) by (rewrite Hl; destruct bytes; [contradiction | cbn [length]; lia]).
      set (k := xfer_len n (iov_len msg)) in *.
      pose proof (xfer_len_bounds n _ Hpos) as Hk.
      fold k in Hk. rewrite Hl, Nat2Z.id in Hk.
      rewrite Hc in *.
      assert (Htake : take k (bytes ++ rest) = take k bytes) by (apply take_app_le; lia).
      rewrite Htake in *.
      assert (Hlen : length (take k bytes) = k) by (rewrite length_take; lia).
      rewrite Hlen in E1.
      rewrite (sys_recvmsg_quiet _ _ _ _ _ _ _ _ _ _ _ _ Eo E1) by lia.
      destruct (Z.leb_spec (Z.of_nat k) 0); [lia|].
      unfold_monad. cbn [msg_iovlen with_control msg_flags].
      rewrite Hqe. change (negb true) with false. cbv beta iota.
      rewrite cloexec_received_none.
      exists w1, [drop k (bytes ++ rest)], k, fl.
      split; [exact Hk|]. split; [reflexivity|].
      split; [subst w1; eapply linked_put_b; exact L|].
      split; [cbn [concat]; rewrite app_nil_r; apply drop_app_le; lia|].
      split; [subst w1; apply calm_intro; simpl; [exact Hqo | simpl in Hs; lia]|].
      subst w1. simpl. lia.
Qed.



Lemma store_at_length (data chunk : list byte) (total : nat) :
  (total + length chunk <= length data)%nat ->
  length (store_at data (Z.of_nat total) chunk) = length data.
Proof.
  intros Hl. unfold store_at. rewrite Nat2Z.id.
  rewrite !length_app, length_take, length_drop. lia.
Qed.

Lemma store_at_take (data chunk : list byte) (total : nat) :
  (total + length chunk <= length data)%nat ->
  take (total + length chunk) (store_at data (Z.of_nat total) chunk)
    = take total data ++ chunk.
Proof.
  intros Hl. unfold store_at. rewrite Nat2Z.id.
  rewrite app_assoc. apply take_app_length'.
  rewrite length_app, length_take. lia.
Qed.

Lemma store_at_drop (data chunk : list byte) (total n : nat) :
  (total + length chunk <= n)%nat -> (n <= length data)%nat ->
  drop n (store_at data (Z.of_nat total) chunk) = drop n data.
Proof.
  intros Hl Hn. unfold store_at. rewrite Nat2Z.id.
  rewrite app_assoc. rewrite drop_app_ge by (rewrite length_app, length_take; lia).
  rewrite length_app, length_take, drop_drop.
  f_equal. lia.
Qed.

Lemma take_plus (l : list byte) (n m : nat) :
  take (n + m) l = take n l ++ take m (drop n l).
Proof.
  rewrite <- (take_drop n l) at 1.
  destruct (le_lt_dec n (length l)) as [Hle|Hgt].
  - rewrite take_app_ge by (rewrite length_take; lia).
    rewrite length_take. f_equal. f_equal. lia.
  - rewrite drop_ge by lia. rewrite app_nil_r, take_nil, app_nil_r.
    rewrite take_take. f_equal. lia.
Qed.

Lemma proxy_receive_stream (a b : Z) (payload rest : list byte) (max_fd_count : Z)
    (fds : option (list Z)) (out_fd_count : option Z) :
  forall (fuel : nat) (w : world) (data : list byte) (msg : msghdr) (total N : nat)
         (q : list (list byte)),
    (length (oracle w) < fuel)%nat ->
    calm (N + (length payload - total)) w ->
    linked SOCK_STREAM a b q w ->
    concat q = drop total payload ++ rest ->
    msg_control msg = None -> msg_iovlen msg = 1 ->
    (total <= length payload)%nat -> (length payload <= length data)%nat ->
    take total data = take total payload ->
    exists w' q' data',
      proxy_receive_loop fuel {| proxy_fd := b |} (Z.of_nat (length payload)) max_fd_count
          (Z.of_nat total) data msg fds out_fd_count w
        = Ret (true, data', fds,
               if is_null fds then store_if out_fd_count 0 else out_fd_count) w' /\
      take (length payload) data' = payload /\
      drop (length payload) data' = drop (length payload) data /\
      linked SOCK_STREAM a b q' w' /\ concat q' = rest /\ calm N w'.
Proof.
  induction fuel as [|fuel IH]; intros w data msg total N q Hf Cm L Hc Hctl Hi Ht Hd Hpre;
    [lia|].
  cbn [proxy_receive_loop].
  destruct (Z.ltb_spec (Z.of_nat total) (Z.of_nat (length payload))) as [Hlt|Hge].
  2:{ assert (total = length payload) by lia. subst total.
      exists w, q, data. split; [reflexivity|].
      rewrite drop_all in Hc. rewrite firstn_all in Hpre.
      split; [exact Hpre|]. split; [reflexivity|]. split; [exact L|]. split; [exact Hc|].
      destruct Cm as [C1 C2]. split; [exact C1|lia]. }
  set (msg1 := with_iov msg (Z.of_nat total)
                 (Z.of_nat (length payload) - Z.of_nat total)).
  destruct Cm as [C1 C2].
  assert (Hbytes : drop total payload <> []).
  { intros E. apply (f_equal length) in E. rewrite length_drop in E. simpl in E. lia. }
  destruct (proxy_recvmsg_stream a b (oracle w) w (S (length (oracle w))) data msg1
              (N + (length payload - total) - 1) q (drop total payload) rest 0)
    as (w1 & q1 & k & fl & Hk & E1 & L1 & Hc1 & Cm1 & Hlen1); auto; try lia.
  { subst msg1. simpl. rewrite length_drop. lia. }
  rewrite length_drop in Hk.
  unfold mbind at 1, M_bind at 1. unfold proxy_socket_recvmsg, with_fuel. rewrite E1.
  cbn [negb default from_option]. unfold id. cbv beta iota.
  replace (has_control (with_control msg1 (msg_control msg1) 0 fl)) with false
    by (unfold has_control; subst msg1; simpl; rewrite Hctl; reflexivity).
  replace (Z.of_nat total + Z.of_nat k) with (Z.of_nat (total + k)) by lia.
  assert (Hchunk : length (take k (drop total payload)) = k)
    by (rewrite length_take, length_drop; lia).
  assert (Hbase : iov_base msg1 = Z.of_nat total) by reflexivity.
  rewrite Hbase in *.
  set (data1 := store_at data (Z.of_nat total) (take k (drop total payload))) in *.
  assert (A1 : calm (N + (length payload - (total + k))) w1).
  { destruct Cm1 as [D1 D2]. split; [exact D1 | lia]. }
  assert (A2 : concat q1 = drop (total + k) payload ++ rest).
  { rewrite Hc1, drop_drop. reflexivity. }
  assert (A3 : msg_control (with_control msg1 (msg_control msg1) 0 fl) = None).
  { simpl. exact Hctl. }
  assert (A4 : msg_iovlen (with_control msg1 (msg_control msg1) 0 fl) = 1).
  { simpl. exact Hi. }
  assert (A5 : (length payload <= length data1)%nat).
  { subst data1. rewrite store_at_length; lia. }
  assert (A6 : take (total + k) data1 = take (total + k) payload).
  { subst data1. rewrite <- Hchunk at 1. rewrite store_at_take by lia.
    rewrite Hpre. symmetry. apply take_plus. }
  assert (A7 : drop (length payload) data1 = drop (length payload) data).
  { subst data1. apply store_at_drop; lia. }
  destruct (IH w1 data1 (with_control msg1 (msg_control msg1) 0 fl) (total + k)%nat N q1)
    as (w' & q' & data' & E' & T' & D' & L' & C' & Cm'); auto; try lia.
  exists w', q', data'. split; [exact E'|]. split; [exact T'|].
  split; [|auto]. rewrite D'. exact A7.
Qed.

Lemma render_receive_stream (a b : Z) (payload rest : list byte) (max_fd_count : Z)
    (fds : option (list Z)) (out_fd_count : option Z) :
  forall (fuel : nat) (w : world) (data : list byte) (msg : msghdr) (total N : nat)
         (q : list (list byte)),
    (length (oracle w) < fuel)%nat ->
    calm (N + (length payload - total)) w ->
    linked SOCK_STREAM a b q w ->
    concat q = drop total payload ++ rest ->
    msg_control msg = None -> msg_iovlen msg = 1 ->
    (total <= length payload)%nat -> (length payload <= length data)%nat ->
    take total data = take total payload ->
    exists w' q' data',
      render_receive_loop fuel {| render_fd := b |} (Z.of_nat (length payload)) max_fd_count
          (Z.of_nat total) data msg fds out_fd_count w
        = Ret (true, data', fds,
               if is_null fds then store_if out_fd_count 0 else out_fd_count) w' /\
      take (length payload) data' = payload /\
      drop (length payload) data' = drop (length payload) data /\
      linked SOCK_STREAM a b q' w' /\ concat q' = rest /\ calm N w'.
Proof.
  induction fuel as [|fuel IH]; intros w data msg total N q Hf Cm L Hc Hctl Hi Ht Hd Hpre;
    [lia|].
  cbn [render_receive_loop].
  destruct (Z.ltb_spec (Z.of_nat total) (Z.of_nat (length payload))) as [Hlt|Hge].
  2:{ assert (total = length payload) by lia. subst total.
      exists w, q, data. split; [reflexivity|].
      rewrite drop_all in Hc. rewrite firstn_all in Hpre.
      split; [exact Hpre|]. split; [reflexivity|]. split; [exact L|]. split; [exact Hc|].
      destruct Cm as [C1 C2]. split; [exact C1|lia]. }
  set (msg1 := with_iov msg (Z.of_nat total)
                 (Z.of_nat (length payload) - Z.of_nat total)).
  destruct Cm as [C1 C2].
  assert (Hbytes : drop total payload <> []).
  { intros E. apply (f_equal length) in E. rewrite length_drop in E. simpl in E. lia. }
  destruct (render_recvmsg_stream a b (oracle w) w (S (length (oracle w))) data msg1
              (N + (length payload - total) - 1) q (drop total payload) rest 0)
    as (w1 & q1 & k & fl & Hk & E1 & L1 & Hc1 & Cm1 & Hlen1); auto; try lia.
  { subst msg1. simpl. rewrite length_drop. lia. }
  rewrite length_drop in Hk.
  unfold mbind at 1, M_bind at 1. unfold render_socket_recvmsg, with_fuel. rewrite E1.
  cbn [negb default from_option]. unfold id. cbv beta iota.
  replace (has_control (with_control msg1 (msg_control msg1) 0 fl)) with false
    by (unfold has_control; subst msg1; simpl; rewrite Hctl; reflexivity).
  replace (Z.of_nat total + Z.of_nat k) with (Z.of_nat (total + k)) by lia.
  assert (Hchunk : length (take k (drop total payload)) = k)
    by (rewrite length_take, length_drop; lia).
  assert (Hbase : iov_base msg1 = Z.of_nat total) by reflexivity.
  rewrite Hbase in *.
  set (data1 := store_at data (Z.of_nat total) (take k (drop total payload))) in *.
  assert (A1 : calm (N + (length payload - (total + k))) w1).
  { destruct Cm1 as [D1 D2]. split; [exact D1 | lia]. }
  assert (A2 : concat q1 = drop (total + k) payload ++ rest).
  { rewrite Hc1, drop_drop. reflexivity. }
  assert (A3 : msg_control (with_control msg1 (msg_control msg1) 0 fl) = None).
  { simpl. exact Hctl. }
  assert (A4 : msg_iovlen (with_control msg1 (msg_control msg1) 0 fl) = 1).
  { simpl. exact Hi. }
  assert (A5 : (length payload <= length data1)%nat).
  { subst data1. rewrite store_at_length; lia. }
  assert (A6 : take (total + k) data1 = take (total + k) payload).
  { subst data1. rewrite <- Hchunk at 1. rewrite store_at_take by lia.
    rewrite Hpre. symmetry. apply take_plus. }
  assert (A7 : drop (length payload) data1 = drop (length payload) data).
  { subst data1. apply store_at_drop; lia. }
  destruct (IH w1 data1 (with_control msg1 (msg_control msg1) 0 fl) (total + k)%nat N q1)
    as (w' & q' & data' & E' & T' & D' & L' & C' & Cm'); auto; try lia.
  exists w', q', data'. split; [exact E'|]. split; [exact T'|].
  split; [|auto]. rewrite D'. exact A7.
Qed.



(** The native build: one datagram per message. *)
Lemma sendmsg_native log (a b : Z) (o : list event) :
  forall (w : world) (fuel : nat) (data : list byte) (msg : msghdr) (N : nat)
         (q : list (list byte)),
    oracle w = o ->
    Forall (fun e => quiet e = true) o ->
    (S N <= successes o)%nat ->
    (length o < fuel)%nat ->
    linked SOCK_SEQPACKET a b q w ->
    iov_base msg = 0 -> iov_len msg = Z.of_nat (length data) -> msg_iovlen msg = 1 ->
    exists w',
      sendmsg_native_loop log fuel a data msg w = Ret true w' /\
      linked SOCK_SEQPACKET a b (q ++ [data]) w' /\ calm N w'.
Proof.
  induction o as [|e o IH]; intros w fuel data msg N q Eo Hq Hs Hf L Hb Hl Hi.
  - simpl in Hs. lia.
  - destruct fuel as [|fuel]; [simpl in Hf; lia|].
    cbn [sendmsg_native_loop].
    inversion Hq as [|e' o' Hqe Hqo]; subst e' o'.
    unfold mbind at 1, M_bind at 1.
    destruct e as [errno|n fl anc].
    + rewrite (sys_sendmsg_fails _ _ _ _ _ _ _ Eo).
      destruct (Z.ltb_spec (-1) 0); [|lia].
      simpl in Hqe. rewrite Hqe.
      apply (IH _ fuel data msg N q); auto. simpl in Hf. lia.
    + assert (Hbytes : bytes_at data (iov_base msg) (iov_len msg) = data).
      { unfold bytes_at. rewrite Hb, Hl, Nat2Z.id. simpl. apply firstn_all. }
      destruct (kernel_send_packet a b n q data true (set_oracle o w) L)
        as (w1 & fb & E1 & Ew1).
      rewrite <- Hbytes in E1 at 1.
      rewrite (sys_sendmsg_returns _ _ _ _ _ _ _ _ _ _ _ _ Eo E1).
      assert (Hnn : 0 <= Z.of_nat (length data)) by lia.
      destruct (Z.ltb_spec (Z.of_nat (length data)) 0); [lia|].
      unfold_monad. rewrite Hi, Hl, !Z.eqb_refl. simpl.
      eexists. split; [reflexivity|].
      split; [subst w1; eapply linked_put_b; exact L|].
      subst w1. apply calm_intro; simpl; [exact Hqo | simpl in Hs; lia].
Qed.

Lemma kernel_recv_fits (a b n len : Z) (d : list byte) (q : list (list byte)) (w : world) :
  linked SOCK_SEQPACKET a b (d :: q) w ->
  Z.of_nat (length d) <= len ->
  exists w' fb,
    kernel_recv b n len w = Ret (Z.of_nat (length d), 0, d, false) w' /\
    w' = put_file b {| f_flags := fb;
                       f_sock := Some {| so_type := SOCK_SEQPACKET; so_peer := a;
                                         so_inbox := q |} |} w.
Proof.
  intros L Hl. destruct (kernel_recv_packet a b n len d q w L) as (w' & fb & E & Ew).
  exists w', fb. split; [|exact Ew]. rewrite E.
  rewrite take_ge by lia.
  destruct (Z.gtb_spec (Z.of_nat (length d)) len); [lia | reflexivity].
Qed.

Lemma proxy_recvmsg_packet (a b : Z) (o : list event) :
  forall (w : world) (fuel : nat) (data : list byte) (msg : msghdr) (N : nat)
         (d : list byte) (q : list (list byte)) (out_size : option Z),
    oracle w = o ->
    Forall (fun e => quiet e = true) o ->
    (S N <= successes o)%nat ->
    (length o < fuel)%nat ->
    linked SOCK_SEQPACKET a b (d :: q) w ->
    iov_len msg = Z.of_nat (length d) -> d <> [] -> msg_iovlen msg = 1 ->
    exists w' fl,
      proxy_recvmsg_loop fuel false {| proxy_fd := b |} data msg out_size w
        = Ret (true, with_control msg (msg_control msg) 0 fl,
               store_at data (iov_base msg) d,
               store_if out_size (Z.of_nat (length d))) w' /\
      linked SOCK_SEQPACKET a b q w' /\ calm N w'.
Proof.
  induction o as [|e o IH]; intros w fuel data msg N d q out_size Eo Hq Hs Hf L Hl Hne Hi.
  - simpl in Hs. lia.
  - destruct fuel as [|fuel]; [simpl in Hf; lia|].
    cbn [proxy_recvmsg_loop].
    inversion Hq as [|e' o' Hqe Hqo]; subst e' o'.
    unfold mbind at 1, M_bind at 1.
    destruct e as [errno|n fl anc].
    + rewrite (sys_recvmsg_fails _ _ _ _ _ _ _ Eo).
      destruct (Z.ltb_spec (-1) 0); [|lia].
      simpl in Hqe. rewrite Hqe.
      destruct (IH (set_oracle o w) fuel data msg N d q out_size)
        as (w' & fl & E' & L' & Cm'); auto.
      { simpl in Hf. lia. }
      exists w', fl. auto.
    + destruct anc; simpl in Hqe; try discriminate.
      destruct (kernel_recv_fits a b n (iov_len msg) d q (set_oracle o w) L) as (w1 & fb & E1 & Ew1);
        [lia|].
      assert (Hpos : 0 < Z.of_nat (length d)) by (destruct d; [contradiction | cbn [length]; lia]).
      rewrite (sys_recvmsg_quiet _ _ _ _ _ _ _ _ _ _ _ _ Eo E1) by lia.
      destruct (Z.ltb_spec (Z.of_nat (length d)) 0); [lia|].
      destruct (Z.eqb_spec (Z.of_nat (length d)) 0); [lia|].
      unfold_monad. cbn [msg_iovlen with_control msg_flags iov_len]. rewrite Hi. simpl (1 =? 1).
      cbv iota. rewrite Hqe. change (negb true) with false.
      change (negb false) with true. cbv beta iota.
      rewrite Hl, Z.eqb_refl. change (negb true) with false. cbv beta iota.
      exists w1, fl. split; [reflexivity|].
      split; [subst w1; eapply linked_put_b; exact L|].
      subst w1. apply calm_intro; simpl; [exact Hqo | simpl in Hs; lia].
Qed.

Lemma render_recvmsg_packet (a b : Z) (o : list event) :
  forall (w : world) (fuel : nat) (data : list byte) (msg : msghdr) (N : nat)
         (d : list byte) (q : list (list byte)) (out : Z),
    oracle w = o ->
    Forall (fun e => quiet e = true) o ->
    (S N <= successes o)%nat ->
    (length o < fuel)%nat ->
    linked SOCK_SEQPACKET a b (d :: q) w ->
    Z.of_nat (length d) <= iov_len msg -> d <> [] ->
    exists w' fl,
      render_recvmsg_loop fuel false {| render_fd := b |} data msg (Some out) w
        = Ret (true, with_control msg (msg_control msg) 0 fl,
               store_at data (iov_base msg) d, Some (Z.of_nat (length d))) w' /\
      linked SOCK_SEQPACKET a b q w' /\ calm N w'.
Proof.
  induction o as [|e o IH]; intros w fuel data msg N d q out Eo Hq Hs Hf L Hl Hne.
  - simpl in Hs. lia.
  - destruct fuel as [|fuel]; [simpl in Hf; lia|].
    cbn [render_recvmsg_loop].
    inversion Hq as [|e' o' Hqe Hqo]; subst e' o'.
    unfold mbind at 1, M_bind at 1.
    destruct e as [errno|n fl anc].
    + rewrite (sys_recvmsg_fails _ _ _ _ _ _ _ Eo).
      destruct (Z.leb_spec (-1) 0); [|lia].
      destruct (Z.eqb_spec (-1) 0); [lia|].
      simpl in Hqe. rewrite Hqe.
      destruct (IH (set_oracle o w) fuel data msg N d q out)
        as (w' & fl & E' & L' & Cm'); auto.
      { simpl in Hf. lia. }
      exists w', fl. auto.
    + destruct anc; simpl in Hqe; try discriminate.
      destruct (kernel_recv_fits a b n (iov_len msg) d q (set_oracle o w) L) as (w1 & fb & E1 & Ew1);
        [lia|].
      assert (Hpos : 0 < Z.of_nat (length d)) by (destruct d; [contradiction | cbn [length]; lia]).
      rewrite (sys_recvmsg_quiet _ _ _ _ _ _ _ _ _ _ _ _ Eo E1) by lia.
      destruct (Z.leb_spec (Z.of_nat (length d)) 0); [lia|].
      unfold_monad. cbn [msg_iovlen with_control msg_flags iov_len].
      rewrite Hqe. change (negb true) with false. cbv beta iota.
      exists w1, fl. split; [reflexivity|].
      split; [subst w1; eapply linked_put_b; exact L|].
      subst w1. apply calm_intro; simpl; [exact Hqo | simpl in Hs; lia].
Qed.


Lemma encode_header_length (size fd_count : Z) : length (encode_header size fd_count) = 8%nat.
Proof. unfold encode_header. rewrite length_app, !length_le_split. reflexivity. Qed.

Lemma header_size_encode (size fd_count : Z) :
  header_size (encode_header size fd_count) = size mod 2 ^ 32.
Proof.
  unfold header_size, encode_header.
  rewrite take_app_length' by (symmetry; apply length_le_split).
  rewrite le_combine_split. reflexivity.
Qed.

Lemma header_fd_count_encode (size fd_count : Z) :
  header_fd_count (encode_header size fd_count) = fd_count mod 2 ^ 32.
Proof.
  unfold header_fd_count, encode_header.
  rewrite drop_app_length' by (symmetry; apply length_le_split).
  rewrite le_combine_split. reflexivity.
Qed.

Lemma calm_weaken (N M : nat) (w : world) : (M <= N)%nat -> calm N w -> calm M w.
Proof. intros Hle [C1 C2]. split; [exact C1 | lia]. Qed.

Lemma bind_Ret {A B} {m : M A} {k : A -> M B} {w w' : world} {a : A} {r : res B} :
  m w = Ret a w' -> k a w' = r -> (m ≫= k) w = r.
Proof. intros E K. unfold mbind, M_bind. rewrite E. exact K. Qed.

(** A stream-framing send puts the header and the payload on the wire. *)
Lemma send_internal_stream (trace : bool) (max_fds a b : Z) (payload : list byte)
    (N : nat) (q : list (list byte)) (w : world) :
  linked SOCK_STREAM a b q w ->
  calm (N + 8 + length payload) w ->
  payload <> [] ->
  exists w' q',
    socket_send_internal log_msg true trace max_fds a (Some payload)
        (Z.of_nat (length payload)) None 0 w = Ret true w' /\
    linked SOCK_STREAM a b q' w' /\
    concat q' = concat q ++ encode_header (Z.of_nat (length payload) mod 2 ^ 32) 0 ++ payload /\
    calm N w'.
Proof.
  intros L Cm Hne.
  assert (Hpos : 0 < Z.of_nat (length payload))
    by (destruct payload; [contradiction | cbn [length]; lia]).
  set (hdr := encode_header (Z.of_nat (length payload) mod 2 ^ 32) (0 mod 2 ^ 32)).
  assert (Hw : forall w0, linked SOCK_STREAM a b q w0 -> calm (N + 8 + length payload) w0 ->
            exists w1 q1, socket_write_all log_msg a hdr sizeof_hdr w0 = Ret true w1 /\
              linked SOCK_STREAM a b q1 w1 /\ concat q1 = concat q ++ hdr /\
              calm (N + length payload) w1).
  { intros w0 L0 [C1 C2]. unfold socket_write_all, with_fuel.
    replace sizeof_hdr with (Z.of_nat (length hdr))
      by (subst hdr; rewrite encode_header_length; reflexivity).
    apply (write_all_stream log_msg a b (oracle w0)); auto.
    subst hdr. rewrite encode_header_length. lia. }
  assert (Hs : forall w0 q0, linked SOCK_STREAM a b q0 w0 -> calm (N + length payload) w0 ->
            exists w1 q1, socket_sendmsg log_msg true a payload
                            (data_msg (Z.of_nat (length payload))) w0 = Ret true w1 /\
              linked SOCK_STREAM a b q1 w1 /\ concat q1 = concat q0 ++ payload /\ calm N w1).
  { intros w0 q0 L0 [C1 C2]. unfold socket_sendmsg. unfold mbind, M_bind, assert.
    cbn [msg_iovlen data_msg iov_len]. change (1 =? 1) with true. cbv iota.
    unfold with_fuel.
    destruct (sendmsg_stream log_msg a b (oracle w0) w0 (S (length (oracle w0))) payload
                (data_msg (Z.of_nat (length payload))) 0 N q0 false)
      as (w1 & q1 & E1 & L1 & Hc1 & Cm1); auto; try lia.
    exists w1, q1. change (Z.of_nat 0) with 0 in E1. rewrite E1.
    rewrite drop_0 in Hc1. auto. }
  assert (Hhdr : exists w1 q1,
            ((if trace
              then log_msg "proxy_send_request: sending framing header size=%u fd_count=%u"
              else mret tt);; socket_write_all log_msg a hdr sizeof_hdr) w = Ret true w1 /\
            linked SOCK_STREAM a b q1 w1 /\ concat q1 = concat q ++ hdr /\
            calm (N + length payload) w1).
  { destruct trace.
    - destruct (Hw (set_logs (logs w ++ ["proxy_send_request: sending framing header size=%u fd_count=%u"%string]) w))
        as (w1 & q1 & E1 & R1); auto.
      exists w1, q1. split; [|exact R1].
      apply (bind_Ret (m := log_msg _) eq_refl E1).
    - destruct (Hw w) as (w1 & q1 & E1 & R1); auto.
      exists w1, q1. split; [|exact R1].
      apply (bind_Ret (m := mret tt) eq_refl E1). }
  destruct Hhdr as (w1 & q1 & E1 & L1 & Hc1 & Cm1).
  assert (Hpay : exists w2 q2,
            ((if trace then log_msg "proxy_send_request: sending data size=%zu" else mret tt);;
             socket_sendmsg log_msg true a payload (data_msg (Z.of_nat (length payload)))) w1
              = Ret true w2 /\
            linked SOCK_STREAM a b q2 w2 /\ concat q2 = concat q1 ++ payload /\ calm N w2).
  { destruct trace.
    - destruct (Hs (set_logs (logs w1 ++ ["proxy_send_request: sending data size=%zu"%string]) w1) q1)
        as (w2 & q2 & E2 & R2); auto.
      exists w2, q2. split; [|exact R2].
      apply (bind_Ret (m := log_msg _) eq_refl E2).
    - destruct (Hs w1 q1) as (w2 & q2 & E2 & R2); auto.
      exists w2, q2. split; [|exact R2].
      apply (bind_Ret (m := mret tt) eq_refl E2). }
  destruct Hpay as (w2 & q2 & E2 & L2 & Hc2 & Cm2).
  exists w2, q2. split; [|split; [exact L2|split; [|exact Cm2]]].
  - unfold socket_send_internal.
    eapply bind_Ret.
    { unfold assert. cbn [is_null negb andb].
      destruct (Z.eqb_spec (Z.of_nat (length payload)) 0); [lia|]. reflexivity. }
    cbv beta zeta. cbn [default from_option]. unfold id.
    eapply bind_Ret; [exact E1|].
    cbn [negb]. cbv beta iota.
    eapply bind_Ret; [reflexivity|].
    exact E2.
  - rewrite Hc2, Hc1, <- app_assoc. reflexivity.
Qed.


Lemma send_internal_native (trace : bool) (max_fds a b : Z) (payload : list byte)
    (N : nat) (q : list (list byte)) (w : world) :
  linked SOCK_SEQPACKET a b q w ->
  calm (S N) w ->
  payload <> [] ->
  exists w',
    socket_send_internal log_msg false trace max_fds a (Some payload)
        (Z.of_nat (length payload)) None 0 w = Ret true w' /\
    linked SOCK_SEQPACKET a b (q ++ [payload]) w' /\ calm N w'.
Proof.
  intros L Cm Hne.
  assert (Hpos : 0 < Z.of_nat (length payload))
    by (destruct payload; [contradiction | cbn [length]; lia]).
  assert (Hs : forall w0, linked SOCK_SEQPACKET a b q w0 -> calm (S N) w0 ->
            exists w1, socket_sendmsg log_msg false a payload
                         (data_msg (Z.of_nat (length payload))) w0 = Ret true w1 /\
              linked SOCK_SEQPACKET a b (q ++ [payload]) w1 /\ calm N w1).
  { intros w0 L0 [C1 C2]. unfold socket_sendmsg, with_fuel.
    apply (sendmsg_native log_msg a b (oracle w0)); auto. }
  assert (Hpay : exists w2,
            ((if trace then log_msg "proxy_send_request: sending data size=%zu" else mret tt);;
             socket_sendmsg log_msg false a payload (data_msg (Z.of_nat (length payload)))) w
              = Ret true w2 /\
            linked SOCK_SEQPACKET a b (q ++ [payload]) w2 /\ calm N w2).
  { destruct trace.
    - destruct (Hs (set_logs (logs w ++ ["proxy_send_request: sending data size=%zu"%string]) w))
        as (w2 & E2 & R2); auto.
      exists w2. split; [|exact R2].
      apply (bind_Ret (m := log_msg _) eq_refl E2).
    - destruct (Hs w) as (w2 & E2 & R2); auto.
      exists w2. split; [|exact R2].
      apply (bind_Ret (m := mret tt) eq_refl E2). }
  destruct Hpay as (w2 & E2 & L2 & Cm2).
  exists w2. split; [|split; [exact L2|exact Cm2]].
  unfold socket_send_internal.
  eapply bind_Ret.
  { unfold assert. cbn [is_null negb andb].
    destruct (Z.eqb_spec (Z.of_nat (length payload)) 0); [lia|]. reflexivity. }
  cbv beta zeta. cbn [default from_option]. unfold id.
  eapply bind_Ret; [reflexivity|].
  cbn [negb]. cbv beta iota.
  eapply bind_Ret; [reflexivity|].
  exact E2.
Qed.

Lemma assert_nonempty (buf : list byte) (size : Z) (w : world) :
  size <> 0 ->
  assert (negb (is_null (Some buf)) && negb (size =? 0)) w = Ret tt w.
Proof.
  intros Hs. unfold assert. cbn [is_null negb andb].
  destruct (Z.eqb_spec size 0); [contradiction | reflexivity].
Qed.

(** A stream-framing receive of the server takes the header and the
    payload off the wire. *)
Lemma render_receive_request_stream (a b : Z) (payload buf : list byte) (N : nat)
    (q : list (list byte)) (out0 : Z) (w : world) :
  linked SOCK_STREAM a b q w ->
  concat q = encode_header (Z.of_nat (length payload)) 0 ++ payload ->
  calm (N + 8 + length payload) w ->
  payload <> [] -> Z.of_nat (length payload) < 2 ^ 32 ->
  (length payload <= length buf)%nat ->
  exists w' mem,
    render_socket_receive_request true {| render_fd := b |} (Some buf)
        (Z.of_nat (length buf)) (Some out0) w
      = Ret (true, mem, Some (Z.of_nat (length payload)), None, None) w' /\
    take (length payload) mem = payload /\
    drop (length payload) mem = drop (length payload) buf /\
    calm N w'.
Proof.
  intros L Hc Cm Hne Hlt Hfit.
  set (n := Z.of_nat (length payload)) in *.
  assert (Hpos : 0 < n) by (subst n; destruct payload; [contradiction | cbn [length]; lia]).
  set (hdr := encode_header n 0) in *.
  destruct Cm as [C1 C2].
  destruct (read_all_stream render_log a b (oracle w) w (S (length (oracle w))) [] hdr payload
              (N + length payload) q)
    as (w1 & q1 & E1 & L1 & Hc1 & Cm1); auto.
  { subst hdr. rewrite encode_header_length. lia. }
  replace (Z.of_nat (length hdr)) with sizeof_hdr in E1
    by (subst hdr; rewrite encode_header_length; reflexivity).
  assert (Hsize : header_size hdr = n).
  { subst hdr. rewrite header_size_encode. apply Z.mod_small. lia. }
  assert (Hcount : header_fd_count hdr = 0).
  { subst hdr. rewrite header_fd_count_encode. reflexivity. }
  destruct (render_receive_stream a b payload [] 0 None None (S (length (oracle w1))) w1 buf
              (data_msg n) 0 N q1)
    as (w2 & q2 & mem & E2 & T2 & D2 & L2 & Hc2 & Cm2); auto; try lia.
  { destruct Cm1 as [D1 D3]. split; [exact D1 | lia]. }
  { rewrite drop_0, app_nil_r. exact Hc1. }
  exists w2, mem. split; [|auto].
  unfold render_socket_receive_request, render_socket_receive_request_internal.
  eapply bind_Ret; [apply assert_nonempty; lia|].
  cbv beta zeta. cbn [default from_option]. unfold id.
  eapply bind_Ret; [exact E1|].
  cbn [app negb]. cbv beta iota.
  rewrite Hsize, Hcount.
  destruct (Z.ltb_spec (Z.of_nat (length buf)) n); [lia|].
  change (0 <? 0) with false. cbn [andb store_if]. cbv beta iota.
  eapply bind_Ret; [exact E2|].
  reflexivity.
Qed.

Lemma proxy_receive_reply_stream (a b : Z) (payload buf : list byte) (N : nat)
    (q : list (list byte)) (w : world) :
  linked SOCK_STREAM a b q w ->
  concat q = encode_header (Z.of_nat (length payload)) 0 ++ payload ->
  calm (N + 8 + length payload) w ->
  payload <> [] -> Z.of_nat (length payload) < 2 ^ 32 ->
  (length payload <= length buf)%nat ->
  exists w' mem,
    proxy_socket_receive_reply true {| proxy_fd := b |} (Some buf)
        (Z.of_nat (length payload)) w
      = Ret (true, mem, None, None) w' /\
    take (length payload) mem = payload /\
    drop (length payload) mem = drop (length payload) buf /\
    calm N w'.
Proof.
  intros L Hc Cm Hne Hlt Hfit.
  set (n := Z.of_nat (length payload)) in *.
  assert (Hpos : 0 < n) by (subst n; destruct payload; [contradiction | cbn [length]; lia]).
  set (hdr := encode_header n 0) in *.
  destruct Cm as [C1 C2].
  set (w0 := set_logs (logs w ++ ["proxy_receive_reply: reading framing header, expecting size=%zu"%string]) w).
  destruct (read_all_stream proxy_log a b (oracle w0) w0 (S (length (oracle w0))) [] hdr payload
              (N + length payload) q)
    as (w1 & q1 & E1 & L1 & Hc1 & Cm1); auto.
  { subst hdr. rewrite encode_header_length. simpl. lia. }
  replace (Z.of_nat (length hdr)) with sizeof_hdr in E1
    by (subst hdr; rewrite encode_header_length; reflexivity).
  assert (Hsize : header_size hdr = n).
  { subst hdr. rewrite header_size_encode. apply Z.mod_small. lia. }
  assert (Hcount : header_fd_count hdr = 0).
  { subst hdr. rewrite header_fd_count_encode. reflexivity. }
  set (w1' := set_logs (logs w1 ++ ["proxy_receive_reply: got header size=%u fd_count=%u"%string]) w1).
  destruct (proxy_receive_stream a b payload [] 0 None None (S (length (oracle w1'))) w1' buf
              (data_msg n) 0 N q1)
    as (w2 & q2 & mem & E2 & T2 & D2 & L2 & Hc2 & Cm2); auto; try lia.
  { destruct Cm1 as [D1 D3]. split; [exact D1 | simpl; lia]. }
  { rewrite drop_0, app_nil_r. exact Hc1. }
  exists w2, mem. split; [|auto].
  unfold proxy_socket_receive_reply, proxy_socket_receive_reply_internal.
  eapply bind_Ret; [apply assert_nonempty; lia|].
  cbv beta zeta. cbn [default from_option]. unfold id.
  eapply bind_Ret; [reflexivity|].
  eapply bind_Ret; [exact E1|].
  cbn [app negb]. cbv beta iota.
  eapply bind_Ret; [reflexivity|].
  rewrite Hsize, Hcount, Z.eqb_refl.
  change (0 <? 0) with false. cbn [negb andb store_if]. cbv beta iota.
  exact E2.
Qed.


Lemma store_at_start (buf d : list byte) :
  (length d <= length buf)%nat ->
  take (length d) (store_at buf 0 d) = d /\
  drop (length d) (store_at buf 0 d) = drop (length d) buf.
Proof.
  intros Hl. unfold store_at. simpl.
  split.
  - apply take_app_length.
  - rewrite drop_app_length. reflexivity.
Qed.

Lemma render_receive_request_native (a b : Z) (payload buf : list byte) (N : nat)
    (q : list (list byte)) (out0 : Z) (w : world) :
  linked SOCK_SEQPACKET a b (payload :: q) w ->
  calm (S N) w ->
  payload <> [] ->
  (length payload <= length buf)%nat ->
  exists w' mem,
    render_socket_receive_request false {| render_fd := b |} (Some buf)
        (Z.of_nat (length buf)) (Some out0) w
      = Ret (true, mem, Some (Z.of_nat (length payload)), None, None) w' /\
    take (length payload) mem = payload /\
    drop (length payload) mem = drop (length payload) buf /\
    calm N w'.
Proof.
  intros L [C1 C2] Hne Hfit.
  assert (Hpos : 0 < Z.of_nat (length payload))
    by (destruct payload; [contradiction | cbn [length]; lia]).
  destruct (render_recvmsg_packet a b (oracle w) w (S (length (oracle w))) buf
              (data_msg (Z.of_nat (length buf))) N payload q out0)
    as (w1 & fl & E1 & L1 & Cm1); auto.
  { simpl. lia. }
  destruct (store_at_start buf payload Hfit) as [T D].
  exists w1, (store_at buf 0 payload). split; [|auto].
  unfold render_socket_receive_request, render_socket_receive_request_internal.
  eapply bind_Ret; [apply assert_nonempty; lia|].
  cbv beta zeta. cbn [default from_option]. unfold id.
  change (negb (0 =? 0)) with false. cbv beta iota.
  eapply bind_Ret; [reflexivity|].
  eapply bind_Ret; [exact E1|].
  reflexivity.
Qed.

Lemma proxy_receive_reply_native (a b : Z) (payload buf : list byte) (N : nat)
    (q : list (list byte)) (w : world) :
  linked SOCK_SEQPACKET a b (payload :: q) w ->
  calm (S N) w ->
  payload <> [] ->
  (length payload <= length buf)%nat ->
  exists w' mem,
    proxy_socket_receive_reply false {| proxy_fd := b |} (Some buf)
        (Z.of_nat (length payload)) w
      = Ret (true, mem, None, None) w' /\
    take (length payload) mem = payload /\
    drop (length payload) mem = drop (length payload) buf /\
    calm N w'.
Proof.
  intros L [C1 C2] Hne Hfit.
  assert (Hpos : 0 < Z.of_nat (length payload))
    by (destruct payload; [contradiction | cbn [length]; lia]).
  destruct (proxy_recvmsg_packet a b (oracle w) w (S (length (oracle w))) buf
              (data_msg (Z.of_nat (length payload))) N payload q None)
    as (w1 & fl & E1 & L1 & Cm1); auto.
  destruct (store_at_start buf payload Hfit) as [T D].
  exists w1, (store_at buf 0 payload). split; [|auto].
  unfold proxy_socket_receive_reply, proxy_socket_receive_reply_internal.
  eapply bind_Ret; [apply assert_nonempty; lia|].
  cbv beta zeta. cbn [default from_option]. unfold id.
  change (negb (0 =? 0)) with false. cbv beta iota.
  eapply bind_Ret; [reflexivity|].
  eapply bind_Ret; [exact E1|].
  reflexivity.
Qed.

(** C1 (as amended): take the two ends [a] and [b] of a connected pair
    with nothing queued, an environment that fails only with EINTR or EAGAIN,
    reports no truncation and lets enough calls through, and a payload of
    n > 0 bytes (n < 2^32 in the stream-framing build, whose header holds the
    size in 32 bits).  However the kernel splits the transfers:
    - a [proxy_socket_send_request] of the payload on [a] returns true, and
      the [render_socket_receive_request] that follows on [b] with a buffer
      of at least n bytes returns true with out_size = n and the payload in
      the first n bytes of the buffer, the rest of the buffer untouched;
    - a [render_socket_send_reply] of the payload on [a] returns true, and
      the [proxy_socket_receive_reply] that follows on [b] and asks for
      exactly n bytes returns true with the payload in the buffer.
    In both builds. *)
Theorem C1_send_then_receive (apple : bool) (a b : Z) (payload buf : list byte) (w : world) :
  linked (if apple then SOCK_STREAM else SOCK_SEQPACKET) a b [] w ->
  calm (2 * (8 + length payload)) w ->
  payload <> [] ->
  (apple = true -> Z.of_nat (length payload) < 2 ^ 32) ->
  (length payload <= length buf)%nat ->
  (exists w1 w2 mem,
     proxy_socket_send_request apple {| proxy_fd := a |} (Some payload)
         (Z.of_nat (length payload)) w = Ret true w1 /\
     render_socket_receive_request apple {| render_fd := b |} (Some buf)
         (Z.of_nat (length buf)) (Some 0) w1
       = Ret (true, mem, Some (Z.of_nat (length payload)), None, None) w2 /\
     take (length payload) mem = payload /\
     drop (length payload) mem = drop (length payload) buf) /\
  (exists w1 w2 mem,
     render_socket_send_reply apple {| render_fd := a |} (Some payload)
         (Z.of_nat (length payload)) w = Ret true w1 /\
     proxy_socket_receive_reply apple {| proxy_fd := b |} (Some buf)
         (Z.of_nat (length payload)) w1
       = Ret (true, mem, None, None) w2 /\
     take (length payload) mem = payload /\
     drop (length payload) mem = drop (length payload) buf).
Proof.
  intros L Cm Hne Hlt Hfit.
  destruct apple.
  - specialize (Hlt eq_refl).
    assert (Hmod : Z.of_nat (length payload) mod 2 ^ 32 = Z.of_nat (length payload))
      by (apply Z.mod_small; lia).
    assert (Cm' : calm ((8 + length payload) + 8 + length payload) w)
      by (eapply calm_weaken; [|exact Cm]; lia).
    split.
    + destruct (send_internal_stream true PROXY_SOCKET_MAX_FD_COUNT a b payload
                  (8 + length payload) [] w L Cm' Hne) as (w1 & q1 & E1 & L1 & Hc1 & Cm1).
      rewrite Hmod in Hc1. simpl in Hc1.
      destruct (render_receive_request_stream a b payload buf 0 q1 0 w1)
        as (w2 & mem & E2 & T2 & D2 & _); auto.
      exists w1, w2, mem. auto.
    + destruct (send_internal_stream false RENDER_SOCKET_MAX_FD_COUNT a b payload
                  (8 + length payload) [] w L Cm' Hne) as (w1 & q1 & E1 & L1 & Hc1 & Cm1).
      rewrite Hmod in Hc1. simpl in Hc1.
      destruct (proxy_receive_reply_stream a b payload buf 0 q1 w1)
        as (w2 & mem & E2 & T2 & D2 & _); auto.
      exists w1, w2, mem. auto.
  - assert (Cm' : calm 2 w) by (eapply calm_weaken; [|exact Cm]; lia).
    split.
    + destruct (send_internal_native true PROXY_SOCKET_MAX_FD_COUNT a b payload 1 [] w L Cm' Hne)
        as (w1 & E1 & L1 & Cm1).
      destruct (render_receive_request_native a b payload buf 0 [] 0 w1)
        as (w2 & mem & E2 & T2 & D2 & _); auto.
      exists w1, w2, mem. auto.
    + destruct (send_internal_native false RENDER_SOCKET_MAX_FD_COUNT a b payload 1 [] w L Cm' Hne)
        as (w1 & E1 & L1 & Cm1).
      destruct (proxy_receive_reply_native a b payload buf 0 [] w1)
        as (w2 & mem & E2 & T2 & D2 & _); auto.
      exists w1, w2, mem. auto.
Qed.

(** ** Sends of nothing *)

(** C9: a send with a size of 0, or with a null payload pointer, trips the
    precondition [assert(data && size)] of the send on either endpoint and in
    either build: the process stops in the world it started from, so no
    system call is made and nothing is transmitted. *)
Theorem C9_empty_send_rejected (apple : bool) (ps : proxy_socket) (rs : render_socket)
    (data : option (list byte)) (size : Z) (fds : option (list Z)) (fd_count : Z)
    (w : world) :
  proxy_socket_send_request_internal apple ps data 0 fds fd_count w = Abort w /\
  proxy_socket_send_request_internal apple ps None size fds fd_count w = Abort w /\
  render_socket_send_reply_internal apple rs data 0 fds fd_count w = Abort w /\
  render_socket_send_reply_internal apple rs None size fds fd_count w = Abort w.
Proof.
  unfold proxy_socket_send_request_internal, render_socket_send_reply_internal,
    socket_send_internal.
  repeat split; destruct data; reflexivity.
Qed.

(** ** The capability probe *)

(** C5 (as amended): the probe answers from the type of the socket behind
    the descriptor.  When the type query fails it returns false (the proxy
    logs the failure, the render server does not).  Otherwise the native
    build returns true exactly for SOCK_SEQPACKET, and the stream-framing
    build returns true for SOCK_STREAM as well as for SOCK_SEQPACKET. *)
Theorem C5_probe_by_socket_type (apple : bool) (fd : Z) (w : world) :
  proxy_socket_is_seqpacket apple fd w =
    match socket_of fd w with
    | Some so =>
        Ret (if apple then (so_type so =? SOCK_STREAM) || (so_type so =? SOCK_SEQPACKET)
             else so_type so =? SOCK_SEQPACKET) w
    | None => Ret false (set_logs (logs w ++ ["fd %d err %s"%string]) w)
    end /\
  render_socket_is_seqpacket apple fd w =
    match socket_of fd w with
    | Some so =>
        Ret (if apple then (so_type so =? SOCK_STREAM) || (so_type so =? SOCK_SEQPACKET)
             else so_type so =? SOCK_SEQPACKET) w
    | None => Ret false w
    end.
Proof.
  unfold proxy_socket_is_seqpacket, render_socket_is_seqpacket, sys_getsockopt_type,
    proxy_log, log_msg.
  unfold_monad.
  split; destruct (socket_of fd w); destruct apple; reflexivity.
Qed.

(** ** The pair factory *)

(** C4 (as amended): after a successful [proxy_socket_pair] the descriptor
    that goes to the spawned server, out_fds[1], is never marked
    close-on-exec; out_fds[0], which stays, is marked in the stream-framing
    build and left unmarked in the native build.  [render_socket_pair], whose
    descriptors do not cross an exec, marks both in either build. *)
Theorem C4_pair_cloexec (apple : bool) (w w' : world) (a b : Z) :
  (proxy_socket_pair apple w = Ret (true, (a, b)) w' ->
     cloexec_marked w' b = false /\ cloexec_marked w' a = apple) /\
  (render_socket_pair apple w = Ret (true, (a, b)) w' ->
     cloexec_marked w' b = true /\ cloexec_marked w' a = true).
Proof.
  assert (Hne : forall n : Z, n <> n + 1) by (intros; lia).
  assert (Hne' : forall n : Z, n + 1 <> n) by (intros; lia).
  assert (Hc : negb (Z.land FD_CLOEXEC FD_CLOEXEC =? 0) = true).
  { rewrite Z.land_diag. destruct (Z.eqb_spec FD_CLOEXEC 0) as [E0|]; [|reflexivity].
    exfalso. exact (fd_cloexec_nonzero E0). }
  unfold proxy_socket_pair, render_socket_pair, sys_socketpair, next_event,
    set_cloexec, sys_fcntl_getfd, sys_fcntl_setfd, proxy_log, render_log, log_msg.
  unfold_monad.
  split; intros E; destruct apple; destruct (oracle w) as [|[e|n fl anc] o];
    simpl in E; try discriminate;
    repeat (first [ rewrite lookup_insert_eq in E | rewrite lookup_insert_ne in E by auto
                  | rewrite lookup_alter_eq in E | rewrite lookup_alter_ne in E by auto ];
            simpl in E);
    inversion E; subst; clear E;
    unfold cloexec_marked; simpl;
    repeat (first [ rewrite lookup_insert_eq | rewrite lookup_insert_ne by auto
                  | rewrite lookup_alter_eq | rewrite lookup_alter_ne by auto ]; simpl);
    auto.
Qed.

(** ** A connection as a queue of messages *)

Lemma render_request_stream_next (a b : Z) (payload rest buf : list byte) (N : nat)
    (q : list (list byte)) (out0 : Z) (w : world) :
  linked SOCK_STREAM a b q w ->
  concat q = encode_header (Z.of_nat (length payload)) 0 ++ payload ++ rest ->
  calm (N + 8 + length payload) w ->
  payload <> [] -> Z.of_nat (length payload) < 2 ^ 32 ->
  (length payload <= length buf)%nat ->
  exists w' q' mem,
    render_socket_receive_request true {| render_fd := b |} (Some buf)
        (Z.of_nat (length buf)) (Some out0) w
      = Ret (true, mem, Some (Z.of_nat (length payload)), None, None) w' /\
    take (length payload) mem = payload /\
    drop (length payload) mem = drop (length payload) buf /\
    linked SOCK_STREAM a b q' w' /\ concat q' = rest /\
    calm N w'.
Proof.
  intros L Hc Cm Hne Hlt Hfit.
  set (n := Z.of_nat (length payload)) in *.
  assert (Hpos : 0 < n) by (subst n; destruct payload; [contradiction | cbn [length]; lia]).
  set (hdr := encode_header n 0) in *.
  destruct Cm as [C1 C2].
  destruct (read_all_stream render_log a b (oracle w) w (S (length (oracle w))) [] hdr
              (payload ++ rest) (N + length payload) q)
    as (w1 & q1 & E1 & L1 & Hc1 & Cm1); auto.
  { subst hdr. rewrite encode_header_length. lia. }
  replace (Z.of_nat (length hdr)) with sizeof_hdr in E1
    by (subst hdr; rewrite encode_header_length; reflexivity).
  assert (Hsize : header_size hdr = n).
  { subst hdr. rewrite header_size_encode. apply Z.mod_small. lia. }
  assert (Hcount : header_fd_count hdr = 0).
  { subst hdr. rewrite header_fd_count_encode. reflexivity. }
  destruct (render_receive_stream a b payload rest 0 None None (S (length (oracle w1))) w1 buf
              (data_msg n) 0 N q1)
    as (w2 & q2 & mem & E2 & T2 & D2 & L2 & Hc2 & Cm2); auto; try lia.
  { destruct Cm1 as [D1 D3]. split; [exact D1 | lia]. }
  exists w2, q2, mem. split; [|auto 10].
  unfold render_socket_receive_request, render_socket_receive_request_internal.
  eapply bind_Ret; [apply assert_nonempty; lia|].
  cbv beta zeta. cbn [default from_option]. unfold id.
  eapply bind_Ret; [exact E1|].
  cbn [app negb]. cbv beta iota.
  rewrite Hsize, Hcount.
  destruct (Z.ltb_spec (Z.of_nat (length buf)) n); [lia|].
  change (0 <? 0) with false. cbn [andb store_if]. cbv beta iota.
  eapply bind_Ret; [exact E2|].
  reflexivity.
Qed.

Lemma proxy_reply_stream_next (a b : Z) (payload rest buf : list byte) (N : nat)
    (q : list (list byte)) (w : world) :
  linked SOCK_STREAM a b q w ->
  concat q = encode_header (Z.of_nat (length payload)) 0 ++ payload ++ rest ->
  calm (N + 8 + length payload) w ->
  payload <> [] -> Z.of_nat (length payload) < 2 ^ 32 ->
  (length payload <= length buf)%nat ->
  exists w' q' mem,
    proxy_socket_receive_reply true {| proxy_fd := b |} (Some buf)
        (Z.of_nat (length payload)) w
      = Ret (true, mem, None, None) w' /\
    take (length payload) mem = payload /\
    drop (length payload) mem = drop (length payload) buf /\
    linked SOCK_STREAM a b q' w' /\ concat q' = rest /\
    calm N w'.
Proof.
  intros L Hc Cm Hne Hlt Hfit.
  set (n := Z.of_nat (length payload)) in *.
  assert (Hpos : 0 < n) by (subst n; destruct payload; [contradiction | cbn [length]; lia]).
  set (hdr := encode_header n 0) in *.
  destruct Cm as [C1 C2].
  set (w0 := set_logs (logs w ++ ["proxy_receive_reply: reading framing header, expecting size=%zu"%string]) w).
  destruct (read_all_stream proxy_log a b (oracle w0) w0 (S (length (oracle w0))) [] hdr
              (payload ++ rest) (N + length payload) q)
    as (w1 & q1 & E1 & L1 & Hc1 & Cm1); auto.
  { subst hdr. rewrite encode_header_length. simpl. lia. }
  replace (Z.of_nat (length hdr)) with sizeof_hdr in E1
    by (subst hdr; rewrite encode_header_length; reflexivity).
  assert (Hsize : header_size hdr = n).
  { subst hdr. rewrite header_size_encode. apply Z.mod_small. lia. }
  assert (Hcount : header_fd_count hdr = 0).
  { subst hdr. rewrite header_fd_count_encode. reflexivity. }
  set (w1' := set_logs (logs w1 ++ ["proxy_receive_reply: got header size=%u fd_count=%u"%string]) w1).
  destruct (proxy_receive_stream a b payload rest 0 None None (S (length (oracle w1'))) w1' buf
              (data_msg n) 0 N q1)
    as (w2 & q2 & mem & E2 & T2 & D2 & L2 & Hc2 & Cm2); auto; try lia.
  { destruct Cm1 as [D1 D3]. split; [exact D1 | simpl; lia]. }
  exists w2, q2, mem. split; [|auto 10].
  unfold proxy_socket_receive_reply, proxy_socket_receive_reply_internal.
  eapply bind_Ret; [apply assert_nonempty; lia|].
  cbv beta zeta. cbn [default from_option]. unfold id.
  eapply bind_Ret; [reflexivity|].
  eapply bind_Ret; [exact E1|].
  cbn [app negb]. cbv beta iota.
  eapply bind_Ret; [reflexivity|].
  rewrite Hsize, Hcount, Z.eqb_refl.
  change (0 <? 0) with false. cbn [negb andb store_if]. cbv beta iota.
  exact E2.
Qed.

Lemma render_request_native_next (a b : Z) (payload buf : list byte) (N : nat)
    (q : list (list byte)) (out0 : Z) (w : world) :
  linked SOCK_SEQPACKET a b (payload :: q) w ->
  calm (S N) w ->
  payload <> [] ->
  (length payload <= length buf)%nat ->
  exists w' mem,
    render_socket_receive_request false {| render_fd := b |} (Some buf)
        (Z.of_nat (length buf)) (Some out0) w
      = Ret (true, mem, Some (Z.of_nat (length payload)), None, None) w' /\
    take (length payload) mem = payload /\
    drop (length payload) mem = drop (length payload) buf /\
    linked SOCK_SEQPACKET a b q w' /\
    calm N w'.
Proof.
  intros L [C1 C2] Hne Hfit.
  assert (Hpos : 0 < Z.of_nat (length payload))
    by (destruct payload; [contradiction | cbn [length]; lia]).
  destruct (render_recvmsg_packet a b (oracle w) w (S (length (oracle w))) buf
              (data_msg (Z.of_nat (length buf))) N payload q out0)
    as (w1 & fl & E1 & L1 & Cm1); auto.
  { simpl. lia. }
  destruct (store_at_start buf payload Hfit) as [T D].
  exists w1, (store_at buf 0 payload). split; [|auto].
  unfold render_socket_receive_request, render_socket_receive_request_internal.
  eapply bind_Ret; [apply assert_nonempty; lia|].
  cbv beta zeta. cbn [default from_option]. unfold id.
  change (negb (0 =? 0)) with false. cbv beta iota.
  eapply bind_Ret; [reflexivity|].
  eapply bind_Ret; [exact E1|].
  reflexivity.
Qed.

Lemma proxy_reply_native_next (a b : Z) (payload buf : list byte) (N : nat)
    (q : list (list byte)) (w : world) :
  linked SOCK_SEQPACKET a b (payload :: q) w ->
  calm (S N) w ->
  payload <> [] ->
  (length payload <= length buf)%nat ->
  exists w' mem,
    proxy_socket_receive_reply false {| proxy_fd := b |} (Some buf)
        (Z.of_nat (length payload)) w
      = Ret (true, mem, None, None) w' /\
    take (length payload) mem = payload /\
    drop (length payload) mem = drop (length payload) buf /\
    linked SOCK_SEQPACKET a b q w' /\
    calm N w'.
Proof.
  intros L [C1 C2] Hne Hfit.
  assert (Hpos : 0 < Z.of_nat (length payload))
    by (destruct payload; [contradiction | cbn [length]; lia]).
  destruct (proxy_recvmsg_packet a b (oracle w) w (S (length (oracle w))) buf
              (data_msg (Z.of_nat (length payload))) N payload q None)
    as (w1 & fl & E1 & L1 & Cm1); auto.
  destruct (store_at_start buf payload Hfit) as [T D].
  exists w1, (store_at buf 0 payload). split; [|auto].
  unfold proxy_socket_receive_reply, proxy_socket_receive_reply_internal.
  eapply bind_Ret; [apply assert_nonempty; lia|].
  cbv beta zeta. cbn [default from_option]. unfold id.
  change (negb (0 =? 0)) with false. cbv beta iota.
  eapply bind_Ret; [reflexivity|].
  eapply bind_Ret; [exact E1|].
  reflexivity.
Qed.

Lemma queued_snoc_stream (ms q q' : list (list byte)) (p : list byte) :
  queued true ms q ->
  concat q' = concat q ++ encode_header (Z.of_nat (length p) mod 2 ^ 32) 0 ++ p ->
  queued true (ms ++ [p]) q'.
Proof.
  unfold queued. intros Hq Hq'. rewrite Hq', Hq, map_app, concat_app. simpl.
  rewrite app_nil_r. reflexivity.
Qed.

(** X1: a connection is a first-in first-out queue of whole messages, in
    both builds.  In a calm environment (calls fail only with EINTR or
    EAGAIN, the kernel reports no truncation and passes no descriptor, and
    enough calls get through) [proxy_socket_send_request] and
    [render_socket_send_reply] of a non-empty payload [p] on a connection
    that carries the messages [ms] return true and leave it carrying
    [ms ++ [p]]; and on a connection that carries [p :: ms],
    [render_socket_receive_request] with a buffer of at least [length p]
    bytes and [proxy_socket_receive_reply] asking for exactly [length p]
    bytes return true, store [p] at the start of the buffer, leave the rest
    of the buffer as it was and leave the connection carrying [ms]; the
    server is told the size [length p].  In the stream-framing build the
    receive needs [length p] below 2^32, the range of the header, and all
    of this holds however the kernel has split the byte stream into
    segments. *)
Theorem X1_transport_is_a_queue (apple : bool) (a b : Z) (ms : list (list byte))
    (p buf : list byte) (out0 : Z) (N : nat) (w : world) :
  p <> [] ->
  calm (N + 8 + length p) w ->
  (carries apple a b ms w ->
   (exists w', proxy_socket_send_request apple {| proxy_fd := a |} (Some p)
                   (Z.of_nat (length p)) w = Ret true w' /\
               carries apple a b (ms ++ [p]) w' /\ calm N w') /\
   (exists w', render_socket_send_reply apple {| render_fd := a |} (Some p)
                   (Z.of_nat (length p)) w = Ret true w' /\
               carries apple a b (ms ++ [p]) w' /\ calm N w')) /\
  (carries apple a b (p :: ms) w ->
   (apple = true -> Z.of_nat (length p) < 2 ^ 32) ->
   (length p <= length buf)%nat ->
   (exists w' mem,
      render_socket_receive_request apple {| render_fd := b |} (Some buf)
          (Z.of_nat (length buf)) (Some out0) w
        = Ret (true, mem, Some (Z.of_nat (length p)), None, None) w' /\
      take (length p) mem = p /\ drop (length p) mem = drop (length p) buf /\
      carries apple a b ms w' /\ calm N w') /\
   (exists w' mem,
      proxy_socket_receive_reply apple {| proxy_fd := b |} (Some buf)
          (Z.of_nat (length p)) w
        = Ret (true, mem, None, None) w' /\
      take (length p) mem = p /\ drop (length p) mem = drop (length p) buf /\
      carries apple a b ms w' /\ calm N w')).
Proof.
  intros Hne Cm. split.
  - intros (q & L & Q).
    assert (G : forall trace max_fds,
      exists w', socket_send_internal log_msg apple trace max_fds a (Some p)
                   (Z.of_nat (length p)) None 0 w = Ret true w' /\
                 carries apple a b (ms ++ [p]) w' /\ calm N w').
    { intros trace max_fds. destruct apple.
      - destruct (send_internal_stream trace max_fds a b p N q w L Cm Hne)
          as (w' & q' & E & L' & Hq' & Cm').
        exists w'. split; [exact E|]. split; [|exact Cm'].
        exists q'. split; [exact L'|]. eapply queued_snoc_stream; eauto.
      - destruct (send_internal_native trace max_fds a b p N q w L) as (w' & E & L' & Cm'); auto.
        { eapply calm_weaken; [|exact Cm]. lia. }
        exists w'. split; [exact E|]. split; [|exact Cm'].
        exists (q ++ [p]). split; [exact L'|]. unfold queued in *. subst q. reflexivity. }
    split; apply G.
  - intros (q & L & Q) Hlt Hfit. destruct apple.
    + unfold queued in Q. cbn [map concat] in Q. unfold framed at 1 in Q.
      rewrite Z.mod_small in Q by (specialize (Hlt eq_refl); lia).
      rewrite <- app_assoc in Q.
      split.
      * destruct (render_request_stream_next a b p _ buf N q out0 w L Q Cm Hne
                    (Hlt eq_refl) Hfit) as (w' & q' & mem & E & T & D & L' & Hq' & Cm').
        exists w', mem. repeat (split; [assumption|]). split; [|exact Cm'].
        exists q'. split; [exact L' | exact Hq'].
      * destruct (proxy_reply_stream_next a b p _ buf N q w L Q Cm Hne
                    (Hlt eq_refl) Hfit) as (w' & q' & mem & E & T & D & L' & Hq' & Cm').
        exists w', mem. repeat (split; [assumption|]). split; [|exact Cm'].
        exists q'. split; [exact L' | exact Hq'].
    + unfold queued in Q. subst q.
      assert (Cm1 : calm (S N) w) by (eapply calm_weaken; [|exact Cm]; lia).
      split.
      * destruct (render_request_native_next a b p buf N ms out0 w L Cm1 Hne Hfit)
          as (w' & mem & E & T & D & L' & Cm').
        exists w', mem. repeat (split; [assumption|]). split; [|exact Cm'].
        exists ms. split; [exact L' | reflexivity].
      * destruct (proxy_reply_native_next a b p buf N ms w L Cm1 Hne Hfit)
          as (w' & mem & E & T & D & L' & Cm').
        exists w', mem. repeat (split; [assumption|]). split; [|exact Cm'].
        exists ms. split; [exact L' | reflexivity].
Qed.

(** ** Messages of the wrong size *)

Lemma is_transient_inv (errno : Z) :
  is_transient errno = true -> exists t, errno = transient_errno t.
Proof.
  unfold is_transient. intros E. apply orb_true_iff in E.
  destruct E as [E|E]; apply Z.eqb_eq in E; [exists Interrupted | exists WouldBlock]; exact E.
Qed.

Lemma sys_recvmsg_noanc fd mem msg c n fl o w r errno chunk (short : bool) w1 :
  oracle w = Returns n fl NoAnc :: o ->
  kernel_recv fd n (iov_len msg) (set_oracle o w) = Ret (r, errno, chunk, short) w1 ->
  0 < r ->
  sys_recvmsg fd mem msg c w
    = Ret (r, errno,
           with_control msg (msg_control msg) 0 (if short then Z.lor fl MSG_TRUNC else fl),
           store_at mem (iov_base msg) chunk) w1.
Proof.
  intros E K Hr.
  pose proof (kernel_recv_spec fd n (iov_len msg) (set_oracle o w)) as S.
  rewrite K in S. destruct S as (_ & _ & _ & _ & _ & _ & K0 & _).
  unfold sys_recvmsg, next_event. unfold_monad. rewrite E, K.
  destruct (has_data fd (set_oracle o w)); [reflexivity|].
  destruct (K0 eq_refl). lia.
Qed.

Lemma trunc_flag_seen (fl : Z) :
  MSG_TRUNC <> 0 -> Z.land (Z.lor fl MSG_TRUNC) (Z.lor MSG_TRUNC MSG_CTRUNC) <> 0.
Proof.
  intros Ht E. apply Ht. apply Z.bits_inj'. intros n Hn.
  rewrite Z.bits_0.
  assert (B : Z.testbit (Z.land (Z.lor fl MSG_TRUNC) (Z.lor MSG_TRUNC MSG_CTRUNC)) n = false)
    by (rewrite E; apply Z.bits_0).
  rewrite Z.land_spec, !Z.lor_spec in B.
  destruct (Z.testbit MSG_TRUNC n); [|reflexivity].
  rewrite orb_true_r in B. simpl in B. discriminate.
Qed.

Lemma proxy_socket_recvmsg_retry apple ps data msg out_size e o w :
  oracle w = Fails e :: o -> is_transient e = true ->
  proxy_socket_recvmsg apple ps data msg out_size w
    = proxy_socket_recvmsg apple ps data msg out_size (set_oracle o w).
Proof.
  intros Eo He. unfold proxy_socket_recvmsg, with_fuel. rewrite Eo. cbn [length].
  cbn [proxy_recvmsg_loop]. unfold mbind at 1, M_bind at 1.
  rewrite (sys_recvmsg_fails _ _ _ _ _ _ _ Eo).
  destruct (Z.ltb_spec (-1) 0); [|lia]. rewrite He. reflexivity.
Qed.

Lemma render_socket_recvmsg_retry apple rs data msg out_size e o w :
  oracle w = Fails e :: o -> is_transient e = true ->
  render_socket_recvmsg apple rs data msg out_size w
    = render_socket_recvmsg apple rs data msg out_size (set_oracle o w).
Proof.
  intros Eo He. unfold render_socket_recvmsg, with_fuel. rewrite Eo. cbn [length].
  cbn [render_recvmsg_loop]. unfold mbind at 1, M_bind at 1.
  rewrite (sys_recvmsg_fails _ _ _ _ _ _ _ Eo).
  destruct (Z.leb_spec (-1) 0); [|lia]. destruct (Z.eqb_spec (-1) 0); [lia|].
  rewrite He. reflexivity.
Qed.

(** A datagram of another size than the client asked for. *)
Lemma proxy_recvmsg_wrong_size (a b : Z) (o : list event) :
  forall (w : world) (data : list byte) (msg : msghdr) (d : list byte)
         (q : list (list byte)) (out_size : option Z),
    oracle w = o ->
    Forall (fun e => quiet e = true) o ->
    (1 <= successes o)%nat ->
    linked SOCK_SEQPACKET a b (d :: q) w ->
    MSG_TRUNC <> 0 ->
    0 < iov_len msg -> iov_len msg <> Z.of_nat (length d) -> d <> [] ->
    msg_iovlen msg = 1 ->
    exists w' msg' data',
      proxy_socket_recvmsg false {| proxy_fd := b |} data msg out_size w
        = Ret (false, msg', data', out_size) w'.
Proof.
  induction o as [|e o IH]; intros w data msg d q out_size Eo Hq Hs L Ht Hm Hne Hd Hi.
  - simpl in Hs. lia.
  - inversion Hq as [|e' o' Hqe Hqo]; subst e' o'.
    destruct e as [errno|n fl anc].
    + simpl in Hqe. rewrite (proxy_socket_recvmsg_retry _ _ _ _ _ _ _ _ Eo Hqe).
      destruct (IH (set_oracle o w) data msg d q out_size) as (w' & msg' & data' & E');
        auto.
      exists w', msg', data'. exact E'.
    + destruct anc; simpl in Hqe; try discriminate.
      destruct (kernel_recv_packet a b n (iov_len msg) d q (set_oracle o w) L)
        as (w1 & fb & E1 & Ew1).
      assert (Hpos : 0 < Z.of_nat (length d)) by (destruct d; [contradiction | cbn [length]; lia]).
      assert (Hr : 0 < Z.of_nat (length (take (Z.to_nat (iov_len msg)) d))).
      { rewrite length_take. lia. }
      pose proof (sys_recvmsg_noanc b data msg true n fl o w _ _ _ _ _ Eo E1 Hr) as S.
      destruct (Z.gtb_spec (Z.of_nat (length d)) (iov_len msg)) as [Hgt|Hle].
      * destruct (proxy_recvmsg_truncated false {| proxy_fd := b |} data msg out_size w w1
                    _ _ _ _ S Hr) as (w2 & E2 & _); auto.
        { cbn [msg_flags with_control]. apply trunc_flag_seen. exact Ht. }
        eauto.
      * destruct (proxy_recvmsg_mismatch {| proxy_fd := b |} data msg out_size w w1
                    _ _ _ _ S) as (w2 & E2 & _); auto; try lia.
        { rewrite length_take. lia. }
        eauto.
Qed.

(** A datagram larger than the buffer of the server. *)
Lemma render_recvmsg_too_large (a b : Z) (o : list event) :
  forall (w : world) (data : list byte) (msg : msghdr) (d : list byte)
         (q : list (list byte)) (out_size : option Z),
    oracle w = o ->
    Forall (fun e => quiet e = true) o ->
    (1 <= successes o)%nat ->
    linked SOCK_SEQPACKET a b (d :: q) w ->
    MSG_TRUNC <> 0 ->
    0 < iov_len msg < Z.of_nat (length d) ->
    exists w' msg' data',
      render_socket_recvmsg false {| render_fd := b |} data msg out_size w
        = Ret (false, msg', data', out_size) w'.
Proof.
  induction o as [|e o IH]; intros w data msg d q out_size Eo Hq Hs L Ht Hm.
  - simpl in Hs. lia.
  - inversion Hq as [|e' o' Hqe Hqo]; subst e' o'.
    destruct e as [errno|n fl anc].
    + simpl in Hqe. rewrite (render_socket_recvmsg_retry _ _ _ _ _ _ _ _ Eo Hqe).
      destruct (IH (set_oracle o w) data msg d q out_size) as (w' & msg' & data' & E');
        auto.
      exists w', msg', data'. exact E'.
    + destruct anc; simpl in Hqe; try discriminate.
      destruct (kernel_recv_packet a b n (iov_len msg) d q (set_oracle o w) L)
        as (w1 & fb & E1 & Ew1).
      assert (Hr : 0 < Z.of_nat (length (take (Z.to_nat (iov_len msg)) d))).
      { rewrite length_take. lia. }
      pose proof (sys_recvmsg_noanc b data msg true n fl o w _ _ _ _ _ Eo E1 Hr) as S.
      destruct (Z.gtb_spec (Z.of_nat (length d)) (iov_len msg)) as [Hgt|Hle]; [|lia].
      destruct (render_recvmsg_truncated false {| render_fd := b |} data msg out_size w w1
                  _ _ _ _ S Hr) as (w2 & E2 & _); auto.
      { cbn [msg_flags with_control]. apply trunc_flag_seen. exact Ht. }
      eauto.
Qed.

(** X2: a message of the wrong size is refused.  With the message [p] at
    the head of the connection and a calm environment,
    [render_socket_receive_request] with room for fewer than [length p] bytes
    returns false and leaves *out_size as it was, and
    [proxy_socket_receive_reply] asking for any size other than [length p]
    returns false.  The stream-framing build decides this from the header
    and leaves the buffer untouched; the native build relies on the kernel
    flagging the cut datagram with MSG_TRUNC, which must be a flag that
    can be seen. *)
Theorem X2_wrong_size_is_refused (apple : bool) (a b : Z) (ms : list (list byte))
    (p buf : list byte) (m out0 : Z) (w : world) :
  carries apple a b (p :: ms) w ->
  calm 8 w ->
  p <> [] ->
  (apple = true -> Z.of_nat (length p) < 2 ^ 32) ->
  (apple = false -> MSG_TRUNC <> 0) ->
  0 < m ->
  (m < Z.of_nat (length p) ->
   exists w' mem,
     render_socket_receive_request apple {| render_fd := b |} (Some buf) m (Some out0) w
       = Ret (false, mem, Some out0, None, None) w' /\
     (apple = true -> mem = buf)) /\
  (m <> Z.of_nat (length p) ->
   exists w' mem,
     proxy_socket_receive_reply apple {| proxy_fd := b |} (Some buf) m w
       = Ret (false, mem, None, None) w' /\
     (apple = true -> mem = buf)).
Proof.
  intros (q & L & Q) Cm Hne Hlt Ht Hm.
  assert (Hpos : 0 < Z.of_nat (length p)) by (destruct p; [contradiction | cbn [length]; lia]).
  destruct apple.
  - unfold queued in Q. cbn [map concat] in Q. unfold framed at 1 in Q.
    rewrite Z.mod_small in Q by (specialize (Hlt eq_refl); lia).
    rewrite <- app_assoc in Q.
    set (n := Z.of_nat (length p)) in *.
    set (hdr := encode_header n 0) in *.
    assert (Hsize : header_size hdr = n).
    { subst hdr. rewrite header_size_encode. apply Z.mod_small. specialize (Hlt eq_refl). lia. }
    destruct Cm as [C1 C2].
    split.
    + intros Hsmall.
      destruct (read_all_stream render_log a b (oracle w) w (S (length (oracle w))) [] hdr
                  (p ++ concat (map (framed true) ms)) 0 q)
        as (w1 & q1 & E1 & L1 & Hc1 & Cm1); auto.
      replace (Z.of_nat (length hdr)) with sizeof_hdr in E1
        by (subst hdr; rewrite encode_header_length; reflexivity).
      eexists _, buf. split; [|reflexivity].
      unfold render_socket_receive_request, render_socket_receive_request_internal.
      eapply bind_Ret; [apply assert_nonempty; lia|].
      cbv beta zeta. cbn [default from_option]. unfold id.
      eapply bind_Ret; [exact E1|].
      cbn [app negb]. cbv beta iota. rewrite Hsize.
      destruct (Z.ltb_spec m n); [|lia].
      reflexivity.
    + intros Hdiff.
      set (w0 := set_logs (logs w ++ ["proxy_receive_reply: reading framing header, expecting size=%zu"%string]) w).
      destruct (read_all_stream proxy_log a b (oracle w0) w0 (S (length (oracle w0))) [] hdr
                  (p ++ concat (map (framed true) ms)) 0 q)
        as (w1 & q1 & E1 & L1 & Hc1 & Cm1); auto.
      replace (Z.of_nat (length hdr)) with sizeof_hdr in E1
        by (subst hdr; rewrite encode_header_length; reflexivity).
      eexists _, buf. split; [|reflexivity].
      unfold proxy_socket_receive_reply, proxy_socket_receive_reply_internal.
      eapply bind_Ret; [apply assert_nonempty; lia|].
      cbv beta zeta. cbn [default from_option]. unfold id.
      eapply bind_Ret; [reflexivity|].
      eapply bind_Ret; [exact E1|].
      cbn [app negb]. cbv beta iota.
      eapply bind_Ret; [reflexivity|].
      rewrite Hsize. destruct (Z.eqb_spec n m); [lia|]. reflexivity.
  - unfold queued in Q. subst q. destruct Cm as [C1 C2]. specialize (Ht eq_refl).
    split.
    + intros Hsmall.
      destruct (render_recvmsg_too_large a b (oracle w) w buf (data_msg m) p ms (Some out0))
        as (w1 & msg' & mem & E1); auto; try lia.
      exists w1, mem. split; [|discriminate].
      unfold render_socket_receive_request, render_socket_receive_request_internal.
      eapply bind_Ret; [apply assert_nonempty; lia|].
      cbv beta zeta. cbn [default from_option]. unfold id.
      change (negb (0 =? 0)) with false. cbv beta iota.
      eapply bind_Ret; [reflexivity|].
      eapply bind_Ret; [exact E1|].
      reflexivity.
    + intros Hdiff.
      destruct (proxy_recvmsg_wrong_size a b (oracle w) w buf (data_msg m) p ms None)
        as (w1 & msg' & mem & E1); auto; try lia.
      exists w1, mem. split; [|discriminate].
      unfold proxy_socket_receive_reply, proxy_socket_receive_reply_internal.
      eapply bind_Ret; [apply assert_nonempty; lia|].
      cbv beta zeta. cbn [default from_option]. unfold id.
      change (negb (0 =? 0)) with false. cbv beta iota.
      eapply bind_Ret; [reflexivity|].
      eapply bind_Ret; [exact E1|].
      reflexivity.
Qed.

(** ** The bounds of the receive buffer *)

Lemma written_below_refl (hi : Z) (mem : list byte) : written_below hi mem mem.
Proof. split; reflexivity. Qed.

Lemma written_below_trans (hi : Z) (m1 m2 m3 : list byte) :
  written_below hi m1 m2 -> written_below hi m2 m3 -> written_below hi m1 m3.
Proof. intros [L1 D1] [L2 D2]. split; congruence. Qed.

Lemma written_below_mono (lo hi : Z) (m1 m2 : list byte) :
  lo <= hi -> written_below lo m1 m2 -> written_below hi m1 m2.
Proof.
  intros Hle [L D]. split; [exact L|].
  replace (Z.to_nat hi) with (Z.to_nat lo + (Z.to_nat hi - Z.to_nat lo))%nat by lia.
  rewrite <- !drop_drop. rewrite D. reflexivity.
Qed.

Lemma store_at_below (mem chunk : list byte) (off hi : Z) :
  0 <= off -> off + Z.of_nat (length chunk) <= hi -> hi <= Z.of_nat (length mem) ->
  written_below hi mem (store_at mem off chunk).
Proof.
  intros Ho Hh Hm. apply (written_below_mono (off + Z.of_nat (length chunk))); [exact Hh|].
  unfold store_at. split.
  - rewrite !length_app, length_take, length_drop. lia.
  - rewrite drop_app_ge by (rewrite length_take; lia).
    rewrite length_take.
    rewrite drop_app_ge by lia.
    rewrite drop_drop. f_equal. lia.
Qed.

Lemma store_at_nil (mem : list byte) (off : Z) : store_at mem off [] = mem.
Proof.
  unfold store_at. simpl. rewrite Nat.add_0_r. apply take_drop.
Qed.

(** What one recvmsg(2) does to the data buffer. *)
Lemma sys_recvmsg_data (fd : Z) (mem : list byte) (msg : msghdr) (cloexec : bool)
    (w : world) :
  match sys_recvmsg fd mem msg cloexec w with
  | Ret (s, errno, msg', mem') w' =>
      iov_base msg' = iov_base msg /\ iov_len msg' = iov_len msg /\
      ((s <= 0 /\ mem' = mem) \/
       (0 < s <= iov_len msg /\
        exists chunk, Z.of_nat (length chunk) = s /\
                      mem' = store_at mem (iov_base msg) chunk))
  | _ => True
  end.
Proof.
  pose proof (sys_recvmsg_cases fd mem msg cloexec w) as C.
  destruct (sys_recvmsg fd mem msg cloexec w) as [[[[s errno] msg'] mem'] w'|w'|w'] eqn:E;
    [|exact I..].
  destruct C as [(o & Eo & -> & -> & -> & ->)
                |[(n & fl & anc & o & Eo & Hd & Hs & -> & -> & ->)
                 |(n & fl & anc & o & chunk & short & w1 & Eo & Hd & Ek & Hs & Ed & ->)]].
  - split; [reflexivity|]. split; [reflexivity|]. left. split; [lia | reflexivity].
  - split; [reflexivity|]. split; [reflexivity|]. left. split; [lia | reflexivity].
  - destruct (deliver_control_spec cloexec anc
                (if short then Z.lor fl MSG_TRUNC else fl) msg w1)
      as (msg2 & w2 & k & E2 & _ & _ & _ & _ & _ & _ & _ & _ & _ & _ & _ & _
          & Db & Dl & _).
    rewrite Ed in E2. inversion E2; subst msg2 w2. clear E2.
    split; [exact Db|]. split; [exact Dl|].
    destruct (Z.leb_spec s 0) as [Hz|Hpos].
    + left. split; [exact Hz|].
      assert (chunk = []) as -> by (destruct chunk; [reflexivity | simpl in Hs; lia]).
      apply store_at_nil.
    + right. split; [|exists chunk; auto].
      split; [exact Hpos|]. apply (sys_recvmsg_bound _ _ _ _ _ _ _ _ _ _ E Hpos).
Qed.

(** Whatever a computation that returns nothing does, the one after it
    decides the outcome. *)
Lemma after_unit {B} (m : M unit) (k : M B) (P : res B -> Prop) (w : world) :
  (forall w', P (Abort w')) -> (forall w', P (Hang w')) -> (forall w', P (k w')) ->
  P ((m ≫= fun _ => k) w).
Proof.
  intros Pa Ph Pk. unfold mbind, M_bind. destruct (m w) as [[] w'|w'|w']; auto.
Qed.

Lemma recv_post_false hi data msg out_size msg' data' out' w' :
  written_below hi data data' ->
  recv_post hi data msg out_size (Ret (false, msg', data', out') w').
Proof. intros W. split; [exact W | discriminate]. Qed.

Lemma sys_recvmsg_below (fd : Z) (data : list byte) (msg : msghdr) (cloexec : bool)
    (hi : Z) (w : world) :
  0 <= iov_base msg -> iov_base msg + iov_len msg <= hi -> hi <= Z.of_nat (length data) ->
  match sys_recvmsg fd data msg cloexec w with
  | Ret (s, errno, msg', data') w' =>
      written_below hi data data' /\
      (0 < s -> s <= iov_len msg /\ written_below (iov_base msg + s) data data')
  | _ => True
  end.
Proof.
  intros Hb Hh Hd.
  pose proof (sys_recvmsg_data fd data msg cloexec w) as S.
  destruct (sys_recvmsg fd data msg cloexec w) as [[[[s errno] msg'] data'] w'|w'|w'];
    [|exact I..].
  destruct S as (_ & _ & [(Hs & ->)|(Hs & chunk & Hc & ->)]).
  - split; [apply written_below_refl | lia].
  - split; [apply store_at_below; lia|]. intros _. split; [lia|].
    apply store_at_below; lia.
Qed.

Lemma proxy_recvmsg_loop_below (fuel : nat) (apple : bool) (ps : proxy_socket)
    (data : list byte) (msg : msghdr) (out_size : option Z) (hi : Z) (w : world) :
  0 <= iov_base msg -> iov_base msg + iov_len msg <= hi -> hi <= Z.of_nat (length data) ->
  recv_post hi data msg out_size (proxy_recvmsg_loop fuel apple ps data msg out_size w).
Proof.
  intros Hb Hh Hd. revert w. induction fuel as [|fuel IH]; intros w; [exact I|].
  cbn [proxy_recvmsg_loop]. unfold mbind at 1, M_bind at 1.
  pose proof (sys_recvmsg_below (proxy_fd ps) data msg (negb apple) hi w Hb Hh Hd) as S.
  destruct (sys_recvmsg (proxy_fd ps) data msg (negb apple) w)
    as [[[[s errno] msg'] data'] w'|w'|w']; [|exact I..].
  destruct S as [W Ws].
  destruct (Z.ltb_spec s 0).
  { destruct (is_transient errno); [apply IH|].
    apply after_unit; try (intros; exact I). intros. apply recv_post_false. exact W. }
  destruct (Z.eqb_spec s 0); [apply recv_post_false; exact W|].
  apply after_unit; try (intros; exact I). intros w1.
  destruct (negb (Z.land (msg_flags msg') (Z.lor MSG_TRUNC MSG_CTRUNC) =? 0)).
  { apply after_unit; try (intros; exact I). intros w2.
    apply after_unit; try (intros; exact I). intros. apply recv_post_false. exact W. }
  destruct (Ws ltac:(lia)) as [Hle Wb].
  destruct apple; cbn [negb].
  - apply after_unit; try (intros; exact I). intros w2. split; [exact W|]. intros _.
    exists s. split; [lia|]. auto.
  - destruct (negb (iov_len msg' =? s)).
    + apply after_unit; try (intros; exact I). intros w2.
      apply after_unit; try (intros; exact I). intros. apply recv_post_false. exact W.
    + split; [exact W|]. intros _. exists s. split; [lia|]. auto.
Qed.

Lemma render_recvmsg_loop_below (fuel : nat) (apple : bool) (rs : render_socket)
    (data : list byte) (msg : msghdr) (out_size : option Z) (hi : Z) (w : world) :
  0 <= iov_base msg -> iov_base msg + iov_len msg <= hi -> hi <= Z.of_nat (length data) ->
  recv_post hi data msg out_size (render_recvmsg_loop fuel apple rs data msg out_size w).
Proof.
  intros Hb Hh Hd. revert w. induction fuel as [|fuel IH]; intros w; [exact I|].
  cbn [render_recvmsg_loop]. unfold mbind at 1, M_bind at 1.
  pose proof (sys_recvmsg_below (render_fd rs) data msg (negb apple) hi w Hb Hh Hd) as S.
  destruct (sys_recvmsg (render_fd rs) data msg (negb apple) w)
    as [[[[s errno] msg'] data'] w'|w'|w']; [|exact I..].
  destruct S as [W Ws].
  destruct (Z.leb_spec s 0).
  { destruct (Z.eqb_spec s 0); [apply recv_post_false; exact W|].
    destruct (is_transient errno); [apply IH|].
    apply after_unit; try (intros; exact I). intros. apply recv_post_false. exact W. }
  destruct (negb (Z.land (msg_flags msg') (Z.lor MSG_TRUNC MSG_CTRUNC) =? 0)).
  { apply after_unit; try (intros; exact I). intros w2.
    apply after_unit; try (intros; exact I). intros. apply recv_post_false. exact W. }
  destruct (Ws ltac:(lia)) as [Hle Wb].
  apply after_unit; try (intros; exact I). intros w2.
  destruct out_size as [z|]; [|exact I].
  split; [exact W|]. intros _. exists s. split; [lia|]. auto.
Qed.

Lemma after_bind {A B} (m : M A) (k : A -> M B) (P : res B -> Prop) (w : world) :
  (forall w', P (Abort w')) -> (forall w', P (Hang w')) ->
  (forall a w', m w = Ret a w' -> P (k a w')) ->
  P ((m ≫= k) w).
Proof.
  intros Pa Ph Pk. unfold mbind, M_bind. destruct (m w) as [a w'|w'|w'] eqn:E; auto.
Qed.

Lemma written_below_trans_post (size : Z) (data data' : list byte) (r : res receive_result) :
  written_below size data data' -> loop_post size data' r -> loop_post size data r.
Proof.
  intros W. destruct r as [[[[ok d] f] c] w|w|w]; simpl; auto.
  apply written_below_trans. exact W.
Qed.

Lemma proxy_receive_loop_below (fuel : nat) (ps : proxy_socket) (size max_fd_count : Z) :
  forall (total_read : Z) (data : list byte) (msg : msghdr) (fds : option (list Z))
         (out_fd_count : option Z) (w : world),
    0 <= total_read <= size -> size <= Z.of_nat (length data) ->
    loop_post size data
      (proxy_receive_loop fuel ps size max_fd_count total_read data msg fds out_fd_count w).
Proof.
  induction fuel as [|fuel IH]; intros total_read data msg fds out_fd_count w Ht Hd;
    cbn [proxy_receive_loop].
  - destruct (total_read <? size); [exact I | apply written_below_refl].
  - destruct (Z.ltb_spec total_read size); [|apply written_below_refl].
    apply after_bind; try (intros; exact I).
    intros [[[ok msg'] data'] chunk_size] w' E.
    pose proof (proxy_recvmsg_loop_below (S (length (oracle w))) true ps data
                  (with_iov msg total_read (size - total_read)) (Some 0) size w) as R.
    unfold proxy_socket_recvmsg, with_fuel in E. rewrite E in R.
    destruct R as [W Wok]; simpl; try lia.
    destruct ok; cbn [negb]; [|exact W].
    destruct (Wok eq_refl) as (s & Hs & -> & _). simpl in Hs. cbn [store_if default from_option]. unfold id.
    assert (Hd' : size <= Z.of_nat (length data')) by (destruct W as [-> _]; exact Hd).
    destruct (has_control msg').
    + destruct (get_received_fds msg') as [received_fds received_fd_count].
      eapply written_below_trans_post; [exact W|]. apply IH; [lia | exact Hd'].
    + eapply written_below_trans_post; [exact W|]. apply IH; [lia | exact Hd'].
Qed.

Lemma render_receive_loop_below (fuel : nat) (rs : render_socket) (size max_fd_count : Z) :
  forall (total_read : Z) (data : list byte) (msg : msghdr) (fds : option (list Z))
         (out_fd_count : option Z) (w : world),
    0 <= total_read <= size -> size <= Z.of_nat (length data) ->
    loop_post size data
      (render_receive_loop fuel rs size max_fd_count total_read data msg fds out_fd_count w).
Proof.
  induction fuel as [|fuel IH]; intros total_read data msg fds out_fd_count w Ht Hd;
    cbn [render_receive_loop].
  - destruct (total_read <? size); [exact I | apply written_below_refl].
  - destruct (Z.ltb_spec total_read size); [|apply written_below_refl].
    apply after_bind; try (intros; exact I).
    intros [[[ok msg'] data'] chunk_size] w' E.
    pose proof (render_recvmsg_loop_below (S (length (oracle w))) true rs data
                  (with_iov msg total_read (size - total_read)) (Some 0) size w) as R.
    unfold render_socket_recvmsg, with_fuel in E. rewrite E in R.
    destruct R as [W Wok]; simpl; try lia.
    destruct ok; cbn [negb]; [|exact W].
    destruct (Wok eq_refl) as (s & Hs & -> & _). simpl in Hs. cbn [store_if default from_option]. unfold id.
    assert (Hd' : size <= Z.of_nat (length data')) by (destruct W as [-> _]; exact Hd).
    destruct (has_control msg').
    + destruct (get_received_fds msg') as [received_fds received_fd_count].
      eapply written_below_trans_post; [exact W|]. apply IH; [lia | exact Hd'].
    + eapply written_below_trans_post; [exact W|]. apply IH; [lia | exact Hd'].
Qed.

Lemma header_size_nonneg (hdr : list byte) : 0 <= header_size hdr.
Proof. unfold header_size. pose proof (le_combine_bound (take 4 hdr)). lia. Qed.

Lemma render_recvmsg_loop_null (fuel : nat) (apple : bool) (rs : render_socket)
    (data : list byte) (msg : msghdr) (w : world) :
  match render_recvmsg_loop fuel apple rs data msg None w with
  | Ret (ok, _, _, _) _ => ok = false
  | _ => True
  end.
Proof.
  revert w. induction fuel as [|fuel IH]; intros w; [exact I|].
  cbn [render_recvmsg_loop].
  apply (after_bind _ _ (fun r => match r with Ret (ok, _, _, _) _ => ok = false | _ => True end));
    try (intros; exact I).
  intros [[[s errno] msg'] data'] w' _.
  destruct (s <=? 0).
  { destruct (s =? 0); [reflexivity|].
    destruct (is_transient errno); [apply IH|].
    apply (after_unit _ _ (fun r => match r with Ret (ok, _, _, _) _ => ok = false | _ => True end));
      try (intros; exact I). reflexivity. }
  destruct (negb (Z.land (msg_flags msg') (Z.lor MSG_TRUNC MSG_CTRUNC) =? 0)).
  { apply (after_unit _ _ (fun r => match r with Ret (ok, _, _, _) _ => ok = false | _ => True end));
      try (intros; exact I). intros w2.
    apply (after_unit _ _ (fun r => match r with Ret (ok, _, _, _) _ => ok = false | _ => True end));
      try (intros; exact I). reflexivity. }
  apply (after_unit _ _ (fun r => match r with Ret (ok, _, _, _) _ => ok = false | _ => True end));
      try (intros; exact I).
Qed.

Lemma request_post_false apple size buf mem received fds count w' :
  written_below size buf mem ->
  request_post apple size buf (Ret (false, mem, received, fds, count) w').
Proof. intros W. split; [exact W | discriminate]. Qed.

Lemma render_request_below (apple : bool) (rs : render_socket) (buf : list byte) (size : Z)
    (out_size : option Z) (fds : option (list Z)) (max_fd_count : Z)
    (out_fd_count : option Z) (w : world) :
  0 < size <= Z.of_nat (length buf) ->
  request_post apple size buf
    (render_socket_receive_request_internal apple rs (Some buf) size out_size fds
       max_fd_count out_fd_count w).
Proof.
  intros Hs. unfold render_socket_receive_request_internal.
  apply after_unit; try (intros; exact I). intros w0. cbn [default from_option]. unfold id.
  destruct apple.
  - apply after_bind; try (intros; exact I). intros [ok hdr] w1 _.
    destruct ok; cbn [negb]; [|apply request_post_false, written_below_refl].
    pose proof (header_size_nonneg hdr) as Hh.
    destruct (Z.ltb_spec size (header_size hdr)).
    { apply after_unit; try (intros; exact I). intros.
      apply request_post_false, written_below_refl. }
    destruct out_size as [z|]; [|exact I].
    apply after_bind; try (intros; exact I). intros [[[ok mem] fds'] count] w2 E.
    match type of E with with_fuel (fun fuel => render_receive_loop fuel ?a ?b ?c ?d ?e ?f ?g ?h) _ = _ =>
      pose proof (render_receive_loop_below (S (length (oracle w1))) a b c d e f g h w1) as L
    end.
    unfold with_fuel in E. rewrite E in L. simpl in L.
    specialize (L ltac:(lia) ltac:(lia)).
    split.
    + apply (written_below_mono (header_size hdr)); [lia | exact L].
    + intros _. exists (header_size hdr). split; [reflexivity|]. split; [lia|].
      split; [discriminate | exact L].
  - apply after_bind; try (intros; exact I). intros msg w1 Em.
    assert (Hm : iov_base msg = 0 /\ iov_len msg = size).
    { destruct (negb (max_fd_count =? 0)).
      - unfold mbind, M_bind, assert in Em.
        destruct (negb (is_null fds) && _); inversion Em; subst. split; reflexivity.
      - inversion Em; subst. split; reflexivity. }
    destruct Hm as [Hb Hl].
    apply after_bind; try (intros; exact I). intros [[[ok msg'] mem] received] w2 E.
    pose proof (render_recvmsg_loop_below (S (length (oracle w1))) false rs buf msg out_size
                  size w1) as R.
    unfold render_socket_recvmsg, with_fuel in E. rewrite E in R.
    destruct R as [W Wok]; try lia.
    destruct ok; cbn [negb]; [|apply request_post_false; exact W].
    destruct (Wok eq_refl) as (s & Hs' & -> & Wb). rewrite Hb in Wb. simpl in Wb.
    assert (Q : forall fds' count w',
      match out_size with
      | Some _ => request_post false size buf (Ret (true, mem, store_if out_size s, fds', count) w')
      | None => True
      end).
    { intros. destruct out_size; [|exact I]. split; [exact W|]. intros _. exists s.
      split; [reflexivity|]. split; [lia|]. split; [intros; lia | exact Wb]. }
    destruct out_size as [z|].
    2:{ pose proof (render_recvmsg_loop_null (S (length (oracle w1))) false rs buf msg w1) as N.
        rewrite E in N. discriminate N. }
    destruct (negb (max_fd_count =? 0)); [|apply Q].
    destruct (get_received_fds msg') as [received_fds received_fd_count].
    apply after_unit; try (intros; exact I). intros w3.
    destruct out_fd_count; [apply Q | exact I].
Qed.

Lemma proxy_reply_below (apple : bool) (ps : proxy_socket) (buf : list byte) (size : Z)
    (fds : option (list Z)) (max_fd_count : Z) (out_fd_count : option Z) (w : world) :
  0 < size <= Z.of_nat (length buf) ->
  loop_post size buf
    (proxy_socket_receive_reply_internal apple ps (Some buf) size fds max_fd_count
       out_fd_count w).
Proof.
  intros Hs. unfold proxy_socket_receive_reply_internal.
  apply after_unit; try (intros; exact I). intros w0. cbn [default from_option]. unfold id.
  destruct apple.
  - apply after_unit; try (intros; exact I). intros w0'.
    apply after_bind; try (intros; exact I). intros [ok hdr] w1 _.
    destruct ok; cbn [negb]; [|apply written_below_refl].
    apply after_unit; try (intros; exact I). intros w1'.
    destruct (negb (header_size hdr =? size)).
    { apply after_unit; try (intros; exact I). intros. apply written_below_refl. }
    unfold with_fuel. apply proxy_receive_loop_below; lia.
  - apply after_bind; try (intros; exact I). intros msg w1 Em.
    assert (Hm : iov_base msg = 0 /\ iov_len msg = size).
    { destruct (negb (max_fd_count =? 0)).
      - unfold mbind, M_bind, assert in Em.
        destruct (negb (is_null fds) && _); inversion Em; subst. split; reflexivity.
      - inversion Em; subst. split; reflexivity. }
    destruct Hm as [Hb Hl].
    apply after_bind; try (intros; exact I). intros [[[ok msg'] mem] received] w2 E.
    pose proof (proxy_recvmsg_loop_below (S (length (oracle w1))) false ps buf msg None
                  size w1) as R.
    unfold proxy_socket_recvmsg, with_fuel in E. rewrite E in R.
    destruct R as [W Wok]; try lia.
    destruct ok; cbn [negb]; [|exact W].
    destruct (negb (max_fd_count =? 0)); [|exact W].
    destruct (get_received_fds msg') as [received_fds received_fd_count].
    apply after_unit; try (intros; exact I). intros w3.
    destruct out_fd_count; [exact W | exact I].
Qed.

(** X3: a receive writes only where it was told to.  Whatever the
    environment does and however the operation ends, after
    [proxy_socket_receive_reply_internal],
    [render_socket_receive_request_internal] and
    [render_socket_receive_data] with a size (or maximum size) that fits the
    buffer, the buffer has its length and its bytes from offset [size] on;
    and when the request receive returns true, *out_size holds a size [s]
    not above the maximum (and positive in the native build), and only the
    first [s] bytes of the buffer may have changed. *)
Theorem X3_receive_stays_within_buffer (apple : bool) (ps : proxy_socket) (rs : render_socket)
    (buf : list byte) (size : Z) (fds : option (list Z)) (max_fd_count : Z)
    (out_size out_fd_count : option Z) (w : world) :
  0 < size <= Z.of_nat (length buf) ->
  (forall ok mem fds' count w',
     proxy_socket_receive_reply_internal apple ps (Some buf) size fds max_fd_count
         out_fd_count w = Ret (ok, mem, fds', count) w' ->
     written_below size buf mem) /\
  (forall ok mem received fds' count w',
     render_socket_receive_request_internal apple rs (Some buf) size out_size fds
         max_fd_count out_fd_count w = Ret (ok, mem, received, fds', count) w' ->
     written_below size buf mem /\
     (ok = true ->
      exists s, received = Some s /\ 0 <= s <= size /\ (apple = false -> 0 < s) /\
                written_below s buf mem)) /\
  (forall ok mem w',
     render_socket_receive_data apple rs (Some buf) size w = Ret (ok, mem) w' ->
     written_below size buf mem).
Proof.
  intros Hs.
  assert (R : forall out_size fds max_fd_count out_fd_count w,
    match render_socket_receive_request_internal apple rs (Some buf) size out_size fds
         max_fd_count out_fd_count w with
    | Ret (ok, mem, received, fds', count) w' =>
        written_below size buf mem /\
        (ok = true ->
         exists s, received = Some s /\ 0 <= s <= size /\ (apple = false -> 0 < s) /\
                   written_below s buf mem)
    | _ => True
    end).
  { intros. apply render_request_below. exact Hs. }
  split; [|split].
  - intros ok mem fds' count w' E.
    pose proof (proxy_reply_below apple ps buf size fds max_fd_count out_fd_count w Hs) as P.
    rewrite E in P. exact P.
  - intros ok mem received fds' count w' E.
    specialize (R out_size fds max_fd_count out_fd_count w). rewrite E in R. exact R.
  - intros ok mem w'. unfold render_socket_receive_data, render_socket_receive_request.
    unfold mbind, M_bind.
    specialize (R (Some 0) None 0 None w).
    destruct (render_socket_receive_request_internal apple rs (Some buf) size (Some 0) None 0
                None w) as [[[[[ok' mem'] received] fds'] count] w1|w1|w1];
      [|discriminate..].
    destruct R as [W _].
    destruct ok'; cbn [negb].
    + destruct (negb (size =? default 0 received)); simpl; intros E; inversion E; subst; exact W.
    + simpl. intros E; inversion E; subst; exact W.
Qed.

(** ** The descriptors that a receive hands over *)

Lemma after_assert {B} (b : bool) (k : M B) (P : res B -> Prop) (w : world) :
  P (Abort w) -> (b = true -> P (k w)) -> P ((assert b ≫= fun _ => k) w).
Proof. intros Pa Pk. unfold mbind, M_bind, assert. destruct b; auto. Qed.

Lemma log_msg_eq (s : string) (w : world) :
  log_msg s w = Ret tt (set_logs (logs w ++ [s]) w).
Proof. reflexivity. Qed.

Lemma land_lor_same (a c : Z) : Z.land (Z.lor a c) c = c.
Proof.
  apply Z.bits_inj'. intros n Hn. rewrite Z.land_spec, Z.lor_spec.
  destruct (Z.testbit a n), (Z.testbit c n); reflexivity.
Qed.

Lemma set_cloexec_effect (y : Z) (w : world) :
  exists w',
    set_cloexec y w = Ret tt w' /\
    next_fd w' = next_fd w /\ oracle w' = oracle w /\ closed w' = closed w /\
    (forall x, cloexec_marked w x = true -> cloexec_marked w' x = true) /\
    (forall x, markable w x -> markable w' x) /\
    (markable w y -> cloexec_marked w' y = true).
Proof.
  unfold set_cloexec, sys_fcntl_getfd, sys_fcntl_setfd. unfold_monad.
  destruct (files w !! y) as [f|] eqn:Ey.
  2:{ exists w. repeat split; auto. intros [M|(f & Ef & _)]; [exact M | congruence]. }
  destruct (Z.leb_spec 0 (f_flags f)) as [Hf|Hf].
  2:{ exists w. repeat split; auto. intros [M|(f' & Ef & Hf')]; [exact M|].
      rewrite Ey in Ef. inversion Ef; subst. lia. }
  eexists. split; [reflexivity|]. simpl.
  assert (My : forall w', files w' = alter (fun f0 => {| f_flags := Z.lor (f_flags f) FD_CLOEXEC;
                                           f_sock := f_sock f0 |}) y (files w) ->
               cloexec_marked w' y = true).
  { intros w' E. unfold cloexec_marked. rewrite E, lookup_alter_eq, Ey. simpl.
    rewrite land_lor_same. apply nonzero_test, fd_cloexec_nonzero. }
  assert (Mx : forall x, cloexec_marked w x = true ->
     cloexec_marked (set_files (alter (fun f0 => {| f_flags := Z.lor (f_flags f) FD_CLOEXEC;
                                           f_sock := f_sock f0 |}) y (files w)) w) x = true).
  { intros x M. destruct (decide (x = y)) as [->|Hne]; [apply My; reflexivity|].
    unfold cloexec_marked in *. simpl. rewrite lookup_alter_ne by auto. exact M. }
  do 4 (split; [reflexivity || exact Mx|]).
  split.
  - intros x [M|(f' & Ef & Hf')]; [left; apply Mx; exact M|].
    destruct (decide (x = y)) as [->|Hne]; [left; apply My; reflexivity|].
    right. exists f'. simpl. rewrite lookup_alter_ne by auto. auto.
  - intros _. apply My. reflexivity.
Qed.

Lemma cloexec_each (l : list Z) (w : world) :
  exists w',
    for_each_fd set_cloexec l w = Ret tt w' /\
    next_fd w' = next_fd w /\ oracle w' = oracle w /\ closed w' = closed w /\
    (forall x, cloexec_marked w x = true -> cloexec_marked w' x = true) /\
    (forall x, markable w x -> markable w' x) /\
    (forall x, In x l -> markable w x -> cloexec_marked w' x = true).
Proof.
  revert w. induction l as [|y l IH]; intros w.
  - exists w. repeat split; auto.
  - destruct (set_cloexec_effect y w) as (w1 & E1 & N1 & O1 & C1 & M1 & Q1 & Y1).
    destruct (IH w1) as (w2 & E2 & N2 & O2 & C2 & M2 & Q2 & L2).
    exists w2. split.
    { simpl. unfold mbind, M_bind. rewrite E1. exact E2. }
    split; [congruence|]. split; [congruence|]. split; [congruence|].
    split; [auto|]. split; [auto|].
    intros x [->|Hin] Hx; auto.
Qed.

Lemma lookup_installed (v : file) (l : list Z) (m : gmap Z file) (x : Z) :
  In x l -> foldr (fun fd t => <[fd := v]> t) m l !! x = Some v.
Proof.
  induction l as [|y l IH]; simpl; [intros []|]. intros Hin.
  destruct (decide (y = x)) as [->|Hne]; [apply lookup_insert_eq|].
  rewrite lookup_insert_ne by auto. apply IH. destruct Hin; [contradiction | assumption].
Qed.

Lemma lookup_not_installed (v : file) (l : list Z) (m : gmap Z file) (x : Z) :
  ~ In x l -> foldr (fun fd t => <[fd := v]> t) m l !! x = m !! x.
Proof.
  induction l as [|y l IH]; simpl; [reflexivity|]. intros Hn.
  rewrite lookup_insert_ne by tauto. apply IH. tauto.
Qed.

Lemma In_seqZ (x a k : Z) : In x (seqZ a k) <-> a <= x < a + k.
Proof. rewrite <- list_elem_of_In, elem_of_seqZ. reflexivity. Qed.

Lemma has_control_with (msg : msghdr) (c : option cmsghdr) (len fl : Z) :
  has_control (with_control msg c len fl) = match c with Some _ => true | None => false end.
Proof. reflexivity. Qed.

(** What one recvmsg(2) does to the descriptor table. *)
Lemma sys_recvmsg_files (fd : Z) (data : list byte) (msg : msghdr) (cloexec : bool)
    (w : world) :
  match sys_recvmsg fd data msg cloexec w with
  | Ret (s, errno, msg', data') w' =>
      (forall x, x < next_fd w -> cloexec_marked w' x = cloexec_marked w x) /\
      (forall x, In x (handed_out w w') -> files w' !! x = Some (new_file cloexec)) /\
      (0 < s -> has_control msg' = has_control msg)
  | _ => True
  end.
Proof.
  pose proof (sys_recvmsg_cases fd data msg cloexec w) as C.
  destruct (sys_recvmsg fd data msg cloexec w) as [[[[s errno] msg'] data'] w'|w'|w'];
    [|exact I..].
  assert (E0 : forall x w', next_fd w' = next_fd w -> ~ In x (handed_out w w')).
  { intros x w2 E. unfold handed_out. rewrite E, Z.sub_diag. intros []. }
  destruct C as [(o & Eo & -> & -> & -> & ->)
                |[(n & fl & anc & o & Eo & Hd & Hs & -> & -> & ->)
                 |(n & fl & anc & o & chunk & short & w1 & Eo & Hd & Ek & Hs & Ed & ->)]].
  - split; [reflexivity|]. split; [|reflexivity].
    intros x Hx. exfalso. revert Hx. apply E0. reflexivity.
  - split; [reflexivity|]. split; [|reflexivity].
    intros x Hx. exfalso. revert Hx. apply E0. reflexivity.
  - pose proof (kernel_recv_spec fd n (iov_len msg) (set_oracle o w)) as K.
    rewrite Ek in K. destruct K as (Kn & _ & _ & _ & _ & Kf & _).
    simpl in Kn, Kf.
    assert (M1 : forall x, cloexec_marked w1 x = cloexec_marked w x).
    { intros x. unfold cloexec_marked. specialize (Kf x).
      destruct (files w1 !! x), (files w !! x); simpl in Kf; inversion Kf; congruence. }
    destruct (deliver_control_spec cloexec anc
                (if short then Z.lor fl MSG_TRUNC else fl) msg w1)
      as (msg2 & w2 & k & E2 & _ & _ & _ & _ & _ & Dn & Df & _ & _ & _ & _ & _
          & _ & _ & _ & Dh).
    rewrite Ed in E2. inversion E2; subst msg2 w2. clear E2.
    split; [|split; [|intros _; exact Dh]].
    + intros x Hx. rewrite <- M1. unfold cloexec_marked. rewrite Df.
      rewrite lookup_not_installed; [reflexivity|]. rewrite In_seqZ. lia.
    + intros x Hx. apply In_seqZ in Hx. rewrite Df.
      apply lookup_installed. apply In_seqZ. lia.
Qed.


Lemma handover_from (msg : msghdr) (w w1 : world) (r : res recvmsg_result) :
  next_fd w1 = next_fd w ->
  (forall x, x < next_fd w -> cloexec_marked w1 x = cloexec_marked w x) ->
  handover msg w1 r -> handover msg w r.
Proof.
  intros En Em. destruct r as [[[[[|] msg'] data'] out'] w'|w'|w']; simpl; auto.
  unfold handed_out. rewrite En. intros (G & Hn & Hc & Hh & Hm).
  repeat split; auto.
  intros lo M. apply Hm. intros fd Hfd. rewrite Em by lia. apply M. lia.
Qed.

Lemma new_file_marked (w : world) (fd : Z) :
  files w !! fd = Some (new_file true) -> cloexec_marked w fd = true.
Proof.
  intros E. unfold cloexec_marked. rewrite E. simpl. rewrite Z.land_diag.
  apply nonzero_test, fd_cloexec_nonzero.
Qed.

Lemma new_file_markable (w : world) (fd : Z) (cloexec : bool) :
  files w !! fd = Some (new_file cloexec) -> markable w fd.
Proof.
  intros E. destruct cloexec; [left; apply new_file_marked; exact E|].
  right. eexists. split; [exact E|]. simpl. lia.
Qed.

Lemma In_handed_out (w w' : world) (x : Z) :
  In x (handed_out w w') <-> next_fd w <= x < next_fd w'.
Proof. unfold handed_out. rewrite In_seqZ. lia. Qed.

(** The step shared by the receive helpers once recvmsg(2) delivered. *)
Lemma handover_delivered (apple : bool) (fd : Z) (data : list byte) (msg msg' : msghdr)
    (s errno : Z) (data' : list byte) (out : option Z) (w w1 : world) :
  sys_recvmsg fd data msg (negb apple) w = Ret (s, errno, msg', data') w1 ->
  0 < s ->
  handover msg w
    (((if apple then cloexec_received_fds msg' else mret tt) ≫= fun _ =>
      mret (true, msg', data', out)) w1).
Proof.
  intros E Hs.
  pose proof (sys_recvmsg_spec fd data msg (negb apple) w) as S.
  pose proof (sys_recvmsg_files fd data msg (negb apple) w) as F.
  rewrite E in S, F.
  destruct S as (_ & _ & _ & _ & _ & _ & Hn & _ & Hc & Hr). specialize (Hr Hs).
  destruct F as (Fm & Fn & Fh). specialize (Fh Hs).
  assert (exists w2,
    (if apple then cloexec_received_fds msg' else mret tt) w1 = Ret tt w2 /\
    next_fd w2 = next_fd w1 /\
    (forall x, cloexec_marked w1 x = true -> cloexec_marked w2 x = true) /\
    (forall x, In x (handed_out w w1) -> cloexec_marked w2 x = true))
    as (w2 & E2 & N2 & M2 & L2).
  { destruct apple.
    - unfold cloexec_received_fds, for_fds. rewrite Hr, Nat2Z.id, firstn_all.
      destruct (cloexec_each (handed_out w w1) w1) as (w2 & E2 & N2 & _ & _ & M2 & _ & L2).
      exists w2. repeat split; auto.
      intros x Hx. apply L2; [exact Hx|]. eapply new_file_markable. apply Fn. exact Hx.
    - exists w1. repeat split; auto. intros x Hx. apply new_file_marked. apply Fn. exact Hx. }
  unfold mbind, M_bind. rewrite E2. simpl.
  unfold handed_out in *. rewrite N2.
  repeat split; auto; try lia.
  intros lo M x Hx. rewrite N2 in Hx.
  destruct (Z.lt_ge_cases x (next_fd w)) as [Hlt|Hge].
  - apply M2. rewrite Fm by exact Hlt. apply M. lia.
  - apply L2. apply In_seqZ. lia.
Qed.

Lemma proxy_recvmsg_loop_handover (fuel : nat) (apple : bool) (ps : proxy_socket)
    (data : list byte) (msg : msghdr) (out_size : option Z) (w : world) :
  handover msg w (proxy_recvmsg_loop fuel apple ps data msg out_size w).
Proof.
  revert w. induction fuel as [|fuel IH]; intros w; [exact I|].
  cbn [proxy_recvmsg_loop]. unfold mbind at 1, M_bind at 1.
  pose proof (sys_recvmsg_spec (proxy_fd ps) data msg (negb apple) w) as S.
  pose proof (sys_recvmsg_files (proxy_fd ps) data msg (negb apple) w) as F.
  destruct (sys_recvmsg (proxy_fd ps) data msg (negb apple) w)
    as [[[[s errno] msg'] data'] w1|w1|w1] eqn:E; [|exact I..].
  destruct S as (_ & _ & _ & _ & _ & _ & _ & Hz & _ & _).
  destruct F as (Fm & _ & _).
  destruct (Z.ltb_spec s 0).
  { destruct (is_transient errno).
    - eapply handover_from; [apply Hz; lia | exact Fm | apply IH].
    - apply after_unit; intros; exact I. }
  destruct (Z.eqb_spec s 0); [exact I|].
  apply after_assert; [exact I|]. intros _.
  destruct (negb (Z.land (msg_flags msg') (Z.lor MSG_TRUNC MSG_CTRUNC) =? 0)).
  { apply after_unit; try (intros; exact I). intros w2.
    apply after_unit; intros; exact I. }
  destruct apple; cbn [negb].
  - apply (handover_delivered true _ _ _ _ _ _ _ _ _ _ E). lia.
  - destruct (negb (iov_len msg' =? s)).
    { apply after_unit; try (intros; exact I). intros w2.
      apply after_unit; intros; exact I. }
    apply (handover_delivered false _ _ _ _ _ _ _ _ _ _ E). lia.
Qed.

Lemma render_recvmsg_loop_handover (fuel : nat) (apple : bool) (rs : render_socket)
    (data : list byte) (msg : msghdr) (out_size : option Z) (w : world) :
  handover msg w (render_recvmsg_loop fuel apple rs data msg out_size w).
Proof.
  revert w. induction fuel as [|fuel IH]; intros w; [exact I|].
  cbn [render_recvmsg_loop]. unfold mbind at 1, M_bind at 1.
  pose proof (sys_recvmsg_spec (render_fd rs) data msg (negb apple) w) as S.
  pose proof (sys_recvmsg_files (render_fd rs) data msg (negb apple) w) as F.
  destruct (sys_recvmsg (render_fd rs) data msg (negb apple) w)
    as [[[[s errno] msg'] data'] w1|w1|w1] eqn:E; [|exact I..].
  destruct S as (_ & _ & _ & _ & _ & _ & _ & Hz & _ & _).
  destruct F as (Fm & _ & _).
  destruct (Z.leb_spec s 0).
  { destruct (Z.eqb_spec s 0); [exact I|].
    destruct (is_transient errno).
    - eapply handover_from; [apply Hz; lia | exact Fm | apply IH].
    - apply after_unit; intros; exact I. }
  destruct (negb (Z.land (msg_flags msg') (Z.lor MSG_TRUNC MSG_CTRUNC) =? 0)).
  { apply after_unit; try (intros; exact I). intros w2.
    apply after_unit; intros; exact I. }
  destruct out_size as [z|].
  - apply (handover_delivered apple _ _ _ _ _ _ _ _ _ _ E). lia.
  - apply after_unit; intros; exact I.
Qed.

Lemma steady_refl (w : world) : steady w w.
Proof. split; reflexivity. Qed.

Lemma steady_trans (w1 w2 w3 : world) : steady w1 w2 -> steady w2 w3 -> steady w1 w3.
Proof. intros [N1 M1] [N2 M2]. split; [congruence|]. intros x. rewrite M2. apply M1. Qed.

Lemma steady_marked_from (lo : Z) (w w' : world) :
  steady w w' -> marked_from lo w -> marked_from lo w'.
Proof. intros [N M] Hm fd Hfd. rewrite M. apply Hm. lia. Qed.

Lemma sys_read_steady (fd count : Z) (w : world) :
  match sys_read fd count w with
  | Ret _ w' => steady w w'
  | _ => True
  end.
Proof.
  unfold sys_read, next_event. unfold_monad.
  destruct (oracle w) as [|[e|n fl anc] o]; [exact I|split; reflexivity|].
  unfold kernel_recv. simpl.
  destruct (files w !! fd) as [[ff [so|]]|] eqn:Ef; simpl; try (split; reflexivity).
  destruct (inbox_empty so).
  { destruct (files w !! so_peer so); simpl; [exact I | split; reflexivity]. }
  destruct (pull so n count) as [[chunk q] short]. simpl.
  split; [reflexivity|]. intros x. unfold cloexec_marked. simpl.
  destruct (decide (x = fd)) as [->|Hne].
  - rewrite lookup_insert_eq, Ef. reflexivity.
  - rewrite lookup_insert_ne by auto. reflexivity.
Qed.

Lemma read_all_loop_steady (fuel : nat) (fd : Z) (buf : list byte) (remaining : Z)
    (w : world) :
  match read_all_loop log_msg fuel fd buf remaining w with
  | Ret _ w' => steady w w'
  | _ => True
  end.
Proof.
  revert buf remaining w. induction fuel as [|fuel IH]; intros buf remaining w; simpl.
  - destruct (0 <? remaining); [exact I | apply steady_refl].
  - destruct (0 <? remaining); [|apply steady_refl].
    unfold mbind at 1, M_bind at 1.
    pose proof (sys_read_steady fd remaining w) as S.
    destruct (sys_read fd remaining w) as [[[n errno] chunk] w1|w1|w1]; [|exact I..].
    assert (T : forall r : res (bool * list byte),
              match r with Ret _ w' => steady w1 w' | _ => True end ->
              match r with Ret _ w' => steady w w' | _ => True end).
    { intros [a w'|w'|w']; auto. apply steady_trans. exact S. }
    destruct (n <? 0).
    + destruct (is_transient errno); [apply T, IH|]. apply steady_trans with w1; [exact S|].
      split; reflexivity.
    + destruct (n =? 0); [exact S|]. apply T, IH.
Qed.

Lemma has_control_false (msg : msghdr) : has_control msg = false -> msg_control msg = None.
Proof. unfold has_control. destruct (msg_control msg); [discriminate | reflexivity]. Qed.

Lemma later_post_from fds out_fd_count (w w1 : world) (r : res receive_result) :
  next_fd w1 = next_fd w -> (forall lo, marked_from lo w -> marked_from lo w1) ->
  later_post fds out_fd_count w1 r -> later_post fds out_fd_count w r.
Proof.
  intros N M. destruct r as [[[[[|] d] f] c] w'|w'|w']; simpl; auto.
  intros (N' & M' & F & C). repeat split; auto. congruence.
Qed.

Lemma proxy_receive_loop_later (fuel : nat) (ps : proxy_socket) (size max_fd_count : Z) :
  forall (total_read : Z) (data : list byte) (msg : msghdr) (fds : option (list Z))
         (out_fd_count : option Z) (w : world),
    msg_control msg = None ->
    later_post fds out_fd_count w
      (proxy_receive_loop fuel ps size max_fd_count total_read data msg fds out_fd_count w).
Proof.
  induction fuel as [|fuel IH]; intros total_read data msg fds out_fd_count w Hc;
    cbn [proxy_receive_loop].
  - destruct (total_read <? size); [exact I|]. simpl. auto.
  - destruct (total_read <? size); [|simpl; auto].
    apply after_bind; try (intros; exact I).
    intros [[[ok msg'] data'] chunk_size] w1 E.
    pose proof (proxy_recvmsg_loop_handover (S (length (oracle w))) true ps data
                  (with_iov msg total_read (size - total_read)) (Some 0) w) as Hh.
    unfold proxy_socket_recvmsg, with_fuel in E. rewrite E in Hh.
    destruct ok; cbn [negb]; [|exact I].
    destruct Hh as (_ & _ & Hn & Hctl & Hm). specialize (Hn Hc).
    assert (Hf : has_control msg' = false).
    { rewrite Hctl. unfold has_control. simpl. rewrite Hc. reflexivity. }
    rewrite Hf.
    eapply later_post_from; [exact Hn | exact Hm|].
    apply IH. apply has_control_false. exact Hf.
Qed.

Lemma fds_post_none (fds : option (list Z)) (max_fd_count : Z) (out_fd_count : option Z)
    (w w' : world) :
  next_fd w' = next_fd w ->
  (forall lo, marked_from lo w -> marked_from lo w') ->
  fds_post fds max_fd_count out_fd_count w fds (store_if out_fd_count 0) w'.
Proof.
  intros N M. unfold fds_post. rewrite (handed_out_nil w w' N). simpl.
  split; [lia|]. split; [exact M|]. intros Hm.
  replace (Z.min max_fd_count (Z.of_nat 0)) with 0 by lia.
  split; [destruct fds; reflexivity | destruct fds; reflexivity].
Qed.

Lemma store_if_twice {A} (p : option A) (a b : A) : store_if (store_if p a) b = store_if p b.
Proof. destruct p; reflexivity. Qed.

Lemma is_null_memcpy (fds : option (list Z)) (src : list Z) (n : Z) :
  is_null (memcpy_fds fds src n) = is_null fds.
Proof. destruct fds; reflexivity. Qed.

Lemma proxy_receive_loop_first (fuel : nat) (ps : proxy_socket) (size max_fd_count : Z)
    (total_read : Z) (data : list byte) (msg : msghdr) (fds : option (list Z))
    (out_fd_count : option Z) (w : world) :
  first_post fds max_fd_count out_fd_count w
    (proxy_receive_loop fuel ps size max_fd_count total_read data msg fds
       (store_if out_fd_count 0) w).
Proof.
  assert (Done : first_post fds max_fd_count out_fd_count w
            (Ret (true, data, fds,
                  if is_null fds then store_if (store_if out_fd_count 0) 0
                  else store_if out_fd_count 0) w)).
  { simpl. rewrite store_if_twice.
    replace (if is_null fds then _ else _) with (store_if out_fd_count 0)
      by (destruct (is_null fds); reflexivity).
    apply fds_post_none; auto. }
  destruct fuel as [|fuel]; cbn [proxy_receive_loop].
  { destruct (total_read <? size); [exact I | exact Done]. }
  destruct (total_read <? size); [|exact Done].
  apply after_bind; try (intros; exact I).
  intros [[[ok msg'] data'] chunk_size] w1 E.
  pose proof (proxy_recvmsg_loop_handover (S (length (oracle w))) true ps data
                (with_iov msg total_read (size - total_read)) (Some 0) w) as Hh.
  unfold proxy_socket_recvmsg, with_fuel in E. rewrite E in Hh.
  destruct ok; cbn [negb]; [|exact I].
  destruct Hh as (Hg & Hle & Hn & Hctl & Hm).
  destruct (has_control msg') eqn:Hc.
  - rewrite Hg.
    set (k := Z.of_nat (length (handed_out w w1))) in *.
    set (c := if max_fd_count <? k then max_fd_count else k).
    assert (Ec : c = Z.min max_fd_count k).
    { subst c. destruct (Z.ltb_spec max_fd_count k); lia. }
    match goal with |- first_post _ _ _ _ (proxy_receive_loop ?f ?p ?sz ?mx ?t ?d ?m ?fd ?cn ?w0) =>
      pose proof (proxy_receive_loop_later f p sz mx t d m fd cn w0 eq_refl) as L;
      destruct (proxy_receive_loop f p sz mx t d m fd cn w0)
        as [[[[[|] d2] f2] c2] w2|w2|w2]; try exact I
    end.
    destruct L as (N2 & M2 & -> & ->).
    unfold first_post, fds_post. unfold handed_out in *. rewrite N2. fold k.
    split; [lia|]. split; [auto|]. intros Hmax. simpl. rewrite <- Ec.
    split; [reflexivity|].
    rewrite is_null_memcpy, !store_if_twice. destruct (is_null fds); reflexivity.
  - assert (Hnone : msg_control (with_iov msg total_read (size - total_read)) = None).
    { apply has_control_false. symmetry. exact Hctl. }
    specialize (Hn Hnone).
    match goal with |- first_post _ _ _ _ (proxy_receive_loop ?f ?p ?sz ?mx ?t ?d ?m ?fd ?cn ?w0) =>
      pose proof (proxy_receive_loop_later f p sz mx t d m fd cn w0 (has_control_false _ Hc)) as L;
      destruct (proxy_receive_loop f p sz mx t d m fd cn w0)
        as [[[[[|] d2] f2] c2] w2|w2|w2]; try exact I
    end.
    destruct L as (N2 & M2 & -> & ->).
    unfold first_post. rewrite store_if_twice.
    replace (if is_null fds then _ else _) with (store_if out_fd_count 0)
      by (destruct (is_null fds); reflexivity).
    apply fds_post_none; [congruence | auto].
Qed.

Lemma after_log {B} (s : string) (k : M B) (P : res B -> Prop) (w : world) :
  P (k (set_logs (logs w ++ [s]) w)) -> P ((log_msg s ≫= fun _ => k) w).
Proof. intros Pk. exact Pk. Qed.

Lemma first_post_from fds max_fd_count out_fd_count (w w1 : world) (r : res receive_result) :
  steady w w1 ->
  first_post fds max_fd_count out_fd_count w1 r ->
  first_post fds max_fd_count out_fd_count w r.
Proof.
  intros [N M]. destruct r as [[[[[|] d] f] c] w'|w'|w']; simpl; auto.
  unfold fds_post, handed_out. rewrite N. intros (Hle & Hm & Hf).
  split; [exact Hle|]. split; [|exact Hf].
  intros lo Hlo. apply Hm. apply (steady_marked_from lo w w1); [|exact Hlo].
  split; assumption.
Qed.

Lemma proxy_reply_fds (apple : bool) (ps : proxy_socket) (data : option (list byte))
    (size : Z) (fds : option (list Z)) (max_fd_count : Z) (out_fd_count : option Z)
    (w : world) :
  reply_post apple fds max_fd_count out_fd_count w
    (proxy_socket_receive_reply_internal apple ps data size fds max_fd_count
       out_fd_count w).
Proof.
  unfold proxy_socket_receive_reply_internal.
  apply after_assert; [exact I|]. intros _.
  destruct apple.
  - apply after_log.
    apply after_bind; try (intros; exact I). intros [ok hdr] w1 E.
    unfold proxy_socket_read_all, socket_read_all, with_fuel, proxy_log in E. cbv beta in E.
    match type of E with read_all_loop _ ?f ?fd ?b ?r ?w0 = _ =>
      pose proof (read_all_loop_steady f fd b r w0) as S
    end.
    rewrite E in S.
    destruct ok; cbn [negb]; [|exact I].
    apply after_log.
    destruct (negb (header_size hdr =? size)).
    { apply after_unit; intros; exact I. }
    unfold with_fuel.
    match goal with |- reply_post _ _ _ _ _ (proxy_receive_loop ?f ?p ?sz ?mx ?t ?d ?m ?fd ?cn ?w0) =>
      pose proof (proxy_receive_loop_first f p sz mx t d m fds out_fd_count w0) as L;
      destruct (proxy_receive_loop f p sz mx t d m fd cn w0)
        as [[[[[|] d2] f2] c2] w2|w2|w2] eqn:E2; try exact I
    end.
    split; [|discriminate].
    eapply (first_post_from fds max_fd_count out_fd_count w _
             (Ret (true, d2, f2, c2) w2)); [|exact L].
    destruct S as [N M]. split; [exact N|]. intros x. simpl. unfold cloexec_marked in *.
    simpl. apply M.
  - destruct (Z.eqb_spec max_fd_count 0) as [Hz|Hnz]; cbn [negb].
    + unfold mbind at 1, M_bind at 1. unfold mret at 1, M_ret at 1.
      apply after_bind; try (intros; exact I).
      intros [[[ok msg'] mem] received] w1 E.
      pose proof (proxy_recvmsg_loop_handover (S (length (oracle w))) false ps
                    (default [] data) (data_msg size) None w) as Hh.
      unfold proxy_socket_recvmsg, with_fuel in E. rewrite E in Hh.
      destruct ok; cbn [negb]; [|exact I].
      destruct Hh as (_ & _ & Hn & _ & Hm). specialize (Hn eq_refl).
      split.
      * apply fds_post_none; auto.
      * intros _. rewrite (handed_out_nil w w1 Hn). simpl. lia.
    + apply after_bind; try (intros; exact I). intros msg w0 Em.
      unfold mbind, M_bind, assert in Em.
      destruct (negb (is_null fds)) eqn:Hfds; simpl in Em; [|discriminate].
      destruct (max_fd_count <=? PROXY_SOCKET_MAX_FD_COUNT); [|discriminate].
      inversion Em; subst msg w0. clear Em.
      apply after_bind; try (intros; exact I).
      intros [[[ok msg'] mem] received] w1 E.
      pose proof (proxy_recvmsg_loop_handover (S (length (oracle w))) false ps
                    (default [] data) (cleared_control (data_msg size) max_fd_count) None w)
        as Hh.
      unfold proxy_socket_recvmsg, with_fuel in E. rewrite E in Hh.
      destruct ok; cbn [negb]; [|exact I].
      destruct Hh as (Hg & Hle & _ & _ & Hm).
      rewrite Hg.
      apply after_assert; [exact I|]. intros Hk. apply Z.leb_le in Hk.
      destruct out_fd_count as [z|]; [|exact I].
      split; [|intros _; exact Hk].
      unfold fds_post. split; [exact Hle|]. split; [exact Hm|]. intros _. simpl.
      rewrite Z.min_r by exact Hk. split; [reflexivity|].
      destruct fds; [reflexivity | discriminate].
Qed.

Lemma render_receive_loop_later (fuel : nat) (rs : render_socket) (size max_fd_count : Z) :
  forall (total_read : Z) (data : list byte) (msg : msghdr) (fds : option (list Z))
         (out_fd_count : option Z) (w : world),
    msg_control msg = None ->
    later_post fds out_fd_count w
      (render_receive_loop fuel rs size max_fd_count total_read data msg fds out_fd_count w).
Proof.
  induction fuel as [|fuel IH]; intros total_read data msg fds out_fd_count w Hc;
    cbn [render_receive_loop].
  - destruct (total_read <? size); [exact I|]. simpl. auto.
  - destruct (total_read <? size); [|simpl; auto].
    apply after_bind; try (intros; exact I).
    intros [[[ok msg'] data'] chunk_size] w1 E.
    pose proof (render_recvmsg_loop_handover (S (length (oracle w))) true rs data
                  (with_iov msg total_read (size - total_read)) (Some 0) w) as Hh.
    unfold render_socket_recvmsg, with_fuel in E. rewrite E in Hh.
    destruct ok; cbn [negb]; [|exact I].
    destruct Hh as (_ & _ & Hn & Hctl & Hm). specialize (Hn Hc).
    assert (Hf : has_control msg' = false).
    { rewrite Hctl. unfold has_control. simpl. rewrite Hc. reflexivity. }
    rewrite Hf.
    eapply later_post_from; [exact Hn | exact Hm|].
    apply IH. apply has_control_false. exact Hf.
Qed.

Lemma render_receive_loop_first (fuel : nat) (rs : render_socket) (size max_fd_count : Z)
    (total_read : Z) (data : list byte) (msg : msghdr) (fds : option (list Z))
    (out_fd_count : option Z) (w : world) :
  first_post fds max_fd_count out_fd_count w
    (render_receive_loop fuel rs size max_fd_count total_read data msg fds
       (store_if out_fd_count 0) w).
Proof.
  assert (Done : first_post fds max_fd_count out_fd_count w
            (Ret (true, data, fds,
                  if is_null fds then store_if (store_if out_fd_count 0) 0
                  else store_if out_fd_count 0) w)).
  { simpl. rewrite store_if_twice.
    replace (if is_null fds then _ else _) with (store_if out_fd_count 0)
      by (destruct (is_null fds); reflexivity).
    apply fds_post_none; auto. }
  destruct fuel as [|fuel]; cbn [render_receive_loop].
  { destruct (total_read <? size); [exact I | exact Done]. }
  destruct (total_read <? size); [|exact Done].
  apply after_bind; try (intros; exact I).
  intros [[[ok msg'] data'] chunk_size] w1 E.
  pose proof (render_recvmsg_loop_handover (S (length (oracle w))) true rs data
                (with_iov msg total_read (size - total_read)) (Some 0) w) as Hh.
  unfold render_socket_recvmsg, with_fuel in E. rewrite E in Hh.
  destruct ok; cbn [negb]; [|exact I].
  destruct Hh as (Hg & Hle & Hn & Hctl & Hm).
  destruct (has_control msg') eqn:Hc.
  - rewrite Hg.
    set (k := Z.of_nat (length (handed_out w w1))) in *.
    set (c := if max_fd_count <? k then max_fd_count else k).
    assert (Ec : c = Z.min max_fd_count k).
    { subst c. destruct (Z.ltb_spec max_fd_count k); lia. }
    match goal with |- first_post _ _ _ _ (render_receive_loop ?f ?p ?sz ?mx ?t ?d ?m ?fd ?cn ?w0) =>
      pose proof (render_receive_loop_later f p sz mx t d m fd cn w0 eq_refl) as L;
      destruct (render_receive_loop f p sz mx t d m fd cn w0)
        as [[[[[|] d2] f2] c2] w2|w2|w2]; try exact I
    end.
    destruct L as (N2 & M2 & -> & ->).
    unfold first_post, fds_post. unfold handed_out in *. rewrite N2. fold k.
    split; [lia|]. split; [auto|]. intros Hmax. simpl. rewrite <- Ec.
    split; [reflexivity|].
    rewrite is_null_memcpy, !store_if_twice. destruct (is_null fds); reflexivity.
  - assert (Hnone : msg_control (with_iov msg total_read (size - total_read)) = None).
    { apply has_control_false. symmetry. exact Hctl. }
    specialize (Hn Hnone).
    match goal with |- first_post _ _ _ _ (render_receive_loop ?f ?p ?sz ?mx ?t ?d ?m ?fd ?cn ?w0) =>
      pose proof (render_receive_loop_later f p sz mx t d m fd cn w0 (has_control_false _ Hc)) as L;
      destruct (render_receive_loop f p sz mx t d m fd cn w0)
        as [[[[[|] d2] f2] c2] w2|w2|w2]; try exact I
    end.
    destruct L as (N2 & M2 & -> & ->).
    unfold first_post. rewrite store_if_twice.
    replace (if is_null fds then _ else _) with (store_if out_fd_count 0)
      by (destruct (is_null fds); reflexivity).
    apply fds_post_none; [congruence | auto].
Qed.

Lemma render_request_fds (apple : bool) (rs : render_socket) (data : option (list byte))
    (size : Z) (out_size : option Z) (fds : option (list Z)) (max_fd_count : Z)
    (out_fd_count : option Z) (w : world) :
  request_fds_post apple fds max_fd_count out_fd_count w
    (render_socket_receive_request_internal apple rs data size out_size fds max_fd_count
       out_fd_count w).
Proof.
  unfold render_socket_receive_request_internal.
  apply after_assert; [exact I|]. intros _.
  destruct apple.
  - apply after_bind; try (intros; exact I). intros [ok hdr] w1 E.
    unfold render_socket_read_all, socket_read_all, with_fuel, render_log in E. cbv beta in E.
    match type of E with read_all_loop _ ?f ?fd ?b ?r ?w0 = _ =>
      pose proof (read_all_loop_steady f fd b r w0) as S
    end.
    rewrite E in S.
    destruct ok; cbn [negb]; [|exact I].
    destruct (size <? header_size hdr).
    { apply after_unit; intros; exact I. }
    destruct out_size as [z|]; [|exact I].
    apply after_bind; try (intros; exact I). intros [[[ok mem] fds'] count] w2 E2.
    unfold with_fuel in E2.
    match type of E2 with render_receive_loop ?f ?p ?sz ?mx ?t ?d ?m ?fd ?cn ?w0 = _ =>
      pose proof (render_receive_loop_first f p sz mx t d m fds out_fd_count w0) as L
    end.
    rewrite E2 in L. destruct ok; [|exact I].
    split; [|discriminate].
    apply (first_post_from fds max_fd_count out_fd_count w w1
             (Ret (true, mem, fds', count) w2)); [exact S | exact L].
  - destruct (Z.eqb_spec max_fd_count 0) as [Hz|Hnz]; cbn [negb].
    + unfold mbind at 1, M_bind at 1. unfold mret at 1, M_ret at 1.
      apply after_bind; try (intros; exact I).
      intros [[[ok msg'] mem] received] w1 E.
      pose proof (render_recvmsg_loop_handover (S (length (oracle w))) false rs
                    (default [] data) (data_msg size) out_size w) as Hh.
      unfold render_socket_recvmsg, with_fuel in E. rewrite E in Hh.
      destruct ok; cbn [negb]; [|exact I].
      destruct Hh as (_ & _ & Hn & _ & Hm). specialize (Hn eq_refl).
      split.
      * apply fds_post_none; auto.
      * intros _. rewrite (handed_out_nil w w1 Hn). simpl. lia.
    + apply after_bind; try (intros; exact I). intros msg w0 Em.
      unfold mbind, M_bind, assert in Em.
      destruct (negb (is_null fds)) eqn:Hfds; simpl in Em; [|discriminate].
      destruct (max_fd_count <=? RENDER_SOCKET_MAX_FD_COUNT); [|discriminate].
      inversion Em; subst msg w0. clear Em.
      apply after_bind; try (intros; exact I).
      intros [[[ok msg'] mem] received] w1 E.
      pose proof (render_recvmsg_loop_handover (S (length (oracle w))) false rs
                    (default [] data) (cleared_control (data_msg size) max_fd_count)
                    out_size w) as Hh.
      unfold render_socket_recvmsg, with_fuel in E. rewrite E in Hh.
      destruct ok; cbn [negb]; [|exact I].
      destruct Hh as (Hg & Hle & _ & _ & Hm).
      rewrite Hg.
      apply after_assert; [exact I|]. intros Hk. apply Z.leb_le in Hk.
      destruct out_fd_count as [z|]; [|exact I].
      split; [|intros _; exact Hk].
      unfold fds_post. split; [exact Hle|]. split; [exact Hm|]. intros _. simpl.
      rewrite Z.min_r by exact Hk. split; [reflexivity|].
      destruct fds; [reflexivity | discriminate].
Qed.

(** X4: what the caller gets of the descriptors.  Whatever the environment
    does, when [proxy_socket_receive_reply_with_fds] or
    [render_socket_receive_request_with_fds] with a [max_fd_count] that is
    not negative returns true, and [k] descriptors were handed to the
    process during the operation, then the
    first [min (max_fd_count, k)] of them are in the caller's array, in the
    order of their arrival, the rest of the array is as it was, and
    *out_fd_count holds that number (0 when the caller passed no array).  In
    the native build [k] does not exceed [max_fd_count]. *)
Theorem X4_receive_hands_over_descriptors (apple : bool) (ps : proxy_socket)
    (rs : render_socket) (data : option (list byte)) (size : Z) (out_size : option Z)
    (fds : option (list Z)) (max_fd_count : Z) (out_fd_count : option Z) (w : world) :
  0 <= max_fd_count ->
  (forall mem fds' count w',
     proxy_socket_receive_reply_with_fds apple ps data size fds max_fd_count out_fd_count w
       = Ret (true, mem, fds', count) w' ->
     let handed := handed_out w w' in
     let c := Z.min max_fd_count (Z.of_nat (length handed)) in
     fds' = memcpy_fds fds handed c /\
     count = store_if out_fd_count (if is_null fds then 0 else c) /\
     (apple = false -> Z.of_nat (length handed) <= max_fd_count)) /\
  (forall mem received fds' count w',
     render_socket_receive_request_with_fds apple rs data size out_size fds max_fd_count
         out_fd_count w
       = Ret (true, mem, received, fds', count) w' ->
     let handed := handed_out w w' in
     let c := Z.min max_fd_count (Z.of_nat (length handed)) in
     fds' = memcpy_fds fds handed c /\
     count = store_if out_fd_count (if is_null fds then 0 else c) /\
     (apple = false -> Z.of_nat (length handed) <= max_fd_count)).
Proof.
  intros Hmax. split.
  - intros mem fds' count w' E.
    pose proof (proxy_reply_fds apple ps data size fds max_fd_count out_fd_count w) as P.
    unfold proxy_socket_receive_reply_with_fds in E. rewrite E in P.
    destruct P as [(_ & _ & F) L]. destruct (F Hmax) as [F1 F2]. auto.
  - intros mem received fds' count w' E.
    pose proof (render_request_fds apple rs data size out_size fds max_fd_count
                  out_fd_count w) as P.
    unfold render_socket_receive_request_with_fds in E. rewrite E in P.
    destruct P as [(_ & _ & F) L]. destruct (F Hmax) as [F1 F2]. auto.
Qed.

Lemma marked_handed_out (w w' : world) :
  (forall lo, marked_from lo w -> marked_from lo w') ->
  Forall (fun fd => cloexec_marked w' fd = true) (handed_out w w').
Proof.
  intros M. apply Forall_forall. intros fd Hin. apply list_elem_of_In in Hin.
  apply In_handed_out in Hin.
  apply (M (next_fd w)); [|lia]. intros x Hx. lia.
Qed.

(** X5: no received descriptor is inheritable.  Whatever the environment
    does, when the receive helper of either endpoint or a receive operation
    built on it returns true, every descriptor that was handed to the
    process during the operation is open and marked close-on-exec. *)
Theorem X5_received_descriptors_close_on_exec (apple : bool) (ps : proxy_socket)
    (rs : render_socket) (data : option (list byte)) (buf : list byte) (size : Z)
    (msg : msghdr) (out_size : option Z)
    (fds : option (list Z)) (max_fd_count : Z) (out_fd_count : option Z) (w : world) :
  (forall msg' mem received w',
     proxy_socket_recvmsg apple ps buf msg out_size w = Ret (true, msg', mem, received) w' ->
     Forall (fun fd => cloexec_marked w' fd = true) (handed_out w w')) /\
  (forall msg' mem received w',
     render_socket_recvmsg apple rs buf msg out_size w = Ret (true, msg', mem, received) w' ->
     Forall (fun fd => cloexec_marked w' fd = true) (handed_out w w')) /\
  (forall mem fds' count w',
     proxy_socket_receive_reply_internal apple ps data size fds max_fd_count out_fd_count w
       = Ret (true, mem, fds', count) w' ->
     Forall (fun fd => cloexec_marked w' fd = true) (handed_out w w')) /\
  (forall mem received fds' count w',
     render_socket_receive_request_internal apple rs data size out_size fds max_fd_count
         out_fd_count w
       = Ret (true, mem, received, fds', count) w' ->
     Forall (fun fd => cloexec_marked w' fd = true) (handed_out w w')).
Proof.
  repeat split.
  - intros msg' mem received w' E.
    pose proof (proxy_recvmsg_loop_handover (S (length (oracle w))) apple ps buf msg
                  out_size w) as P.
    unfold proxy_socket_recvmsg, with_fuel in E. rewrite E in P.
    apply marked_handed_out, P.
  - intros msg' mem received w' E.
    pose proof (render_recvmsg_loop_handover (S (length (oracle w))) apple rs buf msg
                  out_size w) as P.
    unfold render_socket_recvmsg, with_fuel in E. rewrite E in P.
    apply marked_handed_out, P.
  - intros mem fds' count w' E.
    pose proof (proxy_reply_fds apple ps data size fds max_fd_count out_fd_count w) as P.
    rewrite E in P. apply marked_handed_out, P.
  - intros mem received fds' count w' E.
    pose proof (render_request_fds apple rs data size out_size fds max_fd_count
                  out_fd_count w) as P.
    rewrite E in P. apply marked_handed_out, P.
Qed.

(** ** More descriptors than the caller asked for *)













Lemma count_kept_from (bound : Z) (w w1 : world) (r : res receive_result) :
  next_fd w1 = next_fd w -> count_kept bound w1 r -> count_kept bound w r.
Proof.
  intros N. destruct r as [[[[[|] d] f] c] w'|w'|w']; simpl; auto. rewrite N. auto.
Qed.
























(** ** What a successful send has done *)

Lemma linked_same_files (type a b : Z) (q : list (list byte)) (w w' : world) :
  files w' = files w -> linked type a b q w -> linked type a b q w'.
Proof. intros E. unfold linked. rewrite E. auto. Qed.

Lemma take_length_take {A} (k : nat) (l : list A) : take (length (take k l)) l = take k l.
Proof.
  rewrite length_take. destruct (Nat.le_ge_cases k (length l)).
  - rewrite Nat.min_l by lia. reflexivity.
  - rewrite Nat.min_r by lia. rewrite !take_ge by lia. reflexivity.
Qed.

(** What the kernel does with one send on a connected socket: it queues a
    prefix of the payload for the peer, all of it on a SOCK_SEQPACKET socket. *)
Lemma kernel_send_linked (type a b n : Z) (q : list (list byte)) (payload : list byte)
    (ns : bool) (w : world) :
  linked type a b q w ->
  exists chunk w',
    kernel_send a n payload ns w = Ret (Z.of_nat (length chunk), 0) w' /\
    linked type a b (q ++ [chunk]) w' /\
    chunk = take (length chunk) payload /\
    (type = SOCK_SEQPACKET -> chunk = payload).
Proof.
  intros L. pose proof L as (Hne & fa & fb & qa & Ea & Eb).
  unfold kernel_send, socket_of. rewrite Ea. simpl. rewrite Eb.
  eexists _, _. split; [reflexivity|]. split; [eapply linked_put_b; exact L|].
  split; [symmetry; apply take_length_take|].
  intros ->. unfold accepted. rewrite seqpacket_is_packet, Nat2Z.id. apply firstn_all.
Qed.

Lemma sys_write_linked (type a b count : Z) (q : list (list byte)) (p : list byte)
    (w : world) :
  linked type a b q w ->
  sent_some type a b q (take (Z.to_nat count) p) (sys_write a p count w).
Proof.
  intros L. unfold sys_write, next_event. unfold_monad.
  destruct (oracle w) as [|[e|n fl anc] o] eqn:Eo; [exact I| |].
  - left. split; [lia|]. eapply linked_same_files; [|exact L]. reflexivity.
  - destruct (kernel_send_linked type a b n q (take (Z.to_nat count) p) false
                (set_oracle o w)) as (chunk & w' & E & L' & Hc & Hp).
    { eapply linked_same_files; [|exact L]. reflexivity. }
    rewrite E. right. exists chunk. auto.
Qed.

Lemma sys_sendmsg_linked (type a b : Z) (q : list (list byte)) (mem : list byte)
    (msg : msghdr) (ns : bool) (w : world) :
  linked type a b q w ->
  sent_some type a b q (bytes_at mem (iov_base msg) (iov_len msg))
    (sys_sendmsg a mem msg ns w).
Proof.
  intros L. unfold sys_sendmsg, next_event, record_send. unfold_monad.
  destruct (oracle w) as [|[e|n fl anc] o] eqn:Eo; [exact I| |].
  - left. split; [lia|]. eapply linked_same_files; [|exact L]. reflexivity.
  - destruct (kernel_send_linked type a b n q (bytes_at mem (iov_base msg) (iov_len msg))
                ns (set_oracle o w)) as (chunk & w' & E & L' & Hc & Hp).
    { eapply linked_same_files; [|exact L]. reflexivity. }
    rewrite E. right. exists chunk. split; [reflexivity|]. split; [exact Hc|].
    split; [|exact Hp]. eapply linked_same_files; [|exact L']. reflexivity.
Qed.

Lemma write_all_loop_queues (type a b : Z) (fuel : nat) :
  forall (p : list byte) (remaining : Z) (q : list (list byte)) (w : world),
    linked type a b q w ->
    all_queued type a b q (take (Z.to_nat remaining) p)
      (write_all_loop log_msg fuel a p remaining w).
Proof.
  induction fuel as [|fuel IH]; intros p remaining q w L; cbn [write_all_loop].
  - destruct (Z.ltb_spec 0 remaining); [exact I|]. simpl. exists q.
    replace (Z.to_nat remaining) with 0%nat by lia. rewrite app_nil_r. auto.
  - destruct (Z.ltb_spec 0 remaining) as [Hr|Hr].
    2:{ simpl. exists q. replace (Z.to_nat remaining) with 0%nat by lia.
        rewrite app_nil_r. auto. }
    apply after_bind; try (intros; exact I). intros [n errno] w1 E.
    pose proof (sys_write_linked type a b remaining q p w L) as S. rewrite E in S.
    destruct S as [[Hn L1]|(chunk & -> & Hc & L1 & _)].
    + destruct (Z.ltb_spec n 0); [|lia].
      destruct (is_transient errno); [apply IH; exact L1|].
      apply after_log. exact I.
    + destruct (Z.ltb_spec (Z.of_nat (length chunk)) 0); [lia|].
      specialize (IH (drop (Z.to_nat (Z.of_nat (length chunk))) p)
                     (remaining - Z.of_nat (length chunk)) _ w1 L1).
      destruct (write_all_loop log_msg fuel a _ _ w1) as [[|] w2|w2|w2]; try exact I.
      destruct IH as (q' & L' & Hq'). exists q'. split; [exact L'|].
      rewrite Hq', concat_app. simpl. rewrite app_nil_r, <- app_assoc. f_equal.
      rewrite Nat2Z.id. rewrite Hc at 1.
      assert (Hk : (length chunk <= Z.to_nat remaining)%nat).
      { rewrite Hc, !length_take. lia. }
      rewrite take_take, Nat.min_l by exact Hk.
      rewrite take_take_drop. f_equal. lia.
Qed.

Lemma sendmsg_stream_loop_queues (type a b : Z) (fuel : nat) (data : list byte)
    (msg : msghdr) (size : Z) :
  iov_base msg = 0 ->
  forall (total_sent : Z) (fds_sent : bool) (q : list (list byte)) (w : world),
    0 <= total_sent ->
    linked type a b q w ->
    all_queued type a b q (bytes_at data total_sent (size - total_sent))
      (sendmsg_stream_loop log_msg fuel a data msg size total_sent fds_sent w).
Proof.
  intros Hb.
  induction fuel as [|fuel IH]; intros total_sent fds_sent q w Ht L;
    cbn [sendmsg_stream_loop].
  - destruct (Z.ltb_spec total_sent size); [exact I|]. simpl. exists q.
    unfold bytes_at. replace (Z.to_nat (size - total_sent)) with 0%nat by lia.
    rewrite app_nil_r. auto.
  - destruct (Z.ltb_spec total_sent size) as [Hr|Hr].
    2:{ simpl. exists q. unfold bytes_at.
        replace (Z.to_nat (size - total_sent)) with 0%nat by lia.
        rewrite app_nil_r. auto. }
    apply after_bind; try (intros; exact I). intros [n errno] w1 E.
    match type of E with sys_sendmsg _ _ ?m _ _ = _ =>
      pose proof (sys_sendmsg_linked type a b q data m false w L) as S;
      assert (Em : iov_base m = total_sent /\ iov_len m = size - total_sent)
    end.
    { rewrite Hb. destruct (negb fds_sent && has_control msg); split; simpl; lia. }
    destruct Em as [Eb El]. rewrite Eb, El in S. rewrite E in S.
    destruct S as [[Hn L1]|(chunk & -> & Hc & L1 & _)].
    + destruct (Z.ltb_spec n 0); [|lia].
      destruct (is_transient errno); [apply IH; auto|].
      apply after_log. exact I.
    + destruct (Z.ltb_spec (Z.of_nat (length chunk)) 0); [lia|].
      specialize (IH (total_sent + Z.of_nat (length chunk))
                     (if has_control msg then true else fds_sent) _ w1 ltac:(lia) L1).
      destruct (sendmsg_stream_loop log_msg fuel a data msg size _ _ w1)
        as [[|] w2|w2|w2]; try exact I.
      destruct IH as (q' & L' & Hq'). exists q'. split; [exact L'|].
      rewrite Hq', concat_app. simpl. rewrite app_nil_r, <- app_assoc. f_equal.
      unfold bytes_at in *.
      assert (Hk : (length chunk <= Z.to_nat (size - total_sent))%nat).
      { rewrite Hc, !length_take. lia. }
      rewrite Hc at 1. rewrite take_take, Nat.min_l by exact Hk.
      replace (Z.to_nat (total_sent + Z.of_nat (length chunk)))
        with (Z.to_nat total_sent + length chunk)%nat by lia.
      rewrite <- drop_drop. rewrite take_take_drop. f_equal. lia.
Qed.

Lemma sendmsg_native_loop_queues (a b : Z) (fuel : nat) (data : list byte) (msg : msghdr) :
  forall (q : list (list byte)) (w : world),
    linked SOCK_SEQPACKET a b q w ->
    match sendmsg_native_loop log_msg fuel a data msg w with
    | Ret true w' =>
        linked SOCK_SEQPACKET a b (q ++ [bytes_at data (iov_base msg) (iov_len msg)]) w'
    | _ => True
    end.
Proof.
  induction fuel as [|fuel IH]; intros q w L; cbn [sendmsg_native_loop]; [exact I|].
  apply (after_bind _ _ (fun r => match r with Ret true w' => _ | _ => True end));
    try (intros; exact I).
  intros [n errno] w1 E.
  pose proof (sys_sendmsg_linked SOCK_SEQPACKET a b q data msg true w L) as S.
  rewrite E in S.
  destruct S as [[Hn L1]|(chunk & -> & Hc & L1 & Hp)].
  - destruct (Z.ltb_spec n 0); [|lia].
    destruct (is_transient errno); [apply IH; exact L1|].
    apply (after_log _ _ (fun r => match r with Ret true w' => _ | _ => True end)). exact I.
  - destruct (Z.ltb_spec (Z.of_nat (length chunk)) 0); [lia|].
    apply (after_assert _ _ (fun r => match r with Ret true w' => _ | _ => True end));
      [exact I|].
    intros _. simpl. rewrite <- (Hp eq_refl). exact L1.
Qed.

Lemma bytes_at_all (p : list byte) : bytes_at p 0 (Z.of_nat (length p) - 0) = p.
Proof.
  unfold bytes_at. simpl. rewrite Z.sub_0_r, Nat2Z.id. apply firstn_all.
Qed.

Lemma send_internal_queues (apple trace : bool) (max_fds a b : Z) (ms : list (list byte))
    (p : list byte) (w w' : world) :
  carries apple a b ms w ->
  socket_send_internal log_msg apple trace max_fds a (Some p) (Z.of_nat (length p)) None 0 w
    = Ret true w' ->
  carries apple a b (ms ++ [p]) w'.
Proof.
  intros (q & L & Q).
  change (carries apple a b (ms ++ [p]) w')
    with ((fun r => match r with Ret true w' => carries apple a b (ms ++ [p]) w' | _ => True end)
            (Ret true w')).
  intros <-. unfold socket_send_internal.
  apply after_assert; [exact I|]. intros _.
  cbn [default from_option]. unfold id.
  destruct apple.
  - apply after_bind; try (intros; exact I). intros ok w1 E.
    assert (W : exists w0, files w0 = files w /\
                write_all_loop log_msg (S (length (oracle w0))) a
                  (encode_header (Z.of_nat (length p) mod 2 ^ 32) (0 mod 2 ^ 32)) sizeof_hdr w0
                = Ret ok w1).
    { unfold socket_write_all, with_fuel in E. destruct trace.
      - eexists. split; [|exact E]. reflexivity.
      - eexists. split; [|exact E]. reflexivity. }
    destruct W as (w0 & F0 & E0).
    pose proof (write_all_loop_queues (wire_type true) a b (S (length (oracle w0)))
                  (encode_header (Z.of_nat (length p) mod 2 ^ 32) (0 mod 2 ^ 32))
                  sizeof_hdr q w0 (linked_same_files _ _ _ _ _ _ F0 L)) as Wq.
    rewrite E0 in Wq.
    destruct ok; cbn [negb]; [|exact I].
    destruct Wq as (q1 & L1 & Hq1).
    rewrite take_ge in Hq1 by (rewrite encode_header_length; unfold sizeof_hdr; lia).
    change (negb (0 =? 0)) with false. cbv iota.
    apply after_bind; try (intros; exact I). intros msg w1' Em. inversion Em; subst msg w1'.
    assert (S2 : forall w2, files w2 = files w1 ->
      match socket_sendmsg log_msg true a p (data_msg (Z.of_nat (length p))) w2 with
      | Ret true w3 => carries true a b (ms ++ [p]) w3
      | _ => True
      end).
    { intros w2 F2. unfold socket_sendmsg.
      apply (after_assert _ _ (fun r => match r with Ret true w3 => _ | _ => True end));
        [exact I|]. intros _.
      unfold with_fuel.
      pose proof (sendmsg_stream_loop_queues (wire_type true) a b (S (length (oracle w2))) p
                    (data_msg (Z.of_nat (length p))) (Z.of_nat (length p)) eq_refl 0 false
                    q1 w2 ltac:(lia) (linked_same_files _ _ _ _ _ _ F2 L1)) as Sq.
      cbn [iov_len data_msg].
      destruct (sendmsg_stream_loop log_msg _ a p _ _ 0 false w2) as [[|] w3|w3|w3];
        try exact I.
      destruct Sq as (q2 & L2 & Hq2). exists q2. split; [exact L2|].
      rewrite bytes_at_all in Hq2. eapply queued_snoc_stream; [exact Q|].
      rewrite Hq2, Hq1, <- app_assoc. reflexivity. }
    destruct trace.
    + apply after_log. apply S2. reflexivity.
    + apply (S2 w1 eq_refl).
  - unfold mbind at 1, M_bind at 1. unfold mret at 1, M_ret at 1. cbn [negb].
    change (negb (0 =? 0)) with false. cbv iota.
    apply after_bind; try (intros; exact I). intros msg w1' Em. inversion Em; subst msg w1'.
    assert (S2 : forall w2, files w2 = files w ->
      match socket_sendmsg log_msg false a p (data_msg (Z.of_nat (length p))) w2 with
      | Ret true w3 => carries false a b (ms ++ [p]) w3
      | _ => True
      end).
    { intros w2 F2. unfold socket_sendmsg, with_fuel.
      pose proof (sendmsg_native_loop_queues a b (S (length (oracle w2))) p
                    (data_msg (Z.of_nat (length p))) q w2
                    (linked_same_files _ _ _ _ _ _ F2 L)) as Sq.
      destruct (sendmsg_native_loop log_msg _ a p _ w2) as [[|] w3|w3|w3]; try exact I.
      cbn [iov_base iov_len data_msg] in Sq.
      pose proof (bytes_at_all p) as B. rewrite Z.sub_0_r in B. rewrite B in Sq.
      exists (q ++ [p]). split; [exact Sq|]. unfold queued in *. subst q. reflexivity. }
    destruct trace.
    + apply after_log. apply S2. reflexivity.
    + apply (S2 w eq_refl).
Qed.

(** X6: a send that reports success has sent the whole message.  Whatever
    the environment does (short writes, transient and hard failures in any
    order), if [proxy_socket_send_request] or [render_socket_send_reply] of
    the payload [p] on a connection carrying [ms] returns true, then the
    connection carries [ms ++ [p]]: in the stream-framing build the complete
    header and every payload byte, in order and behind what was queued
    before. *)
Theorem X6_send_success_means_queued (apple : bool) (a b : Z) (ms : list (list byte))
    (p : list byte) (w : world) :
  carries apple a b ms w ->
  (forall w', proxy_socket_send_request apple {| proxy_fd := a |} (Some p)
                (Z.of_nat (length p)) w = Ret true w' ->
              carries apple a b (ms ++ [p]) w') /\
  (forall w', render_socket_send_reply apple {| render_fd := a |} (Some p)
                (Z.of_nat (length p)) w = Ret true w' ->
              carries apple a b (ms ++ [p]) w').
Proof.
  intros C. split; intros w' E; eapply send_internal_queues; eauto.
Qed.

(** ** What a successful receive has done *)

Lemma linked_files_at (type a b : Z) (q : list (list byte)) (w w' : world) :
  files w' !! a = files w !! a -> files w' !! b = files w !! b ->
  linked type a b q w -> linked type a b q w'.
Proof. intros Ea Eb. unfold linked. rewrite Ea, Eb. auto. Qed.

Lemma wired_same (type a b : Z) (q : list (list byte)) (w w' : world) :
  files w' = files w -> next_fd w' = next_fd w -> wired type a b q w -> wired type a b q w'.
Proof.
  intros F N (L & Ha & Hb). split; [|lia].
  apply (linked_files_at type a b q w w'); [rewrite F; reflexivity.. | exact L].
Qed.

Lemma set_cloexec_others (y : Z) (w : world) :
  exists w',
    set_cloexec y w = Ret tt w' /\ next_fd w' = next_fd w /\
    forall x, x <> y -> files w' !! x = files w !! x.
Proof.
  unfold set_cloexec, sys_fcntl_getfd, sys_fcntl_setfd. unfold_monad.
  destruct (files w !! y) as [f|] eqn:Ey; [|exists w; auto].
  destruct (0 <=? f_flags f); [|exists w; auto].
  eexists. split; [reflexivity|]. split; [reflexivity|].
  intros x Hx. simpl. apply lookup_alter_ne. auto.
Qed.

Lemma cloexec_each_others (l : list Z) (w : world) :
  exists w',
    for_each_fd set_cloexec l w = Ret tt w' /\ next_fd w' = next_fd w /\
    forall x, ~ In x l -> files w' !! x = files w !! x.
Proof.
  revert w. induction l as [|y l IH]; intros w.
  - exists w. auto.
  - destruct (set_cloexec_others y w) as (w1 & E1 & N1 & F1).
    destruct (IH w1) as (w2 & E2 & N2 & F2).
    exists w2. split; [simpl; unfold mbind, M_bind; rewrite E1; exact E2|].
    split; [congruence|].
    intros x Hx. simpl in Hx. rewrite F2 by tauto. apply F1. intros ->. tauto.
Qed.

Lemma drop_length_take {A} (k : nat) (l : list A) : drop (length (take k l)) l = drop k l.
Proof.
  rewrite length_take. destruct (Nat.le_ge_cases k (length l)).
  - rewrite Nat.min_l by lia. reflexivity.
  - rewrite Nat.min_r by lia. rewrite !drop_ge by lia. reflexivity.
Qed.

Lemma has_data_stream (a b : Z) (q : list (list byte)) (w : world) :
  linked SOCK_STREAM a b q w -> concat q <> [] -> has_data b w = true.
Proof.
  intros (Hne & fa & fb & qa & Ea & Eb) Hq.
  unfold has_data, socket_of. rewrite Eb. simpl.
  unfold inbox_empty. rewrite stream_not_packet. simpl.
  destruct (concat q); [contradiction | reflexivity].
Qed.

Lemma has_data_packet (a b : Z) (d : list byte) (q : list (list byte)) (w : world) :
  linked SOCK_SEQPACKET a b (d :: q) w -> has_data b w = true.
Proof.
  intros (Hne & fa & fb & qa & Ea & Eb).
  unfold has_data, socket_of. rewrite Eb. simpl.
  unfold inbox_empty. rewrite seqpacket_is_packet. reflexivity.
Qed.

(** One recvmsg(2) on the receiving end of a stream with bytes queued. *)
Lemma sys_recvmsg_wired_stream (a b : Z) (q : list (list byte)) (mem : list byte)
    (msg : msghdr) (cloexec : bool) (w : world) :
  wired SOCK_STREAM a b q w -> concat q <> [] ->
  stream_chunk a b q mem msg (sys_recvmsg b mem msg cloexec w).
Proof.
  intros (L & Ha & Hb) Hq.
  unfold sys_recvmsg, next_event. unfold_monad.
  destruct (oracle w) as [|[e|n fl anc] o] eqn:Eo; [exact I| |].
  - left. split; [lia|]. split; [|simpl; lia].
    eapply linked_same_files; [|exact L]. reflexivity.
  - destruct (kernel_recv_stream a b n (iov_len msg) q (set_oracle o w)) as (w1 & fb & E1 & Ew1);
      [eapply linked_same_files; [|exact L]; reflexivity | exact Hq |].
    rewrite E1. rewrite has_data_set_oracle, (has_data_stream a b q w L Hq).
    set (k := xfer_len n (iov_len msg)) in *.
    destruct (deliver_control_spec cloexec anc fl msg w1)
      as (msg' & w2 & kk & E2 & _ & _ & _ & _ & _ & Dn & Df & _).
    rewrite E2.
    destruct (Z.leb_spec (Z.of_nat (length (take k (concat q)))) 0) as [Hz|Hpos].
    { right. left. pose proof (Zle_0_nat (length (take k (concat q)))). lia. }
    assert (L1 : linked SOCK_STREAM a b [drop k (concat q)] w1).
    { subst w1. eapply linked_put_b. eapply linked_same_files; [|exact L]. reflexivity. }
    assert (N1 : next_fd w1 = next_fd w) by (subst w1; reflexivity).
    right. right. split; [lia|].
    exists (length (take k (concat q))). split; [reflexivity|].
    rewrite length_take. split; [subst k; unfold xfer_len; lia|]. split; [lia|].
    rewrite <- (length_take (concat q) k).
    rewrite take_length_take. split; [reflexivity|].
    rewrite drop_length_take.
    split; [|lia].
    apply (linked_files_at _ a b _ w1 w2); [| | exact L1];
      rewrite Df; apply lookup_not_installed; rewrite In_seqZ; lia.
Qed.

Lemma cloexec_received_wired (type a b : Z) (q : list (list byte)) (msg' : msghdr)
    (w w1 : world) :
  get_received_fds msg' = (handed_out w w1, Z.of_nat (length (handed_out w w1))) ->
  a < next_fd w -> b < next_fd w ->
  wired type a b q w1 ->
  exists w2, cloexec_received_fds msg' w1 = Ret tt w2 /\ wired type a b q w2.
Proof.
  intros G Ha Hb (L & Ha1 & Hb1).
  unfold cloexec_received_fds, for_fds. rewrite G, Nat2Z.id, firstn_all.
  destruct (cloexec_each_others (handed_out w w1) w1) as (w2 & E2 & N2 & F2).
  exists w2. split; [exact E2|]. split; [|lia].
  apply (linked_files_at type a b q w1 w2); [| | exact L];
    apply F2; rewrite In_handed_out; lia.
Qed.

Lemma proxy_recvmsg_loop_chunk (a b : Z) (fuel : nat) (data : list byte) (msg : msghdr)
    (out0 : Z) :
  forall (q : list (list byte)) (w : world),
    wired SOCK_STREAM a b q w -> concat q <> [] ->
    chunk_received a b q data msg
      (proxy_recvmsg_loop fuel true {| proxy_fd := b |} data msg (Some out0) w).
Proof.
  induction fuel as [|fuel IH]; intros q w Wd Hq; [exact I|].
  cbn [proxy_recvmsg_loop]. unfold mbind at 1, M_bind at 1. cbn [proxy_fd negb].
  pose proof (sys_recvmsg_wired_stream a b q data msg false w Wd Hq) as S.
  pose proof (sys_recvmsg_spec b data msg false w) as Sp.
  destruct (sys_recvmsg b data msg false w) as [[[[s errno] msg'] data'] w1|w1|w1];
    [|exact I..].
  destruct S as [[Hs W1]|[Hs|(Hs & k & -> & Hk & Hl & -> & W1)]].
  - destruct (Z.ltb_spec s 0); [|lia].
    destruct (is_transient errno); [apply IH; assumption|].
    apply after_unit; intros; exact I.
  - subst s. simpl. exact I.
  - destruct (Z.ltb_spec (Z.of_nat k) 0); [lia|].
    destruct (Z.eqb_spec (Z.of_nat k) 0); [lia|].
    apply after_assert; [exact I|]. intros _.
    destruct (negb (Z.land (msg_flags msg') (Z.lor MSG_TRUNC MSG_CTRUNC) =? 0)).
    { apply after_unit; try (intros; exact I). intros w2.
      apply after_unit; intros; exact I. }
    destruct Sp as (_ & _ & _ & _ & _ & _ & _ & _ & _ & G). specialize (G Hs).
    destruct Wd as (_ & Ha & Hb).
    destruct (cloexec_received_wired _ a b _ msg' w w1 G Ha Hb W1) as (w2 & E2 & W2).
    unfold mbind, M_bind. rewrite E2. simpl.
    exists k. split; [lia|]. split; [exact Hl|]. split; [reflexivity|].
    split; [reflexivity|]. exact W2.
Qed.

Lemma render_recvmsg_loop_chunk (a b : Z) (fuel : nat) (data : list byte) (msg : msghdr)
    (out0 : Z) :
  forall (q : list (list byte)) (w : world),
    wired SOCK_STREAM a b q w -> concat q <> [] ->
    chunk_received a b q data msg
      (render_recvmsg_loop fuel true {| render_fd := b |} data msg (Some out0) w).
Proof.
  induction fuel as [|fuel IH]; intros q w Wd Hq; [exact I|].
  cbn [render_recvmsg_loop]. unfold mbind at 1, M_bind at 1. cbn [render_fd negb].
  pose proof (sys_recvmsg_wired_stream a b q data msg false w Wd Hq) as S.
  pose proof (sys_recvmsg_spec b data msg false w) as Sp.
  destruct (sys_recvmsg b data msg false w) as [[[[s errno] msg'] data'] w1|w1|w1];
    [|exact I..].
  destruct S as [[Hs W1]|[Hs|(Hs & k & -> & Hk & Hl & -> & W1)]].
  - destruct (Z.leb_spec s 0); [|lia]. destruct (Z.eqb_spec s 0); [lia|].
    destruct (is_transient errno); [apply IH; assumption|].
    apply after_unit; intros; exact I.
  - subst s. simpl. exact I.
  - destruct (Z.leb_spec (Z.of_nat k) 0); [lia|].
    destruct (negb (Z.land (msg_flags msg') (Z.lor MSG_TRUNC MSG_CTRUNC) =? 0)).
    { apply after_unit; try (intros; exact I). intros w2.
      apply after_unit; intros; exact I. }
    destruct Sp as (_ & _ & _ & _ & _ & _ & _ & _ & _ & G). specialize (G Hs).
    destruct Wd as (_ & Ha & Hb).
    destruct (cloexec_received_wired _ a b _ msg' w w1 G Ha Hb W1) as (w2 & E2 & W2).
    unfold mbind, M_bind. rewrite E2. simpl.
    exists k. split; [lia|]. split; [exact Hl|]. split; [reflexivity|].
    split; [reflexivity|]. exact W2.
Qed.

Lemma whole_message_from (a b : Z) (payload rest data data1 : list byte)
    (r : res receive_result) :
  drop (length payload) data1 = drop (length payload) data ->
  whole_message a b payload rest data1 r -> whole_message a b payload rest data r.
Proof.
  intros D. destruct r as [[[[[|] d] f] c] w'|w'|w']; simpl; auto.
  intros (T & D' & Q). split; [exact T|]. split; [congruence | exact Q].
Qed.

Lemma proxy_receive_loop_whole (a b : Z) (payload rest : list byte) (max_fd_count : Z)
    (fuel : nat) :
  forall (total : nat) (data : list byte) (msg : msghdr) (fds : option (list Z))
         (out_fd_count : option Z) (q : list (list byte)) (w : world),
    wired SOCK_STREAM a b q w ->
    concat q = drop total payload ++ rest ->
    (total <= length payload)%nat -> (length payload <= length data)%nat ->
    take total data = take total payload ->
    whole_message a b payload rest data
      (proxy_receive_loop fuel {| proxy_fd := b |} (Z.of_nat (length payload)) max_fd_count
         (Z.of_nat total) data msg fds out_fd_count w).
Proof.
  induction fuel as [|fuel IH]; intros total data msg fds out_fd_count q w Wd Hc Ht Hd Hpre;
    cbn [proxy_receive_loop].
  - destruct (Z.ltb_spec (Z.of_nat total) (Z.of_nat (length payload))); [exact I|].
    assert (total = length payload) by lia. subst total.
    rewrite drop_all in Hc. rewrite firstn_all in Hpre. simpl. eauto.
  - destruct (Z.ltb_spec (Z.of_nat total) (Z.of_nat (length payload))) as [Hlt|Hge].
    2:{ assert (total = length payload) by lia. subst total.
        rewrite drop_all in Hc. rewrite firstn_all in Hpre. simpl. eauto. }
    set (msg1 := with_iov msg (Z.of_nat total)
                   (Z.of_nat (length payload) - Z.of_nat total)).
    assert (Hq : concat q <> []).
    { rewrite Hc. intros E. apply (f_equal length) in E.
      rewrite length_app, length_drop in E. simpl in E. lia. }
    apply after_bind; try (intros; exact I).
    intros [[[ok msg'] data1] chunk_size] w1 E.
    pose proof (proxy_recvmsg_loop_chunk a b (S (length (oracle w))) data msg1 0 q w Wd Hq)
      as C.
    unfold proxy_socket_recvmsg, with_fuel in E. rewrite E in C.
    destruct ok; cbn [negb]; [|exact I].
    destruct C as (k & Hk & Hl & -> & -> & W1).
    cbn [iov_len iov_base with_iov msg1] in Hk |- *.
    cbn [default from_option]. unfold id.
    assert (Hk' : (k <= length payload - total)%nat) by lia.
    assert (Ek : take k (concat q) = take k (drop total payload)).
    { rewrite Hc. apply take_app_le. rewrite length_drop. lia. }
    rewrite Ek.
    assert (Hchunk : length (take k (drop total payload)) = k)
      by (rewrite length_take, length_drop; lia).
    set (data1 := store_at data (Z.of_nat total) (take k (drop total payload))).
    replace (Z.of_nat total + Z.of_nat k) with (Z.of_nat (total + k)) by lia.
    assert (A2 : concat [drop k (concat q)] = drop (total + k) payload ++ rest).
    { simpl. rewrite app_nil_r, Hc. rewrite drop_app_le by (rewrite length_drop; lia).
      rewrite drop_drop. reflexivity. }
    assert (A5 : (length payload <= length data1)%nat).
    { subst data1. rewrite store_at_length; lia. }
    assert (A6 : take (total + k) data1 = take (total + k) payload).
    { subst data1. rewrite <- Hchunk at 1. rewrite store_at_take by lia.
      rewrite Hpre. symmetry. apply take_plus. }
    assert (A7 : drop (length payload) data1 = drop (length payload) data).
    { subst data1. apply store_at_drop; lia. }
    destruct (has_control msg').
    + destruct (get_received_fds msg') as [received_fds received_fd_count].
      eapply whole_message_from; [exact A7|].
      apply (IH (total + k)%nat data1 _ _ _ _ w1 W1 A2); auto; lia.
    + eapply whole_message_from; [exact A7|].
      apply (IH (total + k)%nat data1 _ _ _ _ w1 W1 A2); auto; lia.
Qed.

Lemma render_receive_loop_whole (a b : Z) (payload rest : list byte) (max_fd_count : Z)
    (fuel : nat) :
  forall (total : nat) (data : list byte) (msg : msghdr) (fds : option (list Z))
         (out_fd_count : option Z) (q : list (list byte)) (w : world),
    wired SOCK_STREAM a b q w ->
    concat q = drop total payload ++ rest ->
    (total <= length payload)%nat -> (length payload <= length data)%nat ->
    take total data = take total payload ->
    whole_message a b payload rest data
      (render_receive_loop fuel {| render_fd := b |} (Z.of_nat (length payload)) max_fd_count
         (Z.of_nat total) data msg fds out_fd_count w).
Proof.
  induction fuel as [|fuel IH]; intros total data msg fds out_fd_count q w Wd Hc Ht Hd Hpre;
    cbn [render_receive_loop].
  - destruct (Z.ltb_spec (Z.of_nat total) (Z.of_nat (length payload))); [exact I|].
    assert (total = length payload) by lia. subst total.
    rewrite drop_all in Hc. rewrite firstn_all in Hpre. simpl. eauto.
  - destruct (Z.ltb_spec (Z.of_nat total) (Z.of_nat (length payload))) as [Hlt|Hge].
    2:{ assert (total = length payload) by lia. subst total.
        rewrite drop_all in Hc. rewrite firstn_all in Hpre. simpl. eauto. }
    set (msg1 := with_iov msg (Z.of_nat total)
                   (Z.of_nat (length payload) - Z.of_nat total)).
    assert (Hq : concat q <> []).
    { rewrite Hc. intros E. apply (f_equal length) in E.
      rewrite length_app, length_drop in E. simpl in E. lia. }
    apply after_bind; try (intros; exact I).
    intros [[[ok msg'] data1] chunk_size] w1 E.
    pose proof (render_recvmsg_loop_chunk a b (S (length (oracle w))) data msg1 0 q w Wd Hq)
      as C.
    unfold render_socket_recvmsg, with_fuel in E. rewrite E in C.
    destruct ok; cbn [negb]; [|exact I].
    destruct C as (k & Hk & Hl & -> & -> & W1).
    cbn [iov_len iov_base with_iov msg1] in Hk |- *.
    cbn [default from_option]. unfold id.
    assert (Hk' : (k <= length payload - total)%nat) by lia.
    assert (Ek : take k (concat q) = take k (drop total payload)).
    { rewrite Hc. apply take_app_le. rewrite length_drop. lia. }
    rewrite Ek.
    assert (Hchunk : length (take k (drop total payload)) = k)
      by (rewrite length_take, length_drop; lia).
    set (data1 := store_at data (Z.of_nat total) (take k (drop total payload))).
    replace (Z.of_nat total + Z.of_nat k) with (Z.of_nat (total + k)) by lia.
    assert (A2 : concat [drop k (concat q)] = drop (total + k) payload ++ rest).
    { simpl. rewrite app_nil_r, Hc. rewrite drop_app_le by (rewrite length_drop; lia).
      rewrite drop_drop. reflexivity. }
    assert (A5 : (length payload <= length data1)%nat).
    { subst data1. rewrite store_at_length; lia. }
    assert (A6 : take (total + k) data1 = take (total + k) payload).
    { subst data1. rewrite <- Hchunk at 1. rewrite store_at_take by lia.
      rewrite Hpre. symmetry. apply take_plus. }
    assert (A7 : drop (length payload) data1 = drop (length payload) data).
    { subst data1. apply store_at_drop; lia. }
    destruct (has_control msg').
    + destruct (get_received_fds msg') as [received_fds received_fd_count].
      eapply whole_message_from; [exact A7|].
      apply (IH (total + k)%nat data1 _ _ _ _ w1 W1 A2); auto; lia.
    + eapply whole_message_from; [exact A7|].
      apply (IH (total + k)%nat data1 _ _ _ _ w1 W1 A2); auto; lia.
Qed.

Lemma sys_read_wired_stream (a b count : Z) (q : list (list byte)) (w : world) :
  wired SOCK_STREAM a b q w -> concat q <> [] ->
  stream_read a b q count (sys_read b count w).
Proof.
  intros (L & Ha & Hb) Hq.
  unfold sys_read, next_event. unfold_monad.
  destruct (oracle w) as [|[e|n fl anc] o] eqn:Eo; [exact I| |].
  - left. split; [lia|]. split; [|simpl; lia].
    eapply linked_same_files; [|exact L]. reflexivity.
  - destruct (kernel_recv_stream a b n count q (set_oracle o w)) as (w1 & fb & E1 & Ew1);
      [eapply linked_same_files; [|exact L]; reflexivity | exact Hq |].
    rewrite E1.
    set (k := xfer_len n count) in *.
    destruct (Z.leb_spec (Z.of_nat (length (take k (concat q)))) 0) as [Hz|Hpos].
    { right. left. pose proof (Zle_0_nat (length (take k (concat q)))). lia. }
    right. right. split; [lia|].
    exists (length (take k (concat q))). split; [reflexivity|].
    rewrite length_take. split; [subst k; unfold xfer_len; lia|]. split; [lia|].
    rewrite <- (length_take (concat q) k).
    rewrite take_length_take. split; [reflexivity|].
    rewrite drop_length_take.
    split; [|subst w1; simpl; lia].
    subst w1. eapply linked_put_b. eapply (linked_same_files _ _ _ q); [|exact L]. reflexivity.
Qed.

Lemma read_all_loop_exact (a b : Z) (rest : list byte) (fuel : nat) :
  forall (bytes buf : list byte) (q : list (list byte)) (w : world),
    wired SOCK_STREAM a b q w ->
    concat q = bytes ++ rest ->
    exactly_read a b bytes rest buf
      (read_all_loop log_msg fuel b buf (Z.of_nat (length bytes)) w).
Proof.
  induction fuel as [|fuel IH]; intros bytes buf q w Wd Hc; cbn [read_all_loop].
  - destruct (Z.ltb_spec 0 (Z.of_nat (length bytes))); [exact I|].
    assert (bytes = []) as -> by (destruct bytes; [reflexivity | cbn [length] in *; lia]).
    simpl. rewrite app_nil_r. eauto.
  - destruct (Z.ltb_spec 0 (Z.of_nat (length bytes))) as [Hr|Hr].
    2:{ assert (bytes = []) as -> by (destruct bytes; [reflexivity | cbn [length] in *; lia]).
        simpl. rewrite app_nil_r. eauto. }
    assert (Hq : concat q <> []).
    { rewrite Hc. intros E. apply (f_equal length) in E.
      rewrite length_app in E. simpl in E. lia. }
    apply after_bind; try (intros; exact I). intros [[n errno] chunk] w1 E.
    pose proof (sys_read_wired_stream a b (Z.of_nat (length bytes)) q w Wd Hq) as S.
    rewrite E in S.
    destruct S as [[Hs W1]|[Hs|(Hs & k & -> & Hk & Hl & -> & W1)]].
    + destruct (Z.ltb_spec n 0); [|lia].
      destruct (is_transient errno); [apply (IH bytes buf q); assumption|].
      apply after_log. exact I.
    + subst n. simpl. exact I.
    + destruct (Z.ltb_spec (Z.of_nat k) 0); [lia|].
      destruct (Z.eqb_spec (Z.of_nat k) 0); [lia|].
      rewrite Nat2Z.id in Hk.
      assert (Ek : take k (concat q) = take k bytes).
      { rewrite Hc. apply take_app_le. lia. }
      rewrite Ek.
      replace (Z.of_nat (length bytes) - Z.of_nat k)
        with (Z.of_nat (length (drop k bytes))) by (rewrite length_drop; lia).
      specialize (IH (drop k bytes) (buf ++ take k bytes) [drop k (concat q)] w1 W1).
      destruct (read_all_loop log_msg fuel b _ _ w1) as [[[|] out] w2|w2|w2]; try exact I.
      destruct IH as (-> & Q).
      { simpl. rewrite app_nil_r, Hc. rewrite drop_app_le by lia. reflexivity. }
      split; [|exact Q]. rewrite <- app_assoc, take_drop. reflexivity.
Qed.

Lemma sys_recvmsg_wired_packet (a b : Z) (d : list byte) (q : list (list byte))
    (mem : list byte) (msg : msghdr) (cloexec : bool) (w : world) :
  wired SOCK_SEQPACKET a b (d :: q) w ->
  Z.of_nat (length d) <= iov_len msg ->
  datagram_taken a b d q mem msg (sys_recvmsg b mem msg cloexec w).
Proof.
  intros (L & Ha & Hb) Hfit.
  unfold sys_recvmsg, next_event. unfold_monad.
  destruct (oracle w) as [|[e|n fl anc] o] eqn:Eo; [exact I| |].
  - left. split; [lia|]. split; [|simpl; lia].
    eapply linked_same_files; [|exact L]. reflexivity.
  - destruct (kernel_recv_fits a b n (iov_len msg) d q (set_oracle o w)) as (w1 & fb & E1 & Ew1);
      [eapply linked_same_files; [|exact L]; reflexivity | exact Hfit |].
    rewrite E1. rewrite has_data_set_oracle, (has_data_packet a b d q w L).
    destruct (deliver_control_spec cloexec anc fl msg w1)
      as (msg' & w2 & kk & E2 & _ & _ & _ & _ & _ & Dn & Df & _).
    rewrite E2.
    destruct (Z.leb_spec (Z.of_nat (length d)) 0) as [Hz|Hpos].
    { right. left. lia. }
    assert (L1 : linked SOCK_SEQPACKET a b q w1).
    { subst w1. eapply linked_put_b. eapply (linked_same_files _ _ _ (d :: q)); [|exact L].
      reflexivity. }
    assert (N1 : next_fd w1 = next_fd w) by (subst w1; reflexivity).
    right. right. split; [lia|].
    split; [reflexivity|]. split; [reflexivity|].
    split; [|lia].
    apply (linked_files_at _ a b _ w1 w2); [| | exact L1];
      rewrite Df; apply lookup_not_installed; rewrite In_seqZ; lia.
Qed.

Lemma proxy_recvmsg_loop_datagram (a b : Z) (d : list byte) (q : list (list byte))
    (fuel : nat) (data : list byte) (msg : msghdr) (out_size : option Z) :
  forall w : world,
    wired SOCK_SEQPACKET a b (d :: q) w ->
    Z.of_nat (length d) <= iov_len msg ->
    datagram_received a b d q data msg (fun _ => iov_len msg = Z.of_nat (length d))
      (proxy_recvmsg_loop fuel false {| proxy_fd := b |} data msg out_size w).
Proof.
  induction fuel as [|fuel IH]; intros w Wd Hfit; [exact I|].
  cbn [proxy_recvmsg_loop]. unfold mbind at 1, M_bind at 1. cbn [proxy_fd negb].
  pose proof (sys_recvmsg_wired_packet a b d q data msg true w Wd Hfit) as S.
  pose proof (sys_recvmsg_spec b data msg true w) as Sp.
  destruct (sys_recvmsg b data msg true w) as [[[[s errno] msg'] data'] w1|w1|w1];
    [|exact I..].
  destruct Sp as (_ & _ & _ & _ & _ & Hlen & _).
  destruct S as [[Hs W1]|[Hs|(Hs & -> & -> & W1)]].
  - destruct (Z.ltb_spec s 0); [|lia].
    destruct (is_transient errno); [apply IH; assumption|].
    apply after_unit; intros; exact I.
  - subst s. simpl. exact I.
  - destruct (Z.ltb_spec (Z.of_nat (length d)) 0); [lia|].
    destruct (Z.eqb_spec (Z.of_nat (length d)) 0); [lia|].
    apply after_assert; [exact I|]. intros _.
    destruct (negb (Z.land (msg_flags msg') (Z.lor MSG_TRUNC MSG_CTRUNC) =? 0)).
    { apply after_unit; try (intros; exact I). intros w2.
      apply after_unit; intros; exact I. }
    rewrite Hlen.
    destruct (Z.eqb_spec (iov_len msg) (Z.of_nat (length d))) as [Heq|Hne]; cbn [negb].
    + simpl. auto.
    + apply after_unit; try (intros; exact I). intros w2.
      apply after_unit; intros; exact I.
Qed.

Lemma render_recvmsg_loop_datagram (a b : Z) (d : list byte) (q : list (list byte))
    (fuel : nat) (data : list byte) (msg : msghdr) (out_size : option Z) :
  forall w : world,
    wired SOCK_SEQPACKET a b (d :: q) w ->
    Z.of_nat (length d) <= iov_len msg ->
    datagram_received a b d q data msg (fun out => out = Some (Z.of_nat (length d)))
      (render_recvmsg_loop fuel false {| render_fd := b |} data msg out_size w).
Proof.
  induction fuel as [|fuel IH]; intros w Wd Hfit; [exact I|].
  cbn [render_recvmsg_loop]. unfold mbind at 1, M_bind at 1. cbn [render_fd negb].
  pose proof (sys_recvmsg_wired_packet a b d q data msg true w Wd Hfit) as S.
  destruct (sys_recvmsg b data msg true w) as [[[[s errno] msg'] data'] w1|w1|w1];
    [|exact I..].
  destruct S as [[Hs W1]|[Hs|(Hs & -> & -> & W1)]].
  - destruct (Z.leb_spec s 0); [|lia]. destruct (Z.eqb_spec s 0); [lia|].
    destruct (is_transient errno); [apply IH; assumption|].
    apply after_unit; intros; exact I.
  - subst s. simpl. exact I.
  - destruct (Z.leb_spec (Z.of_nat (length d)) 0); [lia|].
    destruct (negb (Z.land (msg_flags msg') (Z.lor MSG_TRUNC MSG_CTRUNC) =? 0)).
    { apply after_unit; try (intros; exact I). intros w2.
      apply after_unit; intros; exact I. }
    unfold mbind, M_bind, mret, M_ret.
    destruct out_size as [z|]; [|exact I]. simpl. auto.
Qed.

Lemma wired_carries (apple : bool) (a b : Z) (ms q : list (list byte)) (w : world) :
  wired (wire_type apple) a b q w -> queued apple ms q -> carries apple a b ms w.
Proof. intros (L & _) Q. exists q. auto. Qed.

Lemma proxy_reply_whole (apple : bool) (a b : Z) (ms q : list (list byte))
    (p buf : list byte) (m : Z) (fds : option (list Z)) (max_fd_count : Z)
    (out_fd_count : option Z) (w : world) :
  wired (wire_type apple) a b q w -> queued apple (p :: ms) q ->
  (apple = true -> Z.of_nat (length p) < 2 ^ 32) ->
  Z.of_nat (length p) <= m <= Z.of_nat (length buf) ->
  reply_whole apple a b ms p buf m
    (proxy_socket_receive_reply_internal apple {| proxy_fd := b |} (Some buf) m fds
       max_fd_count out_fd_count w).
Proof.
  intros Wd Q Hlt Hm. unfold proxy_socket_receive_reply_internal.
  apply after_assert; [exact I|]. intros _.
  cbn [default from_option]. unfold id.
  destruct apple.
  - unfold queued in Q. cbn [map concat] in Q. unfold framed at 1 in Q.
    rewrite Z.mod_small in Q by (specialize (Hlt eq_refl); lia).
    rewrite <- app_assoc in Q.
    set (n := Z.of_nat (length p)) in *.
    set (hdr := encode_header n 0) in *.
    assert (Hsize : header_size hdr = n).
    { subst hdr. rewrite header_size_encode. apply Z.mod_small. specialize (Hlt eq_refl). lia. }
    apply after_log.
    apply after_bind; try (intros; exact I). intros [ok out] w1 E.
    unfold proxy_socket_read_all, socket_read_all, with_fuel, proxy_log in E. cbv beta in E.
    cbn [proxy_fd] in E.
    match type of E with read_all_loop _ ?f _ _ _ ?w0 = _ =>
      pose proof (read_all_loop_exact a b (p ++ concat (map (framed true) ms)) f hdr [] q w0)
        as R
    end.
    replace (Z.of_nat (length hdr)) with sizeof_hdr in R
      by (subst hdr; rewrite encode_header_length; reflexivity).
    rewrite E in R.
    destruct ok; cbn [negb]; [|exact I].
    destruct R as (-> & q1 & W1 & Hq1);
      [eapply wired_same; [| |exact Wd]; reflexivity | exact Q |].
    cbn [app]. apply after_log. rewrite Hsize.
    destruct (Z.eqb_spec n m) as [Hnm|Hnm]; cbn [negb].
    2:{ apply after_unit; intros; exact I. }
    subst m. unfold with_fuel. subst hdr n.
    match goal with |- reply_whole _ _ _ _ _ _ _
        (proxy_receive_loop ?f _ _ ?mx ?t ?d ?mm ?fd ?cn ?w0) =>
      pose proof (proxy_receive_loop_whole a b p (concat (map (framed true) ms)) mx f
                    0%nat d mm fd cn q1 w0) as Wm;
      change (Z.of_nat 0) with 0 in Wm
    end.
    specialize (Wm ltac:(eapply wired_same; [| |exact W1]; reflexivity)
                   ltac:(rewrite drop_0; exact Hq1) ltac:(lia) ltac:(lia) eq_refl).
    match goal with |- reply_whole _ _ _ _ _ _ _ ?r =>
      destruct r as [[[[[|] d2] f2] c2] w2|w2|w2]; try exact I
    end.
    cbv beta iota delta [whole_message] in Wm.
    destruct Wm as (T & D & q2 & W2 & Hq2).
    split; [reflexivity|]. split; [exact T|]. split; [exact D|].
    apply (wired_carries true a b ms q2 w2 W2). exact Hq2.
  - unfold queued in Q. subst q.
    apply after_bind; try (intros; exact I). intros msg w0 Em.
    assert (Hmsg : w0 = w /\ iov_base msg = 0 /\ iov_len msg = m).
    { destruct (negb (max_fd_count =? 0)).
      - unfold mbind, M_bind, assert in Em.
        destruct (negb (is_null fds) && _); inversion Em; subst. auto.
      - inversion Em; subst. auto. }
    destruct Hmsg as (-> & Hb & Hl).
    apply after_bind; try (intros; exact I). intros [[[ok msg'] mem] received] w1 E.
    pose proof (proxy_recvmsg_loop_datagram a b p ms (S (length (oracle w))) buf msg None
                  w Wd ltac:(lia)) as R.
    unfold proxy_socket_recvmsg, with_fuel in E. rewrite E in R.
    destruct ok; cbn [negb]; [|exact I].
    destruct R as (-> & Hlen & W1). rewrite Hb.
    assert (Hfit : (length p <= length buf)%nat) by lia.
    destruct (store_at_start buf p Hfit) as [T D].
    assert (Done : forall fds' count w',
      w' = w1 ->
      reply_whole false a b ms p buf m (Ret (true, store_at buf 0 p, fds', count) w')).
    { intros fds' count w' ->. simpl. split; [lia|]. split; [exact T|]. split; [exact D|].
      apply (wired_carries false a b ms ms w1 W1). reflexivity. }
    destruct (negb (max_fd_count =? 0)); [|apply Done; reflexivity].
    destruct (get_received_fds msg') as [received_fds received_fd_count].
    apply after_assert; [exact I|]. intros _.
    destruct out_fd_count; [apply Done; reflexivity | exact I].
Qed.

Lemma render_request_whole (apple : bool) (a b : Z) (ms q : list (list byte))
    (p buf : list byte) (m : Z) (out_size : option Z) (fds : option (list Z))
    (max_fd_count : Z) (out_fd_count : option Z) (w : world) :
  wired (wire_type apple) a b q w -> queued apple (p :: ms) q ->
  (apple = true -> Z.of_nat (length p) < 2 ^ 32) ->
  Z.of_nat (length p) <= m <= Z.of_nat (length buf) ->
  request_whole apple a b ms p buf
    (render_socket_receive_request_internal apple {| render_fd := b |} (Some buf) m
       out_size fds max_fd_count out_fd_count w).
Proof.
  intros Wd Q Hlt Hm. unfold render_socket_receive_request_internal.
  apply after_assert; [exact I|]. intros _.
  cbn [default from_option]. unfold id.
  destruct apple.
  - unfold queued in Q. cbn [map concat] in Q. unfold framed at 1 in Q.
    rewrite Z.mod_small in Q by (specialize (Hlt eq_refl); lia).
    rewrite <- app_assoc in Q.
    assert (Hsize : header_size (encode_header (Z.of_nat (length p)) 0)
                    = Z.of_nat (length p)).
    { rewrite header_size_encode. apply Z.mod_small. specialize (Hlt eq_refl). lia. }
    apply after_bind; try (intros; exact I). intros [ok out] w1 E.
    unfold render_socket_read_all, socket_read_all, with_fuel, render_log in E. cbv beta in E.
    cbn [render_fd] in E.
    match type of E with read_all_loop _ ?f _ _ _ ?w0 = _ =>
      pose proof (read_all_loop_exact a b (p ++ concat (map (framed true) ms)) f
                    (encode_header (Z.of_nat (length p)) 0) [] q w0 Wd Q) as R
    end.
    replace (Z.of_nat (length (encode_header (Z.of_nat (length p)) 0))) with sizeof_hdr in R
      by (rewrite encode_header_length; reflexivity).
    rewrite E in R.
    destruct ok; cbn [negb]; [|exact I].
    destruct R as (-> & q1 & W1 & Hq1).
    cbn [app]. rewrite Hsize.
    destruct (Z.ltb_spec m (Z.of_nat (length p))).
    { apply after_unit; intros; exact I. }
    destruct out_size as [z|]; [|exact I].
    apply after_bind; try (intros; exact I). intros [[[ok mem] fds'] count] w2 E2.
    unfold with_fuel in E2.
    match type of E2 with render_receive_loop ?f _ _ ?mx ?t ?d ?mm ?fd ?cn ?w0 = _ =>
      pose proof (render_receive_loop_whole a b p (concat (map (framed true) ms)) mx f
                    0%nat d mm fd cn q1 w0 W1) as Wm;
      change (Z.of_nat 0) with 0 in Wm
    end.
    specialize (Wm ltac:(rewrite drop_0; exact Hq1) ltac:(lia) ltac:(lia) eq_refl).
    rewrite E2 in Wm. destruct ok; [|exact I].
    destruct Wm as (T & D & q2 & W2 & Hq2).
    split; [reflexivity|]. split; [exact T|]. split; [exact D|].
    apply (wired_carries true a b ms q2 w2 W2). exact Hq2.
  - unfold queued in Q. subst q.
    apply after_bind; try (intros; exact I). intros msg w0 Em.
    assert (Hmsg : w0 = w /\ iov_base msg = 0 /\ iov_len msg = m).
    { destruct (negb (max_fd_count =? 0)).
      - unfold mbind, M_bind, assert in Em.
        destruct (negb (is_null fds) && _); inversion Em; subst. auto.
      - inversion Em; subst. auto. }
    destruct Hmsg as (-> & Hb & Hl).
    apply after_bind; try (intros; exact I). intros [[[ok msg'] mem] received] w1 E.
    pose proof (render_recvmsg_loop_datagram a b p ms (S (length (oracle w))) buf msg
                  out_size w Wd ltac:(lia)) as R.
    unfold render_socket_recvmsg, with_fuel in E. rewrite E in R.
    destruct ok; cbn [negb]; [|exact I].
    destruct R as (-> & -> & W1). rewrite Hb.
    assert (Hfit : (length p <= length buf)%nat) by lia.
    destruct (store_at_start buf p Hfit) as [T D].
    assert (Done : forall fds' count w',
      w' = w1 ->
      request_whole false a b ms p buf
        (Ret (true, store_at buf 0 p, Some (Z.of_nat (length p)), fds', count) w')).
    { intros fds' count w' ->. simpl. split; [reflexivity|]. split; [exact T|].
      split; [exact D|]. apply (wired_carries false a b ms ms w1 W1). reflexivity. }
    destruct (negb (max_fd_count =? 0)); [|apply Done; reflexivity].
    destruct (get_received_fds msg') as [received_fds received_fd_count].
    apply after_assert; [exact I|]. intros _.
    destruct out_fd_count; [apply Done; reflexivity | exact I].
Qed.

(** X7: a receive that reports success has delivered the whole message at
    the head of the connection and nothing else.  Whatever the environment
    does (short reads, transient failures, descriptors arriving), if the
    connection between two descriptors that the process holds carries
    [p :: ms] (in the stream-framing build with [length p] below 2^32, the
    range of the header) and a receive of the endpoint [b] with a
    size (or maximum size) [m] between [length p] and the length of the
    buffer returns true, then [p] is at the start of the buffer, the rest of
    the buffer is as it was, the connection carries [ms], and the size is
    right: [render_socket_receive_request_internal] reports [length p], and
    for [proxy_socket_receive_reply_internal] and
    [render_socket_receive_data] the size asked for was [length p]. *)
Theorem X7_receive_success_means_whole_message (apple : bool) (a b : Z)
    (ms : list (list byte)) (p buf : list byte) (m : Z) (out_size : option Z)
    (fds : option (list Z)) (max_fd_count : Z) (out_fd_count : option Z) (w : world) :
  carries apple a b (p :: ms) w ->
  a < next_fd w -> b < next_fd w ->
  (apple = true -> Z.of_nat (length p) < 2 ^ 32) ->
  Z.of_nat (length p) <= m <= Z.of_nat (length buf) ->
  (forall mem fds' count w',
     proxy_socket_receive_reply_internal apple {| proxy_fd := b |} (Some buf) m fds
         max_fd_count out_fd_count w = Ret (true, mem, fds', count) w' ->
     m = Z.of_nat (length p) /\
     take (length p) mem = p /\ drop (length p) mem = drop (length p) buf /\
     carries apple a b ms w') /\
  (forall mem received fds' count w',
     render_socket_receive_request_internal apple {| render_fd := b |} (Some buf) m
         out_size fds max_fd_count out_fd_count w
       = Ret (true, mem, received, fds', count) w' ->
     received = Some (Z.of_nat (length p)) /\
     take (length p) mem = p /\ drop (length p) mem = drop (length p) buf /\
     carries apple a b ms w') /\
  (forall mem w',
     render_socket_receive_data apple {| render_fd := b |} (Some buf) m w
       = Ret (true, mem) w' ->
     m = Z.of_nat (length p) /\
     take (length p) mem = p /\ drop (length p) mem = drop (length p) buf /\
     carries apple a b ms w').
Proof.
  intros (q & L & Q) Ha Hb Hlt Hm.
  assert (Wd : wired (wire_type apple) a b q w) by (split; auto).
  split; [|split].
  - intros mem fds' count w' E.
    pose proof (proxy_reply_whole apple a b ms q p buf m fds max_fd_count out_fd_count w
                  Wd Q Hlt Hm) as P.
    rewrite E in P. exact P.
  - intros mem received fds' count w' E.
    pose proof (render_request_whole apple a b ms q p buf m out_size fds max_fd_count
                  out_fd_count w Wd Q Hlt Hm) as P.
    rewrite E in P. exact P.
  - intros mem w' E.
    pose proof (render_request_whole apple a b ms q p buf m (Some 0) None 0 None w
                  Wd Q Hlt Hm) as P.
    unfold render_socket_receive_data, render_socket_receive_request in E.
    unfold mbind at 1, M_bind at 1 in E.
    destruct (render_socket_receive_request_internal apple {| render_fd := b |} (Some buf) m
                (Some 0) None 0 None w) as [[[[[ok mem1] received] fds1] count1] w1|w1|w1];
      [|discriminate..].
    destruct ok; cbn [negb] in E; [|inversion E].
    destruct P as (-> & T & D & C). cbn [default from_option] in E. unfold id in E.
    destruct (Z.eqb_spec m (Z.of_nat (length p))) as [Hs|Hs]; cbn [negb] in E.
    + inversion E; subst mem w'. auto.
    + unfold render_log, mbind, M_bind, log_msg, mret, M_ret in E. inversion E.
Qed.

(** ** Failures that are not transient *)

Lemma write_all_loop_hard (fuel : nat) (fd : Z) (p : list byte) (remaining e : Z)
    (o : list event) (w : world) :
  oracle w = Fails e :: o -> is_transient e = false -> 0 < remaining ->
  write_all_loop log_msg (S fuel) fd p remaining w
    = Ret false (set_logs (logs w ++ ["failed to write to socket: %s"%string])
                   (set_oracle o w)).
Proof.
  intros E He Hr. simpl. destruct (Z.ltb_spec 0 remaining); [|lia].
  unfold sys_write, next_event. unfold_monad. rewrite E. simpl. rewrite He. reflexivity.
Qed.

Lemma read_all_loop_hard (fuel : nat) (fd : Z) (buf : list byte) (remaining e : Z)
    (o : list event) (w : world) :
  oracle w = Fails e :: o -> is_transient e = false -> 0 < remaining ->
  read_all_loop log_msg (S fuel) fd buf remaining w
    = Ret (false, buf) (set_logs (logs w ++ ["failed to read from socket: %s"%string])
                          (set_oracle o w)).
Proof.
  intros E He Hr. simpl. destruct (Z.ltb_spec 0 remaining); [|lia].
  unfold sys_read, next_event. unfold_monad. rewrite E. simpl. rewrite He. reflexivity.
Qed.

Lemma sendmsg_native_loop_hard (fuel : nat) (fd : Z) (data : list byte) (msg : msghdr)
    (e : Z) (o : list event) (w : world) :
  oracle w = Fails e :: o -> is_transient e = false ->
  sendmsg_native_loop log_msg (S fuel) fd data msg w
    = Ret false (set_logs (logs w ++ ["failed to send message: %s"%string])
                   (set_sends (sends w ++ [failed_send fd msg]) (set_oracle o w))).
Proof.
  intros E He. simpl.
  unfold sys_sendmsg, next_event, record_send. unfold_monad. rewrite E. simpl.
  rewrite He. reflexivity.
Qed.

Lemma proxy_recvmsg_loop_hard (fuel : nat) (apple : bool) (ps : proxy_socket)
    (data : list byte) (msg : msghdr) (out_size : option Z)
    (e : Z) (o : list event) (w : world) :
  oracle w = Fails e :: o -> is_transient e = false ->
  proxy_recvmsg_loop (S fuel) apple ps data msg out_size w
    = Ret (false, msg, data, out_size)
        (set_logs (logs w ++ ["failed to receive message: %s"%string]) (set_oracle o w)).
Proof.
  intros E He. simpl.
  unfold sys_recvmsg, next_event. unfold_monad. rewrite E. simpl.
  rewrite He. reflexivity.
Qed.

Lemma render_recvmsg_loop_hard (fuel : nat) (apple : bool) (rs : render_socket)
    (data : list byte) (msg : msghdr) (out_size : option Z)
    (e : Z) (o : list event) (w : world) :
  oracle w = Fails e :: o -> is_transient e = false ->
  render_recvmsg_loop (S fuel) apple rs data msg out_size w
    = Ret (false, msg, data, out_size)
        (set_logs (logs w ++ ["failed to receive message: %s"%string]) (set_oracle o w)).
Proof.
  intros E He. simpl.
  unfold sys_recvmsg, next_event. unfold_monad. rewrite E. simpl.
  rewrite He. reflexivity.
Qed.

Lemma failed_at_once_intro (o : list event) (w w' : world) (l : list string) :
  oracle w' = o -> files w' = files w -> next_fd w' = next_fd w -> closed w' = closed w ->
  logs w' = logs w ++ l -> l <> [] -> failed_at_once o w w'.
Proof. intros. repeat split; auto. exists l. auto. Qed.

(** X8: a failure other than EINTR and EAGAIN is not retried.  If the
    first system call of a send or a receive, called with a descriptor
    count (or maximum) [n] between 0 and the MAX_FD_COUNT of the file and
    with a descriptor array when [n] is not 0, fails with such an error, the
    operation returns false after that one call: it makes no further system
    call, leaves the buffer, the descriptor array and the out parameters as
    they were, opens and closes nothing, and writes to the log. *)
Theorem X8_hard_error_not_retried (apple : bool) (ps : proxy_socket) (rs : render_socket)
    (buf : list byte) (size : Z) (fds : option (list Z)) (n : Z)
    (out_size out_fd_count : option Z) (e : Z) (o : list event) (w : world) :
  oracle w = Fails e :: o ->
  is_transient e = false ->
  size <> 0 ->
  0 <= n ->
  (n <> 0 ->
   fds <> None /\ n <= PROXY_SOCKET_MAX_FD_COUNT /\ n <= RENDER_SOCKET_MAX_FD_COUNT) ->
  (exists w', proxy_socket_send_request_internal apple ps (Some buf) size fds n w
                = Ret false w' /\ failed_at_once o w w') /\
  (exists w', render_socket_send_reply_internal apple rs (Some buf) size fds n w
                = Ret false w' /\ failed_at_once o w w') /\
  (exists w', proxy_socket_receive_reply_internal apple ps (Some buf) size fds n
                  out_fd_count w
                = Ret (false, buf, fds, out_fd_count) w' /\ failed_at_once o w w') /\
  (exists w', render_socket_receive_request_internal apple rs (Some buf) size out_size
                  fds n out_fd_count w
                = Ret (false, buf, out_size, fds, out_fd_count) w' /\
              failed_at_once o w w').
Proof.
  intros E He Hs Hpos Hn.
  assert (B : n <> 0 -> negb (is_null fds) && (n <=? 8) = true).
  { intros Hn0. destruct (Hn Hn0) as (Hf & Hle & _).
    unfold PROXY_SOCKET_MAX_FD_COUNT in Hle. destruct fds; [|congruence].
    destruct (Z.leb_spec n 8); [reflexivity | lia]. }
  assert (G : forall trace fd,
    exists w', socket_send_internal log_msg apple trace 8 fd (Some buf) size fds n w
                 = Ret false w' /\ failed_at_once o w w').
  { intros trace fd. unfold socket_send_internal.
    destruct apple.
    - unfold socket_write_all, with_fuel.
      destruct trace.
      + eexists. split.
        * eapply bind_Ret; [apply assert_nonempty; exact Hs|].
          eapply bind_Ret.
          { eapply bind_Ret; [apply log_msg_eq|].
            eapply write_all_loop_hard; [exact E | exact He | reflexivity]. }
          reflexivity.
        * eapply failed_at_once_intro; try reflexivity.
          { simpl. rewrite <- app_assoc. reflexivity. }
          discriminate.
      + eexists. split.
        * eapply bind_Ret; [apply assert_nonempty; exact Hs|].
          eapply bind_Ret.
          { eapply bind_Ret; [reflexivity|].
            eapply write_all_loop_hard; [exact E | exact He | reflexivity]. }
          reflexivity.
        * eapply failed_at_once_intro; try reflexivity. discriminate.
    - unfold socket_sendmsg, with_fuel.
      assert (exists msg,
        (if negb (n =? 0)
         then assert (negb (is_null fds) && (n <=? 8));;
              (if n <? 0 then abort else mret tt);;
              mret (rights_msg (data_msg size) (default [] fds) n)
         else mret (data_msg size)) w = Ret msg w) as [msg Em].
      { destruct (Z.eqb_spec n 0) as [Hn0|Hn0]; simpl; [eexists; reflexivity|].
        unfold mbind, M_bind. rewrite (B Hn0). simpl.
        destruct (Z.ltb_spec n 0); [lia|]. eexists. reflexivity. }
      destruct trace.
      + eexists. split.
        * eapply bind_Ret; [apply assert_nonempty; exact Hs|].
          eapply bind_Ret; [reflexivity|]. cbn [negb].
          eapply bind_Ret; [exact Em|].
          eapply bind_Ret; [apply log_msg_eq|].
          eapply sendmsg_native_loop_hard; [exact E | exact He].
        * eapply failed_at_once_intro; try reflexivity.
          { simpl. rewrite <- app_assoc. reflexivity. }
          discriminate.
      + eexists. split.
        * eapply bind_Ret; [apply assert_nonempty; exact Hs|].
          eapply bind_Ret; [reflexivity|]. cbn [negb].
          eapply bind_Ret; [exact Em|].
          eapply bind_Ret; [reflexivity|].
          eapply sendmsg_native_loop_hard; [exact E | exact He].
        * eapply failed_at_once_intro; try reflexivity. discriminate. }
  split; [apply G|]. split; [apply G|].
  split.
  - unfold proxy_socket_receive_reply_internal. destruct apple.
    + eexists. split.
      * eapply bind_Ret; [apply assert_nonempty; exact Hs|].
        eapply bind_Ret; [apply log_msg_eq|].
        eapply bind_Ret.
        { unfold proxy_socket_read_all, socket_read_all, with_fuel.
          eapply read_all_loop_hard; [exact E | exact He | reflexivity]. }
        reflexivity.
      * eapply failed_at_once_intro; try reflexivity.
        { simpl. rewrite <- app_assoc. reflexivity. }
        discriminate.
    + assert (exists msg,
        (if negb (n =? 0)
         then assert (negb (is_null fds) && (n <=? PROXY_SOCKET_MAX_FD_COUNT));;
              mret (cleared_control (data_msg size) n)
         else mret (data_msg size)) w = Ret msg w) as [msg Em].
      { destruct (Z.eqb_spec n 0) as [Hn0|Hn0]; simpl; [eexists; reflexivity|].
        unfold PROXY_SOCKET_MAX_FD_COUNT. rewrite (B Hn0). eexists. reflexivity. }
      eexists. split.
      * eapply bind_Ret; [apply assert_nonempty; exact Hs|].
        eapply bind_Ret; [exact Em|].
        eapply bind_Ret.
        { unfold proxy_socket_recvmsg, with_fuel.
          eapply proxy_recvmsg_loop_hard; [exact E | exact He]. }
        reflexivity.
      * eapply failed_at_once_intro; try reflexivity. discriminate.
  - unfold render_socket_receive_request_internal. destruct apple.
    + eexists. split.
      * eapply bind_Ret; [apply assert_nonempty; exact Hs|].
        eapply bind_Ret.
        { unfold render_socket_read_all, socket_read_all, with_fuel.
          eapply read_all_loop_hard; [exact E | exact He | reflexivity]. }
        reflexivity.
      * eapply failed_at_once_intro; try reflexivity. discriminate.
    + assert (exists msg,
        (if negb (n =? 0)
         then assert (negb (is_null fds) && (n <=? RENDER_SOCKET_MAX_FD_COUNT));;
              mret (cleared_control (data_msg size) n)
         else mret (data_msg size)) w = Ret msg w) as [msg Em].
      { destruct (Z.eqb_spec n 0) as [Hn0|Hn0]; simpl; [eexists; reflexivity|].
        unfold RENDER_SOCKET_MAX_FD_COUNT. rewrite (B Hn0). eexists. reflexivity. }
      eexists. split.
      * eapply bind_Ret; [apply assert_nonempty; exact Hs|].
        eapply bind_Ret; [exact Em|].
        eapply bind_Ret.
        { unfold render_socket_recvmsg, with_fuel.
          eapply render_recvmsg_loop_hard; [exact E | exact He]. }
        reflexivity.
      * eapply failed_at_once_intro; try reflexivity. discriminate.
Qed.

(** ** The peer has closed *)













(** ** The descriptor count of a send *)

Lemma sys_write_sends (fd : Z) (buf : list byte) (count : Z) (w : world) :
  sends (final_world (sys_write fd buf count w)) = sends w.
Proof.
  unfold sys_write, next_event, kernel_send. unfold_monad.
  destruct (oracle w) as [|[e|n fl anc] o]; simpl; [reflexivity..|].
  destruct (socket_of fd (set_oracle o w)) as [so|]; simpl; [|reflexivity].
  destruct (files w !! so_peer so) as [[ff [pso|]]|]; reflexivity.
Qed.

Lemma write_all_loop_sends (fuel : nat) (fd : Z) (p : list byte) (remaining : Z) (w : world) :
  sends (final_world (write_all_loop log_msg fuel fd p remaining w)) = sends w.
Proof.
  revert p remaining w. induction fuel as [|fuel IH]; intros p remaining w; simpl.
  - destruct (0 <? remaining); reflexivity.
  - destruct (0 <? remaining); [|reflexivity].
    unfold mbind at 1, M_bind at 1.
    pose proof (sys_write_sends fd p remaining w) as S.
    destruct (sys_write fd p remaining w) as [[n errno] w1|w1|w1]; simpl in S; [|exact S..].
    destruct (n <? 0).
    + destruct (is_transient errno); [rewrite IH; exact S|]. simpl. exact S.
    + rewrite IH. exact S.
Qed.

(** X10: a send with a descriptor count that the transport cannot carry
    (a count other than 0 with no array, or a count above
    PROXY_SOCKET_MAX_FD_COUNT and RENDER_SOCKET_MAX_FD_COUNT) never returns
    true and never calls sendmsg, so neither the payload nor a descriptor
    leaves.  The native build stops at the assertion before any system call;
    the stream-framing build has by then written the framing header. *)
Theorem X10_send_descriptor_count_checked (apple : bool) (ps : proxy_socket) (rs : render_socket)
    (data : option (list byte)) (size : Z) (fds : option (list Z)) (fd_count : Z)
    (w : world) :
  fd_count <> 0 ->
  fds = None \/
    (PROXY_SOCKET_MAX_FD_COUNT < fd_count /\ RENDER_SOCKET_MAX_FD_COUNT < fd_count) ->
  (apple = false ->
   proxy_socket_send_request_with_fds apple ps data size fds fd_count w = Abort w /\
   render_socket_send_reply_with_fds apple rs data size fds fd_count w = Abort w) /\
  (forall w', proxy_socket_send_request_with_fds apple ps data size fds fd_count w
                <> Ret true w') /\
  (forall w', render_socket_send_reply_with_fds apple rs data size fds fd_count w
                <> Ret true w') /\
  sends (final_world (proxy_socket_send_request_with_fds apple ps data size fds fd_count w))
    = sends w /\
  sends (final_world (render_socket_send_reply_with_fds apple rs data size fds fd_count w))
    = sends w.
Proof.
  intros Hn Hbad.
  assert (B : negb (is_null fds) && (fd_count <=? 8) = false).
  { destruct Hbad as [->|[Hgt _]]; [reflexivity|].
    unfold PROXY_SOCKET_MAX_FD_COUNT in Hgt.
    destruct (Z.leb_spec fd_count 8); [lia|]. apply andb_false_r. }
  assert (G : forall trace fd,
    (apple = false ->
     socket_send_internal log_msg apple trace 8 fd data size fds fd_count w = Abort w) /\
    (forall w', socket_send_internal log_msg apple trace 8 fd data size fds fd_count w
                  <> Ret true w') /\
    sends (final_world (socket_send_internal log_msg apple trace 8 fd data size fds fd_count w))
      = sends w).
  { intros trace fd. unfold socket_send_internal, socket_write_all, with_fuel.
    unfold_monad.
    destruct (negb (is_null data) && negb (size =? 0)); cbv beta iota;
      [|split; [reflexivity|]; split; [discriminate | reflexivity]].
    rewrite (nonzero_test _ Hn), B.
    destruct apple; cbn [negb]; cbv beta iota;
      [|split; [reflexivity|]; split; [discriminate | reflexivity]].
    split; [discriminate|].
    destruct trace; rewrite ?log_msg_eq; cbv beta iota;
      match goal with |- context [write_all_loop log_msg ?f fd ?h ?s ?w0] =>
        pose proof (write_all_loop_sends f fd h s w0) as S;
        destruct (write_all_loop log_msg f fd h s w0) as [ok w1|w1|w1] end;
      simpl in S; try destruct ok; simpl;
      (split; [discriminate | congruence]). }
  split.
  - intros Ha. split; apply G; exact Ha.
  - split; [apply G|]. split; [apply G|]. split; apply G.
Qed.

(** ** The pair and the probe *)

(** X11: the pair factories and the probes agree.  When socketpair(2)
    succeeds, [proxy_socket_pair] and [render_socket_pair] return the two
    fresh descriptors, which are the two ends of one connection of the
    socket type of the build with nothing queued in either direction, no
    other descriptor is touched, and the ends pass the probes of the same
    build: of a pair made by [proxy_socket_pair] the first end passes
    [proxy_socket_is_seqpacket] and the second
    [render_socket_is_seqpacket], and the other way round for a pair made
    by [render_socket_pair].  When socketpair(2) fails both return false
    after logging the failure and create nothing. *)
Theorem X11_pair_is_linked_and_probed (apple : bool) (w : world) (n fl e : Z) (anc : ancillary)
    (o : list event) :
  (oracle w = Returns n fl anc :: o ->
   exists w1 w2,
     proxy_socket_pair apple w = Ret (true, (next_fd w, next_fd w + 1)) w1 /\
     render_socket_pair apple w = Ret (true, (next_fd w, next_fd w + 1)) w2 /\
     linked (wire_type apple) (next_fd w) (next_fd w + 1) [] w1 /\
     linked (wire_type apple) (next_fd w + 1) (next_fd w) [] w1 /\
     linked (wire_type apple) (next_fd w) (next_fd w + 1) [] w2 /\
     linked (wire_type apple) (next_fd w + 1) (next_fd w) [] w2 /\
     next_fd w1 = next_fd w + 2 /\ next_fd w2 = next_fd w + 2 /\
     (forall fd, fd <> next_fd w -> fd <> next_fd w + 1 ->
        files w1 !! fd = files w !! fd /\ files w2 !! fd = files w !! fd) /\
     proxy_socket_is_seqpacket apple (next_fd w) w1 = Ret true w1 /\
     render_socket_is_seqpacket apple (next_fd w + 1) w1 = Ret true w1 /\
     render_socket_is_seqpacket apple (next_fd w) w2 = Ret true w2 /\
     proxy_socket_is_seqpacket apple (next_fd w + 1) w2 = Ret true w2) /\
  (oracle w = Fails e :: o ->
   exists fds,
     proxy_socket_pair apple w
       = Ret (false, fds)
           (set_logs (logs w ++ ["failed to create socket pair"%string]) (set_oracle o w)) /\
     render_socket_pair apple w
       = Ret (false, fds)
           (set_logs (logs w ++ ["failed to create socket pair"%string]) (set_oracle o w))).
Proof.
  assert (Hne : forall n : Z, n <> n + 1) by (intros; lia).
  assert (Hne' : forall n : Z, n + 1 <> n) by (intros; lia).
  split.
  - intros E.
    unfold proxy_socket_pair, render_socket_pair, sys_socketpair, next_event,
      set_cloexec, sys_fcntl_getfd, sys_fcntl_setfd, proxy_log, render_log, log_msg.
    unfold_monad. destruct apple; cbv beta; rewrite E; simpl;
    repeat (first [ rewrite lookup_insert_eq | rewrite lookup_insert_ne by auto
                  | rewrite lookup_alter_eq | rewrite lookup_alter_ne by auto ]; simpl).
    all: do 2 eexists; (split; [reflexivity|]); (split; [reflexivity|]).
    all: unfold linked, wire_type, proxy_socket_is_seqpacket, render_socket_is_seqpacket,
           sys_getsockopt_type, socket_of; unfold_monad; simpl.
    all: repeat (first [ rewrite lookup_insert_eq | rewrite lookup_insert_ne by auto
                  | rewrite lookup_alter_eq | rewrite lookup_alter_ne by auto ]; simpl).
    all: rewrite ?Z.eqb_refl, ?orb_true_r; simpl.
    all: repeat match goal with
         | |- _ /\ _ => split
         | |- _ <> _ => auto
         | |- exists _ _ _, _ => do 3 eexists
         | |- forall _, _ => intros
         end; try reflexivity; try lia.
    all: repeat (first [ rewrite lookup_insert_eq | rewrite lookup_insert_ne by auto
                  | rewrite lookup_alter_eq | rewrite lookup_alter_ne by auto ]; simpl); try reflexivity.

  - intros E.
    unfold proxy_socket_pair, render_socket_pair, sys_socketpair, next_event,
      proxy_log, render_log, log_msg.
    unfold_monad. exists (0, 0). destruct apple; cbv beta; rewrite E; split; reflexivity.
Qed.

(** ** set_cloexec and the connection test *)

Lemma lor_lor_same (a c : Z) : Z.lor (Z.lor a c) c = Z.lor a c.
Proof. rewrite <- Z.lor_assoc, Z.lor_diag. reflexivity. Qed.

Lemma world_eq (w : world) :
  {| oracle := oracle w; files := files w; next_fd := next_fd w;
     closed := closed w; sends := sends w; logs := logs w |} = w.
Proof. destruct w; reflexivity. Qed.

Lemma set_cloexec_open (fd : Z) (f : file) (w : world) :
  files w !! fd = Some f -> 0 <= f_flags f ->
  set_cloexec fd w
    = Ret tt (put_file fd {| f_flags := Z.lor (f_flags f) FD_CLOEXEC; f_sock := f_sock f |} w).
Proof.
  intros E Hf. unfold set_cloexec, sys_fcntl_getfd, sys_fcntl_setfd. unfold_monad.
  rewrite E. destruct (Z.leb_spec 0 (f_flags f)); [|lia].
  unfold put_file. f_equal. f_equal.
  apply map_eq. intros i. destruct (decide (i = fd)) as [->|Hne].
  - rewrite lookup_alter_eq, lookup_insert_eq, E. reflexivity.
  - rewrite lookup_alter_ne, lookup_insert_ne by auto. reflexivity.
Qed.

Lemma set_cloexec_closed (fd : Z) (w : world) :
  files w !! fd = None -> set_cloexec fd w = Ret tt w.
Proof.
  intros E. unfold set_cloexec, sys_fcntl_getfd. unfold_monad. rewrite E. reflexivity.
Qed.

(** X12: [set_cloexec] on a descriptor that is not open does nothing and
    reports nothing.  On an open descriptor it leaves the descriptor marked
    close-on-exec, keeps every flag that was set and the socket behind the
    descriptor, touches no other descriptor and nothing else of the process,
    and a second call changes nothing more. *)
Theorem X12_set_cloexec_marks_descriptor (fd : Z) (w : world) :
  (files w !! fd = None -> set_cloexec fd w = Ret tt w) /\
  (forall f, files w !! fd = Some f -> 0 <= f_flags f ->
     exists w',
       set_cloexec fd w = Ret tt w' /\
       cloexec_marked w' fd = true /\
       (exists fl, files w' !! fd = Some {| f_flags := fl; f_sock := f_sock f |} /\
                   Z.land fl (f_flags f) = f_flags f) /\
       (forall fd', fd' <> fd -> files w' !! fd' = files w !! fd') /\
       oracle w' = oracle w /\ next_fd w' = next_fd w /\ closed w' = closed w /\
       sends w' = sends w /\ logs w' = logs w /\
       set_cloexec fd w' = Ret tt w').
Proof.
  split; [apply set_cloexec_closed|].
  intros f E Hf. eexists. split; [apply set_cloexec_open; eauto|].
  assert (L : files (put_file fd {| f_flags := Z.lor (f_flags f) FD_CLOEXEC;
                                    f_sock := f_sock f |} w) !! fd
              = Some {| f_flags := Z.lor (f_flags f) FD_CLOEXEC; f_sock := f_sock f |}).
  { unfold put_file. simpl. apply lookup_insert_eq. }
  split.
  { unfold cloexec_marked. rewrite L. simpl. rewrite land_lor_same.
    apply nonzero_test. apply fd_cloexec_nonzero. }
  split.
  { eexists. split; [exact L|]. rewrite Z.land_comm.
    apply Z.bits_inj'. intros n Hn. rewrite Z.land_spec, Z.lor_spec.
    destruct (Z.testbit (f_flags f) n), (Z.testbit FD_CLOEXEC n); reflexivity. }
  split.
  { intros fd' Hne. unfold put_file. simpl. apply lookup_insert_ne. auto. }
  repeat (split; [reflexivity|]).
  set (w' := put_file fd _ w) in *.
  unfold set_cloexec, sys_fcntl_getfd, sys_fcntl_setfd. unfold_monad.
  rewrite L. simpl. destruct (0 <=? Z.lor (f_flags f) FD_CLOEXEC); [|reflexivity].
  f_equal. rewrite lor_lor_same. subst w'. unfold put_file, set_files. simpl. f_equal.
  apply map_eq. intros i. destruct (decide (i = fd)) as [->|Hne].
  - rewrite lookup_alter_eq, lookup_insert_eq. reflexivity.
  - rewrite lookup_alter_ne by auto. reflexivity.
Qed.

Lemma is_connected_loop_retry t fuel fd w :
  is_connected_loop (S fuel) fd (set_oracle (Fails (transient_errno t) :: oracle w) w)
    = is_connected_loop fuel fd w.
Proof.
  simpl. unfold sys_poll, next_event. unfold_monad. simpl.
  pose proof (is_transient_errno t) as T.
  destruct (Z.eqb_spec (-1) 0); [lia|]. destruct (Z.ltb_spec (-1) 0); [|lia].
  rewrite T.
  change (set_oracle (oracle w) _) with (set_oracle (oracle w) w).
  rewrite set_oracle_same. reflexivity.
Qed.

Lemma is_connected_loop_delayed ts fuel fd w :
  is_connected_loop (length ts + fuel) fd (delayed ts w) = is_connected_loop fuel fd w.
Proof.
  revert w. induction ts as [|t ts IH]; intros w.
  - rewrite delayed_nil. reflexivity.
  - rewrite delayed_cons. simpl length. rewrite Nat.add_succ_l.
    rewrite is_connected_loop_retry. apply IH.
Qed.

Lemma length_oracle_delayed ts w :
  length (oracle (delayed ts w)) = (length ts + length (oracle w))%nat.
Proof. unfold delayed. simpl. rewrite length_app, length_map. reflexivity. Qed.

(** X13: [proxy_socket_is_connected] polls until poll(2) gives an answer
    other than EINTR or EAGAIN, however many such failures come first.  It
    then returns true when no descriptor is ready or when the one that is
    ready shows none of POLLERR, POLLHUP and POLLNVAL, returns false with
    the line "socket disconnected" in the log when it shows one of them, and
    returns false with the line "failed to poll socket" when poll(2) failed
    for good. *)
Theorem X13_is_connected_reports_poll (ps : proxy_socket) (ts : list transient) (w : world)
    (n revents e : Z) (anc : ancillary) (o : list event) :
  (oracle w = Returns n revents anc :: o -> 0 <= n ->
   proxy_socket_is_connected ps (delayed ts w) =
     if (n =? 0) || (Z.land revents (Z.lor POLLERR (Z.lor POLLHUP POLLNVAL)) =? 0)
     then Ret true (set_oracle o w)
     else Ret false (set_logs (logs w ++ ["socket disconnected"%string]) (set_oracle o w))) /\
  (oracle w = Fails e :: o -> is_transient e = false ->
   proxy_socket_is_connected ps (delayed ts w) =
     Ret false (set_logs (logs w ++ ["failed to poll socket"%string]) (set_oracle o w))).
Proof.
  unfold proxy_socket_is_connected, with_fuel. rewrite length_oracle_delayed.
  rewrite <- Nat.add_succ_r, is_connected_loop_delayed.
  split.
  - intros E Hn. simpl. unfold sys_poll, next_event. unfold_monad. rewrite E.
    destruct (Z.eqb_spec n 0); [reflexivity|]. destruct (Z.ltb_spec n 0); [lia|].
    simpl. destruct (Z.land revents _ =? 0); reflexivity.
  - intros E He. simpl. unfold sys_poll, next_event. unfold_monad. rewrite E.
    destruct (Z.eqb_spec (-1) 0); [lia|]. destruct (Z.ltb_spec (-1) 0); [|lia].
    rewrite He. reflexivity.
Qed.

End Properties.

(** * Concrete instances *)

(** C5, against the statement of the specification: in the stream-framing
    build, the build for the platform without a boundary-preserving socket
    type, the probe returns true for a SOCK_STREAM socket. *)
Lemma C5_counterexample :
  let K := darwin_consts in
  let w := pair_world (@SOCK_STREAM K) [] [] in
  option_map so_type (socket_of 3 w) = Some (@SOCK_STREAM K) /\
  @SOCK_STREAM K <> @SOCK_SEQPACKET K /\
  @proxy_socket_is_seqpacket K true 3 w = Ret true w /\
  @render_socket_is_seqpacket K true 3 w = Ret true w.
Proof. vm_compute. repeat split; intros E; discriminate E. Qed.

(** C4, against the statement of the specification: in the native build
    [proxy_socket_pair] succeeds and leaves out_fds[0], the descriptor that
    stays in the creating process, without the close-on-exec mark. *)
Lemma C4_counterexample :
  let K := linux_consts in
  match @proxy_socket_pair K false (empty_world [Returns 0 0 NoAnc]) with
  | Ret (ok, (a, b)) w' => ok = true /\ @cloexec_marked K w' a = false
  | _ => False
  end.
Proof. vm_compute. split; reflexivity. Qed.

Lemma C4_pair_cloexec_witness :
  let K := darwin_consts in
  let w := empty_world [Returns 0 0 NoAnc] in
  let w1 := final_world (@proxy_socket_pair K true w) in
  let w2 := final_world (@render_socket_pair K true w) in
  (@cloexec_marked K w1 4 = false /\ @cloexec_marked K w1 3 = true) /\
  (@cloexec_marked K w2 4 = true /\ @cloexec_marked K w2 3 = true).
Proof.
  intros K w w1 w2. split.
  - apply (proj1 (@C4_pair_cloexec K true w w1 3 4)).
    vm_compute. reflexivity.
  - apply (proj2 (@C4_pair_cloexec K true w w2 3 4)).
    vm_compute. reflexivity.
Defined.

(** A truncated datagram with two descriptors in the native build. *)
Example truncated_call_closes_both :
  let K := linux_consts in
  let w := pair_world (@SOCK_SEQPACKET K) [PING] [Returns 0 (@MSG_CTRUNC K) (Rights 2)] in
  let msg := @cleared_control K (data_msg 4) 1 in
  let zeros := repeat Byte.x00 4 in
  closed (final_world
            (@proxy_socket_recvmsg K false {| proxy_fd := 4 |} zeros msg None w)) = [5; 6] /\
  closed (final_world
            (@render_socket_recvmsg K false {| render_fd := 4 |} zeros msg None w)) = [5; 6] /\
  closed (final_world
            (@proxy_socket_receive_reply_internal K false {| proxy_fd := 4 |} (Some zeros) 4
               (Some [0]) 1 (Some 0) w)) = [5; 6] /\
  closed (final_world
            (@render_socket_receive_request_internal K false {| render_fd := 4 |} (Some zeros) 4
               None (Some [0]) 1 (Some 0) w)) = [5; 6].
Proof.
  intros K w msg zeros.
  epose proof (@truncated_call_closes K false {| proxy_fd := 4 |}
                 {| render_fd := 4 |} zeros msg None 4 1 (Some [0]) (Some 0) w _ _ _ _ _)
    as (T1 & T2 & T3 & T4).
  split; [|split; [|split]].
  - edestruct T1 as (w2 & E2 & Hc & _);
      [vm_compute; reflexivity | vm_compute; reflexivity
      | vm_compute; discriminate | reflexivity |].
    rewrite E2. simpl. rewrite Hc. vm_compute. reflexivity.
  - edestruct T2 as (w2 & E2 & Hc & _);
      [vm_compute; reflexivity | vm_compute; reflexivity
      | vm_compute; discriminate |].
    rewrite E2. simpl. rewrite Hc. vm_compute. reflexivity.
  - edestruct T3 as (w2 & E2 & Hc & _);
      [vm_compute; reflexivity | vm_compute; reflexivity
      | vm_compute; discriminate | discriminate
      | intros _; split; [discriminate | vm_compute; discriminate] |].
    rewrite E2. simpl. rewrite Hc. vm_compute. reflexivity.
  - edestruct T4 as (w2 & E2 & Hc & _);
      [vm_compute; reflexivity | vm_compute; reflexivity
      | vm_compute; discriminate | discriminate
      | intros _; split; [discriminate | vm_compute; discriminate] |].
    rewrite E2. simpl. rewrite Hc. vm_compute. reflexivity.
Defined.

(** C2, against the statement of the specification, on the server
    endpoint: in the native build a 4-byte datagram received into an 8-byte
    request buffer makes the underlying recvmsg report 4 bytes, not 8, and
    [render_socket_receive_request] returns true with out_size = 4. *)
Lemma C2_counterexample :
  let K := linux_consts in
  let w := pair_world (@SOCK_SEQPACKET K) [PING] [Returns 0 0 NoAnc] in
  let zeros := repeat Byte.x00 8 in
  match @sys_recvmsg K 4 zeros (data_msg 8) true w with
  | Ret (s, _, _, _) _ => s = 4
  | _ => False
  end /\
  match @render_socket_receive_request K false {| render_fd := 4 |} (Some zeros) 8 (Some 0) w with
  | Ret (ok, mem, out_size, _, _) _ => ok = true /\ out_size = Some 4
  | _ => False
  end.
Proof. vm_compute. repeat split; reflexivity. Qed.

Lemma C2_native_size_mismatch_witness :
  let K := linux_consts in
  let w := pair_world (@SOCK_SEQPACKET K) [PING] [Returns 0 0 (Rights 1)] in
  let w0 := pair_world (@SOCK_SEQPACKET K) [PING] [Returns 0 0 NoAnc] in
  let zeros := repeat Byte.x00 8 in
  closed (final_world
            (@proxy_socket_receive_reply_internal K false {| proxy_fd := 4 |} (Some zeros) 8
               (Some [0]) 1 (Some 0) w)) = [5] /\
  (exists mem w',
     @render_socket_receive_request K false {| render_fd := 4 |} (Some zeros) 8 (Some 0) w0
       = Ret (true, mem, Some 4, None, None) w' /\ take 4 mem = PING) /\
  closed (final_world
            (@render_socket_receive_data K false {| render_fd := 4 |} (Some zeros) 8 w)) = [].
Proof.
  intros K w w0 zeros. split; [|split].
  - epose proof (@C2_native_size_mismatch K {| proxy_fd := 4 |} {| render_fd := 4 |}
                   zeros 8 (Some [0]) 1 (Some 0) 0 w _ _ _ _ _) as [T _].
    edestruct T as (w2 & E2 & Hc & _);
      [vm_compute; reflexivity | vm_compute; reflexivity | vm_compute; discriminate
      | discriminate | vm_compute; discriminate
      | intros _; split; [discriminate | vm_compute; discriminate] |].
    rewrite E2. simpl. rewrite Hc. vm_compute. reflexivity.
  - epose proof (@C2_native_size_mismatch K {| proxy_fd := 4 |} {| render_fd := 4 |}
                   zeros 8 None 0 None 0 w0 _ _ _ _ _) as (_ & T & _).
    edestruct T as (E2 & _);
      [vm_compute; reflexivity | vm_compute; reflexivity | vm_compute; reflexivity
      | discriminate |].
    eexists _, _. split; [exact E2|]. vm_compute. reflexivity.
  - epose proof (@C2_native_size_mismatch K {| proxy_fd := 4 |} {| render_fd := 4 |}
                   zeros 8 None 0 None 0 w _ _ _ _ _) as (_ & _ & T).
    edestruct T as (w2 & E2 & Hc & _);
      [vm_compute; reflexivity | vm_compute; reflexivity | vm_compute; discriminate
      | discriminate |].
    rewrite E2. simpl. rewrite Hc. reflexivity.
Defined.

Lemma C10_only_fini_closes_the_socket_witness :
  let K := linux_consts in
  let w := pair_world (@SOCK_SEQPACKET K) [PING] [Returns 0 (@MSG_TRUNC K) (Rights 2)] in
  let ps := {| proxy_fd := 4 |} in
  @never_closes _ 4
    (@proxy_socket_receive_reply_internal K false ps (Some PING) 4 (Some [0; 0]) 2 (Some 0)) w /\
  closed (final_world (proxy_socket_fini ps w)) = [4].
Proof.
  intros K w ps.
  pose proof (@C10_only_fini_closes_the_socket K false ps {| render_fd := 3 |}
                (Some PING) 4 (Some [0; 0]) 2 None (Some 0) w) as T.
  destruct T as (_ & T2 & _ & _ & _ & _ & _ & _ & T9 & _); [reflexivity | reflexivity |].
  split; [exact T2 | exact T9].
Defined.


(** The same message in the stream-framing build on Darwin: the control
    buffer of CMSG_SPACE(4) = 16 bytes has room for one descriptor, the
    kernel delivers descriptor 5 and reports MSG_CTRUNC, and the receive
    returns false after closing it. *)
Example excess_descriptor_cut_by_the_kernel :
  let K := darwin_consts in
  let w := pair_world (@SOCK_STREAM K) [encode_header 4 2 ++ PING]
             [Returns 8 0 NoAnc; Returns 4 0 (Rights 2)] in
  let zeros := repeat Byte.x00 4 in
  match @render_socket_receive_request_with_fds K true {| render_fd := 4 |}
          (Some zeros) 4 (Some 0) (Some [0]) 1 (Some 0) w with
  | Ret (ok, mem, out_size, fds, out_fd_count) w' =>
      ok = false /\ fds = Some [0] /\ out_fd_count = Some 0 /\
      handed_out w w' = [5] /\ closed w' = [5] /\ files w' !! 5 = None
  | _ => False
  end.
Proof. vm_compute. repeat split; reflexivity. Qed.



(** C6, evaluated where it fails.  In the stream-framing build the first
    chunk of a 4-byte payload arrives with descriptor 5, which the receive
    copies to the caller's array, and the second chunk arrives with
    ancillary data that the receive has no control buffer for any more, so
    the kernel reports MSG_CTRUNC: either endpoint returns false, and
    descriptor 5 is open and was never closed.  In the native build a
    datagram without payload that carries three descriptors, two of which
    fit the control buffer, is cut by the kernel; the receive takes the
    return value 0 of recvmsg for the end of the stream and returns false
    before it looks at the flags, and descriptors 5 and 6 stay open. *)
Lemma C6_received_descriptors_left_open :
  let K := darwin_consts in
  let w := pair_world (@SOCK_STREAM K) [encode_header 4 1 ++ PING]
             [Returns 8 0 NoAnc; Returns 2 0 (Rights 1); Returns 2 0 (Rights 1)] in
  let L := linux_consts in
  let w0 := pair_world (@SOCK_SEQPACKET L) [[]] [Returns 0 0 (Rights 3)] in
  let zeros := repeat Byte.x00 4 in
  match @render_socket_receive_request_with_fds K true {| render_fd := 4 |}
          (Some zeros) 4 (Some 0) (Some [0]) 1 (Some 0) w with
  | Ret (ok, mem, out_size, fds, out_fd_count) w' =>
      ok = false /\ handed_out w w' = [5] /\ closed w' = [] /\
      @cloexec_marked K w' 5 = true
  | _ => False
  end /\
  match @proxy_socket_receive_reply_with_fds K true {| proxy_fd := 4 |}
          (Some zeros) 4 (Some [0]) 1 (Some 0) w with
  | Ret (ok, mem, fds, out_fd_count) w' =>
      ok = false /\ handed_out w w' = [5] /\ closed w' = [] /\
      @cloexec_marked K w' 5 = true
  | _ => False
  end /\
  match @sys_recvmsg L 4 zeros (@cleared_control L (data_msg 4) 1) true w0 with
  | Ret (s, errno, msg', mem) w' =>
      s = 0 /\ Z.land (msg_flags msg') (@MSG_CTRUNC L) = @MSG_CTRUNC L /\
      handed_out w0 w' = [5; 6]
  | _ => False
  end /\
  match @proxy_socket_receive_reply_with_fds L false {| proxy_fd := 4 |}
          (Some zeros) 4 (Some [0]) 1 (Some 0) w0 with
  | Ret (ok, mem, fds, out_fd_count) w' =>
      ok = false /\ handed_out w0 w' = [5; 6] /\ closed w' = [] /\
      files w' !! 5 = Some (@new_file L true) /\ files w' !! 6 = Some (@new_file L true)
  | _ => False
  end /\
  match @render_socket_receive_request_with_fds L false {| render_fd := 4 |}
          (Some zeros) 4 (Some 0) (Some [0]) 1 (Some 0) w0 with
  | Ret (ok, mem, out_size, fds, out_fd_count) w' =>
      ok = false /\ handed_out w0 w' = [5; 6] /\ closed w' = [] /\
      files w' !! 5 = Some (@new_file L true) /\ files w' !! 6 = Some (@new_file L true)
  | _ => False
  end.
Proof. vm_compute. repeat split; reflexivity. Qed.

(** A 64-byte payload with 3 descriptors that the kernel takes in three
    pieces, the first attempt being interrupted: four sendmsg calls, the block
    on the first two. *)
Example split_send_attaches_once :
  let K := darwin_consts in
  let w := pair_world (@SOCK_STREAM K) []
             [Returns 8 0 NoAnc; Fails (@EINTR K); Returns 20 0 NoAnc;
              Returns 20 0 NoAnc; Returns 64 0 NoAnc] in
  match @render_socket_send_reply_with_fds K true {| render_fd := 3 |}
          (Some (repeat Byte.x2a 64)) 64 (Some [7; 8; 9]) 3 w with
  | Ret ok w' =>
      ok = true /\
      map (fun c => (is_null (sc_control c), sc_len c, sc_ret c)) (sends w')
        = [(false, 64, -1); (false, 64, 20); (true, 44, 20); (true, 24, 24)]
  | _ => False
  end.
Proof. vm_compute. split; reflexivity. Qed.

(** The send of the 64 bytes at the level of [render_socket_sendmsg]: of the
    calls that the kernel accepted the first carries the three descriptors,
    the two others carry none, and they moved 20 + 20 + 24 bytes. *)
Lemma C7_descriptors_attached_once_witness :
  let K := darwin_consts in
  let w := pair_world (@SOCK_STREAM K) []
             [Fails (@EINTR K); Returns 20 0 NoAnc; Returns 20 0 NoAnc; Returns 64 0 NoAnc] in
  let data := repeat Byte.x2a 64 in
  let msg := @rights_msg K (data_msg 64) [7; 8; 9] 3 in
  exists c cs w',
    @render_socket_sendmsg K true {| render_fd := 3 |} data msg w = Ret true w' /\
    accepted_calls (sends w') = c :: cs /\
    option_map cmsg_data (sc_control c) = Some [7; 8; 9] /\
    map sc_control cs = [None; None] /\
    bytes_moved (c :: cs) = 64.
Proof.
  intros K w data msg.
  destruct (@C7_descriptors_attached_once K {| proxy_fd := 3 |} {| render_fd := 3 |}
              data msg w) as [_ (calls & E & _ & _ & B)].
  eassert (E' : @render_socket_sendmsg K true {| render_fd := 3 |} data msg w
                = Ret true _) by (vm_compute; reflexivity).
  destruct (B _ E' ltac:(reflexivity)) as (c & cs & H1 & H2 & H3 & H4).
  rewrite E' in E. cbn [final_world] in E. change (sends w) with (@nil send_call) in E.
  rewrite app_nil_l in E. rewrite <- E in H1.
  exists c, cs. eexists. split; [exact E'|]. split; [exact H1|].
  vm_compute in H1. inversion H1; subst c cs.
  split; [reflexivity|]. split; [reflexivity|]. exact H4.
Defined.

Lemma C8_transient_failures_retried_witness :
  let K := linux_consts in
  let ts := [Interrupted; WouldBlock; Interrupted] in
  let w := pair_world (@SOCK_STREAM K) [PING] [Returns 8 0 NoAnc] in
  (* the peer of 4 has closed its end and nothing is queued *)
  let gone := final_world (sys_close 3 (pair_world (@SOCK_STREAM K) [] [Returns 8 0 NoAnc])) in
  let msg := data_msg 4 in
  @read_all_loop K proxy_log 5 4 [] 4 (@delayed K ts w)
    = @read_all_loop K proxy_log 2 4 [] 4 w /\
  @write_all_loop K proxy_log 5 3 PING 4 (@delayed K ts w)
    = @write_all_loop K proxy_log 2 3 PING 4 w /\
  @sendmsg_stream_loop K proxy_log 5 3 PING msg 4 0 false (@delayed K ts w)
    = @sendmsg_stream_loop K proxy_log 2 3 PING msg 4 0 false
        (set_sends (repeat (failed_send 3 msg) 3) w) /\
  @read_all_loop K proxy_log 1 4 [] 4 gone = Ret (false, []) (set_oracle [] gone) /\
  @proxy_recvmsg_loop K 1 false {| proxy_fd := 4 |} PING msg None gone
    = Ret (false, msg, PING, None) (set_oracle [] gone) /\
  @render_recvmsg_loop K 1 false {| render_fd := 4 |} PING msg None gone
    = Ret (false, msg, PING, None) (set_oracle [] gone).
Proof.
  intros K ts w gone msg.
  pose proof (@C8_transient_failures_retried K proxy_log ts 2 false {| proxy_fd := 4 |}
                {| render_fd := 4 |} 4 [] PING 4 4 0 false msg None w w 0 [] msg [])
    as (T1 & _).
  pose proof (@C8_transient_failures_retried K proxy_log ts 2 false {| proxy_fd := 4 |}
                {| render_fd := 4 |} 3 PING PING 4 4 0 false msg None w w 0 [] msg [])
    as (_ & T2 & _ & _ & T5 & _).
  pose proof (@C8_transient_failures_retried K proxy_log ts 0 false {| proxy_fd := 4 |}
                {| render_fd := 4 |} 4 [] PING 4 4 0 false msg None gone
                (set_oracle [] gone) 0 [] msg PING)
    as (_ & _ & _ & _ & _ & _ & T7 & T8 & T9).
  split; [apply T1; lia|].
  split; [apply T2; lia|].
  split; [apply T5; lia|].
  split; [apply T7; [lia | vm_compute; reflexivity]|].
  split; [apply T8; vm_compute; reflexivity|].
  apply T9; vm_compute; reflexivity.
Defined.

(** C1, against the statement of the specification, in the reply
    direction: a 4-byte reply, which fits the 8-byte buffer the proxy
    receives into, is sent successfully, and the receive on the peer returns
    false, in the native build and in the stream-framing build alike. *)
Lemma C1_counterexample :
  (let K := linux_consts in
   let w := pair_world (@SOCK_SEQPACKET K) [] (repeat (Returns 8 0 NoAnc) 4) in
   match @render_socket_send_reply K false {| render_fd := 3 |} (Some PING) 4 w with
   | Ret true w1 =>
       match @proxy_socket_receive_reply K false {| proxy_fd := 4 |}
               (Some (repeat Byte.x00 8)) 8 w1 with
       | Ret (ok, _, _, _) _ => ok = false
       | _ => False
       end
   | _ => False
   end) /\
  (let K := darwin_consts in
   let w := pair_world (@SOCK_STREAM K) [] (repeat (Returns 8 0 NoAnc) 4) in
   match @render_socket_send_reply K true {| render_fd := 3 |} (Some PING) 4 w with
   | Ret true w1 =>
       match @proxy_socket_receive_reply K true {| proxy_fd := 4 |}
               (Some (repeat Byte.x00 8)) 8 w1 with
       | Ret (ok, _, _, _) _ => ok = false
       | _ => False
       end
   | _ => False
   end).
Proof. vm_compute. split; reflexivity. Qed.

Lemma C1_send_then_receive_witness :
  let K := darwin_consts in
  let w := pair_world (@SOCK_STREAM K) []
             (Fails (@EINTR K) :: Returns 3 0 NoAnc :: repeat (Returns 1 0 NoAnc) 23) in
  let buf := repeat Byte.x00 6 in
  (exists w1 w2 mem,
     @proxy_socket_send_request K true {| proxy_fd := 3 |} (Some PING) 4 w = Ret true w1 /\
     @render_socket_receive_request K true {| render_fd := 4 |} (Some buf) 6 (Some 0) w1
       = Ret (true, mem, Some 4, None, None) w2 /\
     take 4 mem = PING /\ drop 4 mem = drop 4 buf) /\
  (exists w1 w2 mem,
     @render_socket_send_reply K true {| render_fd := 3 |} (Some PING) 4 w = Ret true w1 /\
     @proxy_socket_receive_reply K true {| proxy_fd := 4 |} (Some buf) 4 w1
       = Ret (true, mem, None, None) w2 /\
     take 4 mem = PING /\ drop 4 mem = drop 4 buf).
Proof.
  intros K w buf.
  apply (@C1_send_then_receive K true 3 4 PING buf w).
  - split; [lia|]. exists 0, 0, []. split; reflexivity.
  - split; [repeat constructor | vm_compute; lia].
  - discriminate.
  - intros _. vm_compute. reflexivity.
  - vm_compute. lia.
Defined.

(** Scenario A of the specification in the native build: the proxy makes a
    pair, sends PING on one end, and the server receives
    {size = 4, fds = 0, payload = PING} on the other. *)
Example ping_native :
  let K := linux_consts in
  let w := empty_world (repeat (Returns 0 0 NoAnc) 3) in
  match (@proxy_socket_pair K false ≫= fun '(_, (a, b)) =>
         @proxy_socket_send_request K false {| proxy_fd := a |} (Some PING) 4 ≫= fun _ =>
         @render_socket_receive_request_with_fds K false {| render_fd := b |}
           (Some (repeat Byte.x00 4)) 4 (Some 0) None 0 (Some 7)) w with
  | Ret (ok, mem, out_size, _, out_fd_count) w' =>
      ok = true /\ mem = PING /\ out_size = Some 4 /\ out_fd_count = Some 0 /\
      oracle w' = [] /\ closed w' = []
  | _ => False
  end.
Proof. vm_compute. repeat split; reflexivity. Qed.

(** Why the round trip of the stream-framing build stops short of 2^32
    bytes: the header of a payload of exactly 2^32 bytes declares a size
    of 0. *)
Example header_wraps_at_4GiB :
  header_size (encode_header (2 ^ 32 mod 2 ^ 32) 0) = 0.
Proof. vm_compute. reflexivity. Qed.

(** ** Instances of the further properties *)

(** X1 on a stream-framing connection that carries PING: after an
    interrupted call PONG is queued behind it, and a receive takes PING. *)
Lemma X1_transport_is_a_queue_witness :
  let K := darwin_consts in
  let PONG := [Byte.x50; Byte.x4f; Byte.x4e; Byte.x47] in
  let buf := repeat Byte.x00 6 in
  let w := pair_world (@SOCK_STREAM K) [framed true PING]
             (Fails (@EINTR K) :: repeat (Returns 3 0 NoAnc) 12) in
  (exists w',
     @proxy_socket_send_request K true {| proxy_fd := 3 |} (Some PONG) 4 w = Ret true w' /\
     @carries K true 3 4 [PING; PONG] w') /\
  (exists w' mem,
     @render_socket_receive_request K true {| render_fd := 4 |} (Some buf) 6 (Some 0) w
       = Ret (true, mem, Some 4, None, None) w' /\
     take 4 mem = PING /\ drop 4 mem = drop 4 buf /\ @carries K true 3 4 [] w').
Proof.
  intros K PONG buf w.
  assert (C : @carries K true 3 4 [PING] w).
  { exists [framed true PING]. split; [|reflexivity].
    split; [lia|]. exists 0, 0, []. split; reflexivity. }
  assert (Hc : @calm K (0 + 8 + 4) w) by (split; [repeat constructor | vm_compute; lia]).
  split.
  - destruct (@X1_transport_is_a_queue K true 3 4 [PING] PONG buf 0 0%nat w
                ltac:(discriminate) Hc) as [S _].
    destruct (S C) as [(w' & E & C' & _) _]. exists w'. split; [exact E | exact C'].
  - destruct (@X1_transport_is_a_queue K true 3 4 [] PING buf 0 0%nat w
                ltac:(discriminate) Hc) as [_ R].
    destruct (R C ltac:(intros _; vm_compute; reflexivity) ltac:(vm_compute; lia))
      as [(w' & mem & E & T & D & C' & _) _].
    exists w', mem. split; [exact E|]. split; [exact T|]. split; [exact D | exact C'].
Defined.

(** X2 in the native build: a 4-byte message is refused by a receive with
    room for 2 bytes and by a receive that expects 2 bytes. *)
Lemma X2_wrong_size_is_refused_witness :
  let K := linux_consts in
  let buf := repeat Byte.x00 6 in
  let w := pair_world (@SOCK_SEQPACKET K) [PING] (repeat (Returns 0 0 NoAnc) 8) in
  (exists w' mem,
     @render_socket_receive_request K false {| render_fd := 4 |} (Some buf) 2 (Some 0) w
       = Ret (false, mem, Some 0, None, None) w') /\
  (exists w' mem,
     @proxy_socket_receive_reply K false {| proxy_fd := 4 |} (Some buf) 2 w
       = Ret (false, mem, None, None) w').
Proof.
  intros K buf w.
  assert (C : @carries K false 3 4 [PING] w).
  { exists [PING]. split; [|reflexivity].
    split; [lia|]. exists 0, 0, []. split; reflexivity. }
  assert (Hc : @calm K 8 w) by (split; [repeat constructor | vm_compute; lia]).
  destruct (@X2_wrong_size_is_refused K false 3 4 [] PING buf 2 0 w C Hc
              ltac:(discriminate) ltac:(discriminate)
              ltac:(intros _; vm_compute; discriminate) ltac:(lia)) as [R P].
  split.
  - destruct (R ltac:(vm_compute; reflexivity)) as (w' & mem & E & _).
    exists w', mem. exact E.
  - destruct (P ltac:(vm_compute; discriminate)) as (w' & mem & E & _).
    exists w', mem. exact E.
Defined.

(** X3 in the native build: a 4-byte message received into a 6-byte buffer
    with a maximum size of 5 leaves the sixth byte alone. *)
Lemma X3_receive_stays_within_buffer_witness :
  let K := linux_consts in
  let buf := repeat Byte.x00 6 in
  let w := pair_world (@SOCK_SEQPACKET K) [PING] [Returns 0 0 NoAnc] in
  exists ok mem received fds count w',
    @render_socket_receive_request_internal K false {| render_fd := 4 |} (Some buf) 5
        (Some 0) None 0 None w
      = Ret (ok, mem, received, fds, count) w' /\
    written_below 5 buf mem.
Proof.
  intros K buf w.
  eassert (E : @render_socket_receive_request_internal K false {| render_fd := 4 |}
                 (Some buf) 5 (Some 0) None 0 None w = Ret (_, _, _, _, _) _)
    by (vm_compute; reflexivity).
  do 6 eexists. split; [exact E|].
  destruct (@X3_receive_stays_within_buffer K false {| proxy_fd := 4 |} {| render_fd := 4 |}
              buf 5 None 0 (Some 0) None w
              ltac:(vm_compute; split; [reflexivity | discriminate]))
    as (_ & R & _).
  exact (proj1 (R _ _ _ _ _ _ E)).
Defined.

(** X4 in the native build: one descriptor arrives with the message and is
    handed to the caller. *)
Lemma X4_receive_hands_over_descriptors_witness :
  let K := linux_consts in
  let buf := repeat Byte.x00 4 in
  let w := pair_world (@SOCK_SEQPACKET K) [PING] [Returns 0 0 (Rights 1)] in
  exists mem received fds count w',
    @render_socket_receive_request_with_fds K false {| render_fd := 4 |} (Some buf) 4
        (Some 0) (Some [0; 0]) 2 (Some 0) w
      = Ret (true, mem, received, fds, count) w' /\
    fds = memcpy_fds (Some [0; 0]) [5] 1 /\ count = Some 1.
Proof.
  intros K buf w.
  eassert (E : @render_socket_receive_request_with_fds K false {| render_fd := 4 |}
                 (Some buf) 4 (Some 0) (Some [0; 0]) 2 (Some 0) w = Ret (true, _, _, _, _) _)
    by (vm_compute; reflexivity).
  do 5 eexists. split; [exact E|].
  destruct (@X4_receive_hands_over_descriptors K false {| proxy_fd := 4 |}
              {| render_fd := 4 |} (Some buf) 4 (Some 0) (Some [0; 0]) 2 (Some 0) w
              ltac:(lia)) as [_ R].
  destruct (R _ _ _ _ _ E) as (F & C & _). split; [exact F | exact C].
Defined.

(** X5 in the stream-framing build: the descriptor that arrives with the
    payload is marked close-on-exec. *)
Lemma X5_received_descriptors_close_on_exec_witness :
  let K := darwin_consts in
  let buf := repeat Byte.x00 4 in
  let w := pair_world (@SOCK_STREAM K) [encode_header 4 1 ++ PING]
             [Returns 8 0 NoAnc; Returns 4 0 (Rights 1)] in
  exists mem fds count w',
    @proxy_socket_receive_reply_internal K true {| proxy_fd := 4 |} (Some buf) 4
        (Some [0]) 1 (Some 0) w
      = Ret (true, mem, fds, count) w' /\
    handed_out w w' = [5] /\
    Forall (fun fd => @cloexec_marked K w' fd = true) (handed_out w w').
Proof.
  intros K buf w.
  eassert (E : @proxy_socket_receive_reply_internal K true {| proxy_fd := 4 |}
                 (Some buf) 4 (Some [0]) 1 (Some 0) w = Ret (true, _, _, _) _)
    by (vm_compute; reflexivity).
  do 4 eexists. split; [exact E|]. split; [vm_compute; reflexivity|].
  destruct (@X5_received_descriptors_close_on_exec K true {| proxy_fd := 4 |}
              {| render_fd := 4 |} (Some buf) buf 4 (data_msg 4) None (Some [0]) 1 (Some 0) w)
    as (_ & _ & R & _).
  exact (R _ _ _ _ E).
Defined.

(** X6 in the stream-framing build, with short writes and an interrupted
    call. *)
Lemma X6_send_success_means_queued_witness :
  let K := darwin_consts in
  let PONG := [Byte.x50; Byte.x4f; Byte.x4e; Byte.x47] in
  let w := pair_world (@SOCK_STREAM K) [framed true PING]
             (Returns 5 0 NoAnc :: Fails (@EINTR K) :: repeat (Returns 3 0 NoAnc) 3) in
  exists w',
    @render_socket_send_reply K true {| render_fd := 3 |} (Some PONG) 4 w = Ret true w' /\
    @carries K true 3 4 [PING; PONG] w'.
Proof.
  intros K PONG w.
  eassert (E : @render_socket_send_reply K true {| render_fd := 3 |} (Some PONG) 4 w
               = Ret true _) by (vm_compute; reflexivity).
  eexists. split; [exact E|].
  assert (C : @carries K true 3 4 [PING] w).
  { exists [framed true PING]. split; [|reflexivity].
    split; [lia|]. exists 0, 0, []. split; reflexivity. }
  exact (proj2 (@X6_send_success_means_queued K true 3 4 [PING] PONG w C) _ E).
Defined.

(** X7 in the stream-framing build: two framed messages lie in the byte
    stream, and a receive with room for 6 bytes takes the first. *)
Lemma X7_receive_success_means_whole_message_witness :
  let K := darwin_consts in
  let PONG := [Byte.x50; Byte.x4f; Byte.x4e; Byte.x47] in
  let buf := repeat Byte.x00 6 in
  let w := pair_world (@SOCK_STREAM K) [framed true PING ++ framed true PONG]
             (Returns 5 0 NoAnc :: Fails (@EINTR K) :: repeat (Returns 3 0 NoAnc) 3) in
  exists mem received fds count w',
    @render_socket_receive_request_internal K true {| render_fd := 4 |} (Some buf) 6
        (Some 0) None 0 None w
      = Ret (true, mem, received, fds, count) w' /\
    received = Some 4 /\ take 4 mem = PING /\ drop 4 mem = drop 4 buf /\
    @carries K true 3 4 [PONG] w'.
Proof.
  intros K PONG buf w.
  eassert (E : @render_socket_receive_request_internal K true {| render_fd := 4 |}
                 (Some buf) 6 (Some 0) None 0 None w = Ret (true, _, _, _, _) _)
    by (vm_compute; reflexivity).
  do 5 eexists. split; [exact E|].
  assert (C : @carries K true 3 4 [PING; PONG] w).
  { exists [framed true PING ++ framed true PONG]. split.
    - split; [lia|]. exists 0, 0, []. split; reflexivity.
    - reflexivity. }
  destruct (@X7_receive_success_means_whole_message K true 3 4 [PONG] PING buf 6 (Some 0)
              None 0 None w C ltac:(vm_compute; reflexivity) ltac:(vm_compute; reflexivity)
              ltac:(intros _; vm_compute; reflexivity)
              ltac:(vm_compute; split; discriminate)) as (_ & R & _).
  exact (R _ _ _ _ _ E).
Defined.

(** X8 in the native build: the first call fails with EBADF. *)
Lemma X8_hard_error_not_retried_witness :
  let K := linux_consts in
  let buf := repeat Byte.x00 4 in
  let o := [Returns 0 0 NoAnc] in
  let w := pair_world (@SOCK_SEQPACKET K) [PING] (Fails (@EBADF K) :: o) in
  (exists w', @proxy_socket_send_request_internal K false {| proxy_fd := 3 |} (Some buf) 4
                  None 0 w = Ret false w' /\ failed_at_once o w w') /\
  (exists w', @render_socket_receive_request_internal K false {| render_fd := 4 |}
                  (Some buf) 4 (Some 0) None 0 None w
                = Ret (false, buf, Some 0, None, None) w' /\ failed_at_once o w w').
Proof.
  intros K buf o w.
  destruct (@X8_hard_error_not_retried K false {| proxy_fd := 3 |} {| render_fd := 4 |}
              buf 4 None 0 (Some 0) None (@EBADF K) o w eq_refl
              ltac:(vm_compute; reflexivity) ltac:(discriminate) ltac:(lia)
              ltac:(intros N; exfalso; apply N; reflexivity)) as (S & _ & _ & R).
  split; [exact S | exact R].
Defined.


(** X10 in the native build: a send of one descriptor without an array. *)
Lemma X10_send_descriptor_count_checked_witness :
  let K := linux_consts in
  let w := pair_world (@SOCK_SEQPACKET K) [] [Returns 0 0 NoAnc] in
  @proxy_socket_send_request_with_fds K false {| proxy_fd := 3 |} (Some PING) 4 None 1 w
    = Abort w /\
  @render_socket_send_reply_with_fds K false {| render_fd := 3 |} (Some PING) 4 None 1 w
    = Abort w.
Proof.
  intros K w.
  exact (proj1 (@X10_send_descriptor_count_checked K false {| proxy_fd := 3 |}
                  {| render_fd := 3 |} (Some PING) 4 None 1 w ltac:(discriminate)
                  (or_introl eq_refl)) eq_refl).
Defined.

(** X11 in the stream-framing build, in a process without sockets. *)
Lemma X11_pair_is_linked_and_probed_witness :
  let K := darwin_consts in
  let w := empty_world [Returns 0 0 NoAnc] in
  exists w1,
    @proxy_socket_pair K true w = Ret (true, (3, 4)) w1 /\
    linked (@SOCK_STREAM K) 3 4 [] w1 /\ linked (@SOCK_STREAM K) 4 3 [] w1 /\
    @proxy_socket_is_seqpacket K true 3 w1 = Ret true w1 /\
    @render_socket_is_seqpacket K true 4 w1 = Ret true w1.
Proof.
  intros K w.
  destruct (proj1 (@X11_pair_is_linked_and_probed K true w 0 0 0 NoAnc []) eq_refl)
    as (w1 & w2 & P & _ & L1 & L2 & _ & _ & _ & _ & _ & Q1 & Q2 & _).
  exists w1. split; [exact P|]. split; [exact L1|]. split; [exact L2|].
  split; [exact Q1 | exact Q2].
Defined.

(** X12 on an open descriptor without flags. *)
Lemma X12_set_cloexec_marks_descriptor_witness :
  let K := linux_consts in
  let w := pair_world (@SOCK_SEQPACKET K) [] [] in
  exists w',
    @set_cloexec K 3 w = Ret tt w' /\ @cloexec_marked K w' 3 = true /\
    files w' !! 4 = files w !! 4 /\ @set_cloexec K 3 w' = Ret tt w'.
Proof.
  intros K w.
  destruct (proj2 (@X12_set_cloexec_marks_descriptor K 3 w) _ eq_refl ltac:(simpl; lia))
    as (w' & E & M & _ & O & _ & _ & _ & _ & _ & I).
  exists w'. split; [exact E|]. split; [exact M|]. split; [apply O; lia | exact I].
Defined.

(** X13: after two transient failures poll reports a hangup. *)
Lemma X13_is_connected_reports_poll_witness :
  let K := linux_consts in
  let w := pair_world (@SOCK_SEQPACKET K) [] [Returns 1 (@POLLHUP K) NoAnc] in
  @proxy_socket_is_connected K {| proxy_fd := 3 |}
      (@delayed K [Interrupted; WouldBlock] w)
    = Ret false (set_logs ["socket disconnected"%string] (set_oracle [] w)).
Proof.
  intros K w.
  exact (proj1 (@X13_is_connected_reports_poll K {| proxy_fd := 3 |}
                  [Interrupted; WouldBlock] w 1 (@POLLHUP K) 0 NoAnc []) eq_refl
           ltac:(lia)).
Defined.
